(** * Inversion and breakpoint distances between gene orders

    A shallow embedding of [ext/libd] (structs.h, invdist.cpp, distances.cpp)
    and the properties of its distance computations.

    The first part is the program: every function of the three files, in
    an error monad over explicit arrays, loop by loop and under the names
    it has in the source.  The parts after it follow the run of
    [_inversions]: the validation of the input, the extended permutation,
    the grey edges and the cycles of the breakpoint graph, its connected
    components, the hurdles and the fortress, and last the distance
    itself. *)

From stdpp Require Import base list sorting finite.
From Stdlib Require Import ZArith Lia.

Local Open Scope Z_scope.

(** ** Results of memory-unsafe code

    The C++ code reads and writes raw arrays.  An access outside the
    allocated block, a read of a cell that was never written, and a loop
    that is still running when its fuel is spent are explicit failures. *)

Inductive error := OutOfBounds | Uninitialised | OutOfFuel.

Inductive result (A : Type) : Type :=
| Ok (a : A)
| Err (e : error).
Arguments Ok {A} a.
Arguments Err {A} e.

Definition bind {A B} (m : result A) (k : A -> result B) : result B :=
  match m with
  | Ok a => k a
  | Err e => Err e
  end.

Notation "x <- m ;; k" := (bind m (fun x => k))
  (at level 20, m at level 99, k at level 200, only parsing).
Notation "' p <- m ;; k" := (bind m (fun x => let 'p := x in k))
  (at level 20, p pattern, m at level 99, k at level 200, only parsing).

(** ** Loops *)

(** [for (i = lo; i < hi; i += step)] runs [trip_count lo hi step] times. *)
Definition trip_count (lo hi step : Z) : nat :=
  Z.to_nat ((hi - lo + step - 1) / step).

Fixpoint for_loop {St} (n : nat) (i step : Z)
    (body : Z -> St -> result St) (s : St) : result St :=
  match n with
  | O => Ok s
  | S n' => s' <- body i s ;; for_loop n' (i + step) step body s'
  end.

Definition for_range {St} (lo hi step : Z) (body : Z -> St -> result St) (s : St)
    : result St :=
  for_loop (trip_count lo hi step) lo step body s.

(** A loop whose body may [return] from the enclosing function: the body
    yields [inl s] to go on with state [s] and [inr r] to return [r]. *)
Fixpoint for_ret {St R} (n : nat) (i step : Z)
    (body : Z -> St -> result (St + R)) (s : St) : result (St + R) :=
  match n with
  | O => Ok (inl s)
  | S n' =>
      r <- body i s ;;
      match r with
      | inl s' => for_ret n' (i + step) step body s'
      | inr v => Ok (inr v)
      end
  end.

Fixpoint while_loop {St} (fuel : nat) (cond : St -> result bool)
    (body : St -> result St) (s : St) : result St :=
  match fuel with
  | O => Err OutOfFuel
  | S f =>
      c <- cond s ;;
      if c then s' <- body s ;; while_loop f cond body s' else Ok s
  end.

Fixpoint do_while {St} (fuel : nat) (body : St -> result St)
    (cond : St -> result bool) (s : St) : result St :=
  match fuel with
  | O => Err OutOfFuel
  | S f =>
      s' <- body s ;;
      c <- cond s' ;;
      if c then do_while f body cond s' else Ok s'
  end.

(** ** structs.h *)

Definition ERR_CONTENT : Z := -1.
Definition ERR_DUPLICATES : Z := -2.
Definition ERR_CIRCULAR : Z := -3.
Definition ERR_MULTICHR : Z := -4.
Definition ERR_NOTIMPL : Z := -5.

Definition HURDLE : Z := 1.
Definition GREATHURDLE : Z := Z.shiftl 1 1.
Definition SUPERHURDLE : Z := Z.shiftl 1 2.

(** [intArray] is [short]: a value stored into one is reduced to 16 bits. *)
Definition is_short (z : Z) : Prop := -32768 <= z <= 32767.
Definition to_short (z : Z) : Z := (z + 32768) mod 65536 - 32768.

Record Genome := mkGenome {
  pi : list Z;        (* the block [pi] points to *)
  circular : bool;
  len : Z;
}.

(** An [int] array obtained from [new int[n]]: no cell holds a value before
    it is written. *)
Abbreviation arr := (list (option Z)).

Definition new_arr (n : Z) : arr := replicate (Z.to_nat n) None.

Definition rd (a : arr) (i : Z) : result Z :=
  if i <? 0 then Err OutOfBounds
  else match a !! Z.to_nat i with
       | Some (Some v) => Ok v
       | Some None => Err Uninitialised
       | None => Err OutOfBounds
       end.

Definition upd (a : arr) (i v : Z) : arr := <[Z.to_nat i := Some v]> a.

Definition wr (a : arr) (i v : Z) : result arr :=
  if (0 <=? i) && (i <? Z.of_nat (length a)) then Ok (upd a i v)
  else Err OutOfBounds.

(** Input data (gene arrays, arrays of genomes, vectors) is initialised. *)
Definition at_ {A} (l : list A) (i : Z) : result A :=
  if i <? 0 then Err OutOfBounds
  else match l !! Z.to_nat i with
       | Some v => Ok v
       | None => Err OutOfBounds
       end.

Record component_t := mkComponent {
  c_index : option Z;
  c_oriented : option Z;
  c_blocks : option Z;
  c_hurdle : option Z;
  c_left : option Z;
  c_right : option Z;
}.

Inductive cfield := F_index | F_oriented | F_blocks | F_hurdle | F_left | F_right.

#[global] Instance cfield_eq_dec : EqDecision cfield.
Proof. solve_decision. Defined.

Definition get_field (f : cfield) (c : component_t) : option Z :=
  match f with
  | F_index => c_index c
  | F_oriented => c_oriented c
  | F_blocks => c_blocks c
  | F_hurdle => c_hurdle c
  | F_left => c_left c
  | F_right => c_right c
  end.

Definition set_field (f : cfield) (v : Z) (c : component_t) : component_t :=
  match f with
  | F_index => mkComponent (Some v) (c_oriented c) (c_blocks c) (c_hurdle c) (c_left c) (c_right c)
  | F_oriented => mkComponent (c_index c) (Some v) (c_blocks c) (c_hurdle c) (c_left c) (c_right c)
  | F_blocks => mkComponent (c_index c) (c_oriented c) (Some v) (c_hurdle c) (c_left c) (c_right c)
  | F_hurdle => mkComponent (c_index c) (c_oriented c) (c_blocks c) (Some v) (c_left c) (c_right c)
  | F_left => mkComponent (c_index c) (c_oriented c) (c_blocks c) (c_hurdle c) (Some v) (c_right c)
  | F_right => mkComponent (c_index c) (c_oriented c) (c_blocks c) (c_hurdle c) (c_left c) (Some v)
  end.

Abbreviation carr := (list component_t).

Definition new_carr (n : Z) : carr :=
  replicate (Z.to_nat n) (mkComponent None None None None None None).

(** [components[i].f] as an rvalue. *)
Definition crd (a : carr) (i : Z) (f : cfield) : result Z :=
  if i <? 0 then Err OutOfBounds
  else match a !! Z.to_nat i with
       | Some c => match get_field f c with
                   | Some v => Ok v
                   | None => Err Uninitialised
                   end
       | None => Err OutOfBounds
       end.

Definition cupd (a : carr) (i : Z) (f : cfield) (v : Z) : carr :=
  match a !! Z.to_nat i with
  | Some c => <[Z.to_nat i := set_field f v c]> a
  | None => a
  end.

(** [components[i].f = v]. *)
Definition cwr (a : carr) (i : Z) (f : cfield) (v : Z) : result carr :=
  if (0 <=? i) && (i <? Z.of_nat (length a)) then Ok (cupd a i f v)
  else Err OutOfBounds.

Record distmem_t := mkDistmem {
  perm1 : arr;
  perm2 : arr;
  perm : arr;
  done : arr;
  greyEdges : arr;
  stack : arr;
  oriented : arr;
  cc : arr;
  labeled : arr;
  components : carr;
}.

(** The constructor [distmem_struct(n)]. *)
Definition distmem_struct (n : Z) : distmem_t :=
  mkDistmem (new_arr n) (new_arr n) (new_arr n) (new_arr n) (new_arr n)
            (new_arr n) (new_arr n) (new_arr n) (new_arr n) (new_carr n).

Definition set_perm1 (v : arr) (m : distmem_t) : distmem_t :=
  mkDistmem v (perm2 m) (perm m) (done m) (greyEdges m) (stack m) (oriented m) (cc m) (labeled m) (components m).
Definition set_perm2 (v : arr) (m : distmem_t) : distmem_t :=
  mkDistmem (perm1 m) v (perm m) (done m) (greyEdges m) (stack m) (oriented m) (cc m) (labeled m) (components m).
Definition set_perm (v : arr) (m : distmem_t) : distmem_t :=
  mkDistmem (perm1 m) (perm2 m) v (done m) (greyEdges m) (stack m) (oriented m) (cc m) (labeled m) (components m).
Definition set_done (v : arr) (m : distmem_t) : distmem_t :=
  mkDistmem (perm1 m) (perm2 m) (perm m) v (greyEdges m) (stack m) (oriented m) (cc m) (labeled m) (components m).
Definition set_greyEdges (v : arr) (m : distmem_t) : distmem_t :=
  mkDistmem (perm1 m) (perm2 m) (perm m) (done m) v (stack m) (oriented m) (cc m) (labeled m) (components m).
Definition set_stack (v : arr) (m : distmem_t) : distmem_t :=
  mkDistmem (perm1 m) (perm2 m) (perm m) (done m) (greyEdges m) v (oriented m) (cc m) (labeled m) (components m).
Definition set_oriented (v : arr) (m : distmem_t) : distmem_t :=
  mkDistmem (perm1 m) (perm2 m) (perm m) (done m) (greyEdges m) (stack m) v (cc m) (labeled m) (components m).
Definition set_cc (v : arr) (m : distmem_t) : distmem_t :=
  mkDistmem (perm1 m) (perm2 m) (perm m) (done m) (greyEdges m) (stack m) (oriented m) v (labeled m) (components m).
Definition set_labeled (v : arr) (m : distmem_t) : distmem_t :=
  mkDistmem (perm1 m) (perm2 m) (perm m) (done m) (greyEdges m) (stack m) (oriented m) (cc m) v (components m).
Definition set_components (v : carr) (m : distmem_t) : distmem_t :=
  mkDistmem (perm1 m) (perm2 m) (perm m) (done m) (greyEdges m) (stack m) (oriented m) (cc m) (labeled m) v.

(** ** invdist.cpp *)

Definition calculate_offset (g1 g2 : list Genome) : result Z :=
  G2 <- at_ g2 0 ;;
  let genes2 := pi G2 in
  let num_genes := len G2 in
  G1 <- at_ g1 0 ;;
  gA <- at_ (pi G1) 0 ;;
  r <- for_ret (trip_count 0 num_genes 1) 0 1
         (fun i (_ : unit) =>
            x <- at_ genes2 i ;;
            if x =? gA then Ok (inr i)
            else if x =? - gA then Ok (inr (i + num_genes))
            else Ok (inl tt))
         tt ;;
  match r with
  | inr v => Ok v
  | inl _ => Ok ERR_CONTENT
  end.

Definition num_breakpoints (perm : arr) (size : Z) : result Z :=
  p1 <- rd perm 1 ;;
  let b := if negb (p1 =? 1) then 1 else 0 in
  for_range 2 (size - 1) 2
    (fun i b =>
       pA <- rd perm i ;;
       let pA1 := if pA =? size then 1 else pA + 1 in
       pB <- rd perm (i + 1) ;;
       let pB1 := if pB =? size then 1 else pB + 1 in
       if negb (pB =? pA1) && negb (pA =? pB1) then Ok (b + 1) else Ok b)
    b.

(** In [num_cycles], [invperm] and [done] are both [distmem->done], and
    [cycle] is [distmem->labeled]. *)

(** One turn of [do { ... } while (next != i)]: follow the implicit black
    edge, then the grey edge. *)
Definition num_cycles_step (i : Z) (st : Z * distmem_t)
    : result (Z * distmem_t) :=
  let '(next, m) := st in
  let next := if Z.rem next 2 =? 0 then next + 1 else next - 1 in
  d <- wr (done m) next 1 ;;
  l <- wr (labeled m) next i ;;
  next <- rd (greyEdges m) next ;;
  d <- wr d next 1 ;;
  l <- wr l next i ;;
  Ok (next, set_labeled l (set_done d m)).

(** The loop "set grey-edges", first part: the inverse permutation. *)
Definition num_cycles_invperm (perm : arr) (i : Z) (m : distmem_t)
    : result distmem_t :=
  p <- rd perm i ;;
  d <- wr (done m) p i ;;
  g <- wr (greyEdges m) i (-1) ;;
  Ok (set_greyEdges g (set_done d m)).

(** The loop over the gene pairs [(i, i+1)], [i] odd. *)
Definition num_cycles_grey (perm : arr) (i : Z) (m : distmem_t)
    : result distmem_t :=
  ind <- rd perm i ;;
  nxt <- rd perm (i + 1) ;;
  j <- (if ind <? nxt
        then j1 <- rd (done m) (ind - 1) ;;
             j2 <- rd (done m) (ind + 2) ;; Ok (j1, j2)
        else j1 <- rd (done m) (ind + 1) ;;
             j2 <- rd (done m) (ind - 2) ;; Ok (j1, j2)) ;;
  m <- (if negb (fst j =? i - 1)
        then g <- wr (greyEdges m) i (fst j) ;; Ok (set_greyEdges g m)
        else Ok m) ;;
  if negb (snd j =? i + 2)
  then g <- wr (greyEdges m) (i + 1) (snd j) ;; Ok (set_greyEdges g m)
  else Ok m.

(** The counting loop: every vertex not yet [done] that has a grey edge
    starts the traversal of one cycle. *)
Definition num_cycles_count (fuel : nat) (i : Z) (st : Z * distmem_t)
    : result (Z * distmem_t) :=
  let '(c, m) := st in
  d <- rd (done m) i ;;
  if d =? 0 then
    g <- rd (greyEdges m) i ;;
    if negb (g =? -1) then
      l <- wr (labeled m) i i ;;
      d <- wr (done m) i 1 ;;
      st <- do_while fuel (num_cycles_step i)
              (fun st => Ok (negb (fst st =? i)))
              (i, set_done d (set_labeled l m)) ;;
      Ok (c + 1, snd st)
    else Ok (c, m)
  else Ok (c, m).

Definition num_cycles (perm : arr) (size : Z) (fuel : nat)
    (distmem : distmem_t) : result (Z * distmem_t) :=
  m <- for_range 0 size 1 (num_cycles_invperm perm) distmem ;;
  j1 <- rd (done m) 1 ;;
  m <- (if negb (j1 =? 1)
        then g <- wr (greyEdges m) 0 j1 ;; Ok (set_greyEdges g m)
        else Ok m) ;;
  m <- for_range 1 (size - 1) 2 (num_cycles_grey perm) m ;;
  j1 <- rd (done m) (size - 2) ;;
  m <- (if negb (j1 =? size - 2)
        then g <- wr (greyEdges m) (size - 1) j1 ;; Ok (set_greyEdges g m)
        else Ok m) ;;
  m <- for_range 0 size 1
         (fun i m => d <- wr (done m) i 0 ;; Ok (set_done d m)) m ;;
  for_range 0 size 1 (num_cycles_count fuel) (0, m).

(** In [connected_component], [next] and [stack_root] are [distmem->stack],
    [range] is [distmem->oriented], [stack_range] and [cc] are
    [distmem->cc], [parent] and [cycle] are [distmem->labeled]. *)

(** [range[cycle[i]] = i] for every vertex with a grey edge. *)
Definition cc_range (i : Z) (m : distmem_t) : result distmem_t :=
  g <- rd (greyEdges m) i ;;
  if g =? -1 then Ok m
  else
    c <- rd (labeled m) i ;;
    r <- wr (oriented m) c i ;;
    Ok (set_oriented r m).

(** The loop popping the roots above [parent[i]]; the state is
    [(stack_ptr, right, distmem)]. *)
Definition cc_pop_cond (i : Z) (st : Z * Z * distmem_t) : result bool :=
  let '(stack_ptr, right_, m) := st in
  sr <- rd (stack m) stack_ptr ;;
  p <- rd (labeled m) i ;;
  Ok (p <? sr).

Definition cc_pop_body (i : Z) (st : Z * Z * distmem_t)
    : result (Z * Z * distmem_t) :=
  let '(stack_ptr, right_, m) := st in
  sr <- rd (stack m) stack_ptr ;;
  p <- rd (labeled m) i ;;
  l <- wr (labeled m) sr p ;;
  rg <- rd (cc m) stack_ptr ;;
  let right_ := if right_ <? rg then rg else right_ in
  Ok (stack_ptr - 1, right_, set_labeled l m).

(** The linear sweep; the state is [(stack_ptr, num_components, distmem)]. *)
Definition cc_sweep (fuel : nat) (i : Z) (st : Z * Z * distmem_t)
    : result (Z * Z * distmem_t) :=
  let '(stack_ptr, num_components, m) := st in
  g <- rd (greyEdges m) i ;;
  if g =? -1 then Ok (stack_ptr, num_components, m)
  else
    p <- rd (labeled m) i ;;
    if p =? i then
      let stack_ptr := stack_ptr + 1 in
      s <- wr (stack m) stack_ptr i ;;
      r <- rd (oriented m) i ;;
      c <- wr (cc m) stack_ptr r ;;
      Ok (stack_ptr, num_components, set_cc c (set_stack s m))
    else
      st <- while_loop fuel (cc_pop_cond i) (cc_pop_body i)
              (stack_ptr, i, m) ;;
      let '(stack_ptr, right_, m) := st in
      rg <- rd (cc m) stack_ptr ;;
      m <- (if rg <? right_
            then c <- wr (cc m) stack_ptr right_ ;; Ok (set_cc c m)
            else Ok m) ;;
      rg <- rd (cc m) stack_ptr ;;
      if rg <=? i then
        sr <- rd (stack m) stack_ptr ;;
        cs <- cwr (components m) num_components F_index sr ;;
        Ok (stack_ptr - 1, num_components + 1, set_components cs m)
      else Ok (stack_ptr, num_components, m).

(** Turning the forest into linked lists. *)
Definition cc_link (i : Z) (m : distmem_t) : result distmem_t :=
  g <- rd (greyEdges m) i ;;
  if g =? -1 then c <- wr (cc m) i (-1) ;; Ok (set_cc c m)
  else
    p <- rd (labeled m) i ;;
    if negb (i =? p) then
      np <- rd (stack m) p ;;
      s <- wr (stack m) i np ;;
      s <- wr s p i ;;
      Ok (set_stack s m)
    else Ok m.

(** Labelling every node of the list of component [i] with [i]. *)
Definition cc_label (fuel : nat) (i : Z) (m : distmem_t) : result distmem_t :=
  p <- crd (components m) i F_index ;;
  st <- while_loop fuel
          (fun st : Z * distmem_t => Ok (negb (fst st =? -1)))
          (fun st : Z * distmem_t =>
             let '(p, m) := st in
             c <- wr (cc m) p i ;;
             p <- rd (stack m) p ;;
             Ok (p, set_cc c m))
          (p, m) ;;
  Ok (snd st).

Definition connected_component (size : Z) (fuel : nat) (distmem : distmem_t)
    : result (Z * distmem_t) :=
  m <- for_range 0 size 1 cc_range distmem ;;
  st <- for_range 0 size 1 (cc_sweep fuel) (-1, 0, m) ;;
  let '(_, num_components, m) := st in
  m <- for_range 0 size 1
         (fun i m => s <- wr (stack m) i (-1) ;; Ok (set_stack s m)) m ;;
  m <- for_range 0 size 1 cc_link m ;;
  m <- for_range 0 num_components 1 (cc_label fuel) m ;;
  Ok (num_components, m).

(** [num_hurdles_and_fortress], loop by loop. *)

(** Is each grey edge oriented? *)
Definition nhf_edge (i : Z) (m : distmem_t) : result distmem_t :=
  j <- rd (greyEdges m) i ;;
  if j =? -1 then o <- wr (oriented m) i 0 ;; Ok (set_oriented o m)
  else if i <? j then
    let v := if negb (Z.rem (j - i) 2 =? 0) then 0 else 1 in
    o <- wr (oriented m) i v ;;
    o <- wr o j v ;;
    Ok (set_oriented o m)
  else Ok m.

Definition nhf_clear_oriented (i : Z) (m : distmem_t) : result distmem_t :=
  cs <- cwr (components m) i F_oriented 0 ;; Ok (set_components cs m).

Definition nhf_set_oriented (i : Z) (m : distmem_t) : result distmem_t :=
  o <- rd (oriented m) i ;;
  if o =? 1 then
    c <- rd (cc m) i ;;
    cs <- cwr (components m) c F_oriented 1 ;;
    Ok (set_components cs m)
  else Ok m.

Definition nhf_count_unoriented (m : distmem_t) (i : Z) (num_oriented : Z)
    : result Z :=
  o <- crd (components m) i F_oriented ;;
  if o =? 0 then Ok (num_oriented + 1) else Ok num_oriented.

Definition nhf_init (i : Z) (m : distmem_t) : result distmem_t :=
  cs <- cwr (components m) i F_blocks 0 ;;
  cs <- cwr cs i F_hurdle 0 ;;
  cs <- cwr cs i F_left (-1) ;;
  cs <- cwr cs i F_right (-1) ;;
  Ok (set_components cs m).

(** The left-to-right block scan; the state is
    [(first_comp, last_comp, num_block, distmem)]. *)
Definition nhf_scan (i : Z) (st : Z * Z * Z * distmem_t)
    : result (Z * Z * Z * distmem_t) :=
  let '(first_comp, last_comp, num_block, m) := st in
  cIdx <- rd (cc m) i ;;
  if negb (cIdx =? -1) then
    o <- crd (components m) cIdx F_oriented ;;
    if o =? 0 then
      if negb (cIdx =? last_comp) then
        fc <- (if last_comp =? -1 then Ok (cIdx, components m)
               else
                 cs <- cwr (components m) last_comp F_right cIdx ;;
                 cs <- cwr cs cIdx F_left last_comp ;;
                 Ok (first_comp, cs)) ;;
        let '(first_comp, cs) := fc in
        b <- crd cs cIdx F_blocks ;;
        cs <- cwr cs cIdx F_blocks (b + 1) ;;
        Ok (first_comp, cIdx, num_block + 1, set_components cs m)
      else Ok st
    else Ok st
  else Ok st.

(** Single-block components are hurdles; the state is
    [(num_hurdles, distmem)]. *)
Definition nhf_hurdle (i : Z) (st : Z * distmem_t) : result (Z * distmem_t) :=
  let '(num_hurdles, m) := st in
  o <- crd (components m) i F_oriented ;;
  if o =? 0 then
    b <- crd (components m) i F_blocks ;;
    if b =? 1 then
      cs <- cwr (components m) i F_hurdle HURDLE ;;
      Ok (num_hurdles + 1, set_components cs m)
    else Ok st
  else Ok st.

(** The wrap-around hurdle. *)
Definition nhf_greathurdle (first_comp last_comp : Z) (st : Z * distmem_t)
    : result (Z * distmem_t) :=
  let '(num_hurdles, m) := st in
  if first_comp =? last_comp then
    b <- crd (components m) first_comp F_blocks ;;
    if b =? 2 then
      cs <- cwr (components m) first_comp F_hurdle (Z.lor HURDLE GREATHURDLE) ;;
      Ok (num_hurdles + 1, set_components cs m)
    else Ok st
  else Ok st.

(** The superhurdle test of component [i]; [inr] is the [return] taken by
    the first hurdle that fails it.  The state is
    [(num_superhurdles, distmem)]. *)
Definition nhf_superhurdle (i : Z) (st : Z * distmem_t)
    : result ((Z * distmem_t) + distmem_t) :=
  let '(num_superhurdles, m) := st in
  h <- crd (components m) i F_hurdle ;;
  if negb (h =? 0) then
    l <- crd (components m) i F_left ;;
    r <- crd (components m) i F_right ;;
    if (l =? r) && negb (l =? -1) then
      b <- crd (components m) l F_blocks ;;
      if b =? 2 then
        hl <- crd (components m) l F_hurdle ;;
        if Z.land hl GREATHURDLE =? 0 then
          cs <- cwr (components m) i F_hurdle (Z.lor h SUPERHURDLE) ;;
          Ok (inl (num_superhurdles + 1, set_components cs m))
        else Ok (inr m)
      else Ok (inr m)
    else Ok (inr m)
  else Ok (inl st).

(** From the hurdle count on (the test [*num_hurdles < 3] and what
    follows it). *)
Definition nhf_fortress (num_components num_hurdles : Z) (m : distmem_t)
    : result (Z * Z * distmem_t) :=
  if num_hurdles <? 3 then Ok (num_hurdles, 0, m)
  else
    r <- for_ret (trip_count 0 num_components 1) 0 1 nhf_superhurdle (0, m) ;;
    match r with
    | inr m => Ok (num_hurdles, 0, m)
    | inl (num_superhurdles, m) =>
        if (num_hurdles =? num_superhurdles)
           && (Z.rem num_superhurdles 2 =? 1)
        then Ok (num_hurdles, 1, m)
        else Ok (num_hurdles, 0, m)
    end.

(** From the block scan on. *)
Definition nhf_hurdles (size num_components : Z) (m : distmem_t)
    : result (Z * Z * distmem_t) :=
  st <- for_range 0 size 1 nhf_scan (-1, -1, -1, m) ;;
  let '(first_comp, last_comp, _, m) := st in
  st <- for_range 0 num_components 1 nhf_hurdle (0, m) ;;
  st <- nhf_greathurdle first_comp last_comp st ;;
  let '(num_hurdles, m) := st in
  nhf_fortress num_components num_hurdles m.

(** The result is [(num_hurdles, num_fortress)] and the memory. *)
Definition num_hurdles_and_fortress (perm : arr) (size : Z) (fuel : nat)
    (distmem : distmem_t) : result (Z * Z * distmem_t) :=
  st <- connected_component size fuel distmem ;;
  let '(num_components, m) := st in
  if num_components =? 0 then Ok (0, 0, m)
  else
    m <- for_range 0 size 1 nhf_edge m ;;
    m <- for_range 0 num_components 1 nhf_clear_oriented m ;;
    m <- for_range 0 size 1 nhf_set_oriented m ;;
    num_oriented <- for_range 0 num_components 1 (nhf_count_unoriented m) 0 ;;
    if num_oriented =? 0 then Ok (0, 0, m)
    else
      m <- for_range 0 num_components 1 nhf_init m ;;
      nhf_hurdles size num_components m.

(** [num_hurdles_and_fortress] up to the block scan: [inl] is one of the
    two early returns (no component, or no unoriented component), [inr]
    carries [num_components] and the memory the scan starts from. *)
Definition nhf_enter (size : Z) (fuel : nat) (distmem : distmem_t)
    : result (distmem_t + Z * distmem_t) :=
  st <- connected_component size fuel distmem ;;
  let '(num_components, m) := st in
  if num_components =? 0 then Ok (inl m)
  else
    m <- for_range 0 size 1 nhf_edge m ;;
    m <- for_range 0 num_components 1 nhf_clear_oriented m ;;
    m <- for_range 0 size 1 nhf_set_oriented m ;;
    num_oriented <- for_range 0 num_components 1 (nhf_count_unoriented m) 0 ;;
    if num_oriented =? 0 then Ok (inl m)
    else
      m <- for_range 0 num_components 1 nhf_init m ;;
      Ok (inr (num_components, m)).

(** The three loops building [perm1], [perm2] and [perm]. *)
Definition build_perm1 (g1 : list Genome) (i : Z) (m : distmem_t)
    : result distmem_t :=
  G1 <- at_ g1 0 ;;
  x <- at_ (pi G1) i ;;
  let g := 2 * x in
  let twoi := 2 * i + 1 in
  if g >? 0 then
    p <- wr (perm1 m) (g - 1) twoi ;;
    p <- wr p g (twoi + 1) ;;
    Ok (set_perm1 p m)
  else
    p <- wr (perm1 m) (- g) twoi ;;
    p <- wr p (- g - 1) (twoi + 1) ;;
    Ok (set_perm1 p m).

Definition build_perm2 (g2 : list Genome) (offset num_genes : Z) (i : Z)
    (m : distmem_t) : result distmem_t :=
  G2 <- at_ g2 0 ;;
  g <- (if offset <? num_genes
        then at_ (pi G2) (Z.rem (offset + i) num_genes)
        else x <- at_ (pi G2) (Z.rem (offset - i) num_genes) ;; Ok (- x)) ;;
  let twoi := 2 * i + 1 in
  if g >? 0 then
    p <- wr (perm2 m) twoi (2 * g - 1) ;;
    p <- wr p (twoi + 1) (2 * g) ;;
    Ok (set_perm2 p m)
  else
    p <- wr (perm2 m) twoi (-2 * g) ;;
    p <- wr p (twoi + 1) (-2 * g - 1) ;;
    Ok (set_perm2 p m).

Definition build_perm (i : Z) (m : distmem_t) : result distmem_t :=
  x <- rd (perm2 m) i ;;
  y <- rd (perm1 m) x ;;
  p <- wr (perm m) i y ;;
  Ok (set_perm p m).

(** The extended permutation, as [invdist_noncircular] leaves it in
    [distmem->perm] before it calls [num_breakpoints]. *)
Definition extended_perm (g1 g2 : list Genome) (offset : Z)
    : result distmem_t :=
  G1 <- at_ g1 0 ;;
  let num_genes := len G1 in
  let n := 2 * num_genes + 2 in
  let distmem := distmem_struct n in
  m <- for_range 0 num_genes 1 (build_perm1 g1) distmem ;;
  m <- for_range 0 num_genes 1 (build_perm2 g2 offset num_genes) m ;;
  p <- wr (perm m) 0 0 ;;
  m <- for_range 1 (n - 1) 1 build_perm (set_perm p m) ;;
  p <- wr (perm m) (n - 1) (n - 1) ;;
  Ok (set_perm p m).

Definition invdist_noncircular (fuel : nat) (g1 g2 : list Genome)
    (offset : Z) : result Z :=
  G1 <- at_ g1 0 ;;
  let num_genes := len G1 in
  let n := 2 * num_genes + 2 in
  m <- extended_perm g1 g2 offset ;;
  b <- num_breakpoints (perm m) n ;;
  st <- num_cycles (perm m) n fuel m ;;
  let '(c, m) := st in
  st <- num_hurdles_and_fortress (perm m) n fuel m ;;
  let '(num_hurdles, num_fortress, _) := st in
  Ok (b - c + num_hurdles + num_fortress).

Definition invdist_circular (fuel : nat) (g1 g2 : list Genome) : result Z :=
  offset <- calculate_offset g1 g2 ;;
  invdist_noncircular fuel g1 g2 offset.

(** ** distances.cpp *)

(** [sizeof(pi)/sizeof(Genome * )] for a parameter [Genome * pi]: the size
    of a pointer divided by the size of a pointer, whatever block [pi]
    points to. *)
Definition sizeof_pointer : Z := 8.
Definition num_chromosomes (g : list Genome) : Z :=
  sizeof_pointer `quot` sizeof_pointer.

(** [genes.size() - 1] is computed in [size_t]. *)
Definition size_t (z : Z) : Z := z mod 2 ^ 64.

(** [std::vector<intArray>] filled with [abs] of every gene of the first
    [num] chromosomes. *)
Definition collect_genes (num : Z) (g : list Genome) : result (list Z) :=
  for_range 0 num 1
    (fun i genes =>
       G <- at_ g i ;;
       for_range 0 (len G) 1
         (fun j genes =>
            x <- at_ (pi G) j ;;
            Ok (genes ++ [to_short (Z.abs x)]))
         genes)
    [].

Definition duplicates (gpi : list Genome) : result bool :=
  let num_pi := num_chromosomes gpi in
  genes <- collect_genes num_pi gpi ;;
  let genes := merge_sort Z.le genes in
  r <- for_ret (Z.to_nat (size_t (Z.of_nat (length genes) - 1))) 0 1
         (fun i (_ : unit) =>
            a <- at_ genes i ;;
            b <- at_ genes (i + 1) ;;
            if a =? b then Ok (inr true) else Ok (inl tt))
         tt ;;
  match r with
  | inr b => Ok b
  | inl _ => Ok false
  end.

Definition unequal_content (gpi gid : list Genome) : result bool :=
  let num_pi := num_chromosomes gpi in
  let num_id := num_chromosomes gid in
  genesA <- collect_genes num_pi gpi ;;
  genesB <- collect_genes num_id gid ;;
  let genesA := merge_sort Z.le genesA in
  let genesB := merge_sort Z.le genesB in
  if negb (Z.of_nat (length genesA) =? Z.of_nat (length genesB)) then Ok true
  else
    r <- for_ret (length genesA) 0 1
           (fun i (_ : unit) =>
              a <- at_ genesA i ;;
              b <- at_ genesB i ;;
              if negb (a =? b) then Ok (inr true) else Ok (inl tt))
           tt ;;
    match r with
    | inr b => Ok b
    | inl _ => Ok false
    end.

(** The test repeated in [_breakpoints]: the boundary [(pi1, pi2)] is the
    boundary [(id1, id2)], read in either direction. *)
Definition same_boundary (pi1 pi2 id1 id2 : Z) : bool :=
  ((pi1 =? id1) && (pi2 =? id2)) || ((- pi1 =? id2) && (- pi2 =? id1)).

(** The scan of the inner boundaries of [ID]; the state is [(bB, find)]. *)
Definition bp_scan (ID : Genome) (pi1 pi2 : Z) (l : Z) (st : Z * Z)
    : result (Z * Z) :=
  let '(bB, find) := st in
  id1 <- at_ (pi ID) l ;;
  id2 <- at_ (pi ID) (l + 1) ;;
  Ok (bB + 1, if same_boundary pi1 pi2 id1 id2 then find + 1 else find).

(** One boundary [(pi[k], pi[k+1])] of [PI]; the state is [(bA, bB, b)]. *)
Definition bp_boundary (gid : list Genome) (i : Z) (PI : Genome) (k : Z)
    (st : Z * Z * Z) : result (Z * Z * Z) :=
  let '(bA, bB, b) := st in
  let bA := bA + 1 in
  pi1 <- at_ (pi PI) k ;;
  pi2 <- at_ (pi PI) (k + 1) ;;
  ID <- at_ gid i ;;
  st <- for_range 0 (len ID - 1) 1 (bp_scan ID pi1 pi2) (0, 0) ;;
  let '(bB, find) := st in
  Ok (bA, bB, if negb (find =? 0) then b + 1 else b).

(** The wrap boundary of a circular [PI]. *)
Definition bp_wrap (gid : list Genome) (i : Z) (PI : Genome)
    (st : Z * Z * Z) : result (Z * Z * Z) :=
  let '(bA, bB, b) := st in
  let bA := bA + 1 in
  let bB := bB + 1 in
  pi1 <- at_ (pi PI) (len PI - 1) ;;
  pi2 <- at_ (pi PI) 0 ;;
  ID <- at_ gid i ;;
  st <- for_range 0 (len ID - 1) 1 (bp_scan ID pi1 pi2) (0, 0) ;;
  let find := snd st in
  find <- (if circular ID then
             id1 <- at_ (pi ID) (len ID - 1) ;;
             id2 <- at_ (pi ID) 0 ;;
             Ok (if same_boundary pi1 pi2 id1 id2 then find + 1 else find)
           else Ok find) ;;
  Ok (bA, bB, if negb (find =? 0) then b + 1 else b).

Definition _breakpoints (gpi gid : list Genome) : result Z :=
  let num_pi := num_chromosomes gpi in
  let num_id := num_chromosomes gid in
  st <- for_range 0 num_id 1
          (fun i (st : Z * Z * Z * Z) =>
             let '(bA, bB, bID, b) := st in
             let bID := bID + bB in
             st <- for_range 0 num_pi 1
                     (fun j (st : Z * Z * Z) =>
                        PI <- at_ gpi j ;;
                        st <- for_range 0 (len PI - 1) 1
                                (bp_boundary gid i PI) st ;;
                        if circular PI then bp_wrap gid i PI st else Ok st)
                     (bA, bB, b) ;;
             let '(bA, bB, b) := st in
             Ok (bA, bB, bID, b))
          (0, 0, 0, 0) ;;
  let '(bA, bB, _, b) := st in
  Ok (if bA >? bB then bA - b else bB - b).

(** The scan of the inner boundaries of [ID] in [_adjacencies]; the state
    is [find]. *)
Definition adj_scan (ID : Genome) (pi1 pi2 : Z) (l : Z) (find : Z)
    : result Z :=
  id1 <- at_ (pi ID) l ;;
  id2 <- at_ (pi ID) (l + 1) ;;
  Ok (if same_boundary pi1 pi2 id1 id2 then find + 1 else find).

(** One boundary [(pi[k], pi[k+1])] of [PI]; the state is
    [shared_bounds], a [std::vector<intArray>]. *)
Definition adj_boundary (gid : list Genome) (i : Z) (PI : Genome) (k : Z)
    (shared_bounds : list Z) : result (list Z) :=
  pi1 <- at_ (pi PI) k ;;
  pi2 <- at_ (pi PI) (k + 1) ;;
  ID <- at_ gid i ;;
  find <- for_range 0 (len ID - 1) 1 (adj_scan ID pi1 pi2) 0 ;;
  Ok (if negb (find =? 0)
      then shared_bounds ++ [to_short pi1; to_short pi2]
      else shared_bounds).

(** The wrap boundary of a circular [PI]. *)
Definition adj_wrap (gid : list Genome) (i : Z) (PI : Genome)
    (shared_bounds : list Z) : result (list Z) :=
  pi1 <- at_ (pi PI) (len PI - 1) ;;
  pi2 <- at_ (pi PI) 0 ;;
  ID <- at_ gid i ;;
  find <- for_range 0 (len ID - 1) 1 (adj_scan ID pi1 pi2) 0 ;;
  find <- (if circular ID then
             id1 <- at_ (pi ID) (len ID - 1) ;;
             id2 <- at_ (pi ID) 0 ;;
             Ok (if same_boundary pi1 pi2 id1 id2 then find + 1 else find)
           else Ok find) ;;
  Ok (if negb (find =? 0)
      then shared_bounds ++ [to_short pi1; to_short pi2]
      else shared_bounds).

Definition _adjacencies (gpi gid : list Genome) : result (list Z) :=
  let num_pi := num_chromosomes gpi in
  let num_id := num_chromosomes gid in
  for_range 0 num_id 1
    (fun i shared_bounds =>
       for_range 0 num_pi 1
         (fun j shared_bounds =>
            PI <- at_ gpi j ;;
            shared_bounds <- for_range 0 (len PI - 1) 1
                               (adj_boundary gid i PI) shared_bounds ;;
            if circular PI then adj_wrap gid i PI shared_bounds
            else Ok shared_bounds)
         shared_bounds)
    [].

Definition _DCJ (gpi gid : list Genome) : result Z :=
  d <- duplicates gpi ;;
  d <- (if d then Ok true else duplicates gid) ;;
  if d then Ok ERR_DUPLICATES
  else
    u <- unequal_content gpi gid ;;
    if u then Ok ERR_CONTENT else Ok ERR_NOTIMPL.

Definition _inversions (fuel : nat) (gpi gid : list Genome) : result Z :=
  let num_pi := num_chromosomes gpi in
  let num_id := num_chromosomes gid in
  d <- duplicates gpi ;;
  d <- (if d then Ok true else duplicates gid) ;;
  if d then Ok ERR_DUPLICATES
  else
    u <- unequal_content gpi gid ;;
    if u then Ok ERR_CONTENT
    else if Z.b2z (num_pi =? num_id) =? 1 then
      PI <- at_ gpi 0 ;;
      if circular PI then
        r <- invdist_circular fuel gid gpi ;;
        ID <- at_ gid 0 ;;
        Ok (r + 1 - Z.b2z (circular ID))
      else
        ID <- at_ gid 0 ;;
        if circular ID then
          r <- invdist_circular fuel gpi gid ;;
          Ok (r + 1)
        else invdist_noncircular fuel gpi gid 0
    else
      r <- for_ret (Z.to_nat (Z.max num_pi num_id)) 0 1
             (fun i (_ : unit) =>
                PI <- at_ gpi i ;;
                c <- (if circular PI then Ok true
                      else ID <- at_ gid i ;; Ok (circular ID)) ;;
                if (c : bool) then r <- _DCJ gpi gid ;; Ok (inr r)
                else Ok (inl tt))
             tt ;;
      match r with
      | inr v => Ok v
      | inl _ => Err Uninitialised   (* [inversions] was never assigned *)
      end.

(** * Reasoning about arrays and loops *)

Definition alen (a : arr) : Z := Z.of_nat (length a).

(** The value a cell holds, if it is inside the block and was written. *)
Definition cell (a : arr) (i : Z) : option Z :=
  if i <? 0 then None
  else match a !! Z.to_nat i with
       | Some (Some v) => Some v
       | _ => None
       end.

Definition clen (a : carr) : Z := Z.of_nat (length a).

Definition ccell (a : carr) (i : Z) (f : cfield) : option Z :=
  if i <? 0 then None
  else match a !! Z.to_nat i with
       | Some c => get_field f c
       | None => None
       end.

Lemma bind_ok {A B} (m : result A) (k : A -> result B) a :
  m = Ok a -> bind m k = k a.
Proof. intros ->. reflexivity. Qed.

Lemma alen_new n : 0 <= n -> alen (new_arr n) = n.
Proof.
  intros Hn. unfold alen, new_arr. rewrite length_replicate. lia.
Qed.

Lemma clen_new n : 0 <= n -> clen (new_carr n) = n.
Proof.
  intros Hn. unfold clen, new_carr. rewrite length_replicate. lia.
Qed.

Lemma rd_cell a i v : cell a i = Some v -> rd a i = Ok v.
Proof.
  unfold cell, rd. destruct (i <? 0); [discriminate|].
  destruct (a !! Z.to_nat i) as [[w|]|]; congruence.
Qed.

Lemma cell_inb a i v : cell a i = Some v -> 0 <= i < alen a.
Proof.
  unfold cell, alen. destruct (Z.ltb_spec i 0); [discriminate|].
  destruct (a !! Z.to_nat i) as [o|] eqn:E; [|discriminate].
  intros _. apply lookup_lt_Some in E. lia.
Qed.

Lemma wr_inb a i v : 0 <= i < alen a -> wr a i v = Ok (upd a i v).
Proof.
  unfold wr, alen. intros H.
  destruct (Z.leb_spec 0 i); [|lia].
  destruct (Z.ltb_spec i (Z.of_nat (length a))); [|lia]. reflexivity.
Qed.

Lemma alen_upd a i v : alen (upd a i v) = alen a.
Proof. unfold alen, upd. now rewrite length_insert. Qed.

Lemma cell_upd_eq a i v : 0 <= i < alen a -> cell (upd a i v) i = Some v.
Proof.
  unfold cell, upd, alen. intros H.
  destruct (Z.ltb_spec i 0); [lia|].
  rewrite list_lookup_insert_eq by lia. reflexivity.
Qed.

Lemma cell_upd_eq' a i v j :
  j = i -> 0 <= i < alen a -> cell (upd a i v) j = Some v.
Proof. intros ->. apply cell_upd_eq. Qed.

Lemma cell_upd_ne a i v j : 0 <= i -> j <> i -> cell (upd a i v) j = cell a j.
Proof.
  unfold cell, upd. intros Hi Hne.
  destruct (Z.ltb_spec j 0); [reflexivity|].
  rewrite list_lookup_insert_ne by lia. reflexivity.
Qed.

Lemma cell_new n i : cell (new_arr n) i = None.
Proof.
  unfold cell, new_arr. destruct (i <? 0); [reflexivity|].
  destruct (replicate (Z.to_nat n) None !! Z.to_nat i) as [o|] eqn:E;
    [|reflexivity].
  apply lookup_replicate in E as [-> _]. reflexivity.
Qed.

Lemma at_ok {A} (l : list A) i v :
  0 <= i -> l !! Z.to_nat i = Some v -> at_ l i = Ok v.
Proof.
  unfold at_. intros Hi E. destruct (Z.ltb_spec i 0); [lia|].
  now rewrite E.
Qed.

Lemma at_oob {A} (l : list A) i :
  Z.of_nat (length l) <= i -> at_ l i = Err OutOfBounds.
Proof.
  unfold at_. intros Hi. destruct (Z.ltb_spec i 0); [reflexivity|].
  rewrite lookup_ge_None_2 by lia. reflexivity.
Qed.

(** Component arrays. *)

Lemma get_set_field f g v c :
  get_field f (set_field g v c) = if decide (f = g) then Some v else get_field f c.
Proof. destruct f, g; reflexivity. Qed.

Lemma crd_ccell a i f v : ccell a i f = Some v -> crd a i f = Ok v.
Proof.
  unfold ccell, crd. destruct (i <? 0); [discriminate|].
  destruct (a !! Z.to_nat i) as [c|]; [|discriminate].
  now intros ->.
Qed.

Lemma ccell_inb a i f v : ccell a i f = Some v -> 0 <= i < clen a.
Proof.
  unfold ccell, clen. destruct (Z.ltb_spec i 0); [discriminate|].
  destruct (a !! Z.to_nat i) as [o|] eqn:E; [|discriminate].
  intros _. apply lookup_lt_Some in E. lia.
Qed.

Lemma cwr_inb a i f v : 0 <= i < clen a -> cwr a i f v = Ok (cupd a i f v).
Proof.
  unfold cwr, clen. intros H.
  destruct (Z.leb_spec 0 i); [|lia].
  destruct (Z.ltb_spec i (Z.of_nat (length a))); [|lia]. reflexivity.
Qed.

Lemma clen_cupd a i f v : clen (cupd a i f v) = clen a.
Proof.
  unfold clen, cupd. destruct (a !! Z.to_nat i); [|reflexivity].
  now rewrite length_insert.
Qed.

Lemma ccell_cupd_eq a i f v :
  0 <= i < clen a -> ccell (cupd a i f v) i f = Some v.
Proof.
  unfold ccell, cupd, clen. intros H.
  destruct (Z.ltb_spec i 0); [lia|].
  destruct (a !! Z.to_nat i) as [c|] eqn:E.
  - rewrite list_lookup_insert_eq by lia. rewrite get_set_field.
    destruct (decide (f = f)); congruence.
  - apply lookup_ge_None in E. lia.
Qed.

Lemma ccell_cupd_eq' a i f v j g :
  j = i -> g = f -> 0 <= i < clen a -> ccell (cupd a i f v) j g = Some v.
Proof. intros -> ->. apply ccell_cupd_eq. Qed.

Lemma ccell_cupd_ne a i f v j g :
  0 <= i -> j <> i \/ g <> f -> ccell (cupd a i f v) j g = ccell a j g.
Proof.
  unfold ccell, cupd. intros Hi Hne.
  destruct (Z.ltb_spec j 0); [reflexivity|].
  destruct (a !! Z.to_nat i) as [c|] eqn:E; [|reflexivity].
  destruct (decide (Z.to_nat j = Z.to_nat i)) as [Heq|Hneq].
  - rewrite Heq, E. rewrite list_lookup_insert_eq by (apply lookup_lt_Some in E; lia).
    rewrite get_set_field. destruct (decide (g = f)); [|reflexivity].
    destruct Hne; [lia|congruence].
  - rewrite list_lookup_insert_ne by congruence. reflexivity.
Qed.

(** Loops. *)

Lemma for_loop_inv {St} (I : Z -> St -> Prop) (body : Z -> St -> result St)
    (step : Z) (n : nat) (i : Z) (s : St) :
  I i s ->
  (forall (k : nat) s, (k < n)%nat -> I (i + step * Z.of_nat k) s ->
     exists s', body (i + step * Z.of_nat k) s = Ok s'
                /\ I (i + step * Z.of_nat (S k)) s') ->
  exists s', for_loop n i step body s = Ok s' /\ I (i + step * Z.of_nat n) s'.
Proof.
  revert i s. induction n as [|n IH]; intros i s H0 Hstep.
  - exists s. split; [reflexivity|].
    now replace (i + step * Z.of_nat 0) with i by lia.
  - destruct (Hstep 0%nat s) as (s1 & Hb & H1); [lia| |].
    { now replace (i + step * Z.of_nat 0) with i by lia. }
    replace (i + step * Z.of_nat 0) with i in Hb by lia.
    replace (i + step * Z.of_nat 1) with (i + step) in H1 by lia.
    destruct (IH (i + step) s1 H1) as (s2 & Hl & H2).
    { intros k s' Hk HI.
      replace (i + step + step * Z.of_nat k)
        with (i + step * Z.of_nat (S k)) in * by lia.
      destruct (Hstep (S k) s') as (s3 & Hb3 & H3); [lia|assumption|].
      exists s3. split; [assumption|].
      now replace (i + step + step * Z.of_nat (S k))
        with (i + step * Z.of_nat (S (S k))) by lia. }
    exists s2. split.
    + simpl. rewrite Hb. exact Hl.
    + now replace (i + step * Z.of_nat (S n))
        with (i + step + step * Z.of_nat n) by lia.
Qed.

Lemma for_range_inv {St} (I : Z -> St -> Prop) (body : Z -> St -> result St)
    (lo hi : Z) (s : St) :
  lo <= hi ->
  I lo s ->
  (forall i s, lo <= i < hi -> I i s ->
     exists s', body i s = Ok s' /\ I (i + 1) s') ->
  exists s', for_range lo hi 1 body s = Ok s' /\ I hi s'.
Proof.
  intros Hle H0 Hstep. unfold for_range, trip_count.
  replace ((hi - lo + 1 - 1) / 1) with (hi - lo) by (rewrite Z.div_1_r; lia).
  destruct (for_loop_inv I body 1 (Z.to_nat (hi - lo)) lo s H0)
    as (s' & Hl & H1).
  - intros k s1 Hk HI.
    destruct (Hstep (lo + 1 * Z.of_nat k) s1) as (s2 & Hb & H2);
      [lia|assumption|].
    exists s2. split; [assumption|].
    now replace (lo + 1 * Z.of_nat (S k)) with (lo + 1 * Z.of_nat k + 1) by lia.
  - exists s'. split; [assumption|].
    now replace (lo + 1 * Z.of_nat (Z.to_nat (hi - lo))) with hi in H1 by lia.
Qed.

Lemma for_range_empty {St} (body : Z -> St -> result St) (lo hi : Z) (s : St) :
  hi <= lo -> for_range lo hi 1 body s = Ok s.
Proof.
  intros H. unfold for_range, trip_count.
  replace ((hi - lo + 1 - 1) / 1) with (hi - lo) by (rewrite Z.div_1_r; lia).
  replace (Z.to_nat (hi - lo)) with 0%nat by lia. reflexivity.
Qed.

(** Step 2, from [lo] up to [lo + 2 * k]. *)
Lemma for_range_inv2 {St} (I : Z -> St -> Prop) (body : Z -> St -> result St)
    (lo hi k : Z) (s : St) :
  0 <= k -> hi - lo + 1 = 2 * k \/ hi - lo = 2 * k ->
  I lo s ->
  (forall j s, 0 <= j < k -> I (lo + 2 * j) s ->
     exists s', body (lo + 2 * j) s = Ok s' /\ I (lo + 2 * (j + 1)) s') ->
  exists s', for_range lo hi 2 body s = Ok s' /\ I (lo + 2 * k) s'.
Proof.
  intros Hk Hhi H0 Hstep. unfold for_range, trip_count.
  replace ((hi - lo + 2 - 1) / 2) with k.
  2:{ destruct Hhi as [H|H].
      - replace (hi - lo + 2 - 1) with (k * 2) by lia. now rewrite Z.div_mul.
      - replace (hi - lo + 2 - 1) with (1 + k * 2) by lia.
        rewrite Z.div_add by lia. reflexivity. }
  destruct (for_loop_inv I body 2 (Z.to_nat k) lo s H0) as (s' & Hl & H1).
  - intros j s1 Hj HI.
    destruct (Hstep (Z.of_nat j) s1) as (s2 & Hb & H2); [lia|assumption|].
    exists s2. split; [assumption|].
    now replace (lo + 2 * Z.of_nat (S j)) with (lo + 2 * (Z.of_nat j + 1)) by lia.
  - exists s'. split; [assumption|].
    now replace (lo + 2 * Z.of_nat (Z.to_nat k)) with (lo + 2 * k) in H1 by lia.
Qed.

(** A loop that may return: either every turn went on, or some turn
    returned. *)
Lemma for_ret_inv {St R} (I : Z -> St -> Prop) (Q : R -> Prop)
    (body : Z -> St -> result (St + R)) (n : nat) (i : Z) (s : St) :
  I i s ->
  (forall (k : nat) s, (k < n)%nat -> I (i + Z.of_nat k) s ->
     (exists s', body (i + Z.of_nat k) s = Ok (inl s')
                 /\ I (i + Z.of_nat (S k)) s')
     \/ (exists r, body (i + Z.of_nat k) s = Ok (inr r) /\ Q r)) ->
  (exists s', for_ret n i 1 body s = Ok (inl s') /\ I (i + Z.of_nat n) s')
  \/ (exists r, for_ret n i 1 body s = Ok (inr r) /\ Q r).
Proof.
  revert i s. induction n as [|n IH]; intros i s H0 Hstep.
  - left. exists s. split; [reflexivity|].
    now replace (i + Z.of_nat 0) with i by lia.
  - destruct (Hstep 0%nat s) as [(s1 & Hb & H1)|(r & Hb & Hr)]; [lia| | |].
    { now replace (i + Z.of_nat 0) with i by lia. }
    + replace (i + Z.of_nat 0) with i in Hb by lia.
      replace (i + Z.of_nat 1) with (i + 1) in H1 by lia.
      destruct (IH (i + 1) s1 H1) as [(s2 & Hl & H2)|(r & Hl & Hr)].
      { intros k s' Hk HI.
        replace (i + 1 + Z.of_nat k) with (i + Z.of_nat (S k)) in * by lia.
        destruct (Hstep (S k) s') as [(s3 & Hb3 & H3)|(r & Hb3 & Hr)];
          [lia|assumption| |].
        - left. exists s3. split; [assumption|].
          now replace (i + 1 + Z.of_nat (S k))
            with (i + Z.of_nat (S (S k))) by lia.
        - right. exists r. tauto. }
      * left. exists s2. split; [simpl; rewrite Hb; exact Hl|].
        now replace (i + Z.of_nat (S n)) with (i + 1 + Z.of_nat n) by lia.
      * right. exists r. split; [simpl; rewrite Hb; exact Hl|assumption].
    + replace (i + Z.of_nat 0) with i in Hb by lia.
      right. exists r. split; [simpl; rewrite Hb; reflexivity|assumption].
Qed.

Ltac lia_div := Z.to_euclidean_division_equations; lia.

(** Every index between the caps belongs to the pair of one gene. *)
Lemma pair_index i n :
  1 <= i <= 2 * n -> exists j, 0 <= j < n /\ (i = 2 * j + 1 \/ i = 2 * j + 2).
Proof. intros H. exists ((i - 1) / 2). lia_div. Qed.

Ltac cell_simp :=
  repeat match goal with
  | |- context [cell (upd ?a ?i ?v) ?j] =>
      first [ rewrite (cell_upd_ne a i v j) by lia
            | rewrite (cell_upd_eq' a i v j) by (rewrite ?alen_upd; lia) ]
  end.

(** * Validation: [duplicates], [unequal_content], [calculate_offset] *)

(** A genome as a caller can pass it: [len] genes, each a [short], behind
    [pi]; [len] is an [int]. *)
Definition wf_genome (G : Genome) : Prop :=
  len G = Z.of_nat (length (pi G))
  /\ len G <= 2147483647
  /\ Forall is_short (pi G).

(** What [genes.push_back(abs(x))] stores for the gene [x]. *)
Definition stored_abs (x : Z) : Z := to_short (Z.abs x).

(** The absolute value a stored [short] stands for. *)
Definition unstored (s : Z) : Z := if s =? -32768 then 32768 else s.

Lemma unstored_stored x : is_short x -> unstored (stored_abs x) = Z.abs x.
Proof.
  unfold is_short, unstored, stored_abs, to_short. intros H.
  destruct (Z.eq_dec x (-32768)) as [->|Hne]; [reflexivity|].
  rewrite Z.mod_small by lia.
  destruct (Z.eqb_spec (Z.abs x + 32768 - 32768) (-32768)); lia.
Qed.

Lemma map_unstored l :
  Forall is_short l -> unstored <$> (stored_abs <$> l) = Z.abs <$> l.
Proof.
  induction 1 as [|x l Hx _ IH]; [reflexivity|].
  rewrite !fmap_cons, IH, unstored_stored by assumption. reflexivity.
Qed.

Lemma for_range_once {St} (body : Z -> St -> result St) (s : St) :
  for_range 0 1 1 body s = (s' <- body 0 s ;; Ok s').
Proof. reflexivity. Qed.

Lemma bind_ret {A} (m : result A) : (x <- m ;; Ok x) = m.
Proof. now destruct m. Qed.

Lemma collect_loop (l : list Z) (acc : list Z) :
  for_range 0 (Z.of_nat (length l)) 1
    (fun j genes => x <- at_ l j ;; Ok (genes ++ [to_short (Z.abs x)])) acc
  = Ok (acc ++ (stored_abs <$> l)).
Proof.
  destruct (for_range_inv
    (fun j s => s = acc ++ (stored_abs <$> take (Z.to_nat j) l))
    (fun j genes => x <- at_ l j ;; Ok (genes ++ [to_short (Z.abs x)]))
    0 (Z.of_nat (length l)) acc) as (s & Hs & ->).
  - lia.
  - simpl. now rewrite app_nil_r.
  - intros i s Hi ->.
    destruct (lookup_lt_is_Some_2 l (Z.to_nat i)) as [x Hx]; [lia|].
    rewrite (at_ok l i x) by (lia || assumption). simpl.
    eexists. split; [reflexivity|].
    replace (Z.to_nat (i + 1)) with (S (Z.to_nat i)) by lia.
    rewrite (take_S_r _ _ _ Hx), fmap_app, app_assoc. reflexivity.
  - rewrite Hs. f_equal. f_equal. f_equal.
    rewrite take_ge by lia. reflexivity.
Qed.

Lemma collect_genes_first (G : Genome) (rest : list Genome) :
  len G = Z.of_nat (length (pi G)) ->
  collect_genes (num_chromosomes (G :: rest)) (G :: rest)
  = Ok (stored_abs <$> (pi G)).
Proof.
  intros Hlen. unfold collect_genes.
  change (num_chromosomes (G :: rest)) with 1.
  rewrite for_range_once, bind_ret.
  change (at_ (G :: rest) 0) with (Ok G). cbn [bind].
  rewrite Hlen. apply (collect_loop (pi G) []).
Qed.

(** Adjacent equal elements of a sorted list. *)
Definition adjacent_distinct (l : list Z) : Prop :=
  forall (j : nat) a b, l !! j = Some a -> l !! S j = Some b -> a <> b.

Lemma sorted_adjacent_NoDup l :
  Sorted Z.le l -> adjacent_distinct l -> NoDup l.
Proof.
  intros Hs. apply Sorted_StronglySorted in Hs; [|intros x y z; lia].
  induction Hs as [|a l Hs IH Hall]; intros Hadj; [constructor|].
  constructor.
  - destruct l as [|b l']; [apply not_elem_of_nil|].
    assert (a <> b) by (apply (Hadj 0%nat); reflexivity).
    inversion Hs as [|? ? _ Hall']; subst.
    inversion Hall as [|? ? Hab Hal]; subst.
    intros Hin. apply elem_of_cons in Hin as [->|Hin]; [congruence|].
    rewrite Forall_forall in Hall'. specialize (Hall' _ Hin). lia.
  - apply IH. intros j x y Hx Hy. apply (Hadj (S j)); assumption.
Qed.

Lemma NoDup_adjacent l : NoDup l -> adjacent_distinct l.
Proof.
  intros Hnd j a b Ha Hb ->.
  assert (j = S j) by (eapply NoDup_lookup; eassumption). lia.
Qed.

(** The scan of [duplicates] over a non-empty sorted vector. *)
Lemma duplicates_scan l :
  (0 < length l)%nat -> Z.of_nat (length l) <= 2147483647 ->
  exists r,
    for_ret (Z.to_nat (size_t (Z.of_nat (length l) - 1))) 0 1
      (fun i (_ : unit) =>
         a <- at_ l i ;;
         b <- at_ l (i + 1) ;;
         if a =? b then Ok (inr true) else Ok (inl tt)) tt = Ok r
    /\ match r with
       | inl _ => adjacent_distinct l
       | inr b => b = true /\ ~ adjacent_distinct l
       end.
Proof.
  intros Hpos Hmax.
  assert (Hn : size_t (Z.of_nat (length l) - 1) = Z.of_nat (length l) - 1).
  { unfold size_t. apply Z.mod_small. lia. }
  rewrite Hn.
  destruct (for_ret_inv
    (fun k (_ : unit) => forall j a b, (Z.of_nat j < k) ->
        l !! j = Some a -> l !! S j = Some b -> a <> b)
    (fun r : bool => r = true /\ ~ adjacent_distinct l)
    (fun i (_ : unit) =>
         a <- at_ l i ;;
         b <- at_ l (i + 1) ;;
         if a =? b then Ok (inr true) else Ok (inl tt))
    (Z.to_nat (Z.of_nat (length l) - 1)) 0 tt)
    as [(s & Hr & HI)|(r & Hr & HQ)].
  - intros; lia.
  - intros k [] Hk HI.
    destruct (lookup_lt_is_Some_2 l k) as [a Ha]; [lia|].
    destruct (lookup_lt_is_Some_2 l (S k)) as [b Hb]; [lia|].
    rewrite (at_ok l (0 + Z.of_nat k) a) by (try lia; now rewrite Z.add_0_l, Nat2Z.id).
    cbn [bind].
    rewrite (at_ok l (0 + Z.of_nat k + 1) b)
      by (try lia; now replace (Z.to_nat (0 + Z.of_nat k + 1)) with (S k) by lia).
    cbn [bind].
    destruct (Z.eqb_spec a b) as [->|Hne].
    + right. exists true. split; [reflexivity|]. split; [reflexivity|].
      intros Hadj. now apply (Hadj k b b).
    + left. exists tt. split; [reflexivity|].
      intros j x y Hj Hx Hy.
      destruct (decide (j = k)) as [->|]; [congruence|].
      apply (HI j); [lia|assumption..].
  - exists (inl s). split; [assumption|].
    intros j a b Ha Hb. apply (HI j); [|assumption..].
    apply lookup_lt_Some in Hb. lia.
  - exists (inr r). split; assumption.
Qed.

Lemma NoDup_map_stored l :
  Forall is_short l -> NoDup (stored_abs <$> l) <-> NoDup (Z.abs <$> l).
Proof.
  intros Hs. split; intros H.
  - rewrite <- (map_unstored l Hs).
    apply NoDup_fmap_2_strong; [|assumption].
    intros x y Hx Hy Hxy.
    apply list_elem_of_fmap in Hx as (x' & -> & Hx').
    apply list_elem_of_fmap in Hy as (y' & -> & Hy').
    rewrite Forall_forall in Hs.
    rewrite !unstored_stored in Hxy by auto.
    unfold stored_abs. now rewrite Hxy.
  - replace (stored_abs <$> l) with (to_short <$> (Z.abs <$> l))
      by (rewrite <- list_fmap_compose; reflexivity).
    apply (NoDup_fmap_2_strong to_short); [|assumption].
    intros x y Hx Hy Hxy.
    apply list_elem_of_fmap in Hx as (x' & -> & Hx').
    apply list_elem_of_fmap in Hy as (y' & -> & Hy').
    rewrite Forall_forall in Hs.
    rewrite <- (unstored_stored x'), <- (unstored_stored y') by auto.
    unfold stored_abs. now rewrite Hxy.
Qed.

(** [duplicates] on a set whose first chromosome has at least one gene:
    it answers whether an absolute gene id of that chromosome occurs
    twice. *)
Lemma duplicates_first (G : Genome) (rest : list Genome) :
  wf_genome G -> 0 < len G ->
  exists b, duplicates (G :: rest) = Ok b
            /\ (b = false <-> NoDup (Z.abs <$> (pi G))).
Proof.
  intros (Hlen & Hmax & Hs) Hpos. unfold duplicates.
  rewrite collect_genes_first by assumption. cbn [bind].
  set (l := merge_sort Z.le (stored_abs <$> (pi G))).
  assert (Hperm : l ≡ₚ stored_abs <$> (pi G)) by apply merge_sort_Permutation.
  assert (Hsorted : Sorted Z.le l).
  { apply Sorted_merge_sort. intros x y. lia. }
  assert (Hl : length l = length (pi G)).
  { rewrite (Permutation_length Hperm). apply length_fmap. }
  destruct (duplicates_scan l) as (r & -> & Hr); [lia|lia|].
  cbn [bind].
  assert (Hnd : NoDup l <-> NoDup (Z.abs <$> (pi G))).
  { rewrite <- NoDup_map_stored by assumption. now rewrite Hperm. }
  destruct r as [[]|b].
  - exists false. split; [reflexivity|]. split; [|reflexivity].
    intros _. apply Hnd. now apply sorted_adjacent_NoDup.
  - destruct Hr as [-> Hr]. exists true. split; [reflexivity|].
    split; [discriminate|]. intros H. exfalso. apply Hr.
    apply NoDup_adjacent. now apply Hnd.
Qed.

(** With no gene behind [pi], [genes.size() - 1] wraps around and the
    scan reads [genes[0]]. *)
Lemma duplicates_empty (G : Genome) (rest : list Genome) :
  pi G = [] -> len G = 0 -> duplicates (G :: rest) = Err OutOfBounds.
Proof.
  intros Hpi Hlen. unfold duplicates.
  rewrite collect_genes_first by (rewrite Hpi, Hlen; reflexivity).
  rewrite Hpi. cbn [bind fmap list_fmap].
  change (merge_sort Z.le []) with (@nil Z).
  change (size_t (Z.of_nat (length (@nil Z)) - 1))
    with (Z.succ 18446744073709551614).
  rewrite Z2Nat.inj_succ by lia.
  generalize (Z.to_nat 18446744073709551614). intros n. reflexivity.
Qed.

(** The comparison loop of [unequal_content]. *)
Lemma unequal_scan (la lb : list Z) :
  length la = length lb ->
  exists r,
    for_ret (length la) 0 1
      (fun i (_ : unit) =>
         a <- at_ la i ;;
         b <- at_ lb i ;;
         if negb (a =? b) then Ok (inr true) else Ok (inl tt)) tt = Ok r
    /\ match r with
       | inl _ => la = lb
       | inr b => b = true /\ la <> lb
       end.
Proof.
  intros Hlen.
  destruct (for_ret_inv
    (fun k (_ : unit) => forall j : nat, Z.of_nat j < k -> la !! j = lb !! j)
    (fun r : bool => r = true /\ la <> lb)
    (fun i (_ : unit) =>
         a <- at_ la i ;;
         b <- at_ lb i ;;
         if negb (a =? b) then Ok (inr true) else Ok (inl tt))
    (length la) 0 tt)
    as [(s & Hr & HI)|(r & Hr & HQ)].
  - intros; lia.
  - intros k [] Hk HI.
    destruct (lookup_lt_is_Some_2 la k) as [a Ha]; [lia|].
    destruct (lookup_lt_is_Some_2 lb k) as [b Hb]; [lia|].
    rewrite (at_ok la (0 + Z.of_nat k) a)
      by (try lia; now rewrite Z.add_0_l, Nat2Z.id).
    cbn [bind].
    rewrite (at_ok lb (0 + Z.of_nat k) b)
      by (try lia; now rewrite Z.add_0_l, Nat2Z.id).
    cbn [bind].
    destruct (Z.eqb_spec a b) as [->|Hne]; cbn [negb].
    + left. exists tt. split; [reflexivity|].
      intros j Hj. destruct (decide (j = k)) as [->|]; [congruence|].
      apply HI. lia.
    + right. exists true. split; [reflexivity|]. split; [reflexivity|].
      intros ->. congruence.
  - exists (inl s). split; [assumption|].
    apply list_eq. intros j.
    destruct (decide (j < length la)%nat); [apply HI; lia|].
    rewrite !lookup_ge_None_2 by lia. reflexivity.
  - exists (inr r). split; assumption.
Qed.

Lemma Permutation_map_stored la lb :
  Forall is_short la -> Forall is_short lb ->
  (stored_abs <$> la) ≡ₚ (stored_abs <$> lb) <-> (Z.abs <$> la) ≡ₚ (Z.abs <$> lb).
Proof.
  intros Ha Hb. split; intros H.
  - rewrite <- (map_unstored la Ha), <- (map_unstored lb Hb).
    now apply fmap_Permutation.
  - replace (stored_abs <$> la) with (to_short <$> (Z.abs <$> la))
      by (rewrite <- list_fmap_compose; reflexivity).
    replace (stored_abs <$> lb) with (to_short <$> (Z.abs <$> lb))
      by (rewrite <- list_fmap_compose; reflexivity).
    now apply fmap_Permutation.
Qed.

Lemma sorted_eq_Permutation (la lb : list Z) :
  merge_sort Z.le la = merge_sort Z.le lb <-> la ≡ₚ lb.
Proof.
  split; intros H.
  - rewrite <- (merge_sort_Permutation Z.le la), H.
    apply merge_sort_Permutation.
  - apply (Sorted_unique Z.le).
    + apply Sorted_merge_sort. intros x y. lia.
    + apply Sorted_merge_sort. intros x y. lia.
    + now rewrite !merge_sort_Permutation.
Qed.

(** [unequal_content] compares the absolute gene ids of the two first
    chromosomes as multisets. *)
Lemma unequal_content_first (A B : Genome) (ra rb : list Genome) :
  wf_genome A -> wf_genome B ->
  exists u, unequal_content (A :: ra) (B :: rb) = Ok u
            /\ (u = false <-> (Z.abs <$> pi A) ≡ₚ (Z.abs <$> pi B)).
Proof.
  intros (HlA & _ & HsA) (HlB & _ & HsB). unfold unequal_content.
  rewrite !collect_genes_first by assumption. cbn [bind].
  set (la := merge_sort Z.le (stored_abs <$> pi A)).
  set (lb := merge_sort Z.le (stored_abs <$> pi B)).
  assert (Heq : la = lb <-> (Z.abs <$> pi A) ≡ₚ (Z.abs <$> pi B)).
  { unfold la, lb. rewrite sorted_eq_Permutation.
    now apply Permutation_map_stored. }
  destruct (Z.eqb_spec (Z.of_nat (length la)) (Z.of_nat (length lb)))
    as [Hlen|Hlen]; cbn [negb].
  - destruct (unequal_scan la lb) as (r & -> & Hr); [lia|]. cbn [bind].
    destruct r as [[]|b].
    + exists false. tauto.
    + destruct Hr as [-> Hr]. exists true. split; [reflexivity|].
      split; [discriminate|]. intros H. exfalso. tauto.
  - exists true. split; [reflexivity|]. split; [discriminate|].
    intros H. exfalso. apply Hlen. apply Heq in H. now rewrite H.
Qed.

(** The scan of [calculate_offset]. *)
Lemma calculate_offset_scan (genes2 : list Z) (gA : Z) :
  (exists x, x ∈ genes2 /\ Z.abs x = Z.abs gA) ->
  exists off,
    for_ret (trip_count 0 (Z.of_nat (length genes2)) 1) 0 1
      (fun i (_ : unit) =>
         x <- at_ genes2 i ;;
         if x =? gA then Ok (inr i)
         else if x =? - gA then Ok (inr (i + Z.of_nat (length genes2)))
         else Ok (inl tt)) tt = Ok (inr off)
    /\ 0 <= off < 2 * Z.of_nat (length genes2)
    /\ (off < Z.of_nat (length genes2) -> genes2 !! Z.to_nat off = Some gA)
    /\ (Z.of_nat (length genes2) <= off ->
        genes2 !! Z.to_nat (off - Z.of_nat (length genes2)) = Some (- gA)).
Proof.
  intros (x & Hin & Habs).
  set (n := Z.of_nat (length genes2)).
  replace (trip_count 0 n 1) with (length genes2).
  2:{ unfold trip_count. rewrite Z.div_1_r. subst n. lia. }
  destruct (for_ret_inv
    (fun k (_ : unit) => forall (j : nat) y, Z.of_nat j < k ->
        genes2 !! j = Some y -> y <> gA /\ y <> - gA)
    (fun off : Z => 0 <= off < 2 * n
       /\ (off < n -> genes2 !! Z.to_nat off = Some gA)
       /\ (n <= off -> genes2 !! Z.to_nat (off - n) = Some (- gA)))
    (fun i (_ : unit) =>
         x <- at_ genes2 i ;;
         if x =? gA then Ok (inr i)
         else if x =? - gA then Ok (inr (i + n))
         else Ok (inl tt))
    (length genes2) 0 tt)
    as [(s & Hr & HI)|(r & Hr & HQ)].
  - intros; lia.
  - intros k [] Hk HI.
    destruct (lookup_lt_is_Some_2 genes2 k) as [y Hy]; [lia|].
    rewrite (at_ok genes2 (0 + Z.of_nat k) y)
      by (try lia; now rewrite Z.add_0_l, Nat2Z.id).
    cbn [bind].
    destruct (Z.eqb_spec y gA) as [->|Hne].
    + right. eexists. split; [reflexivity|].
      subst n. split; [lia|]. split; [|lia].
      intros _. now rewrite Z.add_0_l, Nat2Z.id.
    + destruct (Z.eqb_spec y (- gA)) as [->|Hne'].
      * right. eexists. split; [reflexivity|].
        subst n. split; [lia|]. split; [lia|].
        intros _.
        now replace (Z.to_nat (0 + Z.of_nat k + Z.of_nat (length genes2)
                               - Z.of_nat (length genes2))) with k by lia.
      * left. exists tt. split; [reflexivity|].
        intros j z Hj Hz. destruct (decide (j = k)) as [->|].
        -- split; congruence.
        -- apply (HI j); [lia|assumption].
  - exfalso. apply list_elem_of_lookup in Hin as [j Hj].
    destruct (HI j x) as [H1 H2]; [|assumption|].
    + apply lookup_lt_Some in Hj. lia.
    + lia.
  - exists r. split; [assumption|]. exact HQ.
Qed.

(** * The extended permutation *)

(** The gene orders the graph algorithms are written for: the absolute
    gene ids of an [n]-gene chromosome are exactly [1..n]. *)
Definition signed_perm (l : list Z) : Prop :=
  (Z.abs <$> l) ≡ₚ seqZ 1 (Z.of_nat (length l)).

Definition gene (l : list Z) (j : Z) : Z := l !!! Z.to_nat j.

(** Chromosome [g2] as [build_perm2] reads it from [offset]. *)
Definition aligned (l : list Z) (offset n j : Z) : Z :=
  if offset <? n then gene l (Z.rem (offset + j) n)
  else - gene l (Z.rem (offset - j) n).

Definition enumerates (f : Z -> Z) (n : Z) : Prop :=
  (forall j, 0 <= j < n -> 1 <= Z.abs (f j) <= n)
  /\ (forall j j', 0 <= j < n -> 0 <= j' < n ->
        Z.abs (f j) = Z.abs (f j') -> j = j')
  /\ (forall w, 1 <= w <= n -> exists j, 0 <= j < n /\ Z.abs (f j) = w).

(** The two vertices of one gene are mates: [2k-1] and [2k]. *)
Definition gene_mate (v : Z) : Z := if Z.odd v then v + 1 else v - 1.

Record ext_perm_ok (n : Z) (p : arr) : Prop := {
  ep_len : alen p = 2 * n + 2;
  ep_total : forall i, 0 <= i < 2 * n + 2 ->
             exists v, cell p i = Some v /\ 0 <= v < 2 * n + 2;
  ep_inj : forall i j v, cell p i = Some v -> cell p j = Some v -> i = j;
  ep_surj : forall v, 0 <= v < 2 * n + 2 -> exists i, cell p i = Some v;
  ep_cap0 : cell p 0 = Some 0;
  ep_capn : cell p (2 * n + 1) = Some (2 * n + 1);
  ep_pair : forall k, 0 <= k < n ->
            exists v, 1 <= v <= 2 * n /\ cell p (2 * k + 1) = Some v
                      /\ cell p (2 * k + 2) = Some (gene_mate v);
}.

Lemma gene_lookup l j :
  0 <= j < Z.of_nat (length l) -> l !! Z.to_nat j = Some (gene l j).
Proof. intros H. apply list_lookup_lookup_total_lt. lia. Qed.

Lemma at_gene l j :
  0 <= j < Z.of_nat (length l) -> at_ l j = Ok (gene l j).
Proof. intros H. apply at_ok; [lia|]. now apply gene_lookup. Qed.

Lemma signed_perm_enumerates l :
  signed_perm l -> enumerates (gene l) (Z.of_nat (length l)).
Proof.
  intros Hp. unfold signed_perm in Hp. repeat split.
  - assert (Hin : Z.abs (gene l j) ∈ seqZ 1 (Z.of_nat (length l))).
    { rewrite <- Hp. apply list_elem_of_fmap. exists (gene l j).
      split; [reflexivity|]. apply list_elem_of_lookup.
      exists (Z.to_nat j). now apply gene_lookup. }
    apply elem_of_seqZ in Hin. lia.
  - assert (Hin : Z.abs (gene l j) ∈ seqZ 1 (Z.of_nat (length l))).
    { rewrite <- Hp. apply list_elem_of_fmap. exists (gene l j).
      split; [reflexivity|]. apply list_elem_of_lookup.
      exists (Z.to_nat j). now apply gene_lookup. }
    apply elem_of_seqZ in Hin. lia.
  - intros j j' Hj Hj' Heq.
    assert (Hnd : NoDup (Z.abs <$> l)) by (rewrite Hp; apply NoDup_seqZ).
    assert (Z.to_nat j = Z.to_nat j'); [|lia].
    eapply NoDup_lookup; [exact Hnd| |].
    + rewrite list_lookup_fmap, gene_lookup by lia. reflexivity.
    + rewrite list_lookup_fmap, gene_lookup by lia. simpl. now rewrite Heq.
  - intros w Hw.
    assert (Hin : w ∈ Z.abs <$> l).
    { rewrite Hp. apply elem_of_seqZ. lia. }
    apply list_elem_of_fmap in Hin as (x & -> & Hx).
    apply list_elem_of_lookup in Hx as (i & Hi).
    exists (Z.of_nat i). pose proof (lookup_lt_Some _ _ _ Hi).
    split; [lia|]. unfold gene. rewrite Nat2Z.id.
    now rewrite (list_lookup_total_correct _ _ _ Hi).
Qed.

Lemma rem_wrap a n :
  0 < n -> 0 <= a < 2 * n -> Z.rem a n = if a <? n then a else a - n.
Proof.
  intros Hn Ha. rewrite Z.rem_mod_nonneg by lia.
  destruct (Z.ltb_spec a n).
  - apply Z.mod_small. lia.
  - symmetry. apply (Z.mod_unique a n 1); lia.
Qed.

Lemma aligned_enumerates l offset :
  let n := Z.of_nat (length l) in
  enumerates (gene l) n -> 0 <= offset < 2 * n ->
  enumerates (aligned l offset n) n.
Proof.
  intros n (Hr & Hi & Hs) Ho. unfold aligned.
  assert (Hn : 0 < n \/ n <= 0) by lia. destruct Hn as [Hn|Hn].
  2:{ repeat split; intros; lia. }
  repeat split.
  - destruct (Z.ltb_spec offset n).
    + rewrite rem_wrap by lia.
      destruct (Z.ltb_spec (offset + j) n); apply Hr; lia.
    + rewrite Z.abs_opp, rem_wrap by lia.
      destruct (Z.ltb_spec (offset - j) n); apply Hr; lia.
  - destruct (Z.ltb_spec offset n).
    + rewrite rem_wrap by lia.
      destruct (Z.ltb_spec (offset + j) n); apply Hr; lia.
    + rewrite Z.abs_opp, rem_wrap by lia.
      destruct (Z.ltb_spec (offset - j) n); apply Hr; lia.
  - intros j j' Hj Hj'. destruct (Z.ltb_spec offset n).
    + rewrite !rem_wrap by lia. intros Heq. apply Hi in Heq.
      * destruct (Z.ltb_spec (offset + j) n), (Z.ltb_spec (offset + j') n); lia.
      * destruct (Z.ltb_spec (offset + j) n); lia.
      * destruct (Z.ltb_spec (offset + j') n); lia.
    + rewrite !Z.abs_opp, !rem_wrap by lia. intros Heq. apply Hi in Heq.
      * destruct (Z.ltb_spec (offset - j) n), (Z.ltb_spec (offset - j') n); lia.
      * destruct (Z.ltb_spec (offset - j) n); lia.
      * destruct (Z.ltb_spec (offset - j') n); lia.
  - intros w Hw. destruct (Hs w Hw) as (t & Ht & Hwt).
    destruct (Z.ltb_spec offset n).
    + exists (if offset <=? t then t - offset else t - offset + n).
      destruct (Z.leb_spec offset t); (split; [lia|]);
        rewrite rem_wrap by lia.
      * destruct (Z.ltb_spec (offset + (t - offset)) n); [|lia].
        now replace (offset + (t - offset)) with t by lia.
      * destruct (Z.ltb_spec (offset + (t - offset + n)) n); [lia|].
        now replace (offset + (t - offset + n) - n) with t by lia.
    + exists (if offset - t <? n then offset - t else offset - t - n).
      rewrite Z.abs_opp.
      destruct (Z.ltb_spec (offset - t) n); (split; [lia|]);
        rewrite rem_wrap by lia.
      * destruct (Z.ltb_spec (offset - (offset - t)) n); [|lia].
        now replace (offset - (offset - t)) with t by lia.
      * destruct (Z.ltb_spec (offset - (offset - t - n)) n); [lia|].
        now replace (offset - (offset - t - n) - n) with t by lia.
Qed.

(** Every scratch array of the arena has the size of the permutation. *)
Definition mem_sized (s : Z) (m : distmem_t) : Prop :=
  alen (done m) = s /\ alen (greyEdges m) = s /\ alen (stack m) = s
  /\ alen (oriented m) = s /\ alen (cc m) = s /\ alen (labeled m) = s
  /\ clen (components m) = s.

Section BuildPerm.

Variables (A B : Genome) (ra rb : list Genome) (offset : Z).

Let n := len A.
Let s := 2 * n + 2.
Let D := distmem_struct s.

Hypothesis HlenA : len A = Z.of_nat (length (pi A)).
Hypothesis HlenB : len A = Z.of_nat (length (pi B)).
Hypothesis HA : enumerates (gene (pi A)) n.
Hypothesis HB : enumerates (aligned (pi B) offset n) n.
Hypothesis Hoff : 0 <= offset < 2 * n.

(** What the first loop leaves in [perm1] for the gene at position [j]. *)
Definition perm1_at (p1 : arr) (j : Z) : Prop :=
  let x := gene (pi A) j in
  cell p1 (2 * Z.abs x - 1) = Some (if x >? 0 then 2 * j + 1 else 2 * j + 2)
  /\ cell p1 (2 * Z.abs x) = Some (if x >? 0 then 2 * j + 2 else 2 * j + 1).

(** What the second loop leaves in [perm2] for position [j]. *)
Definition perm2_at (p2 : arr) (j : Z) : Prop :=
  let y := aligned (pi B) offset n j in
  cell p2 (2 * j + 1) = Some (if y >? 0 then 2 * Z.abs y - 1 else 2 * Z.abs y)
  /\ cell p2 (2 * j + 2) = Some (if y >? 0 then 2 * Z.abs y else 2 * Z.abs y - 1).

Lemma build_perm1_loop :
  exists p1,
    for_range 0 n 1 (build_perm1 (A :: ra)) D = Ok (set_perm1 p1 D)
    /\ alen p1 = s
    /\ forall j, 0 <= j < n -> perm1_at p1 j.
Proof.
  destruct HA as (Hr & Hi & _).
  assert (Hn : 0 <= n) by (unfold n; lia).
  destruct (for_range_inv
    (fun i m => exists p1, m = set_perm1 p1 D /\ alen p1 = s
                           /\ forall j, 0 <= j < i -> perm1_at p1 j)
    (build_perm1 (A :: ra)) 0 n D Hn) as (m & Hm & p1 & -> & Hlen & Hp).
  - exists (new_arr s). repeat split; try (intros; lia).
    apply alen_new. unfold s. lia.
  - intros i m Hi' (p1 & -> & Hlen & Hp).
    unfold build_perm1. change (at_ (A :: ra) 0) with (Ok A). cbn [bind].
    rewrite at_gene by (unfold n in *; lia). cbn [bind].
    set (x := gene (pi A) i) in *.
    pose proof (Hr i Hi') as Hx. fold x in Hx.
    cbn [perm1 set_perm1].
    assert (Hfresh : forall j, 0 <= j < i ->
              Z.abs (gene (pi A) j) <> Z.abs x).
    { intros j Hj Heq. apply Hi in Heq; lia. }
    destruct (Z.gtb_spec (2 * x) 0) as [Hpos|Hneg].
    + rewrite wr_inb by (unfold s in *; lia). cbn [bind].
      rewrite wr_inb by (rewrite alen_upd; unfold s in *; lia). cbn [bind].
      eexists. split; [reflexivity|].
      eexists. split; [reflexivity|]. split; [now rewrite !alen_upd|].
      intros j Hj. unfold perm1_at.
      destruct (Z.eq_dec j i) as [->|Hne].
      * fold x. replace (Z.abs x) with x by lia.
        destruct (Z.gtb_spec x 0); [|lia].
        unfold s in *. split; cell_simp; f_equal; lia.
      * destruct (Hp j) as [H1 H2]; [lia|].
        pose proof (Hfresh j ltac:(lia)). pose proof (Hr j ltac:(lia)).
        unfold s in *. split; cell_simp; assumption.
    + rewrite wr_inb by (unfold s in *; lia). cbn [bind].
      rewrite wr_inb by (rewrite alen_upd; unfold s in *; lia). cbn [bind].
      eexists. split; [reflexivity|].
      eexists. split; [reflexivity|]. split; [now rewrite !alen_upd|].
      intros j Hj. unfold perm1_at.
      destruct (Z.eq_dec j i) as [->|Hne].
      * fold x. replace (2 * Z.abs x - 1) with (- (2 * x) - 1) by lia.
        replace (2 * Z.abs x) with (- (2 * x)) by lia.
        destruct (Z.gtb_spec x 0); [lia|].
        unfold s in *. split; cell_simp; f_equal; lia.
      * destruct (Hp j) as [H1 H2]; [lia|].
        pose proof (Hfresh j ltac:(lia)). pose proof (Hr j ltac:(lia)).
        unfold s in *. split; cell_simp; assumption.
  - exists p1. tauto.
Qed.

Lemma build_perm2_loop (p1 : arr) :
  exists p2,
    for_range 0 n 1 (build_perm2 (B :: rb) offset n) (set_perm1 p1 D)
    = Ok (set_perm2 p2 (set_perm1 p1 D))
    /\ alen p2 = s
    /\ forall j, 0 <= j < n -> perm2_at p2 j.
Proof.
  destruct HB as (Hr & _ & _).
  assert (Hn : 0 <= n) by (unfold n; lia).
  destruct (for_range_inv
    (fun i m => exists p2, m = set_perm2 p2 (set_perm1 p1 D) /\ alen p2 = s
                           /\ forall j, 0 <= j < i -> perm2_at p2 j)
    (build_perm2 (B :: rb) offset n) 0 n (set_perm1 p1 D) Hn)
    as (m & Hm & p2 & -> & Hlen & Hp).
  - exists (new_arr s). repeat split; try (intros; lia).
    apply alen_new. unfold s. lia.
  - intros i m Hi' (p2 & -> & Hlen & Hp).
    unfold build_perm2. change (at_ (B :: rb) 0) with (Ok B). cbn [bind].
    pose proof (Hr i Hi') as Hy.
    set (y := aligned (pi B) offset n i) in *.
    assert (Hg : (if offset <? n
                  then at_ (pi B) (Z.rem (offset + i) n)
                  else x <- at_ (pi B) (Z.rem (offset - i) n) ;; Ok (- x))
                 = Ok y).
    { unfold y, aligned. destruct (Z.ltb_spec offset n).
      - rewrite at_gene; [reflexivity|].
        rewrite rem_wrap by lia.
        destruct (Z.ltb_spec (offset + i) n); unfold n in *; lia.
      - rewrite at_gene; [reflexivity|].
        rewrite rem_wrap by lia.
        destruct (Z.ltb_spec (offset - i) n); unfold n in *; lia. }
    rewrite Hg. cbn [bind perm2 set_perm2].
    destruct (Z.gtb_spec y 0) as [Hpos|Hneg].
    + rewrite wr_inb by (unfold s in *; lia). cbn [bind].
      rewrite wr_inb by (rewrite alen_upd; unfold s in *; lia). cbn [bind].
      eexists. split; [reflexivity|].
      eexists. split; [reflexivity|]. split; [now rewrite !alen_upd|].
      intros j Hj. unfold perm2_at.
      destruct (Z.eq_dec j i) as [->|Hne].
      * fold y. replace (Z.abs y) with y by lia.
        destruct (Z.gtb_spec y 0); [|lia].
        unfold s in *. split; cell_simp; f_equal; lia.
      * destruct (Hp j) as [H1 H2]; [lia|].
        unfold s in *. split; cell_simp; assumption.
    + rewrite wr_inb by (unfold s in *; lia). cbn [bind].
      rewrite wr_inb by (rewrite alen_upd; unfold s in *; lia). cbn [bind].
      eexists. split; [reflexivity|].
      eexists. split; [reflexivity|]. split; [now rewrite !alen_upd|].
      intros j Hj. unfold perm2_at.
      destruct (Z.eq_dec j i) as [->|Hne].
      * fold y. replace (2 * Z.abs y - 1) with (-2 * y - 1) by lia.
        replace (2 * Z.abs y) with (-2 * y) by lia.
        destruct (Z.gtb_spec y 0); [lia|].
        unfold s in *. split; cell_simp; f_equal; lia.
      * destruct (Hp j) as [H1 H2]; [lia|].
        unfold s in *. split; cell_simp; assumption.
  - exists p2. tauto.
Qed.

Lemma build_perm_loop (p1 p2 : arr) :
  alen p1 = s -> alen p2 = s ->
  (forall j, 0 <= j < n -> perm1_at p1 j) ->
  (forall j, 0 <= j < n -> perm2_at p2 j) ->
  let M2 := set_perm2 p2 (set_perm1 p1 D) in
  exists p,
    for_range 1 (s - 1) 1 build_perm (set_perm (upd (new_arr s) 0 0) M2)
    = Ok (set_perm p M2)
    /\ alen p = s
    /\ cell p 0 = Some 0
    /\ forall i, 1 <= i < s - 1 ->
         exists x v, cell p2 i = Some x /\ cell p1 x = Some v
                     /\ cell p i = Some v.
Proof.
  intros Hl1 Hl2 H1 H2 M2.
  destruct HA as (HrA & HiA & HsA). destruct HB as (HrB & HiB & HsB).
  assert (Hn : 0 <= n) by (unfold n; lia).
  assert (Hrd : forall i, 1 <= i < s - 1 ->
            exists x v, cell p2 i = Some x /\ cell p1 x = Some v).
  { intros i Hi.
    assert (Hj : exists j, 0 <= j < n /\ (i = 2 * j + 1 \/ i = 2 * j + 2)).
    { apply pair_index. unfold s in Hi. lia. }
    destruct Hj as (j & Hj & Hij).
    destruct (H2 j Hj) as [Ha Hb]. unfold perm2_at in *.
    set (y := aligned (pi B) offset n j) in *.
    destruct (HsA (Z.abs y)) as (ja & Hja & Hy); [now apply HrB|].
    destruct (H1 ja Hja) as [Hc Hd]. rewrite Hy in Hc, Hd.
    destruct Hij as [-> | ->]; destruct (y >? 0); eauto. }
  destruct (for_range_inv
    (fun i m => exists p, m = set_perm p M2 /\ alen p = s
        /\ cell p 0 = Some 0
        /\ forall i', 1 <= i' < i ->
             exists x v, cell p2 i' = Some x /\ cell p1 x = Some v
                         /\ cell p i' = Some v)
    build_perm 1 (s - 1) (set_perm (upd (new_arr s) 0 0) M2))
    as (m & Hm & p & -> & Hlen & H0 & Hp).
  - unfold s. lia.
  - eexists. split; [reflexivity|]. rewrite alen_upd.
    split; [apply alen_new; unfold s; lia|].
    split; [|intros; lia].
    apply cell_upd_eq. rewrite alen_new; unfold s; lia.
  - intros i m Hi (p & -> & Hlen & H0 & Hp).
    destruct (Hrd i Hi) as (x & v & Hx & Hv).
    unfold build_perm. cbn [perm2 perm1 perm set_perm M2 set_perm2 set_perm1].
    rewrite (rd_cell _ _ _ Hx). cbn [bind].
    rewrite (rd_cell _ _ _ Hv). cbn [bind].
    rewrite wr_inb by lia. cbn [bind].
    eexists. split; [reflexivity|].
    eexists. split; [reflexivity|]. split; [now rewrite alen_upd|].
    split; [cell_simp; assumption|].
    intros i' Hi'. destruct (Z.eq_dec i' i) as [->|Hne].
    + exists x, v. repeat split; try assumption. now cell_simp.
    + destruct (Hp i') as (x' & v' & ? & ? & ?); [lia|].
      exists x', v'. repeat split; try assumption. now cell_simp.
  - exists p. tauto.
Qed.

Lemma gene_mate_odd k : gene_mate (2 * k + 1) = 2 * k + 2.
Proof.
  unfold gene_mate. rewrite Z.add_comm, Z.odd_add_mul_2. simpl. lia.
Qed.

Lemma gene_mate_even k : gene_mate (2 * k + 2) = 2 * k + 1.
Proof.
  unfold gene_mate. replace (2 * k + 2) with (0 + 2 * (k + 1)) by lia.
  rewrite Z.odd_add_mul_2. simpl. lia.
Qed.

(** The values of the composed permutation at the pair of position [j]. *)
Lemma composed_pair (p1 p2 p : arr) :
  (forall j, 0 <= j < n -> perm1_at p1 j) ->
  (forall j, 0 <= j < n -> perm2_at p2 j) ->
  (forall i, 1 <= i < s - 1 ->
     exists x v, cell p2 i = Some x /\ cell p1 x = Some v
                 /\ cell p i = Some v) ->
  forall j, 0 <= j < n ->
    exists ja v, 0 <= ja < n
      /\ Z.abs (gene (pi A) ja) = Z.abs (aligned (pi B) offset n j)
      /\ (v = 2 * ja + 1 \/ v = 2 * ja + 2)
      /\ cell p (2 * j + 1) = Some v
      /\ cell p (2 * j + 2) = Some (gene_mate v).
Proof.
  intros H1 H2 Hp j Hj.
  destruct HA as (HrA & HiA & HsA). destruct HB as (HrB & HiB & HsB).
  destruct (H2 j Hj) as [Ha Hb]. unfold perm2_at in *.
  set (y := aligned (pi B) offset n j) in *.
  destruct (HsA (Z.abs y)) as (ja & Hja & Hy); [now apply HrB|].
  destruct (H1 ja Hja) as [Hc Hd]. unfold perm1_at in *.
  rewrite Hy in Hc, Hd.
  destruct (Hp (2 * j + 1)) as (x1 & v1 & Hx1 & Hv1 & Hp1); [unfold s; lia|].
  destruct (Hp (2 * j + 2)) as (x2 & v2 & Hx2 & Hv2 & Hp2); [unfold s; lia|].
  rewrite Ha in Hx1. rewrite Hb in Hx2.
  exists ja, v1. split; [assumption|]. split; [assumption|].
  rewrite Hp1, Hp2.
  destruct (y >? 0), (gene (pi A) ja >? 0); simplify_eq;
    rewrite ?gene_mate_odd, ?gene_mate_even; auto.
Qed.

Lemma extended_perm_ok :
  exists p1 p2 p,
    extended_perm (A :: ra) (B :: rb) offset
    = Ok (set_perm p (set_perm2 p2 (set_perm1 p1 D)))
    /\ ext_perm_ok n p
    /\ (forall j, 0 <= j < n -> perm1_at p1 j)
    /\ (forall j, 0 <= j < n -> perm2_at p2 j)
    /\ (forall i, 1 <= i < s - 1 ->
          exists x v, cell p2 i = Some x /\ cell p1 x = Some v
                      /\ cell p i = Some v).
Proof.
  destruct build_perm1_loop as (p1 & E1 & Hl1 & H1).
  destruct (build_perm2_loop p1) as (p2 & E2 & Hl2 & H2).
  destruct (build_perm_loop p1 p2 Hl1 Hl2 H1 H2) as (p & E3 & Hl & H0 & Hp).
  assert (Hn : 0 <= n) by (unfold n; lia).
  exists p1, p2, (upd p (s - 1) (s - 1)).
  split; [|split; [|split; [exact H1|split; [exact H2|]]]].
  - unfold extended_perm. change (at_ (A :: ra) 0) with (Ok A). cbn [bind].
    fold n. fold s. fold D. rewrite E1. cbn [bind]. rewrite E2. cbn [bind].
    cbn [perm set_perm2 set_perm1]. change (perm D) with (new_arr s).
    rewrite wr_inb by (rewrite alen_new; unfold s; lia). cbn [bind].
    rewrite E3. cbn [bind perm set_perm].
    rewrite wr_inb by (unfold s in *; lia). reflexivity.
  - pose proof (composed_pair p1 p2 p H1 H2 Hp) as Hpair.
    destruct HB as (HrB & HiB & HsB). destruct HA as (HrA & HiA & HsA).
    assert (Hval : forall i, 1 <= i < s - 1 ->
              exists j ja v, 0 <= j < n /\ 0 <= ja < n
                 /\ (i = 2 * j + 1 \/ i = 2 * j + 2)
                 /\ Z.abs (gene (pi A) ja) = Z.abs (aligned (pi B) offset n j)
                 /\ (v = 2 * ja + 1 \/ v = 2 * ja + 2)
                 /\ cell p (2 * j + 1) = Some v
                 /\ cell p (2 * j + 2) = Some (gene_mate v)).
    { intros i Hi.
      assert (Hj : exists j, 0 <= j < n /\ (i = 2 * j + 1 \/ i = 2 * j + 2)).
      { apply pair_index. unfold s in Hi. lia. }
      destruct Hj as (j & Hj & Hij).
      destruct (Hpair j Hj) as (ja & v & ? & ? & ? & ? & ?).
      exists j, ja, v. tauto. }
    assert (Hcell : forall i v, cell (upd p (s - 1) (s - 1)) i = Some v ->
              (i = 0 /\ v = 0) \/ (i = s - 1 /\ v = s - 1)
              \/ (1 <= i < s - 1 /\ cell p i = Some v /\ 1 <= v < s - 1)).
    { intros i v Hc. pose proof (cell_inb _ _ _ Hc) as Hb.
      rewrite alen_upd, Hl in Hb.
      destruct (Z.eq_dec i (s - 1)) as [->|Hne].
      - rewrite cell_upd_eq in Hc by lia. right. left. split; congruence.
      - rewrite cell_upd_ne in Hc by (unfold s in *; lia).
        destruct (Z.eq_dec i 0) as [->|Hne0].
        + left. split; congruence.
        + right. right. split; [lia|]. split; [assumption|].
          destruct (Hval i) as (j & ja & w & ? & ? & Hij & ? & Hw & Hc1 & Hc2);
            [lia|].
          unfold s.
          destruct Hij as [-> | ->], Hw as [-> | ->];
            rewrite ?gene_mate_odd, ?gene_mate_even in *; simplify_eq; lia. }
    constructor.
    + now rewrite alen_upd.
    + intros i Hi. fold s in Hi.
      destruct (Z.eq_dec i (s - 1)) as [->|Hne].
      { exists (s - 1). rewrite cell_upd_eq by lia. split; [reflexivity|lia]. }
      rewrite cell_upd_ne by (unfold s in *; lia).
      destruct (Z.eq_dec i 0) as [->|Hne0].
      { exists 0. split; [assumption|lia]. }
      destruct (Hval i) as (j & ja & w & ? & ? & Hij & ? & Hw & Hc1 & Hc2);
        [lia|].
      unfold s.
      destruct Hij as [-> | ->], Hw as [-> | ->];
        rewrite ?gene_mate_odd, ?gene_mate_even in *; eexists;
        (split; [eassumption|lia]).
    + intros i i' v Hc Hc'.
      apply Hcell in Hc as [(-> & ->)|[(-> & ->)|(Hi & Hc & Hv)]];
      apply Hcell in Hc' as [(-> & Hv')|[(-> & Hv')|(Hi' & Hc' & Hv')]];
        try lia.
      destruct (Hval i Hi) as (j & ja & w & ? & ? & Hij & Hg & Hw & Hc1 & Hc2).
      destruct (Hval i' Hi')
        as (j' & ja' & w' & ? & ? & Hij' & Hg' & Hw' & Hc1' & Hc2').
      assert (ja = ja').
      { destruct Hij as [-> | ->], Hij' as [-> | ->],
          Hw as [-> | ->], Hw' as [-> | ->];
          rewrite ?gene_mate_odd, ?gene_mate_even in *; simplify_eq; lia. }
      subst ja'. assert (j = j') by (apply HiB; [lia|lia|congruence]).
      subst j'.
      destruct Hij as [-> | ->], Hij' as [-> | ->],
          Hw as [-> | ->], Hw' as [-> | ->];
          rewrite ?gene_mate_odd, ?gene_mate_even in *; simplify_eq; lia.
    + intros v Hv. fold s in Hv.
      destruct (Z.eq_dec v (s - 1)) as [->|Hne].
      { exists (s - 1). apply cell_upd_eq. lia. }
      destruct (Z.eq_dec v 0) as [->|Hne0].
      { exists 0. rewrite cell_upd_ne by (unfold s; lia). assumption. }
      assert (Hja : exists ja, 0 <= ja < n /\ (v = 2 * ja + 1 \/ v = 2 * ja + 2)).
      { apply pair_index. unfold s in *. lia. }
      destruct Hja as (ja & Hja & Hv').
      destruct (HsB (Z.abs (gene (pi A) ja))) as (j & Hj & Hjj);
        [now apply HrA|].
      destruct (Hpair j Hj) as (ja' & w & Hja' & Hg & Hw & Hc1 & Hc2).
      assert (ja' = ja) by (apply HiA; [lia|lia|congruence]). subst ja'.
      destruct Hv' as [-> | ->], Hw as [-> | ->];
        rewrite ?gene_mate_odd, ?gene_mate_even in *.
      * exists (2 * j + 1). rewrite cell_upd_ne by (unfold s; lia). assumption.
      * exists (2 * j + 2). rewrite cell_upd_ne by (unfold s; lia). assumption.
      * exists (2 * j + 2). rewrite cell_upd_ne by (unfold s; lia). assumption.
      * exists (2 * j + 1). rewrite cell_upd_ne by (unfold s; lia). assumption.
    + rewrite cell_upd_ne by (unfold s; lia). assumption.
    + replace (2 * n + 1) with (s - 1) by (unfold s; lia).
      apply cell_upd_eq. lia.
    + intros k Hk.
      destruct (Hpair k Hk) as (ja & v & Hja & _ & Hv & Hc1 & Hc2).
      exists v. split; [lia|].
      rewrite !cell_upd_ne by (unfold s; lia). tauto.
  - intros i Hi. destruct (Hp i Hi) as (x & v & Hx & Hv & Hc).
    exists x, v. rewrite cell_upd_ne by lia. tauto.
Qed.

End BuildPerm.

(** * Grey edges and cycles *)

(** The other end of the black edge at a position, and the other value of
    a grey edge: [2k] and [2k+1] go together. *)
Definition black (x : Z) : Z := if Z.rem x 2 =? 0 then x + 1 else x - 1.

(** What [num_cycles] computes in [greyEdges]: the position [j] holding
    the value that goes with the value at [i], or [-1] when [j] is the
    black-edge partner of [i]. *)
Definition grey_at (p g : arr) (i : Z) : Prop :=
  forall v, cell p i = Some v ->
    exists j, cell p j = Some (black v)
              /\ cell g i = Some (if j =? black i then -1 else j).

Definition grey_ok (s : Z) (p g : arr) : Prop :=
  alen g = s /\ forall i, 0 <= i < s -> grey_at p g i.

(** A vertex with a grey edge (not a self loop). *)
Definition nsl (g : arr) (i : Z) : Prop :=
  exists j, cell g i = Some j /\ j <> -1.

Lemma black_even x : 0 <= x -> Z.odd x = false -> black x = x + 1.
Proof.
  intros Hx Ho. unfold black. rewrite Z.rem_mod_nonneg by lia.
  rewrite Zmod_odd, Ho. reflexivity.
Qed.

Lemma black_odd x : 0 <= x -> Z.odd x = true -> black x = x - 1.
Proof.
  intros Hx Ho. unfold black. rewrite Z.rem_mod_nonneg by lia.
  rewrite Zmod_odd, Ho. reflexivity.
Qed.

Lemma black_cases x :
  0 <= x -> (Z.odd x = false /\ black x = x + 1 /\ Z.odd (x + 1) = true)
            \/ (Z.odd x = true /\ black x = x - 1 /\ Z.odd (x - 1) = false).
Proof.
  intros Hx. destruct (Z.odd x) eqn:E.
  - right. split; [reflexivity|]. split; [now apply black_odd|].
    replace (x - 1) with (Z.pred x) by lia. rewrite Z.odd_pred.
    rewrite <- Z.negb_odd, E. reflexivity.
  - left. split; [reflexivity|]. split; [now apply black_even|].
    replace (x + 1) with (Z.succ x) by lia. rewrite Z.odd_succ.
    rewrite <- Z.negb_odd, E. reflexivity.
Qed.

Lemma black_invol x : 0 <= x -> black (black x) = x.
Proof.
  intros Hx. destruct (black_cases x Hx) as [(Ho & -> & Ho')|(Ho & -> & Ho')].
  - rewrite black_odd by (lia || assumption). lia.
  - assert (x <> 0) by (intros ->; discriminate).
    rewrite black_even by (lia || assumption). lia.
Qed.

Lemma black_ne x : black x <> x.
Proof. unfold black. destruct (Z.rem x 2 =? 0); lia. Qed.

Lemma black_range n x : 0 <= x < 2 * n + 2 -> 0 <= black x < 2 * n + 2.
Proof.
  intros Hx. destruct (black_cases x) as [(Ho & -> & Ho')|(Ho & -> & Ho')];
    [lia| |].
  - assert (x <> 2 * n + 1); [|lia]. intros ->.
    rewrite Z.add_comm, Z.odd_add_mul_2 in Ho. discriminate.
  - assert (x <> 0) by (intros ->; discriminate). lia.
Qed.

Lemma black_inj x y : 0 <= x -> 0 <= y -> black x = black y -> x = y.
Proof.
  intros Hx Hy H. rewrite <- (black_invol x), <- (black_invol y) by lia.
  now rewrite H.
Qed.

Lemma gene_mate_black v :
  1 <= v ->
  (Z.odd v = true /\ gene_mate v = v + 1 /\ black v = v - 1
   /\ black (v + 1) = v + 2)
  \/ (Z.odd v = false /\ gene_mate v = v - 1 /\ black v = v + 1
      /\ black (v - 1) = v - 2).
Proof.
  intros Hv. unfold gene_mate.
  destruct (black_cases v) as [(Ho & Hb & Ho')|(Ho & Hb & Ho')]; [lia| |];
    rewrite Ho.
  - right. repeat split; try assumption.
    assert (v <> 1) by (intros ->; discriminate).
    rewrite black_odd; [lia|lia|].
    replace (v - 1) with (Z.pred v) by lia. rewrite Z.odd_pred.
    rewrite <- Z.negb_odd, Ho. reflexivity.
  - left. repeat split; try assumption.
    rewrite black_even; [lia|lia|].
    replace (v + 1) with (Z.succ v) by lia. rewrite Z.odd_succ.
    rewrite <- Z.negb_odd, Ho. reflexivity.
Qed.

Ltac mem_sized_tac :=
  unfold mem_sized in *;
  cbn [done greyEdges stack oriented cc labeled components
       set_done set_greyEdges set_labeled set_stack set_oriented set_cc
       set_components set_perm set_perm1 set_perm2] in *;
  rewrite ?alen_upd, ?clen_cupd; intuition (try lia).

Section Grey.

Variables (n : Z) (p : arr).
Let s := 2 * n + 2.
Hypothesis Hn : 0 <= n.
Hypothesis Hp : ext_perm_ok n p.

Lemma perm_cell i : 0 <= i < s -> exists v, cell p i = Some v /\ 0 <= v < s.
Proof. apply (ep_total n p Hp). Qed.

Lemma perm_index v : 0 <= v < s -> exists i, cell p i = Some v /\ 0 <= i < s.
Proof.
  intros Hv. destruct (ep_surj n p Hp v Hv) as (i & Hi).
  exists i. split; [assumption|].
  pose proof (cell_inb _ _ _ Hi). rewrite (ep_len n p Hp) in *. assumption.
Qed.

Section Derived.

Variable g : arr.
Hypothesis Hg : grey_ok s p g.

Lemma grey_cases i :
  0 <= i < s ->
  exists j, cell g i = Some j
            /\ (j = -1 \/ (0 <= j < s /\ j <> i /\ j <> black i
                           /\ cell g j = Some i)).
Proof.
  intros Hi. destruct Hg as [Hlen Hat].
  destruct (perm_cell i Hi) as (v & Hv & Hvr).
  destruct (Hat i Hi v Hv) as (j & Hj & Hgi).
  destruct (Z.eqb_spec j (black i)) as [->|Hne].
  - exists (-1). tauto.
  - exists j. split; [assumption|]. right.
    pose proof (cell_inb _ _ _ Hj) as Hjr. rewrite (ep_len n p Hp) in Hjr.
    fold s in Hjr. split; [assumption|].
    split.
    { intros ->. rewrite Hv in Hj. injection Hj as Hj.
      symmetry in Hj. now apply black_ne in Hj. }
    split; [assumption|].
    destruct (Hat j Hjr _ Hj) as (i' & Hi' & Hgj).
    rewrite black_invol in Hi' by lia.
    assert (i' = i) by (eapply (ep_inj n p Hp); eassumption). subst i'.
    destruct (Z.eqb_spec i (black j)) as [->|]; [|assumption].
    rewrite black_invol in Hne by lia. congruence.
Qed.

Lemma grey_sym i :
  0 <= i < s -> cell g i = Some (-1) -> cell g (black i) = Some (-1).
Proof.
  intros Hi Hgi. destruct Hg as [Hlen Hat].
  destruct (perm_cell i Hi) as (v & Hv & Hvr).
  destruct (Hat i Hi v Hv) as (j & Hj & Hgi').
  rewrite Hgi in Hgi'.
  pose proof (cell_inb _ _ _ Hj) as Hjr.
  destruct (Z.eqb_spec j (black i)) as [->|Hne]; [|injection Hgi'; lia].
  pose proof (black_range n i Hi) as Hbi. fold s in Hbi.
  destruct (Hat _ Hbi _ Hj) as (i' & Hi' & Hgb).
  rewrite black_invol in Hi' by lia.
  assert (i' = i) by (eapply (ep_inj n p Hp); eassumption). subst i'.
  rewrite black_invol in Hgb by lia. now rewrite Z.eqb_refl in Hgb.
Qed.

Lemma nsl_black i : 0 <= i < s -> nsl g i -> nsl g (black i).
Proof.
  intros Hi (j & Hj & Hne).
  pose proof (black_range n i Hi) as Hbi. fold s in Hbi.
  destruct (grey_cases (black i) Hbi) as (j' & Hj' & [->|H]).
  - apply grey_sym in Hj'; [|assumption].
    rewrite black_invol in Hj' by lia. congruence.
  - exists j'. split; [assumption|lia].
Qed.

Lemma nsl_range i : nsl g i -> 0 <= i < s.
Proof.
  intros (j & Hj & _). pose proof (cell_inb _ _ _ Hj) as H.
  destruct Hg as [Hlen _]. now rewrite Hlen in H.
Qed.

Lemma nsl_grey i j :
  cell g i = Some j -> j <> -1 ->
  0 <= j < s /\ j <> i /\ cell g j = Some i /\ nsl g j.
Proof.
  intros Hj Hne.
  assert (Hi : 0 <= i < s) by (apply nsl_range; exists j; tauto).
  destruct (grey_cases i Hi) as (j' & Hj' & [->|H]); [congruence|].
  assert (j' = j) by congruence. subst j'.
  repeat split; try tauto; try lia.
  exists i. split; [tauto|lia].
Qed.

End Derived.

(** The first loop: [invperm] is the inverse of [perm]. *)
Definition invperm_ok (d : arr) : Prop :=
  forall i v, cell p i = Some v -> cell d v = Some i.

Lemma invperm_loop (m0 : distmem_t) :
  mem_sized s m0 ->
  exists m,
    for_range 0 s 1 (num_cycles_invperm p) m0 = Ok m
    /\ mem_sized s m
    /\ invperm_ok (done m)
    /\ (forall i, 0 <= i < s -> cell (greyEdges m) i = Some (-1))
    /\ labeled m = labeled m0.
Proof.
  intros Hm0.
  destruct (for_range_inv
    (fun i m => mem_sized s m
       /\ (forall i' v, 0 <= i' < i -> cell p i' = Some v ->
             cell (done m) v = Some i')
       /\ (forall i', 0 <= i' < i -> cell (greyEdges m) i' = Some (-1))
       /\ labeled m = labeled m0)
    (num_cycles_invperm p) 0 s m0) as (m & Hm & Hs & Hinv & Hgr & Hlab).
  - unfold s. lia.
  - split; [assumption|]. split; [intros; lia|]. split; [intros; lia|reflexivity].
  - intros i m Hi (Hs & Hinv & Hgr & Hlab).
    destruct (perm_cell i Hi) as (v & Hv & Hvr).
    unfold num_cycles_invperm. rewrite (rd_cell _ _ _ Hv). cbn [bind].
    rewrite wr_inb by (unfold mem_sized in Hs; lia). cbn [bind].
    rewrite wr_inb by (unfold mem_sized in Hs; lia). cbn [bind].
    eexists. split; [reflexivity|].
    split; [mem_sized_tac|]. cbn [done greyEdges labeled set_greyEdges set_done].
    split; [|split; [|assumption]].
    + intros i' v' Hi' Hv'. destruct (Z.eq_dec i' i) as [->|Hne].
      * assert (v' = v) by congruence. subst v'.
        apply cell_upd_eq. unfold mem_sized in Hs. lia.
      * assert (v' <> v).
        { intros ->. apply Hne. eapply (ep_inj n p Hp); eassumption. }
        rewrite cell_upd_ne by lia. apply Hinv; [lia|assumption].
    + intros i' Hi'. destruct (Z.eq_dec i' i) as [->|Hne].
      * apply cell_upd_eq. unfold mem_sized in Hs. lia.
      * rewrite cell_upd_ne by lia. apply Hgr. lia.
  - exists m. split; [assumption|]. split; [assumption|].
    split; [|split; assumption].
    intros i v Hv. apply Hinv; [|assumption].
    pose proof (cell_inb _ _ _ Hv) as H. now rewrite (ep_len n p Hp) in H.
Qed.

Lemma invperm_read (d : arr) v :
  invperm_ok d -> 0 <= v < s ->
  exists j, cell p j = Some v /\ cell d v = Some j /\ 0 <= j < s.
Proof.
  intros Hd Hv. destruct (perm_index v Hv) as (j & Hj & Hjr).
  exists j. split; [assumption|]. split; [|assumption]. now apply Hd.
Qed.

(** Writing the grey edge of one position. *)
Lemma grey_at_set (g : arr) i v j :
  0 <= i < alen g ->
  cell p i = Some v -> cell p j = Some (black v) ->
  cell g i = Some (-1) ->
  exists g',
    (if negb (j =? black i)
     then x <- wr g i j ;; Ok x else Ok g) = Ok g'
    /\ alen g' = alen g
    /\ grey_at p g' i
    /\ forall i', i' <> i -> cell g' i' = cell g i'.
Proof.
  intros Hi Hv Hj Hgi.
  destruct (Z.eqb_spec j (black i)) as [->|Hne]; cbn [negb].
  - exists g. repeat split; try reflexivity.
    intros v' Hv'. assert (v' = v) by congruence. subst v'.
    exists (black i). split; [assumption|]. now rewrite Z.eqb_refl.
  - rewrite wr_inb by assumption. cbn [bind].
    exists (upd g i j). split; [reflexivity|]. split; [apply alen_upd|].
    split.
    + intros v' Hv'. assert (v' = v) by congruence. subst v'.
      exists j. split; [assumption|].
      destruct (Z.eqb_spec j (black i)); [contradiction|].
      now apply cell_upd_eq.
    + intros i' Hi'. apply cell_upd_ne; lia.
Qed.

Lemma grey_at_ext (g g' : arr) i :
  cell g' i = cell g i -> grey_at p g i -> grey_at p g' i.
Proof.
  intros Heq H v Hv. destruct (H v Hv) as (j & Hj & Hg).
  exists j. split; [assumption|]. congruence.
Qed.

(** The same on the arena, in the form the code has it. *)
Lemma grey_edge_set (m : distmem_t) i b v j :
  mem_sized s m -> 0 <= i < s -> b = black i ->
  cell p i = Some v -> cell p j = Some (black v) ->
  cell (greyEdges m) i = Some (-1) ->
  exists m',
    (if negb (j =? b)
     then g <- wr (greyEdges m) i j ;; Ok (set_greyEdges g m)
     else Ok m) = Ok m'
    /\ mem_sized s m' /\ done m' = done m /\ labeled m' = labeled m
    /\ grey_at p (greyEdges m') i
    /\ forall i', i' <> i -> cell (greyEdges m') i' = cell (greyEdges m) i'.
Proof.
  intros Hs Hi -> Hv Hj Hgi.
  assert (Hlen : alen (greyEdges m) = s) by (unfold mem_sized in Hs; tauto).
  destruct (grey_at_set (greyEdges m) i v j) as (g' & Hg' & Hl' & Hat & Hfr);
    try assumption; [lia|].
  destruct (Z.eqb_spec j (black i)) as [Heq|Hne]; cbn [negb] in *.
  - injection Hg' as <-. exists m. tauto.
  - rewrite wr_inb in * by lia. cbn [bind] in *. injection Hg' as <-.
    eexists. split; [reflexivity|]. split; [mem_sized_tac|].
    cbn [done labeled greyEdges set_greyEdges]. tauto.
Qed.

Lemma grey_loop (m1 : distmem_t) :
  mem_sized s m1 -> invperm_ok (done m1) ->
  grey_at p (greyEdges m1) 0 ->
  (forall i, 1 <= i < s -> cell (greyEdges m1) i = Some (-1)) ->
  exists m,
    for_range 1 (s - 1) 2 (num_cycles_grey p) m1 = Ok m
    /\ mem_sized s m /\ done m = done m1 /\ labeled m = labeled m1
    /\ (forall i, 0 <= i < s - 1 -> grey_at p (greyEdges m) i)
    /\ cell (greyEdges m) (s - 1) = Some (-1).
Proof.
  intros Hs1 Hinv H0 Hrest.
  destruct (for_range_inv2
    (fun i m => mem_sized s m /\ done m = done m1 /\ labeled m = labeled m1
       /\ (forall i', 0 <= i' < i -> grey_at p (greyEdges m) i')
       /\ (forall i', i <= i' < s -> cell (greyEdges m) i' = Some (-1)))
    (num_cycles_grey p) 1 (s - 1) n m1 Hn)
    as (m & Hm & Hs & Hd & Hl & Hat & Hr).
  - right. unfold s. lia.
  - split; [assumption|]. split; [reflexivity|]. split; [reflexivity|].
    split; [|assumption].
    intros i' Hi'. replace i' with 0 by lia. assumption.
  - intros j m Hj (Hs & Hd & Hl & Hat & Hr).
    destruct (ep_pair n p Hp j Hj) as (v & Hv & Hc1 & Hc2).
    replace (2 * j + 1) with (1 + 2 * j) in Hc1 by lia.
    replace (2 * j + 2) with (1 + 2 * j + 1) in Hc2 by lia.
    set (i := 1 + 2 * j) in *.
    assert (Hio : Z.odd i = true).
    { unfold i. now rewrite Z.odd_add_mul_2. }
    assert (Hbi : black i = i - 1) by (apply black_odd; [lia|assumption]).
    assert (Hbi' : black (i + 1) = i + 2).
    { rewrite black_even; [lia|lia|].
      replace (i + 1) with (Z.succ i) by lia.
      now rewrite Z.odd_succ, <- Z.negb_odd, Hio. }
    unfold num_cycles_grey.
    rewrite (rd_cell _ _ _ Hc1). cbn [bind].
    rewrite (rd_cell _ _ _ Hc2). cbn [bind].
    assert (Hrd : exists ja jb,
      cell p ja = Some (black v) /\ cell p jb = Some (black (gene_mate v))
      /\ (if v <? gene_mate v
          then j1 <- rd (done m) (v - 1) ;;
               j2 <- rd (done m) (v + 2) ;; Ok (j1, j2)
          else j1 <- rd (done m) (v + 1) ;;
               j2 <- rd (done m) (v - 2) ;; Ok (j1, j2)) = Ok (ja, jb)).
    { rewrite Hd.
      destruct (gene_mate_black v) as [(Ho & -> & Hb1 & Hb2)|(Ho & -> & Hb1 & Hb2)];
        [lia| |].
      - assert (v <> 2 * n).
        { intros ->. replace (2 * n) with (0 + 2 * n) in Ho by lia.
          rewrite Z.odd_add_mul_2 in Ho. discriminate. }
        destruct (invperm_read _ (v - 1) Hinv) as (ja & Hja & Hda & _);
          [unfold s; lia|].
        destruct (invperm_read _ (v + 2) Hinv) as (jb & Hjb & Hdb & _);
          [unfold s; lia|].
        exists ja, jb. rewrite Hb1, Hb2.
        destruct (Z.ltb_spec v (v + 1)); [|lia].
        rewrite (rd_cell _ _ _ Hda). cbn [bind].
        rewrite (rd_cell _ _ _ Hdb). tauto.
      - assert (v <> 1) by (intros ->; discriminate).
        destruct (invperm_read _ (v + 1) Hinv) as (ja & Hja & Hda & _);
          [unfold s; lia|].
        destruct (invperm_read _ (v - 2) Hinv) as (jb & Hjb & Hdb & _);
          [unfold s; lia|].
        exists ja, jb. rewrite Hb1, Hb2.
        destruct (Z.ltb_spec v (v - 1)); [lia|].
        rewrite (rd_cell _ _ _ Hda). cbn [bind].
        rewrite (rd_cell _ _ _ Hdb). tauto. }
    destruct Hrd as (ja & jb & Hja & Hjb & ->). cbn [bind fst snd].
    destruct (grey_edge_set m i (i - 1) v ja) as (m2 & -> & Hs2 & Hd2 & Hl2 & Hat2 & Hfr2);
      try assumption; [unfold i, s; lia|congruence|apply Hr; unfold i, s; lia|].
    cbn [bind].
    destruct (grey_edge_set m2 (i + 1) (i + 2) (gene_mate v) jb)
      as (m3 & -> & Hs3 & Hd3 & Hl3 & Hat3 & Hfr3);
      try assumption; [unfold i, s; lia|congruence| |].
    { rewrite Hfr2 by lia. apply Hr. unfold i, s. lia. }
    exists m3. split; [reflexivity|].
    split; [assumption|]. split; [congruence|]. split; [congruence|].
    replace (1 + 2 * (j + 1)) with (i + 2) by (unfold i; lia).
    split.
    + intros i' Hi'.
      destruct (Z.eq_dec i' (i + 1)) as [->|Hne1]; [assumption|].
      destruct (Z.eq_dec i' i) as [->|Hne].
      * eapply grey_at_ext; [|exact Hat2]. apply Hfr3. lia.
      * eapply grey_at_ext; [|apply (Hat i'); lia].
        rewrite Hfr3, Hfr2 by lia. reflexivity.
    + intros i' Hi'. rewrite Hfr3, Hfr2 by lia. apply Hr. lia.
  - exists m. split; [assumption|]. split; [assumption|].
    split; [assumption|]. split; [assumption|].
    replace (1 + 2 * n) with (s - 1) in * by (unfold s; lia).
    split; [assumption|]. apply Hr. unfold s. lia.
Qed.

Lemma done_clear_loop (m1 : distmem_t) :
  mem_sized s m1 ->
  exists m,
    for_range 0 s 1 (fun i m => d <- wr (done m) i 0 ;; Ok (set_done d m)) m1
    = Ok m
    /\ mem_sized s m /\ greyEdges m = greyEdges m1 /\ labeled m = labeled m1
    /\ forall i, 0 <= i < s -> cell (done m) i = Some 0.
Proof.
  intros Hs1.
  destruct (for_range_inv
    (fun i m => mem_sized s m /\ greyEdges m = greyEdges m1
       /\ labeled m = labeled m1
       /\ forall i', 0 <= i' < i -> cell (done m) i' = Some 0)
    (fun i m => d <- wr (done m) i 0 ;; Ok (set_done d m)) 0 s m1)
    as (m & Hm & H).
  - unfold s. lia.
  - split; [assumption|]. split; [reflexivity|]. split; [reflexivity|].
    intros; lia.
  - intros i m Hi (Hs & Hg & Hl & Hd).
    rewrite wr_inb by (unfold mem_sized in Hs; lia). cbn [bind].
    eexists. split; [reflexivity|]. split; [mem_sized_tac|].
    cbn [greyEdges labeled done set_done].
    split; [assumption|]. split; [assumption|].
    intros i' Hi'. destruct (Z.eq_dec i' i) as [->|Hne].
    + apply cell_upd_eq. unfold mem_sized in Hs. lia.
    + rewrite cell_upd_ne by lia. apply Hd. lia.
  - exists m. tauto.
Qed.

(** The grey edges [num_cycles] leaves behind, before it counts. *)
Lemma grey_edges_ok (m0 : distmem_t) :
  mem_sized s m0 ->
  exists m,
    (mem_sized s m /\ grey_ok s p (greyEdges m)
     /\ labeled m = labeled m0
     /\ forall i, 0 <= i < s -> cell (done m) i = Some 0)
    /\ forall (A : Type) (k : distmem_t -> result A),
      (m <- for_range 0 s 1 (num_cycles_invperm p) m0 ;;
       j1 <- rd (done m) 1 ;;
       m <- (if negb (j1 =? 1)
             then g <- wr (greyEdges m) 0 j1 ;; Ok (set_greyEdges g m)
             else Ok m) ;;
       m <- for_range 1 (s - 1) 2 (num_cycles_grey p) m ;;
       j1 <- rd (done m) (s - 2) ;;
       m <- (if negb (j1 =? s - 2)
             then g <- wr (greyEdges m) (s - 1) j1 ;; Ok (set_greyEdges g m)
             else Ok m) ;;
       m <- for_range 0 s 1
              (fun i m => d <- wr (done m) i 0 ;; Ok (set_done d m)) m ;;
       k m) = k m.
Proof.
  intros Hs0.
  destruct (invperm_loop m0 Hs0) as (m1 & E1 & Hs1 & Hinv & Hg1 & Hl1).
  destruct (invperm_read _ 1 Hinv) as (j1 & Hj1 & Hd1 & _); [unfold s; lia|].
  destruct (grey_edge_set m1 0 1 0 j1)
    as (m2 & E2 & Hs2 & Hd2 & Hl2 & Hat2 & Hfr2);
    try assumption; try reflexivity;
    [unfold s; lia|apply (ep_cap0 n p Hp)|apply Hg1; unfold s; lia|].
  destruct (grey_loop m2) as (m3 & E3 & Hs3 & Hd3 & Hl3 & Hat3 & Hlast);
    try assumption; [now rewrite Hd2| |].
  { intros i Hi. rewrite Hfr2 by lia. apply Hg1. lia. }
  assert (Hcap : cell p (s - 1) = Some (s - 1)).
  { replace (s - 1) with (2 * n + 1) by (unfold s; lia). apply (ep_capn n p Hp). }
  assert (Hodd : Z.odd (s - 1) = true).
  { replace (s - 1) with (1 + 2 * n) by (unfold s; lia).
    now rewrite Z.odd_add_mul_2. }
  assert (Hbl : black (s - 1) = s - 2).
  { rewrite black_odd; [lia|unfold s; lia|assumption]. }
  destruct (invperm_read _ (s - 2) Hinv) as (j2 & Hj2 & Hd4 & _);
    [unfold s; lia|].
  destruct (grey_edge_set m3 (s - 1) (s - 2) (s - 1) j2)
    as (m4 & E4 & Hs4 & Hd5 & Hl4 & Hat4 & Hfr4);
    try assumption; [unfold s; lia|congruence|congruence|].
  destruct (done_clear_loop m4 Hs4) as (m5 & E5 & Hs5 & Hg5 & Hl5 & Hzero).
  exists m5. split.
  - split; [assumption|].
    split; [|split; [congruence|assumption]].
    split; [unfold mem_sized in Hs5; tauto|].
    intros i Hi. rewrite Hg5.
    destruct (Z.eq_dec i (s - 1)) as [->|Hne]; [assumption|].
    eapply grey_at_ext; [|apply (Hat3 i); lia]. apply Hfr4. assumption.
  - intros A k. rewrite E1. cbn [bind].
    rewrite (rd_cell _ _ _ Hd1). cbn [bind]. rewrite E2. cbn [bind].
    rewrite E3. cbn [bind]. rewrite Hd3, Hd2, (rd_cell _ _ _ Hd4). cbn [bind].
    rewrite E4. cbn [bind]. rewrite E5. reflexivity.
Qed.

End Grey.

(** * Counting the cycles *)

(** One step along a cycle: the black edge, then the grey edge. *)
Definition sig (g : arr) (x : Z) : Z :=
  match cell g (black x) with
  | Some y => y
  | None => -1
  end.

Definition has_edge (g : arr) (x : Z) : bool :=
  match cell g x with
  | Some j => negb (j =? -1)
  | None => false
  end.

(** The number of black edges [(x, x+1)], [x] even and below [k], that are
    not closed by a grey edge into a cycle of their own. *)
Fixpoint ecount (g : arr) (k : nat) : Z :=
  match k with
  | O => 0
  | S k' => ecount g k'
            + (if negb (Z.odd (Z.of_nat k')) && has_edge g (Z.of_nat k')
               then 1 else 0)
  end.

(** What the counting loop leaves in [cycle]: every vertex with a grey
    edge is labelled with the first vertex of its cycle, which is even. *)
Definition cycle_root (g l : arr) (x r : Z) : Prop :=
  cell l x = Some r /\ 0 <= r <= x /\ Z.odd r = false /\ nsl g r
  /\ cell l r = Some r /\ cell l (r + 1) = Some r.

Definition cycles_ok (g l : arr) : Prop :=
  forall x, nsl g x -> exists r, cycle_root g l x r.

Lemma has_edge_nsl g x : has_edge g x = true <-> nsl g x.
Proof.
  unfold has_edge, nsl. destruct (cell g x) as [j|].
  - destruct (Z.eqb_spec j (-1)); cbn [negb]; split.
    + discriminate.
    + intros (j' & Hj' & Hne). congruence.
    + intros _. eauto.
    + reflexivity.
  - split; [discriminate|]. intros (j & Hj & _). discriminate.
Qed.

Lemma ecount_nonneg g k : 0 <= ecount g k.
Proof.
  induction k as [|k IH]; [reflexivity|]. cbn [ecount].
  destruct (negb (Z.odd (Z.of_nat k)) && has_edge g (Z.of_nat k)); lia.
Qed.

Lemma ecount_succ g (i : Z) :
  0 <= i ->
  ecount g (Z.to_nat (i + 1))
  = ecount g (Z.to_nat i)
    + (if negb (Z.odd i) && has_edge g i then 1 else 0).
Proof.
  intros Hi. replace (Z.to_nat (i + 1)) with (S (Z.to_nat i)) by lia.
  cbn [ecount]. now rewrite Z2Nat.id by lia.
Qed.

Section Cycles.

Variables (n : Z) (p g : arr).
Let s := 2 * n + 2.
Hypothesis Hn : 0 <= n.
Hypothesis Hp : ext_perm_ok n p.
Hypothesis Hg : grey_ok s p g.

Let Hnsl_black := nsl_black n p Hp g Hg.
Let Hnsl_range := nsl_range n p g Hg.
Let Hnsl_grey := nsl_grey n p Hp g Hg.
Let Hgrey_sym := grey_sym n p Hp g Hg.
Let Hgrey_cases := grey_cases n p Hp g Hg.

Lemma sig_nsl x :
  nsl g x -> nsl g (sig g x) /\ cell g (black x) = Some (sig g x).
Proof.
  intros Hx. pose proof (Hnsl_range x Hx) as Hr.
  destruct (Hnsl_black x Hr Hx) as (y & Hy & Hne).
  unfold sig. rewrite Hy. split; [|reflexivity].
  eapply Hnsl_grey; eauto.
Qed.

Lemma sig_inj x x' : nsl g x -> nsl g x' -> sig g x = sig g x' -> x = x'.
Proof.
  intros Hx Hx' Heq.
  destruct (sig_nsl x Hx) as [Hs Hc].
  destruct (sig_nsl x' Hx') as [_ Hc']. rewrite <- Heq in Hc'.
  pose proof (Hnsl_range x Hx). pose proof (Hnsl_range x' Hx').
  pose proof (Hnsl_range _ Hs).
  assert (Hsn : sig g x <> -1) by lia.
  destruct (Hnsl_grey _ _ Hc Hsn) as (_ & _ & Hb1 & _).
  destruct (Hnsl_grey _ _ Hc' Hsn) as (_ & _ & Hb2 & _).
  apply black_inj; [lia|lia|congruence].
Qed.

Lemma iter_nsl k x : nsl g x -> nsl g (Nat.iter k (sig g) x).
Proof.
  intros Hx. induction k as [|k IH]; [assumption|].
  cbn [Nat.iter]. now apply sig_nsl.
Qed.

Lemma iter_cancel a b x :
  nsl g x -> Nat.iter a (sig g) x = Nat.iter (a + b) (sig g) x ->
  Nat.iter b (sig g) x = x.
Proof.
  intros Hx. induction a as [|a IH]; [intros H; now symmetry|].
  cbn [Nat.iter Nat.add]. intros H. apply IH.
  apply sig_inj; [now apply iter_nsl..|assumption].
Qed.

(** Following a cycle from a vertex with a grey edge leads back to it. *)
Lemma cycle_returns x :
  nsl g x ->
  exists k : nat, (1 <= k <= Z.to_nat s)%nat /\ Nat.iter k (sig g) x = x.
Proof.
  intros Hx.
  destruct (nat_pigeonhole
    (fun k => Z.to_nat (Nat.iter k (sig g) x)) (S (Z.to_nat s)) (Z.to_nat s))
    as (a & b & Hab & Heq).
  - lia.
  - intros k _. pose proof (Hnsl_range _ (iter_nsl k x Hx)). unfold s. lia.
  - exists (b - a)%nat. split; [lia|].
    apply (iter_cancel a); [assumption|].
    replace (a + (b - a))%nat with b by lia.
    pose proof (Hnsl_range _ (iter_nsl a x Hx)).
    pose proof (Hnsl_range _ (iter_nsl b x Hx)). lia.
Qed.

End Cycles.

Section Walk.

Variables (n : Z) (p g : arr).
Let s := 2 * n + 2.
Hypothesis Hn : 0 <= n.
Hypothesis Hp : ext_perm_ok n p.
Hypothesis Hg : grey_ok s p g.

Let Hnsl_black := nsl_black n p Hp g Hg.
Let Hnsl_range := nsl_range n p g Hg.
Let Hnsl_grey := nsl_grey n p Hp g Hg.
Let Hsig_nsl := sig_nsl n p g Hp Hg.

(** The traversal started at [i], from the memory [m0]; the vertices
    marked in [m0] belong to the cycles found before. *)
Variables (i : Z) (m0 : distmem_t).

Definition old (x : Z) : Prop := cell (done m0) x = Some 1.

Hypothesis Hold : forall x, old x ->
  nsl g x /\ old (black x) /\ forall y, cell g x = Some y -> old y.
Hypothesis Hi : nsl g i.
Hypothesis Hinew : ~ old i.

(** Marked by this traversal. *)
Definition fresh (m : distmem_t) (x : Z) : Prop :=
  cell (done m) x = Some 1 /\ cell (labeled m) x = Some i
  /\ ~ old x /\ nsl g x.

Record walk_inv (next : Z) (m : distmem_t) : Prop := {
  wi_sized : mem_sized s m;
  wi_grey : greyEdges m = g;
  wi_bool : forall x, 0 <= x < s ->
            cell (done m) x = Some 0 \/ cell (done m) x = Some 1;
  wi_old : forall x, old x ->
           cell (done m) x = Some 1
           /\ cell (labeled m) x = cell (labeled m0) x;
  wi_done : forall x, cell (done m) x = Some 1 -> old x \/ fresh m x;
  wi_black : forall x, fresh m x -> x <> next -> fresh m (black x);
  wi_greyc : forall x y, fresh m x -> x <> i -> cell g x = Some y ->
             fresh m y;
  wi_start : fresh m i;
  wi_next : fresh m next;
  wi_back : next = i
            \/ (fresh m (black i)
                /\ exists y, cell g next = Some y /\ fresh m y);
}.

Lemma walk_step next m :
  walk_inv next m ->
  exists m',
    num_cycles_step i (next, m) = Ok (sig g next, m')
    /\ walk_inv (sig g next) m'
    /\ fresh m' (black i)
    /\ exists y, cell g (sig g next) = Some y /\ fresh m' y.
Proof.
  intros [Hsz Hgr Hbool Holdm Hdone Hblk Hgc Hst Hnx Hback].
  assert (Hnn : nsl g next) by apply Hnx.
  pose proof (Hnsl_range _ Hnn) as Hnr.
  set (b := black next).
  assert (Hbr : 0 <= b < s) by (apply black_range; exact Hnr).
  destruct (Hsig_nsl next Hnn) as [Hyn Hgb]. fold b in Hgb.
  set (y := sig g next) in *.
  pose proof (Hnsl_range _ Hyn) as Hyr.
  destruct (Hnsl_grey b y Hgb ltac:(lia)) as (_ & Hyb & Hgy & _).
  assert (Hbn : nsl g b) by (apply Hnsl_black; assumption).
  assert (Hbo : ~ old b).
  { intros Ho. apply Hold in Ho as (_ & Ho & _). unfold b in Ho.
    rewrite black_invol in Ho by lia. now apply Hnx. }
  assert (Hyo : ~ old y).
  { intros Ho. apply Hold in Ho as (_ & _ & Ho). apply Hbo. now apply Ho. }
  assert (Hld : alen (done m) = s) by (unfold mem_sized in Hsz; tauto).
  assert (Hll : alen (labeled m) = s) by (unfold mem_sized in Hsz; tauto).
  unfold num_cycles_step.
  change (if Z.rem next 2 =? 0 then next + 1 else next - 1) with b.
  rewrite wr_inb by lia. cbn [bind].
  rewrite wr_inb by lia. cbn [bind].
  rewrite Hgr, (rd_cell _ _ _ Hgb). cbn [bind].
  rewrite wr_inb by (rewrite alen_upd; lia). cbn [bind].
  rewrite wr_inb by (rewrite alen_upd; lia). cbn [bind].
  set (m' := set_labeled _ _).
  assert (Hd' : forall x, cell (done m') x
                 = if (x =? y) || (x =? b) then Some 1 else cell (done m) x).
  { intros x. unfold m'. cbn [done set_labeled set_done].
    destruct (Z.eqb_spec x y), (Z.eqb_spec x b); cbn [orb];
      try (exfalso; lia); now cell_simp. }
  assert (Hl' : forall x, cell (labeled m') x
                 = if (x =? y) || (x =? b) then Some i else cell (labeled m) x).
  { intros x. unfold m'. cbn [labeled set_labeled set_done].
    destruct (Z.eqb_spec x y), (Z.eqb_spec x b); cbn [orb];
      try (exfalso; lia); now cell_simp. }
  assert (Hmono : forall x, fresh m x -> fresh m' x).
  { intros x (H1 & H2 & H3 & H4). unfold fresh. rewrite Hd', Hl'.
    destruct ((x =? y) || (x =? b)); tauto. }
  assert (Hfb : fresh m' b).
  { unfold fresh. rewrite Hd', Hl', Z.eqb_refl, orb_true_r. tauto. }
  assert (Hfy : fresh m' y).
  { unfold fresh. rewrite Hd', Hl', Z.eqb_refl. cbn [orb]. tauto. }
  assert (Hinv : forall x, fresh m' x -> fresh m x \/ x = b \/ x = y).
  { intros x (H1 & H2 & H3 & H4). rewrite Hd' in H1. rewrite Hl' in H2.
    destruct (Z.eqb_spec x y); [tauto|].
    destruct (Z.eqb_spec x b); [tauto|]. cbn [orb] in *.
    left. unfold fresh. tauto. }
  exists m'. split; [reflexivity|].
  assert (Hbi : fresh m' (black i)).
  { destruct Hback as [->|[H _]]; [exact Hfb|now apply Hmono]. }
  split; [|split; [assumption|exists b; tauto]].
  constructor.
  - unfold m'. mem_sized_tac.
  - exact Hgr.
  - intros x Hx. rewrite Hd'. destruct ((x =? y) || (x =? b)); auto.
  - intros x Ho. rewrite Hd', Hl'.
    destruct (Z.eqb_spec x y); [congruence|].
    destruct (Z.eqb_spec x b); [congruence|]. cbn [orb]. now apply Holdm.
  - intros x Hx. rewrite Hd' in Hx.
    destruct (Z.eqb_spec x y) as [Hxy|Hxy]; [rewrite Hxy; tauto|].
    destruct (Z.eqb_spec x b) as [Hxb|Hxb]; [rewrite Hxb; tauto|].
    cbn [orb] in Hx.
    destruct (Hdone x Hx); [tauto|]. right. now apply Hmono.
  - intros x Hx Hne. destruct (Hinv x Hx) as [Hf|[->| ->]]; [| |congruence].
    + destruct (Z.eq_dec x next) as [->|Hne']; [exact Hfb|].
      apply Hmono. now apply Hblk.
    + unfold b. rewrite black_invol by lia. now apply Hmono.
  - intros x z Hx Hne Hz. destruct (Hinv x Hx) as [Hf|[->| ->]].
    + apply Hmono. eapply Hgc; eassumption.
    + assert (z = y) by congruence. now subst z.
    + assert (z = b) by congruence. now subst z.
  - now apply Hmono.
  - exact Hfy.
  - right. split; [assumption|]. exists b. tauto.
Qed.

(** The loop [do ... while (next != i)] comes back to [i]. *)
Lemma walk_loop (k : nat) : forall (fuel : nat) next m,
  (1 <= k <= fuel)%nat ->
  Nat.iter k (sig g) next = i ->
  walk_inv next m ->
  exists m',
    do_while fuel (num_cycles_step i)
      (fun st => Ok (negb (fst st =? i))) (next, m) = Ok (i, m')
    /\ walk_inv i m'
    /\ fresh m' (black i)
    /\ exists y, cell g i = Some y /\ fresh m' y.
Proof.
  induction k as [|k IH]; intros fuel next m Hk Hit W; [lia|].
  destruct fuel as [|fuel]; [lia|].
  destruct (walk_step next m W) as (m1 & Hstep & W1 & Hb1 & Hy1).
  cbn [do_while]. rewrite Hstep. cbn [bind fst].
  destruct (Z.eqb_spec (sig g next) i) as [Heq|Hne]; cbn [negb].
  - rewrite Heq in *. exists m1. tauto.
  - rewrite Nat.iter_succ_r in Hit.
    apply (IH fuel (sig g next) m1); [|assumption..].
    destruct k; [cbn in Hit; congruence|lia].
Qed.

End Walk.

Section Count.

Variables (n : Z) (p g : arr) (fuel : nat).
Let s := 2 * n + 2.
Hypothesis Hn : 0 <= n.
Hypothesis Hp : ext_perm_ok n p.
Hypothesis Hg : grey_ok s p g.
Hypothesis Hfuel : (Z.to_nat s <= fuel)%nat.

Let Hnsl_black := nsl_black n p Hp g Hg.
Let Hnsl_range := nsl_range n p g Hg.
Let Hnsl_grey := nsl_grey n p Hp g Hg.
Let Hgrey_sym := grey_sym n p Hp g Hg.
Let Hgrey_cases := grey_cases n p Hp g Hg.

Record count_inv (i c : Z) (m : distmem_t) : Prop := {
  ci_sized : mem_sized s m;
  ci_grey : greyEdges m = g;
  ci_bool : forall x, 0 <= x < s ->
            cell (done m) x = Some 0 \/ cell (done m) x = Some 1;
  ci_closed : forall x, cell (done m) x = Some 1 ->
              nsl g x /\ cell (done m) (black x) = Some 1
              /\ forall y, cell g x = Some y -> cell (done m) y = Some 1;
  ci_seen : forall x, 0 <= x < i -> nsl g x -> cell (done m) x = Some 1;
  ci_root : forall x, cell (done m) x = Some 1 ->
            exists r, cycle_root g (labeled m) x r /\ r < i;
  ci_count : 0 <= c <= ecount g (Z.to_nat i);
}.

Lemma count_skip i c m :
  0 <= i < s -> count_inv i c m ->
  (nsl g i -> cell (done m) i = Some 1) ->
  count_inv (i + 1) c m.
Proof.
  intros Hi [Hsz Hgr Hbool Hcl Hseen Hroot Hcnt] Hskip. constructor;
    try assumption.
  - intros x Hx Hnx. destruct (Z.eq_dec x i) as [->|]; [auto|].
    apply Hseen; [lia|assumption].
  - intros x Hx. destruct (Hroot x Hx) as (r & Hr & Hlt).
    exists r. split; [assumption|lia].
  - rewrite ecount_succ by lia.
    destruct (negb (Z.odd i) && has_edge g i); lia.
Qed.

Lemma count_step i c m :
  0 <= i < s -> count_inv i c m ->
  exists c' m',
    num_cycles_count fuel i (c, m) = Ok (c', m') /\ count_inv (i + 1) c' m'.
Proof.
  intros Hi CI. pose proof CI as [Hsz Hgr Hbool Hcl Hseen Hroot Hcnt].
  unfold num_cycles_count.
  destruct (Hbool i Hi) as [Hd|Hd]; rewrite (rd_cell _ _ _ Hd); cbn [bind].
  2:{ exists c, m. split; [reflexivity|]. now apply count_skip. }
  change (0 =? 0) with true. cbv iota.
  destruct (Hgrey_cases i Hi) as (j & Hj & Hjc).
  rewrite Hgr, (rd_cell _ _ _ Hj). cbn [bind].
  destruct (Z.eqb_spec j (-1)) as [->|Hne]; cbn [negb].
  { exists c, m. split; [reflexivity|]. apply count_skip; try assumption.
    intros (j' & Hj' & Hne'). congruence. }
  assert (Hni : nsl g i) by (exists j; tauto).
  assert (Hev : Z.odd i = false).
  { destruct (Z.odd i) eqn:Ho; [exfalso|reflexivity].
    assert (Hb : black i = i - 1) by (apply black_odd; [lia|assumption]).
    assert (i <> 0) by (intros ->; discriminate).
    assert (H1 : cell (done m) (i - 1) = Some 1).
    { apply Hseen; [lia|]. rewrite <- Hb. now apply Hnsl_black. }
    apply Hcl in H1 as (_ & H1 & _).
    rewrite <- Hb, black_invol in H1 by lia. congruence. }
  assert (Hbi : black i = i + 1) by (apply black_even; [lia|assumption]).
  assert (Hld : alen (done m) = s) by (unfold mem_sized in Hsz; tauto).
  assert (Hll : alen (labeled m) = s) by (unfold mem_sized in Hsz; tauto).
  rewrite wr_inb by lia. cbn [bind].
  rewrite wr_inb by lia. cbn [bind].
  set (mi := set_done _ _).
  assert (Hold : forall x, old m x ->
            nsl g x /\ old m (black x)
            /\ forall y, cell g x = Some y -> old m y).
  { intros x Hx. apply (Hcl x Hx). }
  assert (Hinew : ~ old m i) by (unfold old; congruence).
  assert (Hdi : forall x, cell (done mi) x
                 = if x =? i then Some 1 else cell (done m) x).
  { intros x. unfold mi. cbn [done set_done set_labeled].
    destruct (Z.eqb_spec x i); now cell_simp. }
  assert (Hli : forall x, cell (labeled mi) x
                 = if x =? i then Some i else cell (labeled m) x).
  { intros x. unfold mi. cbn [labeled set_done set_labeled].
    destruct (Z.eqb_spec x i); now cell_simp. }
  assert (Hfi : fresh g i m mi i).
  { unfold fresh. rewrite Hdi, Hli, Z.eqb_refl. tauto. }
  assert (Hfx : forall x, fresh g i m mi x -> x = i).
  { intros x (H1 & _ & H3 & _). rewrite Hdi in H1.
    destruct (Z.eqb_spec x i); [assumption|]. contradiction. }
  assert (W0 : walk_inv n g i m i mi).
  { constructor.
    - unfold mi. mem_sized_tac.
    - exact Hgr.
    - intros x Hx. rewrite Hdi. destruct (x =? i); auto.
    - intros x Hx. rewrite Hdi, Hli.
      destruct (Z.eqb_spec x i) as [Hxi|Hxi]; [subst x; contradiction|]. tauto.
    - intros x Hx. rewrite Hdi in Hx.
      destruct (Z.eqb_spec x i) as [Hxi|Hxi]; [subst x; tauto|]. now left.
    - intros x Hx Hne'. now apply Hfx in Hx.
    - intros x y Hx Hne'. now apply Hfx in Hx.
    - exact Hfi.
    - exact Hfi.
    - now left. }
  destruct (cycle_returns n p g Hn Hp Hg i Hni) as (k & Hk & Hit).
  destruct (walk_loop n p g Hp Hg i m Hold k fuel i mi) as
    (m' & Hw & W & Hfb & y & Hy & Hfy); [lia|assumption|assumption|].
  fold s in Hw. rewrite Hw. cbn [bind snd].
  exists (c + 1), m'. split; [reflexivity|].
  destruct W as [Wsz Wgr Wbool Wold Wdone Wblk Wgc Wst Wnx _].
  assert (Hge : forall x, fresh g i m m' x -> i <= x).
  { intros x (_ & _ & Hno & Hnx).
    destruct (Z_lt_le_dec x i) as [Hlt|]; [|assumption].
    exfalso. apply Hno. apply Hseen; [|assumption].
    pose proof (Hnsl_range x Hnx). lia. }
  constructor; try assumption.
  - intros x Hx. destruct (Wdone x Hx) as [Ho|Hf].
    + destruct (Hold x Ho) as (H1 & H2 & H3).
      split; [assumption|]. split; [now apply Wold|].
      intros z Hz. apply Wold. now apply H3.
    + split; [apply Hf|].
      destruct (Z.eq_dec x i) as [->|Hxi].
      * split; [apply Hfb|]. intros z Hz.
        assert (z = y) by congruence. subst z. apply Hfy.
      * split; [now apply Wblk|]. intros z Hz. eapply Wgc; eassumption.
  - intros x Hx Hnx. destruct (Z.eq_dec x i) as [->|]; [apply Wst|].
    apply Wold. apply Hseen; [lia|assumption].
  - intros x Hx. destruct (Wdone x Hx) as [Ho|Hf].
    + destruct (Hroot x Ho) as (r & (H1 & H2 & H3 & H4 & H5 & H6) & Hlt).
      exists r. split; [|lia].
      assert (Hor : old m r).
      { apply Hseen; [|assumption]. pose proof (Hnsl_range r H4). lia. }
      assert (Hor' : old m (r + 1)).
      { rewrite <- black_even by (assumption || lia). now apply Hold. }
      unfold cycle_root.
      destruct (Wold x Ho) as [_ ->]. destruct (Wold r Hor) as [_ ->].
      destruct (Wold _ Hor') as [_ ->]. tauto.
    + exists i. split; [|lia].
      unfold cycle_root. split; [apply Hf|]. split; [specialize (Hge x Hf); lia|].
      split; [assumption|]. split; [assumption|].
      split; [apply Wst|]. rewrite <- Hbi. apply Hfb.
  - rewrite ecount_succ by lia. rewrite Hev.
    apply has_edge_nsl in Hni. rewrite Hni. cbn [negb andb]. lia.
Qed.

Lemma count_loop m :
  mem_sized s m -> greyEdges m = g ->
  (forall x, 0 <= x < s -> cell (done m) x = Some 0) ->
  exists c m',
    for_range 0 s 1 (num_cycles_count fuel) (0, m) = Ok (c, m')
    /\ count_inv s c m'.
Proof.
  intros Hsz Hgr Hzero.
  destruct (for_range_inv
    (fun i (st : Z * distmem_t) => count_inv i (fst st) (snd st))
    (num_cycles_count fuel) 0 s (0, m)) as ([c m'] & E & CI).
  - unfold s. lia.
  - constructor; cbn [fst snd]; try assumption.
    + intros x Hx. left. now apply Hzero.
    + intros x Hx.
      assert (0 <= x < s).
      { pose proof (cell_inb _ _ _ Hx). unfold mem_sized in Hsz. lia. }
      rewrite Hzero in Hx by assumption. discriminate.
    + intros; lia.
    + intros x Hx.
      assert (0 <= x < s).
      { pose proof (cell_inb _ _ _ Hx). unfold mem_sized in Hsz. lia. }
      rewrite Hzero in Hx by assumption. discriminate.
    + pose proof (ecount_nonneg g (Z.to_nat 0)). lia.
  - intros i [c m1] Hi CI. cbn [fst snd] in CI.
    destruct (count_step i c m1 Hi CI) as (c' & m' & E & CI').
    exists (c', m'). split; assumption.
  - exists c, m'. split; assumption.
Qed.

End Count.

(** [num_cycles] on an extended permutation: it returns, with the grey
    edges in [greyEdges] and every vertex of a cycle labelled in
    [labeled]; the count is at most the number of black edges that are
    not adjacencies. *)
Lemma num_cycles_ok (n : Z) (p : arr) (fuel : nat) (m0 : distmem_t) :
  0 <= n -> ext_perm_ok n p -> mem_sized (2 * n + 2) m0 ->
  (Z.to_nat (2 * n + 2) <= fuel)%nat ->
  exists c m,
    num_cycles p (2 * n + 2) fuel m0 = Ok (c, m)
    /\ mem_sized (2 * n + 2) m
    /\ grey_ok (2 * n + 2) p (greyEdges m)
    /\ cycles_ok (greyEdges m) (labeled m)
    /\ 0 <= c <= ecount (greyEdges m) (Z.to_nat (2 * n + 2)).
Proof.
  intros Hn Hp Hs0 Hfuel.
  destruct (grey_edges_ok n p Hn Hp m0 Hs0) as (m1 & (Hs1 & Hg1 & _ & Hz) & E).
  destruct (count_loop n p (greyEdges m1) fuel Hn Hp Hg1 Hfuel m1)
    as (c & m & Ec & CI); [assumption|reflexivity|assumption|].
  exists c, m. split.
  - unfold num_cycles. rewrite E. exact Ec.
  - destruct CI as [Hsz Hgr _ _ Hseen Hroot Hcnt].
    split; [assumption|]. rewrite Hgr. split; [assumption|].
    split; [|assumption].
    intros x Hx. pose proof (nsl_range n p _ Hg1 x Hx).
    destruct (Hroot x) as (r & Hr & _); [apply Hseen; assumption|].
    exists r. assumption.
Qed.

(** * Breakpoints *)

Section Breakpoints.

Variables (n : Z) (p g : arr).
Let s := 2 * n + 2.
Hypothesis Hn : 0 <= n.
Hypothesis Hp : ext_perm_ok n p.
Hypothesis Hg : grey_ok s p g.

(** A vertex has a grey edge unless the value across its black edge is
    the one its own value goes with. *)
Lemma has_edge_spec i v w :
  0 <= i < s -> cell p i = Some v -> cell p (black i) = Some w ->
  has_edge g i = negb (w =? black v).
Proof.
  intros Hi Hv Hw. destruct Hg as [_ Hat].
  destruct (Hat i Hi v Hv) as (j & Hj & Hgi).
  unfold has_edge. rewrite Hgi.
  pose proof (cell_inb _ _ _ Hj) as Hjr.
  destruct (Z.eqb_spec j (black i)) as [->|Hne].
  - assert (w = black v) by congruence. subst w.
    rewrite !Z.eqb_refl. reflexivity.
  - destruct (Z.eqb_spec j (-1)); [lia|].
    destruct (Z.eqb_spec w (black v)) as [->|]; [|reflexivity].
    exfalso. apply Hne. eapply (ep_inj n p Hp); eassumption.
Qed.

Lemma ecount_two i :
  0 <= i -> Z.odd i = false ->
  ecount g (Z.to_nat (i + 2))
  = ecount g (Z.to_nat i) + (if has_edge g i then 1 else 0).
Proof.
  intros Hi Ho. replace (i + 2) with (i + 1 + 1) by lia.
  rewrite !ecount_succ by lia. rewrite Ho.
  replace (i + 1) with (Z.succ i) by lia.
  rewrite Z.odd_succ, <- Z.negb_odd, Ho. cbn [negb andb]. lia.
Qed.

(** [num_breakpoints] counts the black edges that are not adjacencies. *)
Lemma num_breakpoints_ok :
  num_breakpoints p s = Ok (ecount g (Z.to_nat s)).
Proof.
  unfold num_breakpoints.
  destruct (perm_cell n p Hp 1) as (p1 & Hp1 & _); [lia|].
  rewrite (rd_cell _ _ _ Hp1). cbn [bind].
  destruct (for_range_inv2
    (fun i b => b = ecount g (Z.to_nat i))
    (fun i b =>
       pA <- rd p i ;;
       let pA1 := if pA =? s then 1 else pA + 1 in
       pB <- rd p (i + 1) ;;
       let pB1 := if pB =? s then 1 else pB + 1 in
       if negb (pB =? pA1) && negb (pA =? pB1) then Ok (b + 1) else Ok b)
    2 (s - 1) n (if negb (p1 =? 1) then 1 else 0) Hn) as (b & E & ->).
  - left. unfold s. lia.
  - change (Z.to_nat 2) with (Z.to_nat (0 + 2)).
    rewrite (ecount_two 0) by (lia || reflexivity).
    change (ecount g (Z.to_nat 0)) with 0.
    rewrite (has_edge_spec 0 0 p1); [|unfold s; lia|apply (ep_cap0 n p Hp)|assumption].
    change (black 0) with 1. destruct (negb (p1 =? 1)); reflexivity.
  - intros j b Hj ->. set (i := 2 + 2 * j).
    destruct (ep_pair n p Hp j Hj) as (v & Hv & Hc1 & Hc2).
    replace (2 * j + 2) with i in Hc2 by (unfold i; lia).
    replace (2 * j + 1) with (i - 1) in Hc1 by (unfold i; lia).
    destruct (perm_cell n p Hp (i + 1)) as (pB & HpB & HpBr);
      [unfold i; lia|].
    rewrite (rd_cell _ _ _ Hc2). cbn [bind].
    rewrite (rd_cell _ _ _ HpB). cbn [bind].
    assert (Hio : Z.odd i = false).
    { unfold i. replace (2 + 2 * j) with (0 + 2 * (1 + j)) by lia.
      now rewrite Z.odd_add_mul_2. }
    assert (Hbi : black i = i + 1) by (apply black_even; [unfold i; lia|assumption]).
    replace (2 + 2 * (j + 1)) with (i + 2) by (unfold i; lia).
    rewrite ecount_two by (unfold i; lia || assumption).
    rewrite (has_edge_spec i (gene_mate v) pB);
      [|unfold i, s; lia|assumption|now rewrite Hbi].
    assert (Hne : pB <> v).
    { intros ->. assert (i + 1 = i - 1); [|lia].
      eapply (ep_inj n p Hp); eassumption. }
    eexists. split; [|reflexivity].
    fold s in HpBr.
    destruct (gene_mate_black v) as [(Ho & -> & Hb1 & Hb2)|(Ho & -> & Hb1 & Hb2)];
      [lia| |].
    + rewrite Hb2.
      assert (v <> 2 * n).
      { intros ->. replace (2 * n) with (0 + 2 * n) in Ho by lia.
        rewrite Z.odd_add_mul_2 in Ho. discriminate. }
      destruct (Z.eqb_spec (v + 1) s); [unfold s in *; lia|].
      destruct (Z.eqb_spec pB s); [lia|].
      destruct (Z.eqb_spec pB (v + 1 + 1)), (Z.eqb_spec (v + 1) (pB + 1)),
        (Z.eqb_spec pB (v + 2)); cbn [negb andb]; try lia; f_equal; lia.
    + rewrite Hb2.
      destruct (Z.eqb_spec (v - 1) s); [unfold s in *; lia|].
      destruct (Z.eqb_spec pB s); [lia|].
      destruct (Z.eqb_spec pB (v - 1 + 1)), (Z.eqb_spec (v - 1) (pB + 1)),
        (Z.eqb_spec pB (v - 2)); cbn [negb andb]; try lia; f_equal; lia.
  - replace (2 + 2 * n) with s in E by (unfold s; lia). exact E.
Qed.

End Breakpoints.

(** * Connected components *)

(** The first vertex of a cycle, as [labeled] records it. *)
Definition is_root (g l : arr) (c : Z) : Prop := nsl g c /\ cell l c = Some c.

(** [range[c]] is the last vertex of the cycle that starts at [c]. *)
Definition range_ok (g l r : arr) : Prop :=
  forall c, is_root g l c ->
    exists e, cell r c = Some e /\ nsl g e /\ cell l e = Some c /\ c < e
              /\ forall j, nsl g j -> cell l j = Some c -> j <= e.

Section Components.

Variables (n : Z) (p g L0 : arr).
Let s := 2 * n + 2.
Hypothesis Hn : 0 <= n.
Hypothesis Hp : ext_perm_ok n p.
Hypothesis Hg : grey_ok s p g.
Hypothesis HL : cycles_ok g L0.

Let Hnsl_black := nsl_black n p Hp g Hg.
Let Hnsl_range := nsl_range n p g Hg.
Let Hnsl_grey := nsl_grey n p Hp g Hg.
Let Hgrey_cases := grey_cases n p Hp g Hg.

Lemma grey_read i :
  0 <= i < s ->
  (cell g i = Some (-1) /\ ~ nsl g i)
  \/ (exists j, cell g i = Some j /\ j <> -1 /\ nsl g i).
Proof.
  intros Hi. destruct (Hgrey_cases i Hi) as (j & Hj & [->|H]).
  - left. split; [assumption|]. intros (j' & Hj' & Hne). congruence.
  - right. exists j. split; [assumption|]. split; [lia|]. exists j. split; [assumption|lia].
Qed.

(** The label of a vertex with a grey edge. *)
Lemma label_read j :
  nsl g j ->
  exists c, cell L0 j = Some c /\ 0 <= c <= j /\ is_root g L0 c
            /\ cell L0 (c + 1) = Some c /\ nsl g (c + 1).
Proof.
  intros Hj. destruct (HL j Hj) as (c & H1 & H2 & H3 & H4 & H5 & H6).
  exists c. split; [assumption|]. split; [assumption|].
  split; [split; assumption|]. split; [assumption|].
  pose proof (Hnsl_range c H4).
  rewrite <- black_even by (lia || assumption). now apply Hnsl_black.
Qed.

Lemma cc_range_loop (m0 : distmem_t) :
  mem_sized s m0 -> greyEdges m0 = g -> labeled m0 = L0 ->
  exists m,
    for_range 0 s 1 cc_range m0 = Ok m
    /\ mem_sized s m /\ greyEdges m = g /\ labeled m = L0
    /\ range_ok g L0 (oriented m).
Proof.
  intros Hs0 Hg0 Hl0.
  destruct (for_range_inv
    (fun i m => mem_sized s m /\ greyEdges m = g /\ labeled m = L0
       /\ forall c j, 0 <= j < i -> nsl g j -> cell L0 j = Some c ->
            exists e, cell (oriented m) c = Some e /\ e < i /\ nsl g e
                      /\ cell L0 e = Some c
                      /\ forall j', 0 <= j' < i -> nsl g j' ->
                           cell L0 j' = Some c -> j' <= e)
    cc_range 0 s m0) as (m & E & Hsz & Hgr & Hl & Hr).
  - unfold s. lia.
  - split; [assumption|]. split; [assumption|]. split; [assumption|].
    intros; lia.
  - intros i m Hi (Hsz & Hgr & Hl & Hr). unfold cc_range. rewrite Hgr.
    destruct (grey_read i Hi) as [(Hgi & Hni)|(j & Hgi & Hne & Hni)];
      rewrite (rd_cell _ _ _ Hgi); cbn [bind].
    + exists m. split; [reflexivity|].
      split; [assumption|]. split; [assumption|]. split; [assumption|].
      intros c j Hj Hnj Hc. assert (j <> i) by (intros ->; contradiction).
      destruct (Hr c j) as (e & H1 & H2 & H3 & H4 & H5);
        [lia|assumption|assumption|].
      exists e. repeat split; try assumption; try lia.
      intros j' Hj' Hnj' Hc'.
      assert (j' <> i) by (intros ->; contradiction).
      apply H5; [lia|assumption..].
    + destruct (Z.eqb_spec j (-1)); [contradiction|].
      destruct (label_read i Hni) as (c & Hc & Hcr & _).
      rewrite Hl, (rd_cell _ _ _ Hc). cbn [bind].
      rewrite wr_inb by (unfold mem_sized in Hsz; lia). cbn [bind].
      eexists. split; [reflexivity|].
      split; [mem_sized_tac|]. cbn [greyEdges labeled oriented set_oriented].
      split; [assumption|]. split; [assumption|].
      intros c' j' Hj' Hnj' Hc'.
      destruct (Z.eq_dec c' c) as [->|Hcc].
      * exists i. rewrite cell_upd_eq by (unfold mem_sized in Hsz; lia).
        repeat split; try assumption; try lia.
      * assert (j' <> i) by (intros ->; congruence).
        destruct (Hr c' j') as (e & H1 & H2 & H3 & H4 & H5);
          [lia|assumption|assumption|].
        exists e. rewrite cell_upd_ne by lia.
        repeat split; try assumption; try lia.
        intros j'' Hj'' Hnj'' Hc''.
        assert (j'' <> i) by (intros ->; congruence).
        apply H5; [lia|assumption..].
  - exists m. split; [assumption|]. split; [assumption|].
    split; [assumption|]. split; [assumption|].
    intros c [Hnc Hcc].
    destruct (label_read c Hnc) as (c' & Hc' & _ & _ & Hc1 & Hn1).
    assert (c' = c) by congruence. subst c'.
    pose proof (Hnsl_range _ Hn1).
    destruct (Hr c (c + 1)) as (e & H1 & H2 & H3 & H4 & H5);
      [lia|assumption|assumption|].
    exists e. split; [assumption|]. split; [assumption|].
    split; [assumption|]. split.
    + assert (c + 1 <= e); [|lia]. apply H5; [lia|assumption..].
    + intros j Hj Hlj. apply H5; [|assumption..].
      pose proof (Hnsl_range _ Hj). lia.
Qed.

(** ** The sweep *)

Variable R : arr.
Hypothesis HR : range_ok g L0 R.

(** Entry [k] of the stack: a root [r], the range [e] it reaches, and the
    cycle [c] the vertex [e] belongs to. *)
Definition entry (i sp : Z) (m : distmem_t) (k r e c : Z) : Prop :=
  cell (stack m) k = Some r /\ cell (cc m) k = Some e
  /\ 0 <= r < i /\ i <= e < s /\ nsl g e /\ cell L0 e = Some c
  /\ r <= c < i /\ nsl g r /\ cell (labeled m) r = Some r
  /\ forall k' r', k < k' <= sp -> cell (stack m) k' = Some r' -> c < r'.

Record sweep_inv (i sp nc : Z) (m : distmem_t) : Prop := {
  sw_sized : mem_sized s m;
  sw_grey : greyEdges m = g;
  sw_range : oriented m = R;
  sw_bounds : -1 <= sp /\ 0 <= nc /\ sp + 1 + nc <= i;
  sw_frame : forall j, i <= j -> cell (labeled m) j = cell L0 j;
  sw_entry : forall k, 0 <= k <= sp -> exists r e c, entry i sp m k r e c;
  sw_cover : forall j c, i <= j -> nsl g j -> cell L0 j = Some c -> c < i ->
             exists k r e, 0 <= k <= sp /\ cell (stack m) k = Some r
                           /\ cell (cc m) k = Some e /\ r <= c /\ j <= e;
  sw_scanned : forall j, 0 <= j < i -> nsl g j ->
               exists q, cell (labeled m) j = Some q /\ 0 <= q <= j
                 /\ nsl g q
                 /\ (q = j ->
                     (exists k, 0 <= k <= sp /\ cell (stack m) k = Some j)
                     \/ (exists k, 0 <= k < nc
                           /\ ccell (components m) k F_index = Some j));
  sw_final : forall k, 0 <= k < nc ->
             exists r, ccell (components m) k F_index = Some r
               /\ 0 <= r < i /\ nsl g r /\ cell (labeled m) r = Some r
               /\ (forall k', 0 <= k' <= sp -> cell (stack m) k' <> Some r)
               /\ (forall k', 0 <= k' < nc -> k' <> k ->
                     ccell (components m) k' F_index <> Some r);
  sw_none : (forall j, 0 <= j < i -> ~ nsl g j) -> sp = -1 /\ nc = 0;
}.

(** A self loop is skipped. *)
Lemma sweep_skip i sp nc m :
  0 <= i < s -> ~ nsl g i -> sweep_inv i sp nc m -> sweep_inv (i + 1) sp nc m.
Proof.
  intros Hi Hni [Hsz Hgr Hrg Hb Hfr Hen Hcov Hsc Hfin Hnone].
  constructor; try assumption.
  - lia.
  - intros j Hj. apply Hfr. lia.
  - intros k Hk. destruct (Hen k Hk) as (r & e & c & H).
    exists r, e, c. unfold entry in *.
    assert (e <> i) by (intros ->; tauto). intuition lia.
  - intros j c Hj Hnj Hc Hlt.
    destruct (label_read j Hnj) as (c' & Hc' & _ & [Hrc _] & _).
    assert (c' = c) by congruence. subst c'.
    assert (c <> i) by (intros ->; contradiction).
    apply Hcov; [lia|assumption|assumption|lia].
  - intros j Hj Hnj. assert (j <> i) by (intros ->; contradiction).
    apply Hsc; [lia|assumption].
  - intros k Hk. destruct (Hfin k Hk) as (r & H). exists r. intuition lia.
  - intros H. apply Hnone. intros j Hj. apply H. lia.
Qed.

(** The first vertex of a cycle is pushed. *)
Lemma sweep_push i sp nc m e :
  0 <= i < s -> is_root g L0 i -> cell R i = Some e ->
  sweep_inv i sp nc m ->
  sweep_inv (i + 1) (sp + 1) nc
    (set_cc (upd (cc m) (sp + 1) e) (set_stack (upd (stack m) (sp + 1) i) m)).
Proof.
  intros Hi [Hni Hri] He [Hsz Hgr Hrg Hb Hfr Hen Hcov Hsc Hfin Hnone].
  destruct (HR i (conj Hni Hri)) as (e' & He' & Hne & Hle & Hlt & Hmax).
  assert (e' = e) by congruence. subst e'.
  pose proof (Hnsl_range e Hne) as Her.
  assert (Hls : alen (stack m) = s) by (unfold mem_sized in Hsz; tauto).
  assert (Hlc : alen (cc m) = s) by (unfold mem_sized in Hsz; tauto).
  set (m' := set_cc _ _).
  assert (Hst : forall k, cell (stack m') k
                  = if k =? sp + 1 then Some i else cell (stack m) k).
  { intros k. unfold m'. cbn [stack set_cc set_stack].
    destruct (Z.eqb_spec k (sp + 1)); now cell_simp. }
  assert (Hcc : forall k, cell (cc m') k
                  = if k =? sp + 1 then Some e else cell (cc m) k).
  { intros k. unfold m'. cbn [cc set_cc set_stack].
    destruct (Z.eqb_spec k (sp + 1)); now cell_simp. }
  assert (Hlab : labeled m' = labeled m) by reflexivity.
  assert (Hcomp : components m' = components m) by reflexivity.
  constructor.
  - unfold m'. mem_sized_tac.
  - exact Hgr.
  - exact Hrg.
  - lia.
  - intros j Hj. rewrite Hlab. apply Hfr. lia.
  - intros k Hk. destruct (Z.eq_dec k (sp + 1)) as [->|Hne'].
    + exists i, e, i. unfold entry. rewrite Hst, Hcc, Hlab, Z.eqb_refl.
      rewrite Hfr by lia.
      repeat split; try assumption; try lia.
    + destruct (Hen k) as (r & ek & c & H1 & H2 & H3 & H4 & H5 & H6 & H7 & H8 & H9 & H10);
        [lia|].
      exists r, ek, c. unfold entry. rewrite Hst, Hcc, Hlab.
      destruct (Z.eqb_spec k (sp + 1)); [lia|].
      assert (ek <> i) by (intros ->; rewrite Hri in H6; injection H6; lia).
      repeat split; try assumption; try lia.
      intros k' r' Hk' Hr'. rewrite Hst in Hr'.
      destruct (Z.eqb_spec k' (sp + 1)); [injection Hr'; lia|].
      apply (H10 k'); [lia|assumption].
  - intros j c Hj Hnj Hc Hlt'.
    destruct (Z.eq_dec c i) as [->|Hci].
    + exists (sp + 1), i, e. rewrite Hst, Hcc, Z.eqb_refl.
      repeat split; try lia. now apply Hmax.
    + destruct (Hcov j c) as (k & r & ek & Hk & H1 & H2 & H3 & H4);
        [lia|assumption|assumption|lia|].
      exists k, r, ek. rewrite Hst, Hcc.
      destruct (Z.eqb_spec k (sp + 1)); [lia|].
      repeat split; try assumption; lia.
  - intros j Hj Hnj. rewrite Hlab, Hcomp.
    destruct (Z.eq_dec j i) as [->|Hji].
    + exists i. rewrite Hfr by lia.
      repeat split; try assumption; try lia.
      intros _. left. exists (sp + 1). rewrite Hst, Z.eqb_refl.
      split; [lia|reflexivity].
    + destruct (Hsc j) as (q & H1 & H2 & H3 & H4); [lia|assumption|].
      exists q. repeat split; try assumption; try lia.
      intros Hq. destruct (H4 Hq) as [(k & Hk & Hk')|Hf]; [|now right].
      left. exists k. rewrite Hst. destruct (Z.eqb_spec k (sp + 1)); [lia|].
      split; [lia|assumption].
  - intros k Hk. rewrite Hcomp, Hlab.
    destruct (Hfin k Hk) as (r & H1 & H2 & H3 & H4 & H5 & H6).
    exists r. repeat split; try assumption; try lia.
    intros k' Hk'. rewrite Hst.
    destruct (Z.eqb_spec k' (sp + 1)); [intros [=]; lia|].
    apply H5. lia.
  - intros H. exfalso. apply (H i); [lia|assumption].
Qed.

Lemma roots_increasing i sp nc m k k' r r' :
  sweep_inv i sp nc m -> 0 <= k -> k < k' <= sp ->
  cell (stack m) k = Some r -> cell (stack m) k' = Some r' -> r < r'.
Proof.
  intros W Hk Hk' Hr Hr'.
  destruct (sw_entry _ _ _ _ W k) as (r0 & e & c & H); [lia|].
  unfold entry in H. destruct H as (H1 & _ & _ & _ & _ & _ & H7 & _ & _ & H10).
  assert (r0 = r) by congruence. subst r0.
  specialize (H10 k' r' Hk' Hr'). lia.
Qed.

(** The roots above [parent[i]] are popped and merged. *)
Definition pop_inv (i sp : Z) (m : distmem_t) (pr k0 sp1 right_ : Z)
    (m1 : distmem_t) : Prop :=
  k0 <= sp1 <= sp
  /\ mem_sized s m1 /\ greyEdges m1 = g /\ oriented m1 = R
  /\ stack m1 = stack m /\ cc m1 = cc m /\ components m1 = components m
  /\ (forall k r, sp1 < k <= sp -> cell (stack m) k = Some r ->
        cell (labeled m1) r = Some pr /\ pr < r)
  /\ (forall x, (forall k, sp1 < k <= sp -> cell (stack m) k <> Some x) ->
        cell (labeled m1) x = cell (labeled m) x)
  /\ i <= right_ < s
  /\ (forall k e, sp1 < k <= sp -> cell (cc m) k = Some e -> e <= right_)
  /\ (right_ = i \/ exists k, sp1 < k <= sp /\ cell (cc m) k = Some right_).

Lemma pop_loop i sp nc m pr k0 r0 :
  0 <= i < s -> sweep_inv i sp nc m -> cell L0 i = Some pr -> pr < i ->
  0 <= k0 <= sp -> cell (stack m) k0 = Some r0 -> r0 <= pr ->
  forall (d fuel : nat) sp1 right_ m1,
    Z.to_nat (sp1 - k0) = d -> (d < fuel)%nat ->
    pop_inv i sp m pr k0 sp1 right_ m1 ->
    exists sp2 right2 m2,
      while_loop fuel (cc_pop_cond i) (cc_pop_body i) (sp1, right_, m1)
      = Ok (sp2, right2, m2)
      /\ pop_inv i sp m pr k0 sp2 right2 m2
      /\ exists r, cell (stack m) sp2 = Some r /\ r <= pr.
Proof.
  intros Hi W Hpr Hpri Hk0 Hr0 Hr0p.
  induction d as [|d IH]; intros fuel sp1 right_ m1 Hd Hfuel PI;
    (destruct fuel as [|fuel]; [lia|]);
    destruct PI as (Hsp & Hsz & Hgr & Hrg & Hst & Hcc & Hco & Hpop & Hkeep
                    & Hri & Hrmax & Hrw);
    destruct (sw_entry _ _ _ _ W sp1) as (r & e & c & Hen); [lia| |lia|];
    pose proof Hen as (E1 & E2 & E3 & E4 & E5 & E6 & E7 & E8 & E9 & E10);
    (assert (Hli : cell (labeled m1) i = Some pr);
     [rewrite Hkeep;
      [rewrite (sw_frame _ _ _ _ W) by lia; assumption|];
      intros k Hk Hki;
      destruct (sw_entry _ _ _ _ W k) as (rk & ek & ck & Hk1 & _ & Hk3 & _);
      [lia|]; rewrite Hki in Hk1; injection Hk1; lia|]);
    cbn [while_loop]; unfold cc_pop_cond;
    rewrite Hst, (rd_cell _ _ _ E1); cbn [bind];
    rewrite (rd_cell _ _ _ Hli); cbn [bind].
  - assert (sp1 = k0) by lia. subst sp1.
    assert (r = r0) by congruence. subst r0.
    destruct (Z.ltb_spec pr r); [lia|].
    exists k0, right_, m1. split; [reflexivity|].
    split; [|exists r; tauto].
    unfold pop_inv. tauto.
  - destruct (Z.ltb_spec pr r) as [Hlt|Hge].
    2:{ exists sp1, right_, m1. split; [reflexivity|].
        split; [|exists r; tauto]. unfold pop_inv. tauto. }
    unfold cc_pop_body.
    rewrite Hst, (rd_cell _ _ _ E1). cbn [bind].
    rewrite (rd_cell _ _ _ Hli). cbn [bind].
    assert (Hll : alen (labeled m1) = s) by (unfold mem_sized in Hsz; tauto).
    rewrite wr_inb by lia. cbn [bind].
    rewrite Hcc, (rd_cell _ _ _ E2). cbn [bind].
    assert (Hne : sp1 <> k0) by (intros ->; assert (r = r0) by congruence; lia).
    apply IH; [lia|lia|].
    unfold pop_inv. cbn [stack cc components greyEdges oriented labeled set_labeled].
    split; [lia|]. split; [mem_sized_tac|].
    split; [assumption|]. split; [assumption|]. split; [assumption|].
    split; [assumption|]. split; [assumption|].
    split; [|split; [|split; [|split]]].
    + intros k rk Hk Hrk. destruct (Z.eq_dec k sp1) as [->|Hksp].
      * assert (rk = r) by congruence. subst rk.
        rewrite cell_upd_eq by lia. split; [reflexivity|assumption].
      * assert (r < rk) by (eapply (roots_increasing i sp nc m sp1 k); eauto; lia).
        rewrite cell_upd_ne by lia. apply (Hpop k); [lia|assumption].
    + intros x Hx. assert (x <> r).
      { intros ->. apply (Hx sp1); [lia|assumption]. }
      rewrite cell_upd_ne by lia. apply Hkeep.
      intros k Hk. apply Hx. lia.
    + destruct (Z.ltb_spec right_ e); lia.
    + intros k ek Hk Hek. destruct (Z.eq_dec k sp1) as [->|Hksp].
      * assert (ek = e) by congruence. subst ek.
        destruct (Z.ltb_spec right_ e); lia.
      * specialize (Hrmax k ek ltac:(lia) Hek).
        destruct (Z.ltb_spec right_ e); lia.
    + destruct (Z.ltb_spec right_ e).
      * right. exists sp1. split; [lia|assumption].
      * destruct Hrw as [->|(k & Hk & Hk')]; [now left|].
        right. exists k. split; [lia|assumption].
Qed.

(** A later vertex of a cycle merges the roots above its own and may
    close the component on top of the stack. *)
Lemma sweep_merge (fuel : nat) i sp nc m pr :
  (Z.to_nat s <= fuel)%nat ->
  0 <= i < s -> nsl g i -> cell L0 i = Some pr -> pr <> i ->
  sweep_inv i sp nc m ->
  exists sp' nc' m',
    (st <- while_loop fuel (cc_pop_cond i) (cc_pop_body i) (sp, i, m) ;;
     let '(stack_ptr, right_, m) := st in
     rg <- rd (cc m) stack_ptr ;;
     m <- (if rg <? right_
           then c <- wr (cc m) stack_ptr right_ ;; Ok (set_cc c m)
           else Ok m) ;;
     rg <- rd (cc m) stack_ptr ;;
     if rg <=? i then
       sr <- rd (stack m) stack_ptr ;;
       cs <- cwr (components m) nc F_index sr ;;
       Ok (stack_ptr - 1, nc + 1, set_components cs m)
     else Ok (stack_ptr, nc, m)) = Ok (sp', nc', m')
    /\ sweep_inv (i + 1) sp' nc' m'.
Proof.
  intros Hfuel Hi Hni Hpr Hne W.
  pose proof W as [Hsz Hgr Hrg Hb Hfr Hen Hcov Hsc Hfin Hnone].
  destruct (label_read i Hni) as (pr' & Hpr' & Hprr & [Hnpr Hrpr] & _).
  assert (pr' = pr) by congruence. subst pr'.
  assert (Hpri : pr < i) by lia.
  destruct (Hcov i pr) as (k0 & r0 & e0 & Hk0 & Hr0 & He0 & Hr0p & He0i);
    [lia|assumption|assumption|assumption|].
  destruct (pop_loop i sp nc m pr k0 r0 Hi W Hpr Hpri Hk0 Hr0 Hr0p
              (Z.to_nat (sp - k0)) fuel sp i m)
    as (sp2 & right2 & m2 & Ew & PI & r & Hr & Hrp); [reflexivity|lia| |].
  { unfold pop_inv. split; [lia|]. split; [assumption|].
    split; [assumption|]. split; [assumption|].
    split; [reflexivity|]. split; [reflexivity|]. split; [reflexivity|].
    split; [intros; lia|]. split; [reflexivity|]. split; [lia|].
    split; [intros; lia|]. now left. }
  rewrite Ew. cbn [bind].
  destruct PI as (Hsp & Hsz2 & Hgr2 & Hrg2 & Hst2 & Hcc2 & Hco2 & Hpop & Hkeep
                  & Hri & Hrmax & Hrw).
  destruct (Hen sp2) as (r' & e & c & Hent); [lia|].
  pose proof Hent as (E1 & E2 & E3 & E4 & E5 & E6 & E7 & E8 & E9 & E10).
  assert (r' = r) by congruence. subst r'.
  rewrite Hcc2, (rd_cell _ _ _ E2). cbn [bind].
  set (e' := if e <? right2 then right2 else e).
  assert (Hlc : alen (cc m) = s) by (unfold mem_sized in Hsz; tauto).
  (* the memory after the range on top was extended *)
  assert (Hm3 : exists m3,
    (if e <? right2
     then c <- wr (cc m) sp2 right2 ;; Ok (set_cc c m2)
     else Ok m2) = Ok m3
    /\ mem_sized s m3 /\ greyEdges m3 = g /\ oriented m3 = R
    /\ stack m3 = stack m /\ components m3 = components m
    /\ labeled m3 = labeled m2
    /\ forall k, cell (cc m3) k
                 = if k =? sp2 then Some e' else cell (cc m) k).
  { unfold e'. destruct (Z.ltb_spec e right2).
    - rewrite wr_inb by lia. cbn [bind].
      eexists. split; [reflexivity|]. split; [mem_sized_tac|].
      cbn [greyEdges oriented stack components labeled cc set_cc].
      repeat (split; [assumption || reflexivity|]).
      intros k. destruct (Z.eqb_spec k sp2); now cell_simp.
    - exists m2. split; [reflexivity|].
      repeat (split; [assumption || reflexivity|]).
      intros k. rewrite Hcc2.
      destruct (Z.eqb_spec k sp2) as [->|]; [assumption|reflexivity]. }
  destruct Hm3 as (m3 & -> & Hsz3 & Hgr3 & Hrg3 & Hst3 & Hco3 & Hlab3 & Hcc3).
  cbn [bind].
  assert (He' : cell (cc m3) sp2 = Some e') by (now rewrite Hcc3, Z.eqb_refl).
  rewrite (rd_cell _ _ _ He'). cbn [bind].
  assert (He'ge : e <= e' /\ right2 <= e' /\ e' < s)
    by (unfold e'; destruct (Z.ltb_spec e right2); lia).
  (* the cycle the new range belongs to *)
  assert (He'c : exists c', cell L0 e' = Some c' /\ r <= c' < i /\ nsl g e').
  { unfold e'. destruct (Z.ltb_spec e right2) as [Hlt|Hge].
    - destruct Hrw as [->|(k & Hk & Hk')].
      + exists pr. repeat split; try assumption; lia.
      + destruct (Hen k) as (rk & ek & ck & G1 & G2 & G3 & G4 & G5 & G6 & G7 & _);
          [lia|].
        assert (ek = right2) by congruence. subst ek.
        exists ck. split; [assumption|]. split; [|assumption].
        specialize (E10 k rk ltac:(lia) G1). lia.
    - exists c. repeat split; try assumption; lia. }
  destruct He'c as (c' & Hc' & Hc'r & Hne').
  (* the labels *)
  assert (Hlab_keep : forall x,
            (forall k, sp2 < k <= sp -> cell (stack m) k <> Some x) ->
            cell (labeled m3) x = cell (labeled m) x).
  { intros x Hx. rewrite Hlab3. now apply Hkeep. }
  assert (Hlab_root : forall k rk, 0 <= k <= sp2 ->
            cell (stack m) k = Some rk -> cell (labeled m3) rk = cell (labeled m) rk).
  { intros k rk Hk Hrk. apply Hlab_keep. intros k' Hk' Hk''.
    assert (rk < rk); [|lia].
    eapply (roots_increasing i sp nc m k k'); eauto; lia. }
  assert (Hlab_hi : forall j, i <= j -> cell (labeled m3) j = cell L0 j).
  { intros j Hj. rewrite Hlab_keep; [now apply Hfr|].
    intros k Hk Hkj.
    destruct (Hen k) as (rk & ek & ck & G1 & _ & G3 & _); [lia|].
    rewrite Hkj in G1. injection G1. lia. }
  (* the entries below the top *)
  assert (Hlow : forall sp', sp' <= sp2 -> forall k, 0 <= k <= sp' -> k < sp2 ->
            exists rk ek ck, entry (i + 1) sp' m3 k rk ek ck).
  { intros sp' Hsp' k Hk Hk2.
    destruct (Hen k) as (rk & ek & ck & G1 & G2 & G3 & G4 & G5 & G6 & G7 & G8 & G9 & G10);
      [lia|].
    exists rk, ek, ck. unfold entry. rewrite Hst3, Hcc3.
    destruct (Z.eqb_spec k sp2); [lia|].
    rewrite (Hlab_root k rk) by (lia || assumption).
    assert (ek <> i).
    { intros ->. assert (ck = pr) by congruence. subst ck.
      specialize (G10 sp2 r ltac:(lia) E1). lia. }
    repeat split; try assumption; try lia.
    intros k' r' Hk' Hr'. apply (G10 k'); [lia|assumption]. }
  (* the vertices scanned so far *)
  assert (Hscan : forall j, 0 <= j < i + 1 -> nsl g j ->
            exists q, cell (labeled m3) j = Some q /\ 0 <= q <= j /\ nsl g q
              /\ (q = j ->
                  (exists k, 0 <= k <= sp2 /\ cell (stack m) k = Some j)
                  \/ (exists k, 0 <= k < nc
                        /\ ccell (components m) k F_index = Some j))).
  { intros j Hj Hnj. destruct (Z.eq_dec j i) as [->|Hji].
    - exists pr. rewrite Hlab_hi by lia.
      repeat split; try assumption; try lia.
    - destruct (Hsc j) as (q & H1 & H2 & H3 & H4); [lia|assumption|].
      destruct (Z_le_gt_dec j (-1)) as [|_]; [lia|].
      assert (Hdec : (exists k, sp2 < k <= sp /\ cell (stack m) k = Some j)
                     \/ (forall k, sp2 < k <= sp -> cell (stack m) k <> Some j)).
      { clear - Hsp. 
        assert (Hgen : forall d : nat, 
          (exists k, sp - Z.of_nat d < k <= sp /\ cell (stack m) k = Some j)
          \/ (forall k, sp - Z.of_nat d < k <= sp -> cell (stack m) k <> Some j)).
        { induction d as [|d [IH|IH]].
          - right. intros; lia.
          - left. destruct IH as (k & Hk & Hk'). exists k. split; [lia|assumption].
          - destruct (decide (cell (stack m) (sp - Z.of_nat d) = Some j)) as [Heq|Hneq].
            + left. exists (sp - Z.of_nat d). split; [lia|assumption].
            + right. intros k Hk.
              destruct (Z.eq_dec k (sp - Z.of_nat d)) as [->|]; [assumption|].
              apply IH. lia. }
        specialize (Hgen (Z.to_nat (sp - sp2))).
        replace (sp - Z.of_nat (Z.to_nat (sp - sp2))) with sp2 in Hgen by lia.
        exact Hgen. }
      destruct Hdec as [(k & Hk & Hkj)|Hno].
      + destruct (Hpop k j Hk Hkj) as [Hl Hlt].
        exists pr. rewrite Hlab3.
        repeat split; try assumption; try lia.
      + exists q. rewrite Hlab_keep by assumption.
        repeat split; try assumption; try lia.
        intros Hq. destruct (H4 Hq) as [(k & Hk & Hkj)|Hf]; [|now right].
        left. exists k. split; [|assumption].
        destruct (Z_le_gt_dec k sp2); [lia|].
        exfalso. apply (Hno k); [lia|assumption]. }
  (* the components closed so far *)
  assert (Hfinal : forall k, 0 <= k < nc ->
            exists rk, ccell (components m) k F_index = Some rk
              /\ 0 <= rk < i + 1 /\ nsl g rk /\ cell (labeled m3) rk = Some rk
              /\ (forall k', 0 <= k' <= sp -> cell (stack m) k' <> Some rk)
              /\ (forall k', 0 <= k' < nc -> k' <> k ->
                    ccell (components m) k' F_index <> Some rk)).
  { intros k Hk. destruct (Hfin k Hk) as (rk & H1 & H2 & H3 & H4 & H5 & H6).
    exists rk. rewrite Hlab_keep by (intros; apply H5; lia).
    repeat split; try assumption; lia. }
  (* the later vertices of the cycles met so far *)
  assert (Hcover : forall j cj, i + 1 <= j -> nsl g j -> cell L0 j = Some cj ->
            cj < i + 1 ->
            exists k rk ek, 0 <= k <= sp2 /\ cell (stack m) k = Some rk
              /\ cell (cc m3) k = Some ek /\ rk <= cj /\ j <= ek).
  { intros j cj Hj Hnj Hcj Hlt.
    destruct (label_read j Hnj) as (cj' & Hcj' & _ & [_ Hroot] & _).
    assert (cj' = cj) by congruence. subst cj'.
    assert (cj <> i) by (intros ->; congruence).
    destruct (Hcov j cj) as (k & rk & ek & Hk & G1 & G2 & G3 & G4);
      [lia|assumption|assumption|lia|].
    destruct (Z_lt_le_dec k sp2) as [Hlt2|Hge2].
    - exists k, rk, ek. rewrite Hcc3.
      destruct (Z.eqb_spec k sp2); [lia|].
      repeat split; try assumption; lia.
    - exists sp2, r, e'. rewrite He'.
      split; [lia|]. split; [assumption|]. split; [reflexivity|].
      destruct (Z.eq_dec k sp2) as [->|Hk2].
      + assert (rk = r) by congruence. assert (ek = e) by congruence. lia.
      + destruct (Hpop k rk ltac:(lia) G1) as [_ Hprk].
        specialize (Hrmax k ek ltac:(lia) G2). lia. }
  destruct (Z.leb_spec e' i) as [Hclose|Hopen].
  - (* the component on top of the stack is complete *)
    rewrite Hst3, (rd_cell _ _ _ E1). cbn [bind].
    assert (Hlk : clen (components m3) = s) by (unfold mem_sized in Hsz3; tauto).
    rewrite cwr_inb by lia. cbn [bind].
    eexists _, _, _. split; [reflexivity|].
    assert (Hci : forall k, ccell (cupd (components m3) nc F_index r) k F_index
                   = if k =? nc then Some r
                     else ccell (components m) k F_index).
    { intros k. destruct (Z.eqb_spec k nc) as [->|].
      - apply ccell_cupd_eq. lia.
      - rewrite ccell_cupd_ne by (lia || (left; lia)). now rewrite Hco3. }
    constructor; cbn [stack cc labeled components greyEdges oriented set_components].
    + mem_sized_tac.
    + assumption.
    + assumption.
    + lia.
    + intros j Hj. apply Hlab_hi. lia.
    + intros k Hk. destruct (Hlow (sp2 - 1) ltac:(lia) k Hk ltac:(lia))
        as (rk & ek & ck & H).
      exists rk, ek, ck. exact H.
    + intros j cj Hj Hnj Hcj Hlt.
      destruct (Hcover j cj Hj Hnj Hcj Hlt) as (k & rk & ek & Hk & G1 & G2 & G3 & G4).
      assert (k <> sp2).
      { intros ->. rewrite He' in G2. injection G2. lia. }
      exists k, rk, ek. rewrite Hst3. repeat split; try assumption; lia.
    + intros j Hj Hnj. destruct (Hscan j Hj Hnj) as (q & H1 & H2 & H3 & H4).
      exists q. repeat split; try assumption; try lia.
      intros Hq. destruct (H4 Hq) as [(k & Hk & Hkj)|(k & Hk & Hkj)].
      * destruct (Z.eq_dec k sp2) as [->|].
        -- right. exists nc. rewrite Hci, Z.eqb_refl.
           split; [lia|congruence].
        -- left. exists k. rewrite Hst3. split; [lia|assumption].
      * right. exists k. rewrite Hci.
        destruct (Z.eqb_spec k nc); [lia|]. split; [lia|assumption].
    + intros k Hk. rewrite Hci. destruct (Z.eqb_spec k nc) as [->|Hkn].
      * exists r. split; [reflexivity|]. split; [lia|]. split; [assumption|].
        split; [rewrite (Hlab_root sp2 r) by (lia || assumption); assumption|].
        split.
        -- intros k' Hk' Hk''. rewrite Hst3 in Hk''.
           assert (r < r); [|lia].
           eapply (roots_increasing i sp nc m k' sp2); eauto; lia.
        -- intros k' Hk' Hne'' Hk''. rewrite Hci in Hk''.
           destruct (Z.eqb_spec k' nc); [lia|].
           destruct (Hfin k') as (rk & G1 & _ & _ & _ & G5 & _); [lia|].
           assert (rk = r) by congruence. subst rk.
           apply (G5 sp2); [lia|assumption].
      * destruct (Hfinal k) as (rk & G1 & G2 & G3 & G4 & G5 & G6); [lia|].
        exists rk. repeat split; try assumption; try lia.
        -- intros k' Hk'. rewrite Hst3. apply G5. lia.
        -- intros k' Hk' Hne''. rewrite Hci.
           destruct (Z.eqb_spec k' nc) as [->|].
           ++ intros [= ->]. apply (G5 sp2); [lia|assumption].
           ++ apply G6; [lia|assumption].
    + intros H. exfalso. apply (H i); [lia|assumption].
  - (* the component on top of the stack stays open *)
    eexists _, _, _. split; [reflexivity|].
    constructor.
    + assumption.
    + assumption.
    + assumption.
    + lia.
    + intros j Hj. apply Hlab_hi. lia.
    + intros k Hk. destruct (Z.eq_dec k sp2) as [->|Hk2].
      * exists r, e', c'. unfold entry. rewrite Hst3, He'.
        rewrite (Hlab_root sp2 r) by (lia || assumption).
        repeat split; try assumption; try lia.
      * apply Hlow; lia.
    + intros j cj Hj Hnj Hcj Hlt.
      destruct (Hcover j cj Hj Hnj Hcj Hlt) as (k & rk & ek & H).
      exists k, rk, ek. rewrite Hst3. exact H.
    + intros j Hj Hnj. destruct (Hscan j Hj Hnj) as (q & H1 & H2 & H3 & H4).
      exists q. rewrite Hst3, Hco3. tauto.
    + intros k Hk. destruct (Hfinal k Hk) as (rk & G1 & G2 & G3 & G4 & G5 & G6).
      exists rk. rewrite Hst3, Hco3.
      repeat split; try assumption; try lia.
      intros k' Hk'. apply G5. lia.
    + intros H. exfalso. apply (H i); [lia|assumption].
Qed.

(** One turn of the sweep. *)
Lemma sweep_step (fuel : nat) i sp nc m :
  (Z.to_nat s <= fuel)%nat -> 0 <= i < s -> sweep_inv i sp nc m ->
  exists sp' nc' m',
    cc_sweep fuel i (sp, nc, m) = Ok (sp', nc', m')
    /\ sweep_inv (i + 1) sp' nc' m'.
Proof.
  intros Hfuel Hi W. pose proof W as [Hsz Hgr Hrg Hb Hfr _ _ _ _ _].
  unfold cc_sweep. rewrite Hgr.
  destruct (grey_read i Hi) as [(Hgi & Hni)|(j & Hgi & Hne & Hni)];
    rewrite (rd_cell _ _ _ Hgi); cbn [bind].
  - exists sp, nc, m. split; [reflexivity|]. now apply sweep_skip.
  - destruct (Z.eqb_spec j (-1)); [contradiction|].
    destruct (label_read i Hni) as (pr & Hpr & Hprr & Hroot & _).
    assert (Hli : cell (labeled m) i = Some pr) by (rewrite Hfr by lia; assumption).
    rewrite (rd_cell _ _ _ Hli). cbn [bind].
    destruct (Z.eqb_spec pr i) as [->|Hpi].
    + destruct (HR i) as (e & He & _); [split; [assumption|assumption]|].
      assert (Hls : alen (stack m) = s) by (unfold mem_sized in Hsz; tauto).
      assert (Hlc : alen (cc m) = s) by (unfold mem_sized in Hsz; tauto).
      rewrite wr_inb by lia. cbn [bind].
      rewrite Hrg, (rd_cell _ _ _ He). cbn [bind].
      rewrite wr_inb by lia. cbn [bind].
      eexists _, _, _. split; [reflexivity|].
      apply sweep_push; assumption.
    + apply (sweep_merge fuel i sp nc m pr); assumption.
Qed.

Lemma sweep_loop (fuel : nat) (m0 : distmem_t) :
  (Z.to_nat s <= fuel)%nat ->
  mem_sized s m0 -> greyEdges m0 = g -> labeled m0 = L0 -> oriented m0 = R ->
  exists sp nc m,
    for_range 0 s 1 (cc_sweep fuel) (-1, 0, m0) = Ok (sp, nc, m)
    /\ sweep_inv s sp nc m.
Proof.
  intros Hfuel Hsz Hgr Hl Hr.
  destruct (for_range_inv
    (fun i (st : Z * Z * distmem_t) =>
       sweep_inv i (fst (fst st)) (snd (fst st)) (snd st))
    (cc_sweep fuel) 0 s (-1, 0, m0)) as ([[sp nc] m] & E & W).
  - unfold s. lia.
  - cbn [fst snd]. constructor.
    + assumption.
    + assumption.
    + assumption.
    + lia.
    + intros j _. now rewrite Hl.
    + intros; lia.
    + intros j c Hj Hnj Hc Hlt.
      destruct (label_read j Hnj) as (c' & Hc' & Hcr & _).
      assert (c' = c) by congruence. lia.
    + intros; lia.
    + intros; lia.
    + intros _. split; reflexivity.
  - intros i [[sp nc] m] Hi W. cbn [fst snd] in W.
    destruct (sweep_step fuel i sp nc m Hfuel Hi W) as (sp' & nc' & m' & E & W').
    exists (sp', nc', m'). split; assumption.
  - exists sp, nc, m. split; assumption.
Qed.

End Components.

(** ** The linked lists *)

(** The vertices met from [x] along [next], up to the end mark [-1]. *)
Inductive chain (nx : arr) : Z -> list Z -> Prop :=
| chain_nil : chain nx (-1) []
| chain_cons x y l : cell nx x = Some y -> chain nx y l -> chain nx x (x :: l).

Lemma chain_det nx x l1 l2 : chain nx x l1 -> chain nx x l2 -> l1 = l2.
Proof.
  intros H1. revert l2. induction H1 as [|x y l Hxy H1 IH]; intros l2 H2.
  - inversion H2 as [|? ? ? Hc]; [reflexivity|].
    apply cell_inb in Hc. lia.
  - inversion H2 as [E|? y' l' Hxy' H2']; subst.
    + apply cell_inb in Hxy. lia.
    + assert (y' = y) by congruence. subst y'. f_equal. now apply IH.
Qed.

Lemma chain_suffix nx x l z :
  chain nx x l -> z ∈ l ->
  exists l', chain nx z l' /\ (length l' <= length l)%nat.
Proof.
  induction 1 as [|x y l Hxy H IH]; intros Hz.
  - now apply elem_of_nil in Hz.
  - apply elem_of_cons in Hz as [->|Hz].
    + exists (x :: l). split; [eapply chain_cons; eassumption|lia].
    + destruct (IH Hz) as (l' & Hl' & Hlen). exists l'. split; [assumption|].
      cbn [length]. lia.
Qed.

Lemma chain_NoDup nx x l : chain nx x l -> NoDup l.
Proof.
  induction 1 as [|x y l Hxy H IH]; constructor; [|assumption].
  intros Hin. destruct (chain_suffix nx y l x H Hin) as (l' & Hl' & Hlen).
  assert (l' = x :: l)
    by (eapply chain_det; [eassumption|eapply chain_cons; eassumption]).
  subst l'. cbn [length] in Hlen. lia.
Qed.

Lemma chain_range nx x l z : chain nx x l -> z ∈ l -> 0 <= z < alen nx.
Proof.
  induction 1 as [|x y l Hxy H IH]; intros Hz.
  - now apply elem_of_nil in Hz.
  - apply elem_of_cons in Hz as [->|Hz]; [|now apply IH].
    eapply cell_inb; eassumption.
Qed.

Lemma chain_length nx x l :
  chain nx x l -> (length l <= Z.to_nat (alen nx))%nat.
Proof.
  intros H.
  assert (Hsub : l ⊆+ seqZ 0 (alen nx)).
  { apply NoDup_submseteq; [eapply chain_NoDup; eassumption|].
    intros z Hz. apply elem_of_seqZ.
    pose proof (chain_range nx x l z H Hz). lia. }
  apply submseteq_length in Hsub. rewrite length_seqZ in Hsub. exact Hsub.
Qed.

(** Every vertex of a chain but the first is the [next] of some vertex. *)
Lemma chain_tail nx x l z :
  chain nx x l -> z ∈ l -> z = x \/ exists w, cell nx w = Some z.
Proof.
  induction 1 as [|x y l Hxy H IH]; intros Hz.
  - now apply elem_of_nil in Hz.
  - apply elem_of_cons in Hz as [->|Hz]; [now left|].
    right. destruct (IH Hz) as [->|Hw]; [|assumption]. now exists x.
Qed.

(** Inserting [i] between [q] and the next of [q]. *)
Lemma chain_insert nx i q np :
  0 <= i < alen nx -> 0 <= q < alen nx -> i <> q ->
  cell nx q = Some np ->
  (forall x y, cell nx x = Some y -> y <> i) ->
  forall x l, chain nx x l -> x <> i ->
    exists l', chain (upd (upd nx i np) q i) x l'
               /\ (forall z, z ∈ l -> z ∈ l') /\ (q ∈ l -> i ∈ l').
Proof.
  intros Hi Hq Hne Hnp Hfresh x l H.
  induction H as [|x y l Hxy H IH]; intros Hxi.
  - exists []. split; [constructor|]. split; [auto|].
    intros Hin. now apply elem_of_nil in Hin.
  - destruct IH as (l' & Hl' & Hsub & Hqi); [eapply Hfresh; eassumption|].
    destruct (Z.eq_dec x q) as [->|Hxq].
    + assert (y = np) by congruence. subst y.
      exists (q :: i :: l'). split.
      * constructor 2 with (y := i); [apply cell_upd_eq; rewrite alen_upd; lia|].
        constructor 2 with (y := np); [|assumption].
        rewrite cell_upd_ne by lia. apply cell_upd_eq. lia.
      * split.
        -- intros z Hz. apply elem_of_cons in Hz as [->|Hz]; [left|].
           do 2 right. now apply Hsub.
        -- intros _. right. left.
    + exists (x :: l'). split.
      * constructor 2 with (y := y); [|assumption].
        rewrite !cell_upd_ne by lia. assumption.
      * split.
        -- intros z Hz. apply elem_of_cons in Hz as [->|Hz]; [left|].
           right. now apply Hsub.
        -- intros Hin. apply elem_of_cons in Hin as [->|Hin]; [contradiction|].
           right. now apply Hqi.
Qed.

(** What [connected_component] leaves in [cc]: the component of every
    vertex with a grey edge, [-1] for the others; no component is
    empty. *)
Definition cc_ok (g : arr) (s nc : Z) (c : arr) : Prop :=
  (forall z, nsl g z -> exists k, cell c z = Some k /\ 0 <= k < nc)
  /\ (forall z, 0 <= z < s -> ~ nsl g z -> cell c z = Some (-1))
  /\ (forall k, 0 <= k < nc -> exists z, nsl g z /\ cell c z = Some k).

Section Linking.

Variables (n : Z) (p g P : arr) (C : carr) (nc : Z).
Let s := 2 * n + 2.
Hypothesis Hn : 0 <= n.
Hypothesis Hp : ext_perm_ok n p.
Hypothesis Hg : grey_ok s p g.

(** The forest the sweep leaves in [parent], and its roots in
    [components]. *)
Hypothesis Hparent : forall j, nsl g j ->
  exists q, cell P j = Some q /\ 0 <= q <= j /\ nsl g q
            /\ (q = j -> exists k, 0 <= k < nc
                                   /\ ccell C k F_index = Some j).
Hypothesis Hroots : forall k, 0 <= k < nc ->
  exists r, ccell C k F_index = Some r /\ nsl g r /\ cell P r = Some r
            /\ forall k', 0 <= k' < nc -> k' <> k ->
                 ccell C k' F_index <> Some r.

Let Hnsl_range := nsl_range n p g Hg.
Let Hgrey_read := grey_read n p g Hp Hg.

Lemma next_clear_loop (m0 : distmem_t) :
  mem_sized s m0 ->
  exists m,
    for_range 0 s 1 (fun i m => s <- wr (stack m) i (-1) ;; Ok (set_stack s m)) m0
    = Ok m
    /\ mem_sized s m /\ greyEdges m = greyEdges m0 /\ labeled m = labeled m0
    /\ components m = components m0 /\ cc m = cc m0
    /\ forall i, 0 <= i < s -> cell (stack m) i = Some (-1).
Proof.
  intros Hs0.
  destruct (for_range_inv
    (fun i m => mem_sized s m /\ greyEdges m = greyEdges m0
       /\ labeled m = labeled m0 /\ components m = components m0
       /\ cc m = cc m0
       /\ forall i', 0 <= i' < i -> cell (stack m) i' = Some (-1))
    (fun i m => s <- wr (stack m) i (-1) ;; Ok (set_stack s m)) 0 s m0)
    as (m & Hm & H).
  - unfold s. lia.
  - repeat (split; [assumption || reflexivity|]). intros; lia.
  - intros i m Hi (Hsz & Hg' & Hl & Hc & Hcc & Hd).
    rewrite wr_inb by (unfold mem_sized in Hsz; lia). cbn [bind].
    eexists. split; [reflexivity|]. split; [mem_sized_tac|].
    cbn [greyEdges labeled components cc stack set_stack].
    repeat (split; [assumption|]).
    intros i' Hi'. destruct (Z.eq_dec i' i) as [->|Hne].
    + apply cell_upd_eq. unfold mem_sized in Hsz. lia.
    + rewrite cell_upd_ne by lia. apply Hd. lia.
  - exists m. tauto.
Qed.

Record link_inv (i : Z) (m : distmem_t) : Prop := {
  li_sized : mem_sized s m;
  li_grey : greyEdges m = g;
  li_lab : labeled m = P;
  li_comp : components m = C;
  li_next : forall x, 0 <= x < s ->
            exists y, cell (stack m) x = Some y
                      /\ (y = -1 \/ (0 <= y < i /\ nsl g y
                                     /\ cell P y <> Some y));
  li_fresh : forall x, i <= x < s -> cell (stack m) x = Some (-1);
  li_chain : forall x, 0 <= x < s -> exists l, chain (stack m) x l;
  li_reach : forall j, 0 <= j < i -> nsl g j ->
             exists r l, nsl g r /\ cell P r = Some r
                         /\ chain (stack m) r l /\ j ∈ l;
  li_self : forall j, 0 <= j < i -> ~ nsl g j -> cell (cc m) j = Some (-1);
}.

Lemma link_step i m :
  0 <= i < s -> link_inv i m ->
  exists m', cc_link i m = Ok m' /\ link_inv (i + 1) m'.
Proof.
  intros Hi [Hsz Hgr Hlab Hcomp Hnext Hfresh Hchain Hreach Hself].
  assert (Hls : alen (stack m) = s) by (unfold mem_sized in Hsz; tauto).
  assert (Hlc : alen (cc m) = s) by (unfold mem_sized in Hsz; tauto).
  unfold cc_link. rewrite Hgr.
  destruct (Hgrey_read i Hi) as [(Hgi & Hni)|(j & Hgi & Hne & Hni)];
    rewrite (rd_cell _ _ _ Hgi); cbn [bind].
  - (* a self loop *)
    rewrite wr_inb by lia. cbn [bind].
    eexists. split; [reflexivity|].
    constructor; cbn [stack cc labeled components greyEdges set_cc];
      try assumption.
    + mem_sized_tac.
    + intros x Hx. destruct (Hnext x Hx) as (y & Hy & Hyc).
      exists y. split; [assumption|]. intuition lia.
    + intros x Hx. apply Hfresh. lia.
    + intros j Hj Hnj. assert (j <> i) by (intros ->; contradiction).
      apply Hreach; [lia|assumption].
    + intros j Hj Hnj. destruct (Z.eq_dec j i) as [->|Hji].
      * apply cell_upd_eq. lia.
      * rewrite cell_upd_ne by lia. apply Hself; [lia|assumption].
  - destruct (Z.eqb_spec j (-1)); [contradiction|].
    destruct (Hparent i Hni) as (q & Hq & Hqr & Hnq & Hqroot).
    rewrite Hlab, (rd_cell _ _ _ Hq). cbn [bind].
    destruct (Z.eqb_spec i q) as [<-|Hiq]; cbn [negb].
    + (* a root *)
      exists m. split; [reflexivity|].
      constructor; try assumption.
      * intros x Hx. destruct (Hnext x Hx) as (y & Hy & Hyc).
        exists y. split; [assumption|]. intuition lia.
      * intros x Hx. apply Hfresh. lia.
      * intros j' Hj' Hnj'. destruct (Z.eq_dec j' i) as [->|Hji].
        -- destruct (Hchain i Hi) as (l & Hl). exists i, l.
           repeat split; try assumption.
           inversion Hl; subst; [lia|]. left.
        -- apply Hreach; [lia|assumption].
      * intros j' Hj' Hnj'. assert (j' <> i) by (intros ->; contradiction).
        apply Hself; [lia|assumption].
    + (* a vertex with a parent *)
      destruct (Hnext q) as (np & Hnp & Hnpc); [lia|].
      rewrite (rd_cell _ _ _ Hnp). cbn [bind].
      rewrite wr_inb by lia. cbn [bind].
      rewrite wr_inb by (rewrite alen_upd; lia). cbn [bind].
      eexists. split; [reflexivity|].
      set (nx' := upd (upd (stack m) i np) q i).
      assert (Hnobody : forall x y, cell (stack m) x = Some y -> y <> i).
      { intros x y Hxy ->. pose proof (cell_inb _ _ _ Hxy) as Hxr.
        destruct (Hnext x) as (y' & Hy' & Hyc); [lia|].
        assert (y' = i) by congruence. lia. }
      assert (Hins : forall x l, chain (stack m) x l -> x <> i ->
                exists l', chain nx' x l'
                           /\ (forall z, z ∈ l -> z ∈ l') /\ (q ∈ l -> i ∈ l')).
      { apply chain_insert; try assumption; lia. }
      assert (Hnxc : forall x, cell nx' x
                = if x =? q then Some i
                  else if x =? i then Some np else cell (stack m) x).
      { intros x. unfold nx'.
        destruct (Z.eqb_spec x q); [now cell_simp|].
        destruct (Z.eqb_spec x i); now cell_simp. }
      constructor; cbn [stack cc labeled components greyEdges set_stack];
        try assumption.
      * unfold nx'. mem_sized_tac.
      * intros x Hx. fold nx'. rewrite Hnxc.
        destruct (Z.eqb_spec x q) as [->|Hxq].
        -- exists i. split; [reflexivity|]. right.
           repeat split; try assumption; try lia. congruence.
        -- destruct (Z.eqb_spec x i) as [->|Hxi].
           ++ exists np. split; [reflexivity|]. intuition lia.
           ++ destruct (Hnext x Hx) as (y & Hy & Hyc).
              exists y. split; [assumption|]. intuition lia.
      * intros x Hx. fold nx'. rewrite Hnxc.
        destruct (Z.eqb_spec x q); [lia|].
        destruct (Z.eqb_spec x i); [lia|]. apply Hfresh. lia.
      * intros x Hx. fold nx'. destruct (Z.eq_dec x i) as [->|Hxi].
        -- assert (Hcn : exists l, chain (stack m) np l).
           { destruct Hnpc as [->|Hnpr]; [exists []; constructor|].
             apply Hchain. lia. }
           destruct Hcn as (l & Hl).
           destruct (Hins np l Hl) as (l' & Hl' & _);
             [eapply Hnobody; eassumption|].
           exists (i :: l'). apply chain_cons with (y := np); [|assumption].
           rewrite Hnxc. destruct (Z.eqb_spec i q); [lia|].
           now rewrite Z.eqb_refl.
        -- destruct (Hchain x Hx) as (l & Hl).
           destruct (Hins x l Hl Hxi) as (l' & Hl' & _). now exists l'.
      * intros j' Hj' Hnj'. fold nx'.
        assert (Hold : forall j'', 0 <= j'' < i -> nsl g j'' ->
                  exists r l, nsl g r /\ cell P r = Some r
                    /\ chain nx' r l /\ j'' ∈ l /\ (j'' = q -> i ∈ l)).
        { intros j'' Hj'' Hnj''.
          destruct (Hreach j'' Hj'' Hnj'') as (r & l & Hnr & Hr & Hl & Hin).
          assert (r <> i) by (intros ->; congruence).
          destruct (Hins r l Hl) as (l' & Hl' & Hsub & Hqi); [assumption|].
          exists r, l'. repeat split; try assumption; [now apply Hsub|].
          intros ->. now apply Hqi. }
        destruct (Z.eq_dec j' i) as [->|Hji].
        -- destruct (Hold q) as (r & l & H1 & H2 & H3 & _ & H5);
             [lia|assumption|].
           exists r, l. repeat split; try assumption. now apply H5.
        -- destruct (Hold j') as (r & l & H1 & H2 & H3 & H4 & _);
             [lia|assumption|].
           exists r, l. tauto.
      * intros j' Hj' Hnj'. assert (j' <> i) by (intros ->; contradiction).
        apply Hself; [lia|assumption].
Qed.

Lemma link_loop (m0 : distmem_t) :
  mem_sized s m0 -> greyEdges m0 = g -> labeled m0 = P -> components m0 = C ->
  (forall i, 0 <= i < s -> cell (stack m0) i = Some (-1)) ->
  exists m, for_range 0 s 1 cc_link m0 = Ok m /\ link_inv s m.
Proof.
  intros Hsz Hgr Hlab Hcomp Hclear.
  apply (for_range_inv link_inv cc_link 0 s m0).
  - unfold s. lia.
  - constructor.
    + assumption.
    + assumption.
    + assumption.
    + assumption.
    + intros x Hx. exists (-1). split; [now apply Hclear|now left].
    + intros x Hx. apply Hclear. lia.
    + intros x Hx. exists [x]. apply chain_cons with (y := -1);
        [now apply Hclear|constructor].
    + intros; lia.
    + intros; lia.
  - intros i m Hi. now apply link_step.
Qed.

End Linking.

Section Labelling.

Variables (n : Z) (p g P nx : arr) (C : carr) (nc : Z).
Let s := 2 * n + 2.
Hypothesis Hn : 0 <= n.
Hypothesis Hp : ext_perm_ok n p.
Hypothesis Hg : grey_ok s p g.
Hypothesis Hnx : alen nx = s.
Hypothesis Hroots : forall k, 0 <= k < nc ->
  exists r, ccell C k F_index = Some r /\ nsl g r /\ cell P r = Some r
            /\ forall k', 0 <= k' < nc -> k' <> k ->
                 ccell C k' F_index <> Some r.
Hypothesis Hnext : forall x, 0 <= x < s ->
  exists y, cell nx x = Some y
            /\ (y = -1 \/ (0 <= y < s /\ nsl g y /\ cell P y <> Some y)).
Hypothesis Hchain : forall x, 0 <= x < s -> exists l, chain nx x l.

Let Hnsl_range := nsl_range n p g Hg.

(** The walk along the list of component [k]. *)
Lemma label_walk (k : Z) x l :
  chain nx x l ->
  forall (fuel : nat) m,
    stack m = nx -> mem_sized s m -> (length l < fuel)%nat ->
    exists m',
      while_loop fuel
        (fun st : Z * distmem_t => Ok (negb (fst st =? -1)))
        (fun st : Z * distmem_t =>
           let '(p, m) := st in
           c <- wr (cc m) p k ;;
           p <- rd (stack m) p ;;
           Ok (p, set_cc c m))
        (x, m) = Ok (-1, m')
      /\ mem_sized s m' /\ stack m' = nx /\ greyEdges m' = greyEdges m
      /\ components m' = components m
      /\ (forall z, z ∈ l -> cell (cc m') z = Some k)
      /\ (forall z, z ∉ l -> cell (cc m') z = cell (cc m) z).
Proof.
  induction 1 as [|x y l Hxy H IH]; intros fuel m Hst Hsz Hfuel;
    (destruct fuel as [|fuel]; [lia|]); cbn [while_loop bind fst].
  - change (-1 =? -1) with true. cbn [negb].
    exists m. split; [reflexivity|]. split; [assumption|].
    split; [assumption|]. split; [reflexivity|]. split; [reflexivity|].
    split; [|reflexivity].
    intros z Hz. now apply elem_of_nil in Hz.
  - pose proof (cell_inb _ _ _ Hxy) as Hxr.
    destruct (Z.eqb_spec x (-1)); [lia|]. cbn [negb].
    assert (Hlc : alen (cc m) = s) by (unfold mem_sized in Hsz; tauto).
    rewrite wr_inb by lia. cbn [bind].
    rewrite Hst, (rd_cell _ _ _ Hxy). cbn [bind].
    destruct (IH fuel (set_cc (upd (cc m) x k) m))
      as (m' & E & Hsz' & Hst' & Hgr' & Hco' & Hin & Hout).
    + exact Hst.
    + mem_sized_tac.
    + cbn [length] in Hfuel. lia.
    + assert (Hnd : NoDup (x :: l)).
      { eapply chain_NoDup. eapply chain_cons; eassumption. }
      apply NoDup_cons in Hnd as [Hxl _].
      exists m'. split; [exact E|].
      split; [assumption|]. split; [assumption|].
      split; [assumption|]. split; [assumption|].
      cbn [cc set_cc] in Hout. split.
      * intros z Hz. apply elem_of_cons in Hz as [->|Hz]; [|now apply Hin].
        rewrite Hout by assumption. apply cell_upd_eq. lia.
      * intros z Hz. apply not_elem_of_cons in Hz as [Hzx Hzl].
        rewrite Hout by assumption. apply cell_upd_ne; lia.
Qed.

Record label_inv (k : Z) (m : distmem_t) : Prop := {
  lb_sized : mem_sized s m;
  lb_stack : stack m = nx;
  lb_grey : greyEdges m = g;
  lb_comp : components m = C;
  lb_chain : forall k' r l z, 0 <= k' < k -> ccell C k' F_index = Some r ->
             chain nx r l -> z ∈ l ->
             exists k'', cell (cc m) z = Some k'' /\ 0 <= k'' < k;
  lb_root : forall k' r, 0 <= k' < k -> ccell C k' F_index = Some r ->
            cell (cc m) r = Some k';
  lb_self : forall z, 0 <= z < s -> ~ nsl g z -> cell (cc m) z = Some (-1);
}.

Lemma chain_nsl x l z : nsl g x -> chain nx x l -> z ∈ l -> nsl g z.
Proof.
  intros Hx Hl Hz. destruct (chain_tail nx x l z Hl Hz) as [->|(w & Hw)];
    [assumption|].
  pose proof (cell_inb _ _ _ Hw) as Hwr.
  destruct (Hnext w) as (y & Hy & Hyc); [lia|].
  assert (y = z) by congruence. subst y.
  destruct Hyc as [->|Hyc]; [|tauto].
  pose proof (chain_range nx x l (-1) Hl Hz). lia.
Qed.

Lemma label_step (fuel : nat) k m :
  (Z.to_nat s < fuel)%nat -> 0 <= k < nc -> label_inv k m ->
  exists m', cc_label fuel k m = Ok m' /\ label_inv (k + 1) m'.
Proof.
  intros Hfuel Hk [Hsz Hst Hgr Hco Hch Hrt Hself].
  destruct (Hroots k Hk) as (r & Hr & Hnr & HPr & Hdist).
  pose proof (Hnsl_range r Hnr) as Hrr.
  destruct (Hchain r Hrr) as (l & Hl).
  unfold cc_label. rewrite Hco, (crd_ccell _ _ _ _ Hr). cbn [bind].
  destruct (label_walk k r l Hl fuel m Hst Hsz)
    as (m' & E & Hsz' & Hst' & Hgr' & Hco' & Hin & Hout).
  { pose proof (chain_length nx r l Hl). lia. }
  rewrite E. cbn [bind snd].
  exists m'. split; [reflexivity|].
  assert (Hrl : r ∈ l) by (inversion Hl; subst; [lia|left]).
  constructor; try assumption.
  - congruence.
  - congruence.
  - intros k' r' l' z Hk' Hr' Hl' Hz.
    destruct (decide (z ∈ l)) as [Hzl|Hzl].
    + exists k. split; [now apply Hin|lia].
    + rewrite Hout by assumption.
      destruct (Z.eq_dec k' k) as [->|Hkk].
      * assert (r' = r) by congruence. subst r'.
        assert (l' = l) by (eapply chain_det; eassumption). subst l'.
        contradiction.
      * destruct (Hch k' r' l' z) as (k'' & H1 & H2);
          [lia|assumption|assumption|assumption|].
        exists k''. split; [assumption|lia].
  - intros k' r' Hk' Hr'.
    destruct (Z.eq_dec k' k) as [->|Hkk].
    + assert (r' = r) by congruence. subst r'. now apply Hin.
    + rewrite Hout; [apply Hrt; [lia|assumption]|].
      intros Hin'.
      destruct (Hroots k') as (r'' & Hr'' & Hnr'' & HPr'' & _); [lia|].
      assert (r'' = r') by congruence. subst r''.
      destruct (chain_tail nx r l r' Hl Hin') as [->|(w & Hw)].
      * apply (Hdist k'); [lia|assumption|assumption].
      * pose proof (cell_inb _ _ _ Hw) as Hwr.
        destruct (Hnext w) as (y & Hy & Hyc); [lia|].
        assert (y = r') by congruence. subst y.
        destruct Hyc as [->|(_ & _ & Hnot)]; [|contradiction].
        pose proof (Hnsl_range _ Hnr''). lia.
  - intros z Hz Hnz. rewrite Hout; [now apply Hself|].
    intros Hin'. apply Hnz. eapply chain_nsl; eassumption.
Qed.

Lemma label_loop (fuel : nat) (m0 : distmem_t) :
  (Z.to_nat s < fuel)%nat -> 0 <= nc ->
  mem_sized s m0 -> stack m0 = nx -> greyEdges m0 = g -> components m0 = C ->
  (forall z, 0 <= z < s -> ~ nsl g z -> cell (cc m0) z = Some (-1)) ->
  exists m, for_range 0 nc 1 (cc_label fuel) m0 = Ok m /\ label_inv nc m.
Proof.
  intros Hfuel Hnc Hsz Hst Hgr Hco Hself.
  apply (for_range_inv label_inv (cc_label fuel) 0 nc m0).
  - lia.
  - constructor.
    + assumption.
    + assumption.
    + assumption.
    + assumption.
    + intros; lia.
    + intros; lia.
    + assumption.
  - intros k m Hk. now apply label_step.
Qed.

End Labelling.

(** * [connected_component] as a whole *)

Section ConnectedComponent.

Variables (n : Z) (p : arr).
Let s := 2 * n + 2.
Hypothesis Hn : 0 <= n.
Hypothesis Hp : ext_perm_ok n p.

Lemma sweep_done g L0 R sp nc m :
  sweep_inv n g L0 R s sp nc m -> sp = -1.
Proof.
  intros H. pose proof (sw_bounds _ _ _ _ _ _ _ _ H) as Hb.
  destruct (Z.eq_dec sp (-1)) as [|Hne]; [assumption|].
  destruct (sw_entry _ _ _ _ _ _ _ _ H 0) as (r & e & c & He); [lia|].
  unfold entry in He. fold s in He. lia.
Qed.

Lemma connected_component_ok (fuel : nat) (m0 : distmem_t) :
  mem_sized s m0 -> grey_ok s p (greyEdges m0) ->
  cycles_ok (greyEdges m0) (labeled m0) -> (Z.to_nat s < fuel)%nat ->
  exists nc m, connected_component s fuel m0 = Ok (nc, m)
    /\ mem_sized s m /\ greyEdges m = greyEdges m0 /\ 0 <= nc <= s
    /\ cc_ok (greyEdges m0) s nc (cc m)
    /\ ((forall j, 0 <= j < s -> ~ nsl (greyEdges m0) j) -> nc = 0).
Proof.
  intros Hsz Hg HL Hfuel.
  set (g := greyEdges m0) in *. set (L0 := labeled m0) in *.
  destruct (cc_range_loop n p g L0 Hn Hp Hg HL m0 Hsz eq_refl eq_refl)
    as (mA & EA & HszA & HgA & HlA & HR).
  destruct (sweep_loop n p g L0 Hn Hp Hg HL (oriented mA) HR fuel mA
              ltac:(fold s; lia) HszA HgA HlA eq_refl)
    as (sp & nc & mB & EB & HB).
  fold s in EA, EB, HB.
  pose proof (sweep_done _ _ _ _ _ _ HB) as ->.
  pose proof (sw_bounds _ _ _ _ _ _ _ _ HB) as Hb.
  destruct (next_clear_loop n Hn mB (sw_sized _ _ _ _ _ _ _ _ HB))
    as (mC & EC & HszC & HgC & HlC & HcC & HccC & HstC).
  fold s in EC, HszC, HstC.
  assert (Hparent : forall j, nsl g j ->
            exists q, cell (labeled mB) j = Some q /\ 0 <= q <= j /\ nsl g q
              /\ (q = j -> exists k, 0 <= k < nc
                    /\ ccell (components mB) k F_index = Some j)).
  { intros j Hj. pose proof (nsl_range n p g Hg j Hj) as Hjr. fold s in Hjr.
    destruct (sw_scanned _ _ _ _ _ _ _ _ HB j Hjr Hj)
      as (q & Hq & Hqr & Hnq & Hroot).
    exists q. repeat split; try assumption; try lia.
    intros E. destruct (Hroot E) as [(k & Hk & _)|H]; [lia|assumption]. }
  assert (Hroots : forall k, 0 <= k < nc ->
            exists r, ccell (components mB) k F_index = Some r /\ nsl g r
              /\ cell (labeled mB) r = Some r
              /\ (forall k', 0 <= k' < nc -> k' <> k ->
                    ccell (components mB) k' F_index <> Some r)).
  { intros k Hk. destruct (sw_final _ _ _ _ _ _ _ _ HB k Hk)
      as (r & Hr & _ & Hnr & Hlr & _ & Hd).
    exists r. repeat split; assumption. }
  destruct (link_loop n p g (labeled mB) (components mB) nc Hn Hp Hg
              Hparent Hroots mC HszC)
    as (mD & ED & HD); try congruence.
  { rewrite HgC. apply (sw_grey _ _ _ _ _ _ _ _ HB). }
  { assumption. }
  fold s in ED, HD.
  destruct HD as [HszD HgD HlD HcD Hnext _ Hchain Hreach HselfD].
  destruct (label_loop n p g (labeled mB) (stack mD) (components mB) nc
              Hn Hg) with (fuel := fuel) (m0 := mD) as (mE & EE & HE);
    try assumption; try reflexivity; try lia.
  { unfold mem_sized in HszD. tauto. }
  fold s in EE, HE.
  destruct HE as [HszE HstE HgE HcE Hlch Hlrt Hlself].
  exists nc, mE. split.
  { unfold connected_component. rewrite EA. cbn [bind]. rewrite EB.
    cbn [bind]. rewrite EC. cbn [bind]. rewrite ED. cbn [bind].
    rewrite EE. reflexivity. }
  split; [assumption|]. split; [assumption|]. split; [fold s in Hb; lia|].
  split.
  - unfold cc_ok. split; [|split].
    + intros z Hz. pose proof (nsl_range n p g Hg z Hz) as Hzr.
      fold s in Hzr.
      destruct (Hreach z Hzr Hz) as (r & l & Hnr & HPr & Hl & Hzl).
      destruct (Hparent r Hnr) as (q & Hq & _ & _ & Hk).
      assert (q = r) by congruence. subst q.
      destruct (Hk eq_refl) as (k & Hkr & Hck).
      destruct (Hlch k r l z Hkr Hck Hl Hzl) as (k2 & Hk2 & Hk2r).
      exists k2. split; assumption.
    + assumption.
    + intros k Hk. destruct (Hroots k Hk) as (r & Hr & Hnr & _).
      exists r. split; [assumption|]. apply Hlrt; assumption.
  - intros Hnone.
    destruct (sw_none _ _ _ _ _ _ _ _ HB) as [_ H]; [|assumption].
    intros j Hj. apply Hnone. fold s. assumption.
Qed.

End ConnectedComponent.

(** * Hurdles and fortresses *)

(** A link to a neighbouring component: none, or one of the components. *)
Definition link_ok (nc v : Z) : Prop := v = -1 \/ 0 <= v < nc.

(** The fields the hurdle phase reads are written for every component,
    and the neighbour links stay inside the table. *)
Record comps_ok (nc : Z) (C : carr) : Prop := {
  co_len : nc <= clen C;
  co_oriented : forall k, 0 <= k < nc -> exists v, ccell C k F_oriented = Some v;
  co_blocks : forall k, 0 <= k < nc -> exists v, ccell C k F_blocks = Some v;
  co_hurdle : forall k, 0 <= k < nc -> exists v, ccell C k F_hurdle = Some v;
  co_left : forall k, 0 <= k < nc ->
            exists v, ccell C k F_left = Some v /\ link_ok nc v;
  co_right : forall k, 0 <= k < nc ->
             exists v, ccell C k F_right = Some v /\ link_ok nc v;
}.

Lemma ccell_cupd C k f v k' f' :
  0 <= k < clen C ->
  ccell (cupd C k f v) k' f'
  = if decide (k' = k /\ f' = f) then Some v else ccell C k' f'.
Proof.
  intros Hk. destruct (decide (k' = k /\ f' = f)) as [[-> ->]|Hne].
  - apply ccell_cupd_eq. assumption.
  - apply ccell_cupd_ne; [lia|].
    destruct (Z.eq_dec k' k) as [->|]; [|tauto].
    right. intros ->. tauto.
Qed.

Lemma comps_ok_cupd nc C k f v :
  comps_ok nc C -> 0 <= k < nc ->
  (f = F_left \/ f = F_right -> link_ok nc v) ->
  comps_ok nc (cupd C k f v).
Proof.
  intros [Hlen Ho Hb Hh Hl Hr] Hk Hv.
  assert (Hkc : 0 <= k < clen C) by lia.
  constructor.
  - rewrite clen_cupd. assumption.
  - intros k' Hk'. rewrite ccell_cupd by assumption.
    destruct (decide _); [eauto|apply Ho; assumption].
  - intros k' Hk'. rewrite ccell_cupd by assumption.
    destruct (decide _); [eauto|apply Hb; assumption].
  - intros k' Hk'. rewrite ccell_cupd by assumption.
    destruct (decide _); [eauto|apply Hh; assumption].
  - intros k' Hk'. rewrite ccell_cupd by assumption.
    destruct (decide _) as [[_ E]|]; [|apply Hl; assumption].
    exists v. split; [reflexivity|]. apply Hv. left. congruence.
  - intros k' Hk'. rewrite ccell_cupd by assumption.
    destruct (decide _) as [[_ E]|]; [|apply Hr; assumption].
    exists v. split; [reflexivity|]. apply Hv. right. congruence.
Qed.

Ltac ccell_simp :=
  rewrite ?ccell_cupd by (rewrite ?clen_cupd; lia);
  repeat match goal with
  | |- context [decide (?k' = ?k /\ ?f' = ?f)] =>
      let H := fresh in
      destruct (decide (k' = k /\ f' = f)) as [[? ?]|H];
      [|try (assert (k' <> k)
               by (intros ?; apply H; split; [assumption|reflexivity]);
             clear H)]
  end; try discriminate; try (exfalso; lia).

(** A write to [components] leaves the sizes alone. *)
Lemma mem_sized_components s m C :
  mem_sized s m -> clen C = s -> mem_sized s (set_components C m).
Proof. unfold mem_sized. cbn. tauto. Qed.

Lemma mem_sized_oriented s m o :
  mem_sized s m -> alen o = s -> mem_sized s (set_oriented o m).
Proof. unfold mem_sized. cbn. tauto. Qed.

Section Hurdles.

Variables (n : Z) (p g : arr).
Let s := 2 * n + 2.
Hypothesis Hn : 0 <= n.
Hypothesis Hp : ext_perm_ok n p.
Hypothesis Hg : grey_ok s p g.

Let Hnsl_range := nsl_range n p g Hg.
Let Hnsl_grey := nsl_grey n p Hp g Hg.
Let Hgrey_cases := grey_cases n p Hp g Hg.

(** The first loop: [oriented[i]] tells whether the grey edge at [i] is
    oriented; a vertex without a grey edge is not. *)
Lemma edge_loop (m0 : distmem_t) :
  mem_sized s m0 -> greyEdges m0 = g ->
  exists m, for_range 0 s 1 nhf_edge m0 = Ok m
    /\ mem_sized s m /\ greyEdges m = g /\ cc m = cc m0
    /\ components m = components m0
    /\ forall x, 0 <= x < s ->
         exists v, cell (oriented m) x = Some v /\ (~ nsl g x -> v = 0).
Proof.
  intros Hsz Hgr.
  set (I := fun (i : Z) (m : distmem_t) =>
    mem_sized s m /\ greyEdges m = g /\ cc m = cc m0
    /\ components m = components m0
    /\ (forall x, 0 <= x < i -> ~ nsl g x -> cell (oriented m) x = Some 0)
    /\ (forall x, nsl g x ->
          x < i \/ (exists k, cell g x = Some k /\ 0 <= k < i) ->
          exists v, cell (oriented m) x = Some v)).
  destruct (for_range_inv I nhf_edge 0 s m0) as (m & E & HI).
  - unfold s. lia.
  - unfold I. do 2 (split; [assumption|]). do 2 (split; [reflexivity|]).
    split.
    + intros x Hx. lia.
    + intros x Hnx [Hx|(k & _ & Hk)]; [|lia].
      pose proof (Hnsl_range x Hnx). lia.
  - intros i m Hi (Hsz' & Hgr' & Hcc' & Hco' & Hself & Hedge).
    assert (Hlo : alen (oriented m) = s) by (unfold mem_sized in Hsz'; tauto).
    unfold nhf_edge. rewrite Hgr'.
    destruct (Hgrey_cases i Hi) as (j & Hj & Hjc).
    rewrite (rd_cell _ _ _ Hj). cbn [bind].
    destruct (Z.eqb_spec j (-1)) as [Ej|Nj].
    + (* no grey edge at [i] *)
      subst j. rewrite wr_inb by lia. cbn [bind].
      assert (Hni : ~ nsl g i).
      { intros (j' & Hj' & Hne). congruence. }
      eexists. split; [reflexivity|].
      unfold I. cbn [greyEdges cc components oriented set_oriented].
      split; [apply mem_sized_oriented; [assumption|now rewrite alen_upd]|].
      do 3 (split; [assumption|]). split.
      * intros x Hx Hnx. destruct (Z.eq_dec x i) as [->|Hxi].
        -- apply cell_upd_eq. lia.
        -- rewrite cell_upd_ne by lia. apply Hself; [lia|assumption].
      * intros x Hnx Hx.
        assert (x <> i) by (intros ->; contradiction).
        rewrite cell_upd_ne by lia. apply Hedge; [assumption|].
        destruct Hx as [Hx|(k & Hk & Hkr)]; [left; lia|].
        destruct (Z.eq_dec k i) as [->|Hki]; [|right; exists k; split; [assumption|lia]].
        exfalso. destruct (Hnsl_grey x i Hk ltac:(lia)) as (_ & _ & Hgi & _).
        rewrite Hj in Hgi. pose proof (Hnsl_range x Hnx). injection Hgi. lia.
    + destruct Hjc as [?|(Hjr & Hji & _ & Hgj)]; [contradiction|].
      assert (Hnsi : nsl g i) by (exists j; tauto).
      assert (Hnsj : nsl g j) by (exists i; split; [assumption|lia]).
      assert (Hback : forall x k, nsl g x -> cell g x = Some k -> k = i -> x = j).
      { intros x k Hnx Hk ->.
        destruct (Hnsl_grey x i Hk ltac:(lia)) as (_ & _ & Hgi & _). congruence. }
      destruct (Z.ltb_spec i j) as [Hlt|Hge].
      * (* the edge is met at its left end: both ends are written *)
        rewrite wr_inb by lia. cbn [bind].
        rewrite wr_inb by (rewrite alen_upd; lia). cbn [bind].
        eexists. split; [reflexivity|].
        unfold I. cbn [greyEdges cc components oriented set_oriented].
        split; [apply mem_sized_oriented; [assumption|now rewrite !alen_upd]|].
        do 3 (split; [assumption|]). split.
        -- intros x Hx Hnx.
           assert (x <> i) by (intros ->; contradiction).
           assert (x <> j) by (intros ->; contradiction).
           rewrite !cell_upd_ne by lia. apply Hself; [lia|assumption].
        -- intros x Hnx Hx.
           destruct (Z.eq_dec x j) as [->|Hxj].
           { rewrite cell_upd_eq by (rewrite alen_upd; lia). eauto. }
           rewrite cell_upd_ne by lia.
           destruct (Z.eq_dec x i) as [->|Hxi].
           { rewrite cell_upd_eq by lia. eauto. }
           rewrite cell_upd_ne by lia. apply Hedge; [assumption|].
           destruct Hx as [Hx|(k & Hk & Hkr)]; [left; lia|].
           destruct (Z.eq_dec k i) as [Eki|Hki];
             [|right; exists k; split; [assumption|lia]].
           exfalso. apply Hxj. eapply Hback; eassumption.
      * (* met at its right end: written when the left end was *)
        eexists. split; [reflexivity|].
        unfold I. do 4 (split; [assumption|]). split.
        -- intros x Hx Hnx.
           assert (x <> i) by (intros ->; contradiction).
           apply Hself; [lia|assumption].
        -- intros x Hnx Hx. apply Hedge; [assumption|].
           destruct Hx as [Hx|(k & Hk & Hkr)].
           ++ destruct (Z.eq_dec x i) as [->|Hxi]; [|left; lia].
              right. exists j. split; [assumption|lia].
           ++ destruct (Z.eq_dec k i) as [Eki|Hki];
                [|right; exists k; split; [assumption|lia]].
              left. rewrite (Hback x k Hnx Hk Eki). lia.
  - destruct HI as (Hsz' & Hgr' & Hcc' & Hco' & Hself & Hedge).
    exists m. do 5 (split; [assumption|]).
    intros x Hx. destruct (Hgrey_cases x Hx) as (j & Hj & Hjc).
    destruct (Z.eq_dec j (-1)) as [->|Nj].
    + exists 0. split; [|reflexivity]. apply Hself; [assumption|].
      intros (j' & Hj' & Hne). congruence.
    + destruct (Hedge x) as (v & Hv).
      * exists j. tauto.
      * left. lia.
      * exists v. split; [assumption|]. intros Hnx. exfalso. apply Hnx.
        exists j. tauto.
Qed.

Variable nc : Z.
Hypothesis Hnc : 0 <= nc <= s.

(** Every component starts as oriented-free. *)
Lemma clear_loop (m0 : distmem_t) :
  mem_sized s m0 ->
  exists m, for_range 0 nc 1 nhf_clear_oriented m0 = Ok m
    /\ mem_sized s m /\ greyEdges m = greyEdges m0 /\ cc m = cc m0
    /\ oriented m = oriented m0
    /\ forall k, 0 <= k < nc -> ccell (components m) k F_oriented = Some 0.
Proof.
  intros Hsz.
  set (I := fun (i : Z) (m : distmem_t) =>
    mem_sized s m /\ greyEdges m = greyEdges m0 /\ cc m = cc m0
    /\ oriented m = oriented m0
    /\ forall k, 0 <= k < i -> ccell (components m) k F_oriented = Some 0).
  destruct (for_range_inv I nhf_clear_oriented 0 nc m0) as (m & E & HI).
  - lia.
  - unfold I. split; [assumption|]. do 3 (split; [reflexivity|]).
    intros k Hk. lia.
  - intros i m Hi (Hsz' & Hgr & Hcc & Hor & Hclr).
    assert (Hlc : clen (components m) = s) by (unfold mem_sized in Hsz'; tauto).
    unfold nhf_clear_oriented. rewrite cwr_inb by lia. cbn [bind].
    eexists. split; [reflexivity|].
    unfold I. cbn [greyEdges cc oriented components set_components].
    split; [apply mem_sized_components; [assumption|now rewrite clen_cupd]|].
    do 3 (split; [assumption|]).
    intros k Hk. ccell_simp; [reflexivity|]. apply Hclr. lia.
  - exists m. split; [assumption|]. exact HI.
Qed.

Variable c0 : arr.
Hypothesis Hcc : cc_ok g s nc c0.

(** A component with an oriented edge is oriented. *)
Lemma set_loop (m0 : distmem_t) :
  mem_sized s m0 -> cc m0 = c0 ->
  (forall x, 0 <= x < s ->
     exists v, cell (oriented m0) x = Some v /\ (~ nsl g x -> v = 0)) ->
  (forall k, 0 <= k < nc ->
     exists v, ccell (components m0) k F_oriented = Some v) ->
  exists m, for_range 0 s 1 nhf_set_oriented m0 = Ok m
    /\ mem_sized s m /\ greyEdges m = greyEdges m0 /\ cc m = c0
    /\ forall k, 0 <= k < nc ->
         exists v, ccell (components m) k F_oriented = Some v.
Proof.
  intros Hsz Hc0 Hor Hinit.
  set (I := fun (i : Z) (m : distmem_t) =>
    mem_sized s m /\ greyEdges m = greyEdges m0 /\ cc m = c0
    /\ oriented m = oriented m0
    /\ forall k, 0 <= k < nc ->
         exists v, ccell (components m) k F_oriented = Some v).
  destruct (for_range_inv I nhf_set_oriented 0 s m0) as (m & E & HI).
  - unfold s. lia.
  - unfold I. split; [assumption|]. split; [reflexivity|].
    split; [assumption|]. split; [reflexivity|assumption].
  - intros i m Hi (Hsz' & Hgr & Hcm & Hom & Hin).
    assert (Hlc : clen (components m) = s) by (unfold mem_sized in Hsz'; tauto).
    unfold nhf_set_oriented. rewrite Hom.
    destruct (Hor i Hi) as (v & Hv & Hv0).
    rewrite (rd_cell _ _ _ Hv). cbn [bind].
    destruct (Z.eqb_spec v 1) as [->|Hne].
    + assert (Hni : nsl g i).
      { destruct (Hgrey_cases i Hi) as (j & Hj & [->|Hjc]).
        - assert (1 = 0); [|lia]. apply Hv0.
          intros (j' & Hj' & Hne). congruence.
        - exists j. split; [assumption|lia]. }
      destruct Hcc as (Hin_range & _ & _).
      destruct (Hin_range i Hni) as (k & Hk & Hkr).
      rewrite Hcm, (rd_cell _ _ _ Hk). cbn [bind].
      rewrite cwr_inb by lia. cbn [bind].
      eexists. split; [reflexivity|].
      unfold I. cbn [greyEdges cc oriented components set_components].
      split; [apply mem_sized_components; [assumption|now rewrite clen_cupd]|].
      do 3 (split; [assumption|]).
      intros k' Hk'. ccell_simp; [eauto|]. apply Hin. assumption.
    + eexists. split; [reflexivity|]. unfold I. tauto.
  - exists m. unfold I in HI. tauto.
Qed.

(** The number of unoriented components. *)
Lemma count_loop_unoriented (m : distmem_t) :
  (forall k, 0 <= k < nc ->
     exists v, ccell (components m) k F_oriented = Some v) ->
  exists c, for_range 0 nc 1 (nhf_count_unoriented m) 0 = Ok c
    /\ 0 <= c
    /\ (c <> 0 -> exists k, 0 <= k < nc
                    /\ ccell (components m) k F_oriented = Some 0).
Proof.
  intros Hin.
  set (I := fun (i c : Z) =>
    0 <= c /\ (c <> 0 -> exists k, 0 <= k < nc
                 /\ ccell (components m) k F_oriented = Some 0)).
  destruct (for_range_inv I (nhf_count_unoriented m) 0 nc 0) as (c & E & HI).
  - lia.
  - unfold I. split; [lia|]. intros H. lia.
  - intros i c Hi (Hc & Hex). unfold nhf_count_unoriented.
    destruct (Hin i Hi) as (v & Hv). rewrite (crd_ccell _ _ _ _ Hv).
    cbn [bind]. destruct (Z.eqb_spec v 0) as [->|Hne].
    + eexists. split; [reflexivity|]. unfold I. split; [lia|].
      intros _. exists i. split; assumption.
    + eexists. split; [reflexivity|]. unfold I. tauto.
  - exists c. unfold I in HI. tauto.
Qed.

(** The block counters and neighbour links are reset. *)
Lemma init_loop (m0 : distmem_t) :
  mem_sized s m0 ->
  (forall k, 0 <= k < nc ->
     exists v, ccell (components m0) k F_oriented = Some v) ->
  exists m, for_range 0 nc 1 nhf_init m0 = Ok m
    /\ mem_sized s m /\ greyEdges m = greyEdges m0 /\ cc m = cc m0
    /\ (forall k, ccell (components m) k F_oriented
                  = ccell (components m0) k F_oriented)
    /\ comps_ok nc (components m)
    /\ forall k, 0 <= k < nc ->
         ccell (components m) k F_blocks = Some 0
         /\ ccell (components m) k F_hurdle = Some 0
         /\ ccell (components m) k F_left = Some (-1)
         /\ ccell (components m) k F_right = Some (-1).
Proof.
  intros Hsz Hin.
  set (I := fun (i : Z) (m : distmem_t) =>
    mem_sized s m /\ greyEdges m = greyEdges m0 /\ cc m = cc m0
    /\ (forall k, ccell (components m) k F_oriented
                  = ccell (components m0) k F_oriented)
    /\ forall k, 0 <= k < i ->
         ccell (components m) k F_blocks = Some 0
         /\ ccell (components m) k F_hurdle = Some 0
         /\ ccell (components m) k F_left = Some (-1)
         /\ ccell (components m) k F_right = Some (-1)).
  destruct (for_range_inv I nhf_init 0 nc m0) as (m & E & HI).
  - lia.
  - unfold I. split; [assumption|]. do 2 (split; [reflexivity|]).
    split; [reflexivity|]. intros k Hk. lia.
  - intros i m Hi (Hsz' & Hgr & Hcm & Hom & Hdone).
    assert (Hlc : clen (components m) = s) by (unfold mem_sized in Hsz'; tauto).
    unfold nhf_init. rewrite cwr_inb by lia. cbn [bind].
    rewrite cwr_inb by (rewrite ?clen_cupd; lia). cbn [bind].
    rewrite cwr_inb by (rewrite ?clen_cupd; lia). cbn [bind].
    rewrite cwr_inb by (rewrite ?clen_cupd; lia). cbn [bind].
    eexists. split; [reflexivity|].
    unfold I. cbn [greyEdges cc oriented components set_components].
    split; [apply mem_sized_components; [assumption|now rewrite !clen_cupd]|].
    do 2 (split; [assumption|]). split.
    + intros k. ccell_simp. apply Hom.
    + intros k Hk. destruct (Z.eq_dec k i) as [->|Hki].
      * repeat split; ccell_simp; reflexivity.
      * destruct (Hdone k ltac:(lia)) as (H1 & H2 & H3 & H4).
        repeat split; ccell_simp; assumption.
  - destruct HI as (Hsz' & Hgr & Hcm & Hom & Hdone).
    exists m. do 5 (split; [assumption|]). split; [|assumption].
    assert (Hlc : clen (components m) = s) by (unfold mem_sized in Hsz'; tauto).
    constructor.
    + lia.
    + intros k Hk. rewrite Hom. apply Hin. assumption.
    + intros k Hk. destruct (Hdone k Hk) as (H1 & _). eauto.
    + intros k Hk. destruct (Hdone k Hk) as (_ & H2 & _). eauto.
    + intros k Hk. destruct (Hdone k Hk) as (_ & _ & H3 & _).
      exists (-1). split; [assumption|]. left. reflexivity.
    + intros k Hk. destruct (Hdone k Hk) as (_ & _ & _ & H4).
      exists (-1). split; [assumption|]. left. reflexivity.
Qed.

(** The block scan.  It leaves the orientation and hurdle marks alone,
    keeps the table well formed, and ends on a component as soon as it
    has met an unoriented one. *)
Record scan_inv (C0 : carr) (i fc lc : Z) (m : distmem_t) : Prop := {
  sc_sized : mem_sized s m;
  sc_grey : greyEdges m = g;
  sc_cc : cc m = c0;
  sc_oriented : forall k, ccell (components m) k F_oriented
                          = ccell C0 k F_oriented;
  sc_hurdle : forall k, ccell (components m) k F_hurdle
                        = ccell C0 k F_hurdle;
  sc_comps : comps_ok nc (components m);
  sc_first : link_ok nc fc;
  sc_last : link_ok nc lc;
  sc_both : lc <> -1 -> fc <> -1;
  sc_seen : forall z k, 0 <= z < i -> cell c0 z = Some k -> k <> -1 ->
            ccell C0 k F_oriented = Some 0 -> lc <> -1;
}.

Lemma cc_read i :
  0 <= i < s -> exists k, cell c0 i = Some k /\ link_ok nc k.
Proof.
  intros Hi. destruct Hcc as (Hin & Hout & _).
  destruct (Hgrey_cases i Hi) as (j & Hj & Hjc).
  destruct (Z.eq_dec j (-1)) as [->|Hne].
  - exists (-1). split; [|left; reflexivity]. apply Hout; [assumption|].
    intros (j' & Hj' & Hne'). congruence.
  - destruct (Hin i) as (k & Hk & Hkr); [exists j; tauto|].
    exists k. split; [assumption|]. right. assumption.
Qed.

Lemma scan_step C0 i fc lc nb m :
  0 <= i < s -> scan_inv C0 i fc lc m ->
  exists fc' lc' nb' m',
    nhf_scan i (fc, lc, nb, m) = Ok (fc', lc', nb', m')
    /\ scan_inv C0 (i + 1) fc' lc' m'.
Proof.
  intros Hi [Hsz Hgr Hcm Hor Hhu Hco Hfc Hlc Hboth Hseen].
  assert (Hlen : clen (components m) = s) by (unfold mem_sized in Hsz; tauto).
  unfold nhf_scan. destruct (cc_read i Hi) as (k & Hk & Hkl).
  rewrite Hcm, (rd_cell _ _ _ Hk). cbn [bind].
  assert (Hkeep : (forall z k', 0 <= z < i + 1 -> cell c0 z = Some k' ->
                     k' <> -1 -> ccell C0 k' F_oriented = Some 0 ->
                     z <> i -> lc <> -1)).
  { intros z k' Hz Hk' Hne Ho Hzi. apply (Hseen z k'); try assumption. lia. }
  destruct (Z.eqb_spec k (-1)) as [Ek|Nk]; cbn [negb].
  { (* a vertex of no component *)
    exists fc, lc, nb, m. split; [reflexivity|].
    constructor; try assumption.
    intros z k' Hz Hk' Hne Ho. apply (Hkeep z k'); try assumption.
    intros ->. congruence. }
  destruct Hkl as [?|Hkr]; [contradiction|].
  destruct (co_oriented _ _ Hco k Hkr) as (o & Ho).
  rewrite (crd_ccell _ _ _ _ Ho). cbn [bind].
  destruct (Z.eqb_spec o 0) as [Eo|No].
  2:{ (* an oriented component *)
    exists fc, lc, nb, m. split; [reflexivity|].
    constructor; try assumption.
    intros z k' Hz Hk' Hne Ho'. apply (Hkeep z k'); try assumption.
    intros ->. assert (k' = k) by congruence. subst k'.
    rewrite <- Hor in Ho'. congruence. }
  subst o.
  destruct (Z.eqb_spec k lc) as [Ekl|Nkl]; cbn [negb].
  { (* still inside the same block *)
    exists fc, lc, nb, m. split; [reflexivity|].
    constructor; try assumption.
    intros _ _ _ _ _ _. lia. }
  destruct (Z.eqb_spec lc (-1)) as [El|Nl].
  - (* the first block *)
    cbn [bind]. destruct (co_blocks _ _ Hco k Hkr) as (b & Hb).
    rewrite (crd_ccell _ _ _ _ Hb). cbn [bind].
    rewrite cwr_inb by lia. cbn [bind].
    eexists k, k, (nb + 1), _. split; [reflexivity|].
    constructor; cbn [greyEdges cc components set_components];
      try assumption.
    + apply mem_sized_components; [assumption|now rewrite clen_cupd].
    + intros k'. ccell_simp. apply Hor.
    + intros k'. ccell_simp. apply Hhu.
    + apply comps_ok_cupd; [assumption|assumption|].
      intros [H|H]; discriminate.
    + right. assumption.
    + right. assumption.
    + intros _. lia.
    + intros _ _ _ _ _ _. lia.
  - (* a new block: link it to the one before *)
    destruct Hlc as [?|Hlr]; [contradiction|].
    rewrite cwr_inb by lia. cbn [bind].
    rewrite cwr_inb by (rewrite ?clen_cupd; lia). cbn [bind].
    set (C1 := cupd (cupd (components m) lc F_right k) k F_left lc).
    assert (Hco1 : comps_ok nc C1).
    { unfold C1. apply comps_ok_cupd; [|assumption|intros _; right; assumption].
      apply comps_ok_cupd; [assumption|assumption|intros _; right; assumption]. }
    destruct (co_blocks _ _ Hco1 k Hkr) as (b & Hb).
    rewrite (crd_ccell _ _ _ _ Hb). cbn [bind].
    rewrite cwr_inb by (unfold C1; rewrite ?clen_cupd; lia). cbn [bind].
    eexists fc, k, (nb + 1), _. split; [reflexivity|].
    constructor; cbn [greyEdges cc components set_components];
      try assumption.
    + apply mem_sized_components; [assumption|].
      unfold C1. now rewrite !clen_cupd.
    + intros k'. unfold C1. ccell_simp. apply Hor.
    + intros k'. unfold C1. ccell_simp. apply Hhu.
    + apply comps_ok_cupd; [assumption|assumption|].
      intros [H|H]; discriminate.
    + right. assumption.
    + intros _. apply Hboth. assumption.
    + intros _ _ _ _ _ _. lia.
Qed.

Lemma scan_loop (m0 : distmem_t) :
  mem_sized s m0 -> greyEdges m0 = g -> cc m0 = c0 ->
  comps_ok nc (components m0) ->
  exists fc lc nb m,
    for_range 0 s 1 nhf_scan (-1, -1, -1, m0) = Ok (fc, lc, nb, m)
    /\ scan_inv (components m0) s fc lc m.
Proof.
  intros Hsz Hgr Hcm Hco.
  set (I := fun (i : Z) (st : Z * Z * Z * distmem_t) =>
    let '(fc, lc, _, m) := st in scan_inv (components m0) i fc lc m).
  destruct (for_range_inv I nhf_scan 0 s (-1, -1, -1, m0))
    as ([[[fc lc] nb] m] & E & HI).
  - unfold s. lia.
  - unfold I. constructor; try assumption; try reflexivity.
    + left. reflexivity.
    + left. reflexivity.
    + intros H. lia.
    + intros z k Hz. lia.
  - intros i [[[fc lc] nb] m] Hi HI. unfold I in HI.
    destruct (scan_step _ i fc lc nb m Hi HI) as (fc' & lc' & nb' & m' & E & H).
    exists (fc', lc', nb', m'). split; assumption.
  - exists fc, lc, nb, m. split; assumption.
Qed.

End Hurdles.

(** * Marking the hurdles *)

(** How many [k] below a bound pass a test. *)
Fixpoint count_upto (P : Z -> bool) (k : nat) : Z :=
  match k with
  | O => 0
  | S k' => count_upto P k' + (if P (Z.of_nat k') then 1 else 0)
  end.

Lemma count_upto_succ P (i : Z) :
  0 <= i ->
  count_upto P (Z.to_nat (i + 1))
  = count_upto P (Z.to_nat i) + (if P i then 1 else 0).
Proof.
  intros Hi. replace (Z.to_nat (i + 1)) with (S (Z.to_nat i)) by lia.
  cbn [count_upto]. rewrite Z2Nat.id by lia. reflexivity.
Qed.

Lemma count_upto_bounds P k : 0 <= count_upto P k <= Z.of_nat k.
Proof.
  induction k as [|k IH]; cbn [count_upto]; [lia|].
  destruct (P (Z.of_nat k)); lia.
Qed.

(** An unoriented component that the scan met in exactly one block. *)
Definition single_block (C : carr) (k : Z) : bool :=
  match ccell C k F_oriented, ccell C k F_blocks with
  | Some o, Some b => (o =? 0) && (b =? 1)
  | _, _ => false
  end.

(** The scan began and ended in the same component, met in two blocks. *)
Definition wraps_around (C : carr) (first_comp last_comp : Z) : bool :=
  (first_comp =? last_comp)
  && match ccell C first_comp F_blocks with
     | Some b => b =? 2
     | None => false
     end.

Section Marks.

Variable nc : Z.
Hypothesis Hnc : 0 <= nc.

(** The hurdle loop marks the single-block components and counts them. *)
Lemma hurdle_loop (m : distmem_t) :
  comps_ok nc (components m) ->
  exists C', for_range 0 nc 1 nhf_hurdle (0, m)
             = Ok (count_upto (single_block (components m)) (Z.to_nat nc),
                   set_components C' m)
    /\ comps_ok nc C'
    /\ forall k f, ccell C' k f
         = if decide (f = F_hurdle /\ 0 <= k < nc
                      /\ single_block (components m) k = true)
           then Some HURDLE else ccell (components m) k f.
Proof.
  intros Hco. set (C := components m).
  set (I := fun (i : Z) (st : Z * distmem_t) =>
    exists C', st = (count_upto (single_block C) (Z.to_nat i),
                     set_components C' m)
      /\ comps_ok nc C'
      /\ forall k f, ccell C' k f
           = if decide (f = F_hurdle /\ 0 <= k < i
                        /\ single_block C k = true)
             then Some HURDLE else ccell C k f).
  destruct (for_range_inv I nhf_hurdle 0 nc (0, m)) as (st & E & HI).
  - lia.
  - exists C. split; [destruct m; reflexivity|]. split; [assumption|].
    intros k f. destruct (decide _) as [(_ & H & _)|]; [lia|reflexivity].
  - intros i st Hi (C' & -> & Hco' & Hch).
    pose proof (co_len _ _ Hco') as Hlen.
    unfold nhf_hurdle. cbn [components set_components].
    destruct (co_oriented _ _ Hco i Hi) as (o & Ho).
    destruct (co_blocks _ _ Hco i Hi) as (b & Hb).
    assert (Ho' : ccell C' i F_oriented = Some o).
    { rewrite Hch. destruct (decide _) as [(? & _)|]; [discriminate|exact Ho]. }
    assert (Hb' : ccell C' i F_blocks = Some b).
    { rewrite Hch. destruct (decide _) as [(? & _)|]; [discriminate|exact Hb]. }
    rewrite (crd_ccell _ _ _ _ Ho'). cbn [bind].
    assert (Hsb : single_block C i = (o =? 0) && (b =? 1)).
    { unfold single_block. fold C in Ho, Hb. now rewrite Ho, Hb. }
    pose proof (count_upto_succ (single_block C) i ltac:(lia)) as Hcnt.
    assert (Hkeep : single_block C i = false ->
              forall k f, ccell C' k f
                = if decide (f = F_hurdle /\ 0 <= k < i + 1
                             /\ single_block C k = true)
                  then Some HURDLE else ccell C k f).
    { intros Hs k f. rewrite Hch.
      destruct (decide (f = F_hurdle /\ 0 <= k < i /\ _)) as [H|H].
      - rewrite decide_True; [reflexivity|]. intuition lia.
      - rewrite decide_False; [reflexivity|].
        intros (Hf & Hk & Hsk). apply H. split; [assumption|].
        split; [|assumption].
        destruct (Z.eq_dec k i) as [->|]; [congruence|lia]. }
    destruct (o =? 0) eqn:Eo; cbn [andb] in Hsb.
    + rewrite (crd_ccell _ _ _ _ Hb'). cbn [bind].
      destruct (b =? 1) eqn:Eb.
      * rewrite cwr_inb by lia. cbn [bind].
        eexists. split; [reflexivity|]. exists (cupd C' i F_hurdle HURDLE).
        split; [rewrite Hcnt, Hsb; reflexivity|].
        split; [apply comps_ok_cupd; [assumption|lia|intros [H|H]; discriminate]|].
        intros k f. rewrite ccell_cupd by lia. rewrite Hch.
        destruct (decide (k = i /\ f = F_hurdle)) as [[-> ->]|Hne].
        -- rewrite decide_True; [reflexivity|].
           split; [reflexivity|]. split; [lia|assumption].
        -- destruct (decide (f = F_hurdle /\ 0 <= k < i /\ _)) as [H|H].
           ++ rewrite decide_True; [reflexivity|]. intuition lia.
           ++ rewrite decide_False; [reflexivity|].
              intros (Hf & Hk & Hs). apply H. split; [assumption|].
              split; [|assumption].
              destruct (Z.eq_dec k i) as [->|]; [tauto|lia].
      * eexists. split; [reflexivity|]. exists C'.
        split; [rewrite Hcnt, Hsb, Z.add_0_r; reflexivity|].
        split; [assumption|]. apply Hkeep. assumption.
    + eexists. split; [reflexivity|]. exists C'.
      split; [rewrite Hcnt, Hsb, Z.add_0_r; reflexivity|].
      split; [assumption|]. apply Hkeep. assumption.
  - destruct HI as (C' & -> & Hco' & Hch). exists C'.
    split; [assumption|]. split; assumption.
Qed.

(** The wrap-around hurdle. *)
Lemma greathurdle_ok (first_comp last_comp nh : Z) (m : distmem_t) :
  comps_ok nc (components m) ->
  (first_comp = last_comp -> 0 <= first_comp < nc) ->
  exists C', nhf_greathurdle first_comp last_comp (nh, m)
             = Ok (nh + (if wraps_around (components m) first_comp last_comp
                         then 1 else 0),
                   set_components C' m)
    /\ comps_ok nc C'
    /\ forall k f, ccell C' k f
         = if decide (f = F_hurdle /\ k = first_comp
                      /\ wraps_around (components m) first_comp last_comp
                         = true)
           then Some (Z.lor HURDLE GREATHURDLE) else ccell (components m) k f.
Proof.
  intros Hco Hfl. set (C := components m).
  assert (Hsame : wraps_around C first_comp last_comp = false ->
            exists C', Ok (nh, m)
              = Ok (nh + (if wraps_around C first_comp last_comp
                          then 1 else 0), set_components C' m)
            /\ comps_ok nc C'
            /\ forall k f, ccell C' k f
                 = if decide (f = F_hurdle /\ k = first_comp
                              /\ wraps_around C first_comp last_comp = true)
                   then Some (Z.lor HURDLE GREATHURDLE) else ccell C k f).
  { intros Hw. exists C. rewrite Hw, Z.add_0_r.
    split; [destruct m; reflexivity|]. split; [assumption|].
    intros k f. rewrite decide_False; [reflexivity|].
    intros (_ & _ & ?). discriminate. }
  unfold nhf_greathurdle. fold C.
  destruct (first_comp =? last_comp) eqn:Efl.
  - apply Z.eqb_eq in Efl. specialize (Hfl Efl).
    destruct (co_blocks _ _ Hco _ Hfl) as (b & Hb). fold C in Hb.
    rewrite (crd_ccell _ _ _ _ Hb). cbn [bind].
    assert (Hw : wraps_around C first_comp last_comp = (b =? 2)).
    { unfold wraps_around. rewrite Hb, (proj2 (Z.eqb_eq _ _) Efl).
      reflexivity. }
    pose proof (co_len _ _ Hco) as Hlen. fold C in Hlen.
    destruct (b =? 2) eqn:Eb.
    + rewrite cwr_inb by lia. cbn [bind].
      exists (cupd C first_comp F_hurdle (Z.lor HURDLE GREATHURDLE)).
      rewrite Hw. split; [reflexivity|].
      split; [apply comps_ok_cupd; [assumption|lia|intros [H|H]; discriminate]|].
      intros k f. rewrite ccell_cupd by lia.
      destruct (decide (k = first_comp /\ f = F_hurdle)) as [[-> ->]|Hne].
      * rewrite decide_True; [reflexivity|]. tauto.
      * rewrite decide_False; [reflexivity|]. tauto.
    + apply Hsame. assumption.
  - apply Hsame. unfold wraps_around. rewrite Efl. reflexivity.
Qed.

(** * Superhurdles and the fortress *)

Definition hurdle_of (C : carr) (k : Z) : Z :=
  match ccell C k F_hurdle with
  | Some h => h
  | None => 0
  end.

Definition is_hurdle (C : carr) (k : Z) : bool := negb (hurdle_of C k =? 0).

(** The shape test of a superhurdle: one neighbour on both sides, met in
    two blocks, and not the wrap-around hurdle. *)
Definition superhurdle_shape (C : carr) (k : Z) : bool :=
  match ccell C k F_left, ccell C k F_right with
  | Some l, Some r =>
      (l =? r) && negb (l =? -1)
      && match ccell C l F_blocks, ccell C l F_hurdle with
         | Some b, Some hl => (b =? 2) && (Z.land hl GREATHURDLE =? 0)
         | _, _ => false
         end
  | _, _ => false
  end.

(** The marks after the superhurdle loop has passed the components
    below [i]. *)
Definition super_marks (C C' : carr) (i : Z) : Prop :=
  forall k f, ccell C' k f
    = if decide (f = F_hurdle /\ 0 <= k < i /\ is_hurdle C k = true)
      then Some (Z.lor (hurdle_of C k) SUPERHURDLE) else ccell C k f.

Definition all_super (C : carr) (i : Z) : Prop :=
  forall k, 0 <= k < i -> is_hurdle C k = true -> superhurdle_shape C k = true.

Lemma land_super h :
  Z.land (Z.lor h SUPERHURDLE) GREATHURDLE = Z.land h GREATHURDLE.
Proof.
  rewrite Z.land_lor_distr_l.
  replace (Z.land SUPERHURDLE GREATHURDLE) with 0 by reflexivity.
  apply Z.lor_0_r.
Qed.

Lemma trip_count_unit k : trip_count 0 k 1 = Z.to_nat k.
Proof.
  unfold trip_count. rewrite Z.div_1_r. f_equal. lia.
Qed.

Lemma super_marks_step C C' i :
  super_marks C C' i -> is_hurdle C i = false -> super_marks C C' (i + 1).
Proof.
  intros Hch Hh k f. rewrite Hch.
  destruct (decide (f = F_hurdle /\ 0 <= k < i /\ _)) as [H|H].
  - rewrite decide_True; [reflexivity|]. intuition lia.
  - rewrite decide_False; [reflexivity|].
    intros (Hf & Hk & Hs). apply H. split; [assumption|].
    split; [|assumption].
    destruct (Z.eq_dec k i) as [->|]; [congruence|lia].
Qed.

(** The test the code makes on the table it is marking is the shape test
    on the table it started from. *)
Lemma super_test C C' i k :
  comps_ok nc C -> super_marks C C' i -> 0 <= k < nc ->
  exists l r, ccell C' k F_left = Some l /\ ccell C' k F_right = Some r
    /\ (((l =? r) && negb (l =? -1) = false
         /\ superhurdle_shape C k = false)
        \/ ((l =? r) && negb (l =? -1) = true
            /\ exists b hl, ccell C' l F_blocks = Some b
                 /\ ccell C' l F_hurdle = Some hl
                 /\ superhurdle_shape C k
                    = (b =? 2) && (Z.land hl GREATHURDLE =? 0))).
Proof.
  intros Hco Hch Hk.
  destruct (co_left _ _ Hco k Hk) as (l & Hl & Hlr).
  destruct (co_right _ _ Hco k Hk) as (r & Hr & _).
  exists l, r.
  split; [rewrite Hch, decide_False by (intros (? & _); discriminate);
          assumption|].
  split; [rewrite Hch, decide_False by (intros (? & _); discriminate);
          assumption|].
  unfold superhurdle_shape. rewrite Hl, Hr.
  destruct ((l =? r) && negb (l =? -1)) eqn:Et; [right|left; tauto].
  split; [reflexivity|].
  assert (Hlin : 0 <= l < nc).
  { apply andb_prop in Et. destruct Et as [_ Et].
    apply negb_true_iff, Z.eqb_neq in Et. destruct Hlr; [contradiction|lia]. }
  destruct (co_blocks _ _ Hco l Hlin) as (b & Hb).
  destruct (co_hurdle _ _ Hco l Hlin) as (hl & Hhl).
  rewrite Hb, Hhl. cbn [andb].
  exists b. rewrite !Hch.
  rewrite decide_False by (intros (? & _); discriminate).
  destruct (decide _) as [_|_].
  - exists (Z.lor (hurdle_of C l) SUPERHURDLE). split; [assumption|].
    split; [reflexivity|]. rewrite land_super. unfold hurdle_of.
    rewrite Hhl. reflexivity.
  - exists hl. split; [assumption|]. split; [assumption|reflexivity].
Qed.

Lemma super_step C C' i ns (m : distmem_t) :
  comps_ok nc C -> comps_ok nc C' -> super_marks C C' i -> 0 <= i < nc ->
  nhf_superhurdle i (ns, set_components C' m)
  = if is_hurdle C i then
      if superhurdle_shape C i then
        Ok (inl (ns + 1,
                 set_components
                   (cupd C' i F_hurdle (Z.lor (hurdle_of C i) SUPERHURDLE)) m))
      else Ok (inr (set_components C' m))
    else Ok (inl (ns, set_components C' m)).
Proof.
  intros Hco Hco' Hch Hi.
  destruct (co_hurdle _ _ Hco i Hi) as (h & Hh).
  assert (Hh' : ccell C' i F_hurdle = Some h).
  { rewrite Hch, decide_False by (intros (_ & ? & _); lia). assumption. }
  unfold nhf_superhurdle. cbn [components set_components].
  rewrite (crd_ccell _ _ _ _ Hh'). cbn [bind].
  unfold is_hurdle, hurdle_of. rewrite Hh.
  destruct (negb (h =? 0)); [|reflexivity].
  destruct (super_test C C' i i Hco Hch Hi)
    as (l & r & Hl & Hr & [(Et & Hs)|(Et & b & hl & Hb & Hhl & Hs)]);
    rewrite (crd_ccell _ _ _ _ Hl), (crd_ccell _ _ _ _ Hr); cbn [bind];
    rewrite Et, Hs; [reflexivity|].
  rewrite (crd_ccell _ _ _ _ Hb). cbn [bind].
  destruct (b =? 2); cbn [andb]; [|reflexivity].
  rewrite (crd_ccell _ _ _ _ Hhl). cbn [bind].
  destruct (Z.land hl GREATHURDLE =? 0); [|reflexivity].
  pose proof (co_len _ _ Hco') as Hlen.
  rewrite cwr_inb by lia. reflexivity.
Qed.

(** The superhurdle loop either marks every hurdle, or returns at the
    first hurdle that has not the shape. *)
Lemma super_loop (m : distmem_t) :
  comps_ok nc (components m) ->
  (exists C', for_ret (Z.to_nat nc) 0 1 nhf_superhurdle (0, m)
              = Ok (inl (count_upto (is_hurdle (components m)) (Z.to_nat nc),
                         set_components C' m))
     /\ super_marks (components m) C' nc
     /\ all_super (components m) nc)
  \/ (exists C' k0, for_ret (Z.to_nat nc) 0 1 nhf_superhurdle (0, m)
                    = Ok (inr (set_components C' m))
        /\ 0 <= k0 < nc /\ is_hurdle (components m) k0 = true
        /\ superhurdle_shape (components m) k0 = false
        /\ super_marks (components m) C' k0
        /\ all_super (components m) k0).
Proof.
  intros Hco. set (C := components m) in *.
  set (I := fun (i : Z) (st : Z * distmem_t) =>
    exists C', st = (count_upto (is_hurdle C) (Z.to_nat i),
                     set_components C' m)
      /\ comps_ok nc C' /\ super_marks C C' i /\ all_super C i).
  set (Q := fun (m' : distmem_t) =>
    exists C' k0, m' = set_components C' m
      /\ 0 <= k0 < nc /\ is_hurdle C k0 = true
      /\ superhurdle_shape C k0 = false
      /\ super_marks C C' k0 /\ all_super C k0).
  destruct (for_ret_inv I Q nhf_superhurdle (Z.to_nat nc) 0 (0, m))
    as [(st & E & C' & -> & _ & Hch & Hall)
       |(m' & E & C' & k0 & -> & H)].
  - exists C. split; [destruct m; reflexivity|]. split; [assumption|].
    split.
    + intros k f. rewrite decide_False; [reflexivity|]. intros (_ & ? & _). lia.
    + intros k Hk. lia.
  - intros k st Hk (C' & -> & Hco' & Hch & Hall).
    rewrite !Z.add_0_l in *.
    assert (Hi : 0 <= Z.of_nat k < nc) by lia.
    rewrite (super_step C C' _ _ m Hco Hco' Hch Hi).
    pose proof (count_upto_succ (is_hurdle C) (Z.of_nat k) ltac:(lia)) as Hcnt.
    replace (Z.of_nat k + 1) with (Z.of_nat (S k)) in Hcnt by lia.
    destruct (is_hurdle C (Z.of_nat k)) eqn:Eh.
    + destruct (superhurdle_shape C (Z.of_nat k)) eqn:Es.
      * left. eexists. split; [reflexivity|].
        exists (cupd C' (Z.of_nat k) F_hurdle
                  (Z.lor (hurdle_of C (Z.of_nat k)) SUPERHURDLE)).
        split; [rewrite Hcnt; reflexivity|].
        split; [apply comps_ok_cupd; [assumption|lia|intros [H|H]; discriminate]|].
        pose proof (co_len _ _ Hco') as Hlen.
        split.
        -- intros k' f. rewrite ccell_cupd by lia. rewrite Hch.
           destruct (decide (k' = Z.of_nat k /\ f = F_hurdle)) as [[-> ->]|Hne].
           ++ rewrite decide_True; [reflexivity|].
              split; [reflexivity|]. split; [lia|assumption].
           ++ destruct (decide (f = F_hurdle /\ 0 <= k' < Z.of_nat k /\ _))
                as [H|H].
              ** rewrite decide_True; [reflexivity|]. intuition lia.
              ** rewrite decide_False; [reflexivity|].
                 intros (Hf & Hk' & Hs). apply H. split; [assumption|].
                 split; [|assumption].
                 destruct (Z.eq_dec k' (Z.of_nat k)) as [->|]; [tauto|lia].
        -- intros k' Hk' Hh'.
           destruct (Z.eq_dec k' (Z.of_nat k)) as [->|]; [assumption|].
           apply Hall; [lia|assumption].
      * right. eexists. split; [reflexivity|].
        exists C', (Z.of_nat k). split; [reflexivity|]. tauto.
    + left. eexists. split; [reflexivity|]. exists C'.
      split; [rewrite Hcnt, Z.add_0_r; reflexivity|].
      split; [assumption|]. split.
      * replace (Z.of_nat (S k)) with (Z.of_nat k + 1) by lia.
        apply super_marks_step; assumption.
      * intros k' Hk' Hh'.
        destruct (Z.eq_dec k' (Z.of_nat k)) as [->|]; [congruence|].
        apply Hall; [lia|assumption].
  - left. exists C'. rewrite Z.add_0_l, Z2Nat.id in * by lia.
    split; [assumption|]. split; assumption.
  - right. exists C', k0. split; [assumption|]. exact H.
Qed.

(** The fortress test returns the hurdle count it was given, and a flag. *)
Lemma fortress_total (nh : Z) (m : distmem_t) :
  comps_ok nc (components m) ->
  exists f m', nhf_fortress nc nh m = Ok (nh, f, m') /\ 0 <= f <= 1.
Proof.
  intros Hco. unfold nhf_fortress.
  destruct (nh <? 3); [exists 0, m; split; [reflexivity|lia]|].
  rewrite trip_count_unit.
  destruct (super_loop m Hco) as [(C' & E & _)|(C' & k0 & E & _)];
    rewrite E; cbn [bind].
  - destruct (_ && _); eexists _, _; (split; [reflexivity|lia]).
  - exists 0. eexists. split; [reflexivity|lia].
Qed.

End Marks.

(** * [num_hurdles_and_fortress] as a whole *)

Section Phase.

Variables (n : Z) (p : arr).
Let s := 2 * n + 2.
Hypothesis Hn : 0 <= n.
Hypothesis Hp : ext_perm_ok n p.

(** From the block scan on. *)
Lemma nhf_hurdles_total (g c0 : arr) (nc : Z) (m : distmem_t) :
  grey_ok s p g -> 0 <= nc <= s -> cc_ok g s nc c0 ->
  mem_sized s m -> greyEdges m = g -> cc m = c0 ->
  comps_ok nc (components m) ->
  (exists k, 0 <= k < nc /\ ccell (components m) k F_oriented = Some 0) ->
  exists h f m', nhf_hurdles s nc m = Ok (h, f, m') /\ 0 <= h /\ 0 <= f <= 1.
Proof.
  intros Hg Hnc Hcc Hsz Hgr Hcm Hco (k & Hk & Hko).
  destruct (scan_loop n p g Hn Hp Hg nc Hnc c0 Hcc m Hsz Hgr Hcm Hco)
    as (fc & lc & nb & m1 & E1 & H1).
  fold s in E1, H1.
  assert (Hfc : 0 <= fc < nc).
  { destruct Hcc as (_ & _ & Hrep). destruct (Hrep k Hk) as (z & Hz & Hzk).
    pose proof (nsl_range n p g Hg z Hz) as Hzr. fold s in Hzr.
    pose proof (sc_seen _ _ _ _ _ _ _ _ _ H1 z k Hzr Hzk ltac:(lia) Hko) as Hl.
    pose proof (sc_both _ _ _ _ _ _ _ _ _ H1 Hl) as Hf.
    destruct (sc_first _ _ _ _ _ _ _ _ _ H1); [contradiction|assumption]. }
  pose proof (sc_comps _ _ _ _ _ _ _ _ _ H1) as Hco1.
  destruct (hurdle_loop nc ltac:(lia) m1 Hco1) as (C2 & E2 & Hco2 & _).
  destruct (greathurdle_ok nc fc lc
              (count_upto (single_block (components m1)) (Z.to_nat nc))
              (set_components C2 m1) Hco2 ltac:(intros _; exact Hfc))
    as (C3 & E3 & Hco3 & _).
  cbn [components set_components] in E3.
  match type of E3 with _ = Ok (?h, ?m3) =>
    destruct (fortress_total nc ltac:(lia) h m3 Hco3) as (f & m4 & E4 & Hf);
    exists h, f, m4
  end.
  split.
  - unfold nhf_hurdles. rewrite E1. cbn [bind]. rewrite E2. cbn [bind].
    rewrite E3. cbn [bind]. exact E4.
  - split; [|assumption].
    pose proof (count_upto_bounds (single_block (components m1)) (Z.to_nat nc)).
    destruct (wraps_around _ _ _); lia.
Qed.

Lemma num_hurdles_and_fortress_ok (fuel : nat) (m0 : distmem_t) :
  mem_sized s m0 -> grey_ok s p (greyEdges m0) ->
  cycles_ok (greyEdges m0) (labeled m0) -> (Z.to_nat s < fuel)%nat ->
  exists h f m, num_hurdles_and_fortress p s fuel m0 = Ok (h, f, m)
    /\ 0 <= h /\ 0 <= f <= 1
    /\ ((forall j, 0 <= j < s -> ~ nsl (greyEdges m0) j) -> h = 0 /\ f = 0).
Proof.
  intros Hsz Hg HL Hfuel. set (g := greyEdges m0) in *.
  destruct (connected_component_ok n p Hn Hp fuel m0 Hsz Hg HL Hfuel)
    as (nc & mA & EA & HszA & HgA & Hnc & Hcc & Hnone).
  fold s in EA, HszA, Hnc, Hcc, Hnone. fold g in HgA, Hcc, Hnone.
  unfold num_hurdles_and_fortress. rewrite EA. cbn [bind].
  destruct (Z.eqb_spec nc 0) as [Enc|Nnc].
  { exists 0, 0, mA. split; [reflexivity|]. lia. }
  assert (Hsome : ~ (forall j, 0 <= j < s -> ~ nsl g j)).
  { intros H. apply Nnc, Hnone, H. }
  destruct (edge_loop n p g Hn Hp Hg mA HszA HgA)
    as (mB & EB & HszB & HgB & HcB & _ & HorB).
  fold s in EB, HszB, HorB. rewrite EB. cbn [bind].
  destruct (clear_loop n nc Hnc mB HszB)
    as (mC & EC & HszC & HgC & HcC & HoC & HclrC).
  fold s in HszC. rewrite EC. cbn [bind].
  destruct (set_loop n p g Hn Hp Hg nc Hnc (cc mA) Hcc mC HszC)
    as (mD & ED & HszD & HgD & HcD & HinD).
  { congruence. }
  { rewrite HoC. exact HorB. }
  { intros k Hk. exists 0. apply HclrC. assumption. }
  fold s in ED, HszD. rewrite ED. cbn [bind].
  destruct (count_loop_unoriented n nc Hnc mD HinD) as (c & Ec & Hc & Hex).
  rewrite Ec. cbn [bind].
  destruct (Z.eqb_spec c 0) as [E0|N0].
  { exists 0, 0, mD. split; [reflexivity|]. lia. }
  destruct (init_loop n nc Hnc mD HszD HinD)
    as (mE & EE & HszE & HgE & HcE & HoE & HcoE & _).
  fold s in HszE. rewrite EE. cbn [bind].
  destruct (nhf_hurdles_total g (cc mA) nc mE Hg Hnc Hcc HszE)
    as (h & f & m' & E & Hh & Hf).
  { congruence. }
  { congruence. }
  { assumption. }
  { destruct (Hex N0) as (k & Hk & Hko). exists k. split; [assumption|].
    rewrite HoE. assumption. }
  exists h, f, m'. split; [assumption|]. split; [assumption|].
  split; [assumption|]. intros H. contradiction.
Qed.

End Phase.

(** * The marks of the hurdles and the fortress flag *)

(** The mark of component [k] after the hurdle loop and the wrap-around
    test. *)
Definition hurdle_mark (C : carr) (first_comp last_comp k : Z) : Z :=
  if wraps_around C first_comp last_comp && (k =? first_comp)
  then Z.lor HURDLE GREATHURDLE
  else if single_block C k then HURDLE else 0.

(** The hurdle loop and the wrap-around test on a table with clear
    hurdle fields: an unoriented component is marked [HURDLE] iff its
    block count is 1; when the scan began and ended in the same component
    and its block count is 2, that component is marked
    [HURDLE|GREATHURDLE] and counted; and with fewer than 3 hurdles the
    fortress test returns the counts as they are, the flag 0 and the
    table untouched. *)
Lemma hurdle_marks_ok (nc first_comp last_comp : Z) (m : distmem_t) :
  0 <= nc ->
  comps_ok nc (components m) ->
  (forall k, 0 <= k < nc -> ccell (components m) k F_hurdle = Some 0) ->
  (first_comp = last_comp -> 0 <= first_comp < nc) ->
  exists nh1 m1 nh m2,
    for_range 0 nc 1 nhf_hurdle (0, m) = Ok (nh1, m1)
    /\ nhf_greathurdle first_comp last_comp (nh1, m1) = Ok (nh, m2)
    /\ (forall k, 0 <= k < nc ->
          ccell (components m2) k F_hurdle
          = Some (hurdle_mark (components m) first_comp last_comp k))
    /\ (forall k, 0 <= k < nc ->
          ccell (components m) k F_oriented = Some 0 ->
          (ccell (components m2) k F_hurdle = Some HURDLE
           <-> ccell (components m) k F_blocks = Some 1))
    /\ nh1 = count_upto (single_block (components m)) (Z.to_nat nc)
    /\ nh = nh1 + (if wraps_around (components m) first_comp last_comp
                   then 1 else 0)
    /\ (nh < 3 -> nhf_fortress nc nh m2 = Ok (nh, 0, m2)).
Proof.
  intros Hnc Hco Hzero Hfl. set (C := components m) in *.
  destruct (hurdle_loop nc Hnc m Hco) as (C1 & E1 & Hco1 & Hch1).
  fold C in E1, Hch1.
  destruct (greathurdle_ok nc first_comp last_comp
              (count_upto (single_block C) (Z.to_nat nc))
              (set_components C1 m) Hco1 Hfl) as (C2 & E2 & Hco2 & Hch2).
  cbn [components set_components] in E2, Hch2.
  assert (Hw : wraps_around C1 first_comp last_comp
               = wraps_around C first_comp last_comp).
  { unfold wraps_around. rewrite Hch1.
    rewrite decide_False by (intros (? & _); discriminate). reflexivity. }
  rewrite Hw in E2, Hch2.
  assert (Hmark : forall k, 0 <= k < nc ->
            ccell C2 k F_hurdle = Some (hurdle_mark C first_comp last_comp k)).
  { intros k Hk. rewrite Hch2. unfold hurdle_mark.
    destruct (wraps_around C first_comp last_comp) eqn:Ew; cbn [andb].
    - destruct (Z.eqb_spec k first_comp) as [->|Hne].
      + rewrite decide_True by tauto. reflexivity.
      + rewrite decide_False by tauto. rewrite Hch1.
        destruct (single_block C k) eqn:Es.
        * rewrite decide_True by tauto. reflexivity.
        * rewrite decide_False by (intros (_ & _ & ?); discriminate).
          apply Hzero. assumption.
    - rewrite decide_False by (intros (_ & _ & ?); discriminate).
      rewrite Hch1. destruct (single_block C k) eqn:Es.
      + rewrite decide_True by tauto. reflexivity.
      + rewrite decide_False by (intros (_ & _ & ?); discriminate).
        apply Hzero. assumption. }
  eexists _, _, _, _. split; [exact E1|]. split; [exact E2|].
  cbn [components set_components].
  split; [exact Hmark|]. split; [|split; [reflexivity|split; [reflexivity|]]].
  - intros k Hk Ho. rewrite (Hmark k Hk). unfold hurdle_mark.
    destruct (co_blocks _ _ Hco k Hk) as (b & Hb). fold C in Hb.
    assert (Hs : single_block C k = (b =? 1)).
    { unfold single_block. rewrite Ho, Hb. reflexivity. }
    rewrite Hs, Hb.
    destruct (wraps_around C first_comp last_comp && (k =? first_comp)) eqn:Ew.
    + apply andb_prop in Ew as [Ew Ek]. apply Z.eqb_eq in Ek. subst k.
      unfold wraps_around in Ew. rewrite Hb in Ew.
      apply andb_prop in Ew as [_ Ew]. apply Z.eqb_eq in Ew. subst b.
      split; intros H; [|discriminate]. injection H. vm_compute. discriminate.
    + destruct (Z.eqb_spec b 1) as [->|Hne]; [tauto|].
      split; intros H; [|congruence]. injection H. vm_compute. discriminate.
  - intros Hlt. unfold nhf_fortress.
    destruct (Z.ltb_spec
                (count_upto (single_block C) (Z.to_nat nc)
                 + (if wraps_around C first_comp last_comp then 1 else 0)) 3);
      [reflexivity|lia].
Qed.

(** A check of [comps_ok] that computes. *)
Definition link_okb (nc v : Z) : bool :=
  (v =? -1) || ((0 <=? v) && (v <? nc)).

Definition comp_okb (nc : Z) (c : component_t) : bool :=
  match c_oriented c, c_blocks c, c_hurdle c, c_left c, c_right c with
  | Some _, Some _, Some _, Some l, Some r => link_okb nc l && link_okb nc r
  | _, _, _, _, _ => false
  end.

Definition comps_okb (nc : Z) (C : carr) : bool :=
  (nc <=? clen C) && forallb (comp_okb nc) (take (Z.to_nat nc) C).

Lemma link_okb_true nc v : link_okb nc v = true -> link_ok nc v.
Proof. unfold link_okb, link_ok. lia. Qed.

Lemma comps_okb_true nc C : comps_okb nc C = true -> comps_ok nc C.
Proof.
  unfold comps_okb. rewrite andb_true_iff, forallb_forall.
  intros (Hlen & Hall). apply Z.leb_le in Hlen.
  assert (Hget : forall k, 0 <= k < nc ->
            exists c, C !! Z.to_nat k = Some c /\ comp_okb nc c = true
                      /\ forall f, ccell C k f = get_field f c).
  { intros k Hk.
    destruct (lookup_lt_is_Some_2 C (Z.to_nat k)) as (c & Hc);
      [unfold clen in Hlen; lia|].
    exists c. split; [assumption|]. split.
    - apply Hall, list_elem_of_In, list_elem_of_lookup. exists (Z.to_nat k).
      rewrite lookup_take_lt by lia. assumption.
    - intros f. unfold ccell. destruct (Z.ltb_spec k 0); [lia|].
      rewrite Hc. reflexivity. }
  constructor; [assumption|..]; intros k Hk;
    destruct (Hget k Hk) as (c & _ & Hok & Hf); rewrite Hf;
    unfold comp_okb in Hok; cbn [get_field];
    destruct (c_oriented c), (c_blocks c), (c_hurdle c),
             (c_left c) as [l|], (c_right c) as [r|]; try discriminate;
    apply andb_prop in Hok as [Hl Hr];
    apply link_okb_true in Hl, Hr; eauto.
Qed.

(** A table after the scan: component 0 wraps around the ends, component
    1 is met in one block, component 2 is oriented. *)
Definition sample_scanned : distmem_t :=
  set_components
    [mkComponent (Some 0) (Some 0) (Some 2) (Some 0) (Some 1) (Some 1);
     mkComponent (Some 2) (Some 0) (Some 1) (Some 0) (Some 0) (Some 0);
     mkComponent (Some 6) (Some 1) (Some 0) (Some 0) (Some (-1)) (Some (-1))]
    (distmem_struct 3).

Lemma sample_scanned_clear k :
  0 <= k < 3 -> ccell (components sample_scanned) k F_hurdle = Some 0.
Proof.
  intros Hk. assert (Hc : k = 0 \/ k = 1 \/ k = 2) by lia.
  destruct Hc as [->|[->| ->]]; reflexivity.
Qed.

Example hurdle_marks_sample :
  comps_ok 3 (components sample_scanned)
  /\ exists nh1 m1 m2,
       for_range 0 3 1 nhf_hurdle (0, sample_scanned) = Ok (nh1, m1)
       /\ nhf_greathurdle 0 0 (nh1, m1) = Ok (2, m2)
       /\ ccell (components m2) 0 F_hurdle = Some (Z.lor HURDLE GREATHURDLE)
       /\ ccell (components m2) 1 F_hurdle = Some HURDLE
       /\ ccell (components m2) 2 F_hurdle = Some 0
       /\ nhf_fortress 3 2 m2 = Ok (2, 0, m2).
Proof.
  assert (Hco : comps_ok 3 (components sample_scanned))
    by (apply comps_okb_true; vm_compute; reflexivity).
  split; [exact Hco|].
  destruct (hurdle_marks_ok 3 0 0 sample_scanned ltac:(lia) Hco
              sample_scanned_clear ltac:(lia))
    as (nh1 & m1 & nh & m2 & E1 & E2 & Hmark & _ & Hn1 & Hn & Hret).
  assert (Hnh : nh = 2) by (rewrite Hn, Hn1; reflexivity).
  clear Hn. subst nh. exists nh1, m1, m2.
  split; [exact E1|]. split; [exact E2|].
  split; [exact (Hmark 0 ltac:(lia))|].
  split; [exact (Hmark 1 ltac:(lia))|].
  split; [exact (Hmark 2 ltac:(lia))|].
  apply Hret. lia.
Qed.

(** The mark of component [k] once the superhurdle loop has passed the
    components below [k0]. *)
Definition super_mark (C : carr) (k0 k : Z) : Z :=
  if (k <? k0) && is_hurdle C k
  then Z.lor (hurdle_of C k) SUPERHURDLE else hurdle_of C k.

Lemma super_marks_read nc C C' k0 k :
  comps_ok nc C -> super_marks C C' k0 -> 0 <= k < nc ->
  ccell C' k F_hurdle = Some (super_mark C k0 k).
Proof.
  intros Hco Hch Hk. rewrite Hch. unfold super_mark.
  destruct (co_hurdle _ _ Hco k Hk) as (h & Hh).
  destruct (Z.ltb_spec k k0); cbn [andb].
  - destruct (is_hurdle C k) eqn:Eh.
    + rewrite decide_True by (split; [reflexivity|split; [lia|reflexivity]]).
      reflexivity.
    + rewrite decide_False by (intros (_ & _ & ?); discriminate).
      unfold hurdle_of. rewrite Hh. reflexivity.
  - rewrite decide_False by (intros (_ & ? & _); lia).
    unfold hurdle_of. rewrite Hh. reflexivity.
Qed.

(** The superhurdle loop and the fortress test on a marked table: with
    at least 3 hurdles, each hurdle is tested for the shape of a
    superhurdle (left neighbour = right neighbour, not -1, met in two
    blocks, not the wrap-around hurdle) and marked [SUPERHURDLE] when it
    has it; the first hurdle without the shape ends the classification
    and the hurdle count is returned with fortress 0; when every hurdle
    has the shape, the fortress flag is 1 iff the number of hurdles equals
    the number of superhurdles and that number is odd. *)
Lemma fortress_test_ok (nc nh : Z) (m : distmem_t) :
  0 <= nc -> comps_ok nc (components m) -> 3 <= nh ->
  (forall k0, 0 <= k0 < nc ->
     is_hurdle (components m) k0 = true ->
     superhurdle_shape (components m) k0 = false ->
     all_super (components m) k0 ->
     exists m', nhf_fortress nc nh m = Ok (nh, 0, m')
       /\ forall k, 0 <= k < nc ->
            ccell (components m') k F_hurdle
            = Some (super_mark (components m) k0 k))
  /\ (all_super (components m) nc ->
      exists m', nhf_fortress nc nh m
                 = Ok (nh,
                       (if (nh =? count_upto (is_hurdle (components m))
                                    (Z.to_nat nc))
                           && (Z.rem (count_upto (is_hurdle (components m))
                                        (Z.to_nat nc)) 2 =? 1)
                        then 1 else 0),
                       m')
        /\ forall k, 0 <= k < nc ->
             ccell (components m') k F_hurdle
             = Some (super_mark (components m) nc k)).
Proof.
  intros Hnc Hco Hnh. set (C := components m) in *.
  assert (E3 : (nh <? 3) = false) by (apply Z.ltb_ge; lia).
  unfold nhf_fortress. rewrite E3, trip_count_unit.
  destruct (super_loop nc Hnc m Hco)
    as [(C' & E & Hch & Hall)|(C' & k1 & E & Hk1 & Hh1 & Hs1 & Hch & Hall)];
    fold C in E, Hch, Hall; try fold C in Hh1, Hs1; rewrite E; cbn [bind].
  - split.
    + intros k0 Hk0 Hh0 Hs0 _. exfalso.
      rewrite (Hall k0 Hk0 Hh0) in Hs0. discriminate.
    + intros _.
      destruct ((nh =? count_upto (is_hurdle C) (Z.to_nat nc))
                && (Z.rem (count_upto (is_hurdle C) (Z.to_nat nc)) 2 =? 1));
        (eexists; split; [reflexivity|]);
        intros k Hk; cbn [components set_components];
        apply (super_marks_read nc); assumption.
  - split.
    + intros k0 Hk0 Hh0 Hs0 Hall0.
      assert (k0 = k1).
      { destruct (Z.lt_trichotomy k0 k1) as [Hlt|[Heq|Hgt]]; [|assumption|].
        - rewrite (Hall k0 ltac:(lia) Hh0) in Hs0. discriminate.
        - rewrite (Hall0 k1 ltac:(lia) Hh1) in Hs1. discriminate. }
      subst k1. eexists. split; [reflexivity|].
      intros k Hk. cbn [components set_components].
      apply (super_marks_read nc); assumption.
    + intros Hall0. exfalso.
      rewrite (Hall0 k1 Hk1 Hh1) in Hs1. discriminate.
Qed.

(** Three hurdles, each nested in a component of its own. *)
Definition sample_fortress : distmem_t :=
  set_components
    [mkComponent (Some 0) (Some 0) (Some 1) (Some 1) (Some 1) (Some 1);
     mkComponent (Some 2) (Some 0) (Some 2) (Some 0) (Some 0) (Some 2);
     mkComponent (Some 4) (Some 0) (Some 1) (Some 1) (Some 3) (Some 3);
     mkComponent (Some 6) (Some 0) (Some 2) (Some 0) (Some 2) (Some 4);
     mkComponent (Some 8) (Some 0) (Some 1) (Some 1) (Some 5) (Some 5);
     mkComponent (Some 10) (Some 0) (Some 2) (Some 0) (Some 4) (Some 0)]
    (distmem_struct 6).

Lemma sample_fortress_all_super : all_super (components sample_fortress) 6.
Proof.
  intros k Hk Hh.
  assert (Hc : k = 0 \/ k = 1 \/ k = 2 \/ k = 3 \/ k = 4 \/ k = 5) by lia.
  destruct Hc as [->|[->|[->|[->|[->| ->]]]]];
    first [reflexivity|discriminate Hh].
Qed.

Example fortress_test_sample :
  comps_ok 6 (components sample_fortress)
  /\ exists m', nhf_fortress 6 3 sample_fortress = Ok (3, 1, m')
       /\ ccell (components m') 0 F_hurdle = Some (Z.lor HURDLE SUPERHURDLE)
       /\ ccell (components m') 1 F_hurdle = Some 0.
Proof.
  assert (Hco : comps_ok 6 (components sample_fortress))
    by (apply comps_okb_true; vm_compute; reflexivity).
  split; [exact Hco|].
  destruct (fortress_test_ok 6 3 sample_fortress ltac:(lia) Hco
              ltac:(lia)) as (_ & Hall).
  destruct (Hall sample_fortress_all_super) as (m' & E & Hmark).
  exists m'. split; [exact E|].
  split; [exact (Hmark 0 ltac:(lia))|exact (Hmark 1 ltac:(lia))].
Qed.

(** The same table with the second hurdle open to the right: the
    classification stops there. *)
Definition sample_open : distmem_t :=
  set_components
    [mkComponent (Some 0) (Some 0) (Some 1) (Some 1) (Some 1) (Some 1);
     mkComponent (Some 2) (Some 0) (Some 2) (Some 0) (Some 0) (Some 2);
     mkComponent (Some 4) (Some 0) (Some 1) (Some 1) (Some 3) (Some (-1));
     mkComponent (Some 6) (Some 0) (Some 2) (Some 0) (Some 2) (Some 4);
     mkComponent (Some 8) (Some 0) (Some 1) (Some 1) (Some 5) (Some 5);
     mkComponent (Some 10) (Some 0) (Some 2) (Some 0) (Some 4) (Some 0)]
    (distmem_struct 6).

Example fortress_stops :
  exists m', nhf_fortress 6 3 sample_open = Ok (3, 0, m')
    /\ ccell (components m') 0 F_hurdle = Some (Z.lor HURDLE SUPERHURDLE)
    /\ ccell (components m') 2 F_hurdle = Some HURDLE
    /\ ccell (components m') 4 F_hurdle = Some HURDLE.
Proof.
  eexists. split; [vm_compute; reflexivity|].
  repeat split; vm_compute; reflexivity.
Qed.

(** * The inversion distance *)

Lemma mem_sized_struct s : 0 <= s -> mem_sized s (distmem_struct s).
Proof.
  intros Hs. unfold mem_sized, distmem_struct. cbn.
  rewrite !alen_new, clen_new by lia. tauto.
Qed.

(** What one run of [invdist_noncircular] computes: the extended
    permutation, then the four counts. *)
Record run (fuel : nat) (g1 g2 : list Genome) (offset n : Z)
    (b c h f : Z) : Prop := {
  run_perm : exists m m1 m2,
    extended_perm g1 g2 offset = Ok m
    /\ ext_perm_ok n (perm m)
    /\ num_breakpoints (perm m) (2 * n + 2) = Ok b
    /\ num_cycles (perm m) (2 * n + 2) fuel m = Ok (c, m1)
    /\ num_hurdles_and_fortress (perm m1) (2 * n + 2) fuel m1 = Ok (h, f, m2)
    /\ grey_ok (2 * n + 2) (perm m) (greyEdges m1)
    /\ b = ecount (greyEdges m1) (Z.to_nat (2 * n + 2));
  run_cycles : 0 <= c <= b;
  run_hurdles : 0 <= h;
  run_fortress : 0 <= f <= 1;
  run_plain : (forall j, 0 <= j < 2 * n + 2 ->
                 exists m, extended_perm g1 g2 offset = Ok m
                           /\ cell (perm m) j = Some j) ->
              b = 0 /\ c = 0 /\ h = 0 /\ f = 0;
}.

Section Noncircular.

Variables (A B : Genome) (ra rb : list Genome) (offset : Z) (fuel : nat).

Let n := len A.
Let s := 2 * n + 2.

Hypothesis HlenA : len A = Z.of_nat (length (pi A)).
Hypothesis HlenB : len A = Z.of_nat (length (pi B)).
Hypothesis HA : enumerates (gene (pi A)) n.
Hypothesis HB : enumerates (aligned (pi B) offset n) n.
Hypothesis Hoff : 0 <= offset < 2 * n.
Hypothesis Hfuel : (Z.to_nat s < fuel)%nat.

(** The identity permutation has no grey edge. *)
Lemma plain_no_edge (p g : arr) :
  ext_perm_ok n p -> grey_ok s p g ->
  (forall j, 0 <= j < s -> cell p j = Some j) ->
  forall j, 0 <= j < s -> ~ nsl g j.
Proof.
  intros Hp (_ & Hat) Hid j Hj (k & Hk & Hne).
  destruct (Hat j Hj j (Hid j Hj)) as (j' & Hj' & Hg).
  pose proof (cell_inb _ _ _ Hj') as Hr.
  rewrite (ep_len _ _ Hp) in Hr. fold s in Hr.
  rewrite (Hid j' Hr) in Hj'. injection Hj' as ->.
  rewrite Z.eqb_refl in Hg. congruence.
Qed.

Lemma ecount_no_edge (g : arr) (k : nat) :
  (forall j, 0 <= j < Z.of_nat k -> ~ nsl g j) -> ecount g k = 0.
Proof.
  induction k as [|k IH]; intros H; cbn [ecount]; [reflexivity|].
  rewrite IH by (intros j Hj; apply H; lia).
  destruct (has_edge g (Z.of_nat k)) eqn:E.
  - apply has_edge_nsl in E. exfalso. apply (H (Z.of_nat k)); [lia|assumption].
  - rewrite andb_false_r. reflexivity.
Qed.

Lemma noncircular_run :
  exists b c h f,
    run fuel (A :: ra) (B :: rb) offset n b c h f
    /\ invdist_noncircular fuel (A :: ra) (B :: rb) offset
       = Ok (b - c + h + f).
Proof.
  assert (Hn : 0 <= n) by (unfold n; lia).
  destruct (extended_perm_ok A B ra rb offset HlenA HlenB HA HB Hoff)
    as (p1 & p2 & p & Ep & Hp & _).
  fold n in Ep, Hp. fold s in Ep.
  set (m := set_perm p (set_perm2 p2 (set_perm1 p1 (distmem_struct s)))) in *.
  assert (Hsz : mem_sized s m).
  { pose proof (mem_sized_struct s ltac:(unfold s; lia)) as H.
    unfold m. unfold mem_sized in *. cbn in *. exact H. }
  destruct (num_cycles_ok n p fuel m Hn Hp Hsz ltac:(fold s; lia))
    as (c & m1 & Ec & Hsz1 & Hg1 & Hcy1 & Hc).
  fold s in Ec, Hsz1, Hg1, Hc.
  pose proof (num_breakpoints_ok n p (greyEdges m1) Hn Hp Hg1) as Eb.
  fold s in Eb.
  destruct (num_hurdles_and_fortress_ok n p Hn Hp fuel m1 Hsz1 Hg1 Hcy1
              ltac:(fold s; lia)) as (h & f & m2 & Eh & Hh & Hf & Hnone).
  fold s in Eh, Hnone.
  exists (ecount (greyEdges m1) (Z.to_nat s)), c, h, f. split.
  - constructor.
    + exists m, m1, m2. fold s. cbn [perm m set_perm].
      change (perm m) with p.
      split; [exact Ep|]. split; [exact Hp|]. split; [exact Eb|].
      split; [exact Ec|]. split; [exact Eh|]. split; [exact Hg1|reflexivity].
    + exact Hc.
    + exact Hh.
    + exact Hf.
    + intros Hid. fold s in Hid.
      assert (Hplain : forall j, 0 <= j < s -> ~ nsl (greyEdges m1) j).
      { apply (plain_no_edge p); [assumption|assumption|].
        intros j Hj. destruct (Hid j Hj) as (m' & Em' & Hc').
        rewrite Ep in Em'. injection Em' as <-. exact Hc'. }
      destruct (Hnone Hplain) as [-> ->].
      rewrite ecount_no_edge in * by (intros j Hj; apply Hplain; lia).
      repeat split; lia.
  - unfold invdist_noncircular. change (at_ (A :: ra) 0) with (Ok A).
    cbn [bind]. fold n. fold s. rewrite Ep. cbn [bind].
    change (perm m) with p. rewrite Eb. cbn [bind]. rewrite Ec. cbn [bind].
    change (num_hurdles_and_fortress (perm m1) s fuel m1)
      with (num_hurdles_and_fortress p s fuel m1).
    rewrite Eh. reflexivity.
Qed.

End Noncircular.

(** * Validated input *)

(** A chromosome the graph algorithms are written for: at least one
    gene, and the absolute gene ids are exactly [1..n]. *)
Definition valid_chromosome (G : Genome) : Prop :=
  wf_genome G /\ 0 < len G /\ signed_perm (pi G).

Lemma valid_NoDup G : valid_chromosome G -> NoDup (Z.abs <$> pi G).
Proof.
  intros (_ & _ & Hp). unfold signed_perm in Hp. rewrite Hp.
  apply NoDup_seqZ.
Qed.

Lemma valid_duplicates G rest :
  valid_chromosome G -> duplicates (G :: rest) = Ok false.
Proof.
  intros HG. pose proof (valid_NoDup G HG) as Hnd.
  destruct HG as (Hwf & Hpos & _).
  destruct (duplicates_first G rest Hwf Hpos) as (b & E & Hb).
  apply Hb in Hnd. now subst b.
Qed.

Lemma valid_same_content A B :
  valid_chromosome A -> valid_chromosome B -> len A = len B ->
  (Z.abs <$> pi A) ≡ₚ (Z.abs <$> pi B).
Proof.
  intros ((HlA & _) & _ & HpA) ((HlB & _) & _ & HpB) Hlen.
  unfold signed_perm in HpA, HpB.
  rewrite HpA, HpB. replace (length (pi B)) with (length (pi A)) by lia.
  reflexivity.
Qed.

Lemma valid_unequal_content A B ra rb :
  valid_chromosome A -> valid_chromosome B -> len A = len B ->
  unequal_content (A :: ra) (B :: rb) = Ok false.
Proof.
  intros HA HB Hlen. pose proof (valid_same_content A B HA HB Hlen) as Hperm.
  destruct HA as (HwA & _), HB as (HwB & _).
  destruct (unequal_content_first A B ra rb HwA HwB) as (u & E & Hu).
  apply Hu in Hperm. now subst u.
Qed.

(** Once the contents match, the scan for the first gene finds it. *)
Lemma offset_found A B ra rb :
  wf_genome A -> wf_genome B -> 0 < len A ->
  (Z.abs <$> pi A) ≡ₚ (Z.abs <$> pi B) ->
  exists off, calculate_offset (A :: ra) (B :: rb) = Ok off
    /\ 0 <= off < 2 * len B
    /\ (off < len B -> pi B !! Z.to_nat off = Some (gene (pi A) 0))
    /\ (len B <= off ->
        pi B !! Z.to_nat (off - len B) = Some (- gene (pi A) 0)).
Proof.
  intros (HlA & _) (HlB & _) Hpos Hperm.
  unfold calculate_offset. change (at_ (B :: rb) 0) with (Ok B).
  change (at_ (A :: ra) 0) with (Ok A). cbn [bind].
  rewrite at_gene by lia. cbn [bind].
  destruct (calculate_offset_scan (pi B) (gene (pi A) 0))
    as (off & E & Hoff & Hlo & Hhi).
  { assert (Hin : Z.abs (gene (pi A) 0) ∈ Z.abs <$> pi A).
    { apply list_elem_of_fmap. exists (gene (pi A) 0).
      split; [reflexivity|]. apply list_elem_of_lookup. exists 0%nat.
      apply (gene_lookup (pi A) 0). lia. }
    rewrite Hperm in Hin. apply list_elem_of_fmap in Hin as (x & Hx & Hin).
    exists x. split; [assumption|congruence]. }
  rewrite HlB, E. cbn [bind]. exists off. tauto.
Qed.

Lemma valid_run (fuel : nat) A B ra rb offset :
  valid_chromosome A -> valid_chromosome B -> len A = len B ->
  0 <= offset < 2 * len A ->
  (Z.to_nat (2 * len A + 2) < fuel)%nat ->
  exists b c h f,
    run fuel (A :: ra) (B :: rb) offset (len A) b c h f
    /\ invdist_noncircular fuel (A :: ra) (B :: rb) offset
       = Ok (b - c + h + f).
Proof.
  intros ((HlA & _) & _ & HpA) ((HlB & _) & _ & HpB) Hlen Hoff Hfuel.
  apply noncircular_run; try assumption.
  - lia.
  - rewrite HlA. apply signed_perm_enumerates. assumption.
  - replace (len A) with (Z.of_nat (length (pi B))) in * by lia.
    apply aligned_enumerates; [|assumption].
    apply signed_perm_enumerates. assumption.
Qed.

(** Which path [_inversions] takes once the two checks have passed. *)
Lemma inversions_dispatch (fuel : nat) A B ra rb :
  duplicates (A :: ra) = Ok false -> duplicates (B :: rb) = Ok false ->
  unequal_content (A :: ra) (B :: rb) = Ok false ->
  _inversions fuel (A :: ra) (B :: rb)
  = if circular A then
      r <- invdist_circular fuel (B :: rb) (A :: ra) ;;
      Ok (r + 1 - Z.b2z (circular B))
    else if circular B then
      r <- invdist_circular fuel (A :: ra) (B :: rb) ;; Ok (r + 1)
    else invdist_noncircular fuel (A :: ra) (B :: rb) 0.
Proof.
  intros EA EB EU. unfold _inversions. rewrite EA. cbn [bind].
  rewrite EB. cbn [bind]. rewrite EU. cbn [bind].
  change (Z.b2z (num_chromosomes (A :: ra) =? num_chromosomes (B :: rb)) =? 1)
    with true.
  change (at_ (A :: ra) 0) with (Ok A). change (at_ (B :: rb) 0) with (Ok B).
  cbn [bind]. destruct (circular A); [reflexivity|].
  destruct (circular B); reflexivity.
Qed.

Lemma circular_run (fuel : nat) A B ra rb :
  valid_chromosome A -> valid_chromosome B -> len A = len B ->
  (Z.to_nat (2 * len A + 2) < fuel)%nat ->
  exists offset b c h f,
    calculate_offset (A :: ra) (B :: rb) = Ok offset
    /\ 0 <= offset < 2 * len A
    /\ run fuel (A :: ra) (B :: rb) offset (len A) b c h f
    /\ invdist_circular fuel (A :: ra) (B :: rb) = Ok (b - c + h + f).
Proof.
  intros HA HB Hlen Hfuel.
  destruct (offset_found A B ra rb) as (off & Eo & Hoff & _).
  { apply HA. } { apply HB. } { apply HA. }
  { apply valid_same_content; assumption. }
  destruct (valid_run fuel A B ra rb off HA HB Hlen ltac:(lia) Hfuel)
    as (b & c & h & f & Hrun & E).
  exists off, b, c, h, f. split; [assumption|]. split; [lia|].
  split; [assumption|]. unfold invdist_circular. rewrite Eo. exact E.
Qed.

(** A chromosome compared with itself gives the identity permutation. *)
Lemma plain_perm G ra rb m :
  valid_chromosome G ->
  extended_perm (G :: ra) (G :: rb) 0 = Ok m ->
  forall j, 0 <= j < 2 * len G + 2 -> cell (perm m) j = Some j.
Proof.
  intros ((Hl & _) & Hpos & Hp) Em j Hj.
  pose proof (signed_perm_enumerates _ Hp) as HA. rewrite <- Hl in HA.
  assert (HB : enumerates (aligned (pi G) 0 (len G)) (len G)).
  { rewrite Hl. apply aligned_enumerates; [rewrite <- Hl; exact HA|lia]. }
  destruct (extended_perm_ok G G ra rb 0 Hl Hl HA HB ltac:(lia))
    as (p1 & p2 & p & Ep & Hok & H1 & H2 & Hc).
  rewrite Ep in Em. injection Em as <-. cbn [perm set_perm].
  destruct (Z.eq_dec j 0) as [->|Hj0]; [apply (ep_cap0 _ _ Hok)|].
  destruct (Z.eq_dec j (2 * len G + 1)) as [->|Hjn];
    [apply (ep_capn _ _ Hok)|].
  destruct (pair_index j (len G) ltac:(lia)) as (k & Hk & Hjk).
  destruct (Hc j ltac:(lia)) as (x & v & Hx & Hv & Hpj).
  rewrite Hpj. f_equal.
  destruct (H1 k Hk) as (H1a & H1b). destruct (H2 k Hk) as (H2a & H2b).
  assert (Hal : aligned (pi G) 0 (len G) k = gene (pi G) k).
  { unfold aligned. destruct (Z.ltb_spec 0 (len G)); [|lia].
    rewrite Z.add_0_l, Z.rem_small by lia. reflexivity. }
  rewrite Hal in H2a, H2b.
  destruct (gene (pi G) k >? 0); destruct Hjk as [-> | ->]; congruence.
Qed.

(** The extended permutation is the composition of the two mappings. *)
Lemma valid_composed A B ra rb offset m :
  valid_chromosome A -> valid_chromosome B -> len A = len B ->
  0 <= offset < 2 * len A ->
  extended_perm (A :: ra) (B :: rb) offset = Ok m ->
  forall i, 1 <= i < 2 * len A + 1 ->
    exists x v, cell (perm2 m) i = Some x /\ cell (perm1 m) x = Some v
                /\ cell (perm m) i = Some v.
Proof.
  intros ((HlA & _) & _ & HpA) ((HlB & _) & _ & HpB) Hlen Hoff Em i Hi.
  assert (HA : enumerates (gene (pi A)) (len A)).
  { rewrite HlA. apply signed_perm_enumerates. assumption. }
  assert (HB : enumerates (aligned (pi B) offset (len A)) (len A)).
  { replace (len A) with (Z.of_nat (length (pi B))) in * by lia.
    apply aligned_enumerates; [|assumption].
    apply signed_perm_enumerates. assumption. }
  destruct (extended_perm_ok A B ra rb offset HlA ltac:(lia) HA HB Hoff)
    as (p1 & p2 & p & Ep & _ & _ & _ & Hc).
  rewrite Ep in Em. injection Em as <-.
  cbn [perm perm1 perm2 set_perm set_perm1 set_perm2].
  apply Hc. lia.
Qed.

(** * The distance returned by [_inversions] *)

(** A chromosome compared with itself is aligned at offset 0. *)
Lemma offset_self G ra rb :
  valid_chromosome G -> calculate_offset (G :: ra) (G :: rb) = Ok 0.
Proof.
  intros HG. pose proof (valid_NoDup G HG) as Hnd.
  destruct HG as (Hwf & Hpos & Hp).
  destruct (offset_found G G ra rb Hwf Hwf Hpos ltac:(reflexivity))
    as (off & E & Hoff & Hlo & Hhi).
  rewrite E. f_equal.
  destruct Hwf as (Hl & _).
  assert (H0 : pi G !! 0%nat = Some (gene (pi G) 0))
    by (apply (gene_lookup (pi G) 0); lia).
  destruct (Z.lt_ge_cases off (len G)) as [Hlt|Hge].
  - specialize (Hlo Hlt).
    assert (Z.to_nat off = 0%nat); [|lia].
    eapply NoDup_lookup; [exact Hnd| |].
    + rewrite list_lookup_fmap, Hlo. reflexivity.
    + rewrite list_lookup_fmap, H0. reflexivity.
  - specialize (Hhi Hge). exfalso.
    assert (Hz : Z.to_nat (off - len G) = 0%nat).
    { eapply NoDup_lookup; [exact Hnd| |].
      - rewrite list_lookup_fmap, Hhi. cbn. rewrite Z.abs_opp. reflexivity.
      - rewrite list_lookup_fmap, H0. reflexivity. }
    rewrite Hz, H0 in Hhi.
    pose proof (signed_perm_enumerates _ Hp) as (Hr & _).
    specialize (Hr 0 ltac:(lia)). injection Hhi. lia.
Qed.

Lemma run_self_zero fuel G ra rb b c h f :
  valid_chromosome G ->
  run fuel (G :: ra) (G :: rb) 0 (len G) b c h f ->
  b - c + h + f = 0.
Proof.
  intros HG Hrun.
  destruct (run_plain _ _ _ _ _ _ _ _ _ Hrun) as (-> & -> & -> & ->);
    [|reflexivity].
  intros j Hj. destruct (run_perm _ _ _ _ _ _ _ _ _ Hrun) as (m & _ & _ & Em & _).
  exists m. split; [assumption|]. eapply plain_perm; eassumption.
Qed.

(** C7, amended: a chromosome whose absolute gene ids are exactly 1..n
    (n at least 1), linear or circular, is at inversion distance 0 from
    itself. *)
Theorem inversions_self_zero (fuel : nat) (G : Genome) :
  valid_chromosome G -> (Z.to_nat (2 * len G + 2) < fuel)%nat ->
  _inversions fuel [G] [G] = Ok 0.
Proof.
  intros HG Hfuel.
  rewrite inversions_dispatch
    by (try apply valid_duplicates; try apply valid_unequal_content;
        trivial).
  assert (Hc : invdist_circular fuel [G] [G] = Ok 0).
  { unfold invdist_circular. rewrite offset_self by assumption. cbn [bind].
    destruct (valid_run fuel G G [] [] 0 HG HG eq_refl) as (b & c & h & f & Hrun & E);
      [destruct HG as (_ & ? & _); lia|assumption|].
    rewrite E. f_equal. eapply run_self_zero; eassumption. }
  destruct (circular G) eqn:Ec.
  - rewrite Hc. reflexivity.
  - destruct (valid_run fuel G G [] [] 0 HG HG eq_refl) as (b & c & h & f & Hrun & E);
      [destruct HG as (_ & ? & _); lia|assumption|].
    rewrite E. f_equal. eapply run_self_zero; eassumption.
Qed.

(** ** Sample chromosomes *)

Definition linear (l : list Z) : Genome := mkGenome l false (Z.of_nat (length l)).
Definition cyclic (l : list Z) : Genome := mkGenome l true (Z.of_nat (length l)).

(** A check of [valid_chromosome] that computes. *)
Definition valid_chromosomeb (G : Genome) : bool :=
  bool_decide (len G = Z.of_nat (length (pi G)))
  && (len G <=? 2147483647)
  && forallb (fun x : Z => (-32768 <=? x) && (x <=? 32767)) (pi G)
  && (0 <? len G)
  && bool_decide (merge_sort Z.le (Z.abs <$> pi G)
                  = seqZ 1 (Z.of_nat (length (pi G)))).

Lemma valid_chromosomeb_true G :
  valid_chromosomeb G = true -> valid_chromosome G.
Proof.
  unfold valid_chromosomeb. rewrite !andb_true_iff.
  intros ((((H1 & H2) & H3) & H4) & H5).
  apply bool_decide_eq_true in H1, H5.
  split; [split; [assumption|split; [lia|]]|split; [lia|]].
  - apply Forall_forall. intros x Hx.
    rewrite forallb_forall in H3. specialize (H3 x).
    rewrite andb_true_iff in H3. unfold is_short.
    destruct H3 as [? ?]; [apply list_elem_of_In; assumption|lia].
  - unfold signed_perm. rewrite <- H5. symmetry. apply merge_sort_Permutation.
Qed.

Definition sample_cyclic : Genome := cyclic [3; -1; 2].

Lemma inversions_self_zero_witness :
  valid_chromosome sample_cyclic
  /\ (Z.to_nat (2 * len sample_cyclic + 2) < 100)%nat
  /\ _inversions 100 [sample_cyclic] [sample_cyclic] = Ok 0.
Proof.
  assert (Hv : valid_chromosome sample_cyclic)
    by (apply valid_chromosomeb_true; vm_compute; reflexivity).
  assert (Hf : (Z.to_nat (2 * len sample_cyclic + 2) < 100)%nat)
    by (vm_compute; lia).
  split; [exact Hv|]. split; [exact Hf|].
  exact (inversions_self_zero 100 sample_cyclic Hv Hf).
Defined.

(** C7 as stated fails: the gene ids of the chromosome [2] are unique and
    nonzero, but [2] is not among 1..1, and the code writes outside
    [perm1]. *)
Lemma inversions_self_out_of_range :
  NoDup (Z.abs <$> pi (linear [2]))
  /\ _inversions 100 [linear [2]] [linear [2]] = Err OutOfBounds.
Proof.
  split; [|vm_compute; reflexivity].
  apply NoDup_singleton.
Qed.

(** C1, amended: for two linear chromosomes whose absolute gene ids are
    exactly 1..n (n at least 1), the distance returned is
    [num_breakpoints - num_cycles + num_hurdles + num_fortress] on the
    extended permutation of length 2n+2 built with offset 0, whose caps
    are [perm[0] = 0] and [perm[2n+1] = 2n+1] and whose other cells are
    [perm[i] = perm1[perm2[i]]]. *)
Theorem inversions_linear_formula (fuel : nat) (A B : Genome) :
  valid_chromosome A -> valid_chromosome B -> len A = len B ->
  circular A = false -> circular B = false ->
  (Z.to_nat (2 * len A + 2) < fuel)%nat ->
  exists m b c m1 h f m2,
    extended_perm [A] [B] 0 = Ok m
    /\ alen (perm m) = 2 * len A + 2
    /\ cell (perm m) 0 = Some 0
    /\ cell (perm m) (2 * len A + 1) = Some (2 * len A + 1)
    /\ (forall i, 1 <= i < 2 * len A + 1 ->
          exists x v, cell (perm2 m) i = Some x /\ cell (perm1 m) x = Some v
                      /\ cell (perm m) i = Some v)
    /\ num_breakpoints (perm m) (2 * len A + 2) = Ok b
    /\ num_cycles (perm m) (2 * len A + 2) fuel m = Ok (c, m1)
    /\ num_hurdles_and_fortress (perm m1) (2 * len A + 2) fuel m1
       = Ok (h, f, m2)
    /\ _inversions fuel [A] [B] = Ok (b - c + h + f).
Proof.
  intros HA HB Hlen HcA HcB Hfuel.
  destruct (valid_run fuel A B [] [] 0 HA HB Hlen) as (b & c & h & f & Hrun & E);
    [destruct HA as (_ & ? & _); lia|assumption|].
  destruct (run_perm _ _ _ _ _ _ _ _ _ Hrun)
    as (m & m1 & m2 & Em & Hp & Eb & Ec & Eh & _).
  exists m, b, c, m1, h, f, m2.
  split; [exact Em|]. split; [apply (ep_len _ _ Hp)|].
  split; [apply (ep_cap0 _ _ Hp)|]. split; [apply (ep_capn _ _ Hp)|].
  split.
  { apply (valid_composed A B [] [] 0); try assumption.
    destruct HA as (_ & ? & _). lia. }
  split; [exact Eb|]. split; [exact Ec|]. split; [exact Eh|].
  rewrite inversions_dispatch
    by (try apply valid_duplicates; try apply valid_unequal_content;
        trivial).
  rewrite HcA, HcB. exact E.
Qed.

Definition sample_identity : Genome := linear [1; 2; 3; 4; 5].
Definition sample_inverted : Genome := linear [1; -4; -3; -2; 5].

Lemma inversions_linear_formula_witness :
  valid_chromosome sample_identity /\ valid_chromosome sample_inverted
  /\ exists m b c m1 h f m2,
       extended_perm [sample_identity] [sample_inverted] 0 = Ok m
       /\ alen (perm m) = 12
       /\ cell (perm m) 0 = Some 0
       /\ cell (perm m) 11 = Some 11
       /\ (forall i, 1 <= i < 11 ->
             exists x v, cell (perm2 m) i = Some x
                         /\ cell (perm1 m) x = Some v
                         /\ cell (perm m) i = Some v)
       /\ num_breakpoints (perm m) 12 = Ok b
       /\ num_cycles (perm m) 12 100 m = Ok (c, m1)
       /\ num_hurdles_and_fortress (perm m1) 12 100 m1 = Ok (h, f, m2)
       /\ _inversions 100 [sample_identity] [sample_inverted]
          = Ok (b - c + h + f).
Proof.
  assert (HA : valid_chromosome sample_identity)
    by (apply valid_chromosomeb_true; vm_compute; reflexivity).
  assert (HB : valid_chromosome sample_inverted)
    by (apply valid_chromosomeb_true; vm_compute; reflexivity).
  split; [exact HA|]. split; [exact HB|].
  apply (inversions_linear_formula 100 sample_identity sample_inverted HA HB);
    [reflexivity|reflexivity|reflexivity|vm_compute; lia].
Defined.

(** C1 as stated fails: [5] and [5] are linear, duplicate-free and of
    matching content, and no distance is returned. *)
Lemma inversions_linear_out_of_range :
  NoDup (Z.abs <$> pi (linear [5]))
  /\ circular (linear [5]) = false
  /\ unequal_content [linear [5]] [linear [5]] = Ok false
  /\ _inversions 100 [linear [5]] [linear [5]] = Err OutOfBounds.
Proof.
  split; [apply NoDup_singleton|].
  split; [reflexivity|]. split; vm_compute; reflexivity.
Qed.

(** C5, amended: for two chromosomes whose absolute gene ids are exactly
    1..n (n at least 1), at least one of them circular, the distance
    returned is that of [invdist_noncircular] at the offset
    [calculate_offset] finds -- with the circular chromosome of the first
    argument as the one scanned -- plus 1 when exactly one chromosome is
    circular and plus 0 when both are. *)
Theorem inversions_circular_formula (fuel : nat) (A B : Genome) :
  valid_chromosome A -> valid_chromosome B -> len A = len B ->
  circular A = true \/ circular B = true ->
  (Z.to_nat (2 * len A + 2) < fuel)%nat ->
  exists offset d,
    (if circular A then calculate_offset [B] [A]
     else calculate_offset [A] [B]) = Ok offset
    /\ 0 <= offset < 2 * len A
    /\ (if circular A then invdist_noncircular fuel [B] [A] offset
        else invdist_noncircular fuel [A] [B] offset) = Ok d
    /\ 0 <= d
    /\ _inversions fuel [A] [B]
       = Ok (d + (if Bool.eqb (circular A) (circular B) then 0 else 1)).
Proof.
  intros HA HB Hlen Hcirc Hfuel.
  rewrite inversions_dispatch
    by (try apply valid_duplicates; try apply valid_unequal_content;
        trivial).
  destruct (circular A) eqn:EcA.
  - destruct (circular_run fuel B A [] [] HB HA ltac:(lia) ltac:(lia))
      as (off & b & c & h & f & Eo & Hoff & Hrun & E).
    exists off, (b - c + h + f). split; [exact Eo|]. split; [lia|].
    unfold invdist_circular in E. rewrite Eo in E. cbn [bind] in E.
    split; [exact E|].
    pose proof (run_cycles _ _ _ _ _ _ _ _ _ Hrun).
    pose proof (run_hurdles _ _ _ _ _ _ _ _ _ Hrun).
    pose proof (run_fortress _ _ _ _ _ _ _ _ _ Hrun).
    split; [lia|].
    unfold invdist_circular. rewrite Eo. cbn [bind]. rewrite E. cbn [bind].
    f_equal. destruct (circular B); cbn; lia.
  - destruct Hcirc as [?|EcB]; [discriminate|]. rewrite EcB.
    destruct (circular_run fuel A B [] [] HA HB Hlen Hfuel)
      as (off & b & c & h & f & Eo & Hoff & Hrun & E).
    exists off, (b - c + h + f). split; [exact Eo|]. split; [lia|].
    unfold invdist_circular in E. rewrite Eo in E. cbn [bind] in E.
    split; [exact E|].
    pose proof (run_cycles _ _ _ _ _ _ _ _ _ Hrun).
    pose proof (run_hurdles _ _ _ _ _ _ _ _ _ Hrun).
    pose proof (run_fortress _ _ _ _ _ _ _ _ _ Hrun).
    split; [lia|].
    unfold invdist_circular. rewrite Eo. cbn [bind]. rewrite E. reflexivity.
Qed.

Definition sample_rotated : Genome := cyclic [2; 3; 1].
Definition sample_flipped : Genome := linear [1; -3; -2].

Lemma inversions_circular_formula_witness :
  valid_chromosome sample_rotated /\ valid_chromosome sample_flipped
  /\ exists offset d,
       calculate_offset [sample_flipped] [sample_rotated] = Ok offset
       /\ 0 <= offset < 6
       /\ invdist_noncircular 100 [sample_flipped] [sample_rotated] offset
          = Ok d
       /\ 0 <= d
       /\ _inversions 100 [sample_rotated] [sample_flipped] = Ok (d + 1).
Proof.
  assert (HA : valid_chromosome sample_rotated)
    by (apply valid_chromosomeb_true; vm_compute; reflexivity).
  assert (HB : valid_chromosome sample_flipped)
    by (apply valid_chromosomeb_true; vm_compute; reflexivity).
  split; [exact HA|]. split; [exact HB|].
  apply (inversions_circular_formula 100 sample_rotated sample_flipped HA HB);
    [reflexivity|left; reflexivity|vm_compute; lia].
Defined.

(** C5 as stated fails: the circular chromosome [5] against itself. *)
Lemma inversions_circular_out_of_range :
  NoDup (Z.abs <$> pi (cyclic [5]))
  /\ circular (cyclic [5]) = true
  /\ unequal_content [cyclic [5]] [cyclic [5]] = Ok false
  /\ _inversions 100 [cyclic [5]] [cyclic [5]] = Err OutOfBounds.
Proof.
  split; [apply NoDup_singleton|].
  split; [reflexivity|]. split; vm_compute; reflexivity.
Qed.

Lemma duplicates_found G rest :
  wf_genome G -> 0 < len G -> ~ NoDup (Z.abs <$> pi G) ->
  duplicates (G :: rest) = Ok true.
Proof.
  intros Hwf Hpos Hnd.
  destruct (duplicates_first G rest Hwf Hpos) as (b & E & Hb).
  destruct b; [assumption|]. exfalso. apply Hnd, Hb. reflexivity.
Qed.

Lemma duplicates_none G rest :
  wf_genome G -> 0 < len G -> NoDup (Z.abs <$> pi G) ->
  duplicates (G :: rest) = Ok false.
Proof.
  intros Hwf Hpos Hnd.
  destruct (duplicates_first G rest Hwf Hpos) as (b & E & Hb).
  apply Hb in Hnd. now subst b.
Qed.

(** C8, amended: [_inversions] returns one [int].  On chromosomes of at
    least one gene it is the sentinel [ERR_DUPLICATES] (-2) when one of
    them repeats an absolute gene id, else the sentinel [ERR_CONTENT]
    (-1) when their contents differ, and a non-negative distance when
    both hold exactly the absolute ids 1..n. *)
Theorem inversions_result_kinds (fuel : nat) (A B : Genome) :
  wf_genome A -> wf_genome B -> 0 < len A -> 0 < len B ->
  (Z.to_nat (2 * len A + 2) < fuel)%nat ->
  (~ NoDup (Z.abs <$> pi A) \/ ~ NoDup (Z.abs <$> pi B) ->
   _inversions fuel [A] [B] = Ok ERR_DUPLICATES)
  /\ (NoDup (Z.abs <$> pi A) -> NoDup (Z.abs <$> pi B) ->
      ~ (Z.abs <$> pi A) ≡ₚ (Z.abs <$> pi B) ->
      _inversions fuel [A] [B] = Ok ERR_CONTENT)
  /\ (signed_perm (pi A) -> signed_perm (pi B) -> len A = len B ->
      exists d, _inversions fuel [A] [B] = Ok d /\ 0 <= d).
Proof.
  intros HwA HwB HpA HpB Hfuel. split; [|split].
  - intros Hdup. unfold _inversions.
    destruct (duplicates_first A [] HwA HpA) as (a & Ea & Ha).
    rewrite Ea. cbn [bind]. destruct a; [reflexivity|].
    destruct Hdup as [Hd|Hd]; [exfalso; apply Hd, Ha; reflexivity|].
    rewrite (duplicates_found B [] HwB HpB Hd). reflexivity.
  - intros HnA HnB Hne. unfold _inversions.
    rewrite (duplicates_none A [] HwA HpA HnA). cbn [bind].
    rewrite (duplicates_none B [] HwB HpB HnB). cbn [bind].
    destruct (unequal_content_first A B [] [] HwA HwB) as (u & Eu & Hu).
    rewrite Eu. cbn [bind]. destruct u; [reflexivity|].
    exfalso. apply Hne, Hu. reflexivity.
  - intros HsA HsB Hlen.
    assert (HA : valid_chromosome A) by (split; [|split]; assumption).
    assert (HB : valid_chromosome B) by (split; [|split]; assumption).
    rewrite inversions_dispatch
      by (try apply valid_duplicates; try apply valid_unequal_content;
          trivial).
    destruct (circular A) eqn:EcA; [|destruct (circular B) eqn:EcB].
    + destruct (circular_run fuel B A [] [] HB HA ltac:(lia) ltac:(lia))
        as (off & b & c & h & f & _ & _ & Hrun & E).
      rewrite E. cbn [bind]. eexists. split; [reflexivity|].
      pose proof (run_cycles _ _ _ _ _ _ _ _ _ Hrun).
      pose proof (run_hurdles _ _ _ _ _ _ _ _ _ Hrun).
      pose proof (run_fortress _ _ _ _ _ _ _ _ _ Hrun).
      destruct (circular B); cbn; lia.
    + destruct (circular_run fuel A B [] [] HA HB Hlen Hfuel)
        as (off & b & c & h & f & _ & _ & Hrun & E).
      rewrite E. cbn [bind]. eexists. split; [reflexivity|].
      pose proof (run_cycles _ _ _ _ _ _ _ _ _ Hrun).
      pose proof (run_hurdles _ _ _ _ _ _ _ _ _ Hrun).
      pose proof (run_fortress _ _ _ _ _ _ _ _ _ Hrun). lia.
    + destruct (valid_run fuel A B [] [] 0 HA HB Hlen ltac:(lia) Hfuel)
        as (b & c & h & f & Hrun & E).
      rewrite E. eexists. split; [reflexivity|].
      pose proof (run_cycles _ _ _ _ _ _ _ _ _ Hrun).
      pose proof (run_hurdles _ _ _ _ _ _ _ _ _ Hrun).
      pose proof (run_fortress _ _ _ _ _ _ _ _ _ Hrun). lia.
Qed.

Lemma valid_wf G : valid_chromosome G -> wf_genome G /\ 0 < len G.
Proof. intros (? & ? & _). tauto. Qed.

Lemma inversions_result_kinds_witness :
  wf_genome sample_identity /\ wf_genome sample_inverted
  /\ exists d, _inversions 100 [sample_identity] [sample_inverted] = Ok d
               /\ 0 <= d.
Proof.
  assert (HA : valid_chromosome sample_identity)
    by (apply valid_chromosomeb_true; vm_compute; reflexivity).
  assert (HB : valid_chromosome sample_inverted)
    by (apply valid_chromosomeb_true; vm_compute; reflexivity).
  destruct (valid_wf _ HA) as (HwA & HpA).
  destruct (valid_wf _ HB) as (HwB & HpB).
  split; [exact HwA|]. split; [exact HwB|].
  apply (inversions_result_kinds 100 sample_identity sample_inverted
           HwA HwB HpA HpB);
    [vm_compute; lia|apply HA|apply HB|reflexivity].
Defined.

(** C8 as stated fails: the error is the negative [int] -2 in the place
    of the distance. *)
Lemma inversions_sentinel :
  _inversions 100 [linear [1; 1]] [linear [1; 1]] = Ok (-2)
  /\ ERR_DUPLICATES = -2.
Proof. split; vm_compute; reflexivity. Qed.

(** C9: once the duplicate and content checks of two non-empty
    chromosomes have passed, [calculate_offset] finds the first gene and
    returns an offset in [0, 2n), never [ERR_CONTENT]; that offset is
    what [invdist_circular] hands to [invdist_noncircular]. *)
Theorem offset_after_validation (A B : Genome) :
  wf_genome A -> wf_genome B -> 0 < len A -> 0 < len B ->
  duplicates [A] = Ok false -> duplicates [B] = Ok false ->
  unequal_content [A] [B] = Ok false ->
  exists offset,
    calculate_offset [A] [B] = Ok offset
    /\ 0 <= offset < 2 * len B
    /\ offset <> ERR_CONTENT
    /\ forall fuel, invdist_circular fuel [A] [B]
                    = invdist_noncircular fuel [A] [B] offset.
Proof.
  intros HwA HwB HpA HpB _ _ Eu.
  destruct (unequal_content_first A B [] [] HwA HwB) as (u & Eu' & Hu).
  rewrite Eu in Eu'. injection Eu' as <-.
  destruct (offset_found A B [] [] HwA HwB HpA) as (off & Eo & Hoff & _).
  { apply Hu. reflexivity. }
  exists off. split; [exact Eo|]. split; [exact Hoff|].
  split; [unfold ERR_CONTENT; lia|].
  intros fuel. unfold invdist_circular. rewrite Eo. reflexivity.
Qed.

Lemma offset_after_validation_witness :
  wf_genome sample_rotated /\ wf_genome sample_flipped
  /\ duplicates [sample_rotated] = Ok false
  /\ duplicates [sample_flipped] = Ok false
  /\ unequal_content [sample_rotated] [sample_flipped] = Ok false
  /\ exists offset,
       calculate_offset [sample_rotated] [sample_flipped] = Ok offset
       /\ 0 <= offset < 2 * len sample_flipped
       /\ offset <> ERR_CONTENT
       /\ forall fuel, invdist_circular fuel [sample_rotated] [sample_flipped]
            = invdist_noncircular fuel [sample_rotated] [sample_flipped]
                offset.
Proof.
  assert (HA : valid_chromosome sample_rotated)
    by (apply valid_chromosomeb_true; vm_compute; reflexivity).
  assert (HB : valid_chromosome sample_flipped)
    by (apply valid_chromosomeb_true; vm_compute; reflexivity).
  destruct (valid_wf _ HA) as (HwA & HpA).
  destruct (valid_wf _ HB) as (HwB & HpB).
  assert (E1 : duplicates [sample_rotated] = Ok false)
    by (vm_compute; reflexivity).
  assert (E2 : duplicates [sample_flipped] = Ok false)
    by (vm_compute; reflexivity).
  assert (E3 : unequal_content [sample_rotated] [sample_flipped] = Ok false)
    by (vm_compute; reflexivity).
  split; [exact HwA|]. split; [exact HwB|]. split; [exact E1|].
  split; [exact E2|]. split; [exact E3|].
  exact (offset_after_validation sample_rotated sample_flipped
           HwA HwB HpA HpB E1 E2 E3).
Defined.

(** * Genome sets of several chromosomes *)

(** The genes of a whole set. *)
Definition set_genes (g : list Genome) : list Z := concat (pi <$> g).

(** The boundaries of a chromosome: its adjacent pairs, and the pair that
    closes a circular one. *)
Definition boundaries (G : Genome) : list (Z * Z) :=
  zip (pi G) (drop 1 (pi G))
  ++ (if circular G then
        match last (pi G), head (pi G) with
        | Some x, Some y => [(x, y)]
        | _, _ => []
        end
      else []).

Definition set_boundaries (g : list Genome) : list (Z * Z) :=
  concat (boundaries <$> g).

(** The breakpoint distance as the specification words it:
    [max(bA, bB) - b], with [bA] and [bB] the boundaries of each side and
    [b] the boundaries of the first side found on the second, in either
    reading direction. *)
Definition spec_breakpoints (gA gB : list Genome) : Z :=
  let bA := Z.of_nat (length (set_boundaries gA)) in
  let bB := Z.of_nat (length (set_boundaries gB)) in
  let shared xy :=
    existsb (fun uv => same_boundary (fst xy) (snd xy) (fst uv) (snd uv))
            (set_boundaries gB) in
  let b := Z.of_nat (length (filter (fun xy => shared xy = true)
                                    (set_boundaries gA))) in
  Z.max bA bB - b.

Definition sample_pair : list Genome := [linear [1]; linear [1]].

(** C4: a set that repeats gene 1 across two chromosomes passes the
    duplicate check, because [sizeof(pi)/sizeof(Genome * )] counts one
    chromosome whatever the set holds, and a distance is returned. *)
Theorem inversions_misses_duplicates :
  bool_decide (NoDup (Z.abs <$> set_genes sample_pair)) = false
  /\ _inversions 100 sample_pair sample_pair = Ok 0.
Proof. split; vm_compute; reflexivity. Qed.

(** C10: on the same set [duplicates] reads the first chromosome only
    and answers that no gene is repeated. *)
Theorem duplicates_misses_chromosomes :
  bool_decide (NoDup (Z.abs <$> set_genes sample_pair)) = false
  /\ duplicates sample_pair = Ok false.
Proof. split; vm_compute; reflexivity. Qed.

(** C6: the circular chromosome (1 2 3) and its rotation (3 1 2) have the
    same three boundaries, yet [_breakpoints] returns 1: an inner boundary
    of the first chromosome is not looked for at the closing boundary of
    the second. *)
Theorem breakpoints_misses_wrap :
  _breakpoints [cyclic [1; 2; 3]] [cyclic [3; 1; 2]] = Ok 1
  /\ spec_breakpoints [cyclic [1; 2; 3]] [cyclic [3; 1; 2]] = 0.
Proof. split; vm_compute; reflexivity. Qed.

(** * Further properties of the code *)

(** [duplicates] on the chromosome it reads: with no gene the scan runs
    off the empty vector; with at least one gene it answers whether an
    absolute gene id is repeated. *)
Theorem duplicates_first_chromosome (G : Genome) (rest : list Genome) :
  wf_genome G ->
  (len G = 0 -> duplicates (G :: rest) = Err OutOfBounds)
  /\ (0 < len G ->
      exists b, duplicates (G :: rest) = Ok b
                /\ (b = true <-> ~ NoDup (Z.abs <$> pi G))).
Proof.
  intros Hwf. split.
  - intros H0. apply duplicates_empty; [|assumption].
    destruct Hwf as (Hl & _). rewrite H0 in Hl.
    destruct (pi G); [reflexivity|discriminate].
  - intros Hpos. destruct (duplicates_first G rest Hwf Hpos) as (b & E & Hb).
    exists b. split; [assumption|]. destruct b.
    + split; [|reflexivity]. intros _ Hnd. apply Hb in Hnd. discriminate.
    + split; [discriminate|]. intros Hnd. exfalso. apply Hnd, Hb. reflexivity.
Qed.

Definition sample_repeated : Genome := linear [1; -2; 2].

Lemma sample_repeated_wf : wf_genome sample_repeated.
Proof.
  split; [reflexivity|]. split; [cbn; lia|].
  repeat constructor; unfold is_short; lia.
Qed.

Lemma duplicates_first_chromosome_witness :
  wf_genome sample_repeated
  /\ exists b, duplicates [sample_repeated] = Ok b
               /\ (b = true <-> ~ NoDup (Z.abs <$> pi sample_repeated)).
Proof.
  split; [exact sample_repeated_wf|].
  apply (duplicates_first_chromosome sample_repeated [] sample_repeated_wf).
  vm_compute. reflexivity.
Defined.

(** Once the input is a pair of chromosomes over the ids 1..n, the graph
    algorithms run to the end for every alignment, and the distance is
    not negative. *)
Theorem invdist_noncircular_total (fuel : nat) (A B : Genome) (offset : Z) :
  valid_chromosome A -> valid_chromosome B -> len A = len B ->
  0 <= offset < 2 * len A ->
  (Z.to_nat (2 * len A + 2) < fuel)%nat ->
  exists d, invdist_noncircular fuel [A] [B] offset = Ok d /\ 0 <= d.
Proof.
  intros HA HB Hlen Hoff Hfuel.
  destruct (valid_run fuel A B [] [] offset HA HB Hlen Hoff Hfuel)
    as (b & c & h & f & Hrun & E).
  exists (b - c + h + f). split; [exact E|].
  pose proof (run_cycles _ _ _ _ _ _ _ _ _ Hrun).
  pose proof (run_hurdles _ _ _ _ _ _ _ _ _ Hrun).
  pose proof (run_fortress _ _ _ _ _ _ _ _ _ Hrun). lia.
Qed.

Lemma invdist_noncircular_total_witness :
  valid_chromosome sample_identity /\ valid_chromosome sample_inverted
  /\ exists d, invdist_noncircular 100 [sample_identity] [sample_inverted] 7
               = Ok d /\ 0 <= d.
Proof.
  assert (HA : valid_chromosome sample_identity)
    by (apply valid_chromosomeb_true; vm_compute; reflexivity).
  assert (HB : valid_chromosome sample_inverted)
    by (apply valid_chromosomeb_true; vm_compute; reflexivity).
  split; [exact HA|]. split; [exact HB|].
  apply (invdist_noncircular_total 100 sample_identity sample_inverted 7
           HA HB); [reflexivity|cbn; lia|vm_compute; lia].
Defined.

(** ** The code on known permutations *)

(** One inversion undoes (1 -4 -3 -2 5). *)
Example inversions_one :
  _inversions 100 [sample_identity] [sample_inverted] = Ok 1.
Proof. vm_compute. reflexivity. Qed.

(** Three hurdles, each a superhurdle: a fortress. *)
Example inversions_fortress :
  _inversions 100
    [linear [1; 2; 3; 4; 5; 6; 7; 8; 9; 10; 11; 12; 13; 14; 15; 16; 17;
             18; 19]]
    [linear [1; 3; 5; 4; 6; 2; 7; 9; 11; 10; 12; 8; 13; 15; 17; 16; 18;
             14; 19]]
  = Ok 16.
Proof. vm_compute. reflexivity. Qed.

(** * The validators on the chromosome they read *)

(** [unequal_content] compares the absolute gene ids of the two first
    chromosomes as multisets; unlike [duplicates] it has no trouble with
    empty chromosomes, and it answers the same with its arguments
    swapped. *)
Theorem unequal_content_permutation (A B : Genome) (ra rb : list Genome) :
  wf_genome A -> wf_genome B ->
  exists u, unequal_content (A :: ra) (B :: rb) = Ok u
    /\ (u = false <-> (Z.abs <$> pi A) ≡ₚ (Z.abs <$> pi B))
    /\ unequal_content (B :: rb) (A :: ra) = Ok u.
Proof.
  intros HA HB.
  destruct (unequal_content_first A B ra rb HA HB) as (u & Eu & Hu).
  destruct (unequal_content_first B A rb ra HB HA) as (u' & Eu' & Hu').
  exists u. split; [exact Eu|]. split; [exact Hu|].
  rewrite Eu'. f_equal. destruct u, u'; try reflexivity.
  - assert (Hp : (Z.abs <$> pi B) ≡ₚ (Z.abs <$> pi A))
      by (apply Hu'; reflexivity).
    symmetry in Hp. apply Hu in Hp. discriminate.
  - assert (Hp : (Z.abs <$> pi A) ≡ₚ (Z.abs <$> pi B))
      by (apply Hu; reflexivity).
    symmetry in Hp. apply Hu' in Hp. discriminate.
Qed.

Lemma sample_wf G : valid_chromosome G -> wf_genome G.
Proof. intros (H & _). exact H. Qed.

Lemma unequal_content_permutation_witness :
  wf_genome sample_rotated /\ wf_genome sample_flipped
  /\ exists u, unequal_content [sample_rotated] [sample_flipped] = Ok u
       /\ (u = false
           <-> (Z.abs <$> pi sample_rotated) ≡ₚ (Z.abs <$> pi sample_flipped))
       /\ unequal_content [sample_flipped] [sample_rotated] = Ok u.
Proof.
  assert (HA : wf_genome sample_rotated)
    by (apply sample_wf, valid_chromosomeb_true; vm_compute; reflexivity).
  assert (HB : wf_genome sample_flipped)
    by (apply sample_wf, valid_chromosomeb_true; vm_compute; reflexivity).
  split; [exact HA|]. split; [exact HB|].
  exact (unequal_content_permutation sample_rotated sample_flipped [] []
           HA HB).
Defined.

(** ** [calculate_offset] *)

(** The scan of [calculate_offset] over the genes [l]. *)
Definition offset_scan (l : list Z) (gA : Z) : result (unit + Z) :=
  for_ret (trip_count 0 (Z.of_nat (length l)) 1) 0 1
    (fun i (_ : unit) =>
       x <- at_ l i ;;
       if x =? gA then Ok (inr i)
       else if x =? - gA then Ok (inr (i + Z.of_nat (length l)))
       else Ok (inl tt)) tt.

(** No gene before position [j] is [gA] or [-gA]. *)
Definition unmatched_before (l : list Z) (gA : Z) (j : nat) : Prop :=
  forall (j' : nat) y, (j' < j)%nat -> l !! j' = Some y ->
    y <> gA /\ y <> - gA.

Lemma offset_scan_first (l : list Z) (gA : Z) (j : nat) (y : Z) :
  l !! j = Some y -> y = gA \/ y = - gA -> unmatched_before l gA j ->
  offset_scan l gA
  = Ok (inr (if y =? gA then Z.of_nat j
             else Z.of_nat j + Z.of_nat (length l))).
Proof.
  intros Hj Hy Hbefore. unfold offset_scan. rewrite trip_count_unit, Nat2Z.id.
  pose proof (lookup_lt_Some _ _ _ Hj) as Hlt.
  destruct (for_ret_inv
    (fun k (_ : unit) => k <= Z.of_nat j)
    (fun r : Z => r = if y =? gA then Z.of_nat j
                      else Z.of_nat j + Z.of_nat (length l))
    (fun i (_ : unit) =>
       x <- at_ l i ;;
       if x =? gA then Ok (inr i)
       else if x =? - gA then Ok (inr (i + Z.of_nat (length l)))
       else Ok (inl tt))
    (length l) 0 tt) as [(st & _ & HI)|(r & Hr & Hq)].
  - lia.
  - intros k [] Hk HI. rewrite Z.add_0_l in *.
    destruct (lookup_lt_is_Some_2 l k) as [z Hz]; [lia|].
    rewrite (at_ok l (Z.of_nat k) z) by (try lia; now rewrite Nat2Z.id).
    cbn [bind].
    destruct (decide (k = j)) as [->|Hkj].
    + assert (z = y) by congruence. subst z. right.
      destruct (Z.eqb_spec y gA) as [->|Hne].
      * eexists. split; [reflexivity|reflexivity].
      * destruct Hy as [Hy|Hy]; [contradiction|]. subst y.
        rewrite Z.eqb_refl. eexists. split; reflexivity.
    + assert (Hkl : (k < j)%nat) by lia.
      destruct (Hbefore k z Hkl Hz) as [H1 H2].
      destruct (Z.eqb_spec z gA); [contradiction|].
      destruct (Z.eqb_spec z (- gA)); [contradiction|].
      left. exists tt. split; [reflexivity|]. lia.
  - lia.
  - rewrite Hr, Hq. reflexivity.
Qed.

Lemma offset_scan_none (l : list Z) (gA : Z) :
  unmatched_before l gA (length l) -> offset_scan l gA = Ok (inl tt).
Proof.
  intros Hnone. unfold offset_scan. rewrite trip_count_unit, Nat2Z.id.
  destruct (for_ret_inv
    (fun _ (_ : unit) => True) (fun _ : Z => False)
    (fun i (_ : unit) =>
       x <- at_ l i ;;
       if x =? gA then Ok (inr i)
       else if x =? - gA then Ok (inr (i + Z.of_nat (length l)))
       else Ok (inl tt))
    (length l) 0 tt) as [([] & E & _)|(r & _ & [])].
  - exact I.
  - intros k [] Hk _. rewrite Z.add_0_l.
    destruct (lookup_lt_is_Some_2 l k) as [z Hz]; [lia|].
    rewrite (at_ok l (Z.of_nat k) z) by (try lia; now rewrite Nat2Z.id).
    cbn [bind]. destruct (Hnone k z Hk Hz) as [H1 H2].
    destruct (Z.eqb_spec z gA); [contradiction|].
    destruct (Z.eqb_spec z (- gA)); [contradiction|].
    left. exists tt. split; [reflexivity|exact I].
  - exact E.
Qed.

(** [calculate_offset (A, B)] looks for the first gene of [A] in [B]: it
    returns the first position holding that gene, or that position plus
    the length of [B] when it holds the gene reversed, and [ERR_CONTENT]
    when no position does; with no gene in [A] it reads [A]'s genes out
    of bounds. *)
Theorem calculate_offset_first_match (A B : Genome) (ra rb : list Genome) :
  wf_genome A -> wf_genome B ->
  (len A = 0 -> calculate_offset (A :: ra) (B :: rb) = Err OutOfBounds)
  /\ (0 < len A ->
      (unmatched_before (pi B) (gene (pi A) 0) (length (pi B)) ->
       calculate_offset (A :: ra) (B :: rb) = Ok ERR_CONTENT)
      /\ forall (j : nat) y,
           pi B !! j = Some y ->
           y = gene (pi A) 0 \/ y = - gene (pi A) 0 ->
           unmatched_before (pi B) (gene (pi A) 0) j ->
           calculate_offset (A :: ra) (B :: rb)
           = Ok (if y =? gene (pi A) 0 then Z.of_nat j
                 else Z.of_nat j + len B)).
Proof.
  intros (HlA & _) (HlB & _). split.
  - intros H0. unfold calculate_offset.
    change (at_ (B :: rb) 0) with (Ok B). change (at_ (A :: ra) 0) with (Ok A).
    cbn [bind]. rewrite at_oob by lia. reflexivity.
  - intros Hpos.
    assert (E : forall r, offset_scan (pi B) (gene (pi A) 0) = Ok r ->
              calculate_offset (A :: ra) (B :: rb)
              = Ok (match r with inr v => v | inl _ => ERR_CONTENT end)).
    { intros r Hr. unfold calculate_offset.
      change (at_ (B :: rb) 0) with (Ok B).
      change (at_ (A :: ra) 0) with (Ok A). cbn [bind].
      rewrite at_gene by lia. cbn [bind]. rewrite HlB.
      unfold offset_scan in Hr. rewrite Hr. cbn [bind].
      destruct r; reflexivity. }
    split.
    + intros Hnone. apply (E (inl tt)). apply offset_scan_none. exact Hnone.
    + intros j y Hj Hy Hbefore. rewrite HlB.
      apply (E (inr _)). apply offset_scan_first; assumption.
Qed.

Lemma calculate_offset_first_match_witness :
  wf_genome sample_flipped /\ wf_genome sample_rotated
  /\ calculate_offset [sample_flipped] [sample_rotated] = Ok 2.
Proof.
  assert (HA : wf_genome sample_flipped)
    by (apply sample_wf, valid_chromosomeb_true; vm_compute; reflexivity).
  assert (HB : wf_genome sample_rotated)
    by (apply sample_wf, valid_chromosomeb_true; vm_compute; reflexivity).
  split; [exact HA|]. split; [exact HB|].
  destruct (calculate_offset_first_match sample_flipped sample_rotated [] []
              HA HB) as (_ & Hfound).
  destruct (Hfound ltac:(vm_compute; reflexivity)) as (_ & Hat).
  apply (Hat 2%nat 1); [reflexivity|left; reflexivity|].
  intros j' y Hj' Hy.
  destruct j' as [|[|j']]; [| |lia]; injection Hy as <-;
    split; vm_compute; discriminate.
Defined.

(** ** [_DCJ] *)

(** [_DCJ] never returns a distance: after the two checks of the first
    chromosomes it answers [ERR_NOTIMPL]. *)
Theorem DCJ_not_implemented (A B : Genome) (ra rb : list Genome) :
  wf_genome A -> wf_genome B -> 0 < len A -> 0 < len B ->
  _DCJ (A :: ra) (B :: rb)
  = Ok (if bool_decide (NoDup (Z.abs <$> pi A) /\ NoDup (Z.abs <$> pi B))
        then if bool_decide ((Z.abs <$> pi A) ≡ₚ (Z.abs <$> pi B))
             then ERR_NOTIMPL else ERR_CONTENT
        else ERR_DUPLICATES).
Proof.
  intros HwA HwB HpA HpB. unfold _DCJ.
  destruct (duplicates_first A ra HwA HpA) as (a & Ea & Ha).
  destruct (duplicates_first B rb HwB HpB) as (b & Eb & Hb).
  destruct (unequal_content_first A B ra rb HwA HwB) as (u & Eu & Hu).
  rewrite Ea. cbn [bind]. destruct a.
  { rewrite bool_decide_eq_false_2; [reflexivity|].
    intros (H & _). apply Ha in H. discriminate. }
  rewrite Eb. cbn [bind]. destruct b.
  { rewrite bool_decide_eq_false_2; [reflexivity|].
    intros (_ & H). apply Hb in H. discriminate. }
  rewrite bool_decide_eq_true_2
    by (split; [apply Ha|apply Hb]; reflexivity).
  rewrite Eu. cbn [bind]. destruct u.
  - rewrite bool_decide_eq_false_2; [reflexivity|].
    intros H. apply Hu in H. discriminate.
  - rewrite bool_decide_eq_true_2 by (apply Hu; reflexivity). reflexivity.
Qed.

Lemma DCJ_not_implemented_witness :
  wf_genome sample_rotated /\ wf_genome sample_flipped
  /\ _DCJ [sample_rotated] [sample_flipped] = Ok ERR_NOTIMPL.
Proof.
  assert (HA : wf_genome sample_rotated)
    by (apply sample_wf, valid_chromosomeb_true; vm_compute; reflexivity).
  assert (HB : wf_genome sample_flipped)
    by (apply sample_wf, valid_chromosomeb_true; vm_compute; reflexivity).
  split; [exact HA|]. split; [exact HB|].
  rewrite (DCJ_not_implemented sample_rotated sample_flipped [] [] HA HB)
    by (vm_compute; reflexivity).
  rewrite bool_decide_eq_true_2.
  - rewrite bool_decide_eq_true_2; [reflexivity|].
    apply valid_same_content;
      [apply valid_chromosomeb_true; vm_compute; reflexivity ..|reflexivity].
  - split; apply valid_NoDup, valid_chromosomeb_true; vm_compute; reflexivity.
Defined.

(** * More on loops *)

Lemma trip_count_span lo hi : trip_count lo hi 1 = Z.to_nat (hi - lo).
Proof. unfold trip_count. rewrite Z.div_1_r. f_equal. lia. Qed.

Lemma for_loop_app {St} (a b : nat) (i : Z) (body : Z -> St -> result St)
    (s : St) :
  for_loop (a + b) i 1 body s
  = bind (for_loop a i 1 body s) (for_loop b (i + Z.of_nat a) 1 body).
Proof.
  revert i s. induction a as [|a IH]; intros i s.
  - cbn [for_loop Nat.add bind]. now rewrite Z.add_0_r.
  - cbn [for_loop Nat.add]. destruct (body i s) as [s'|e]; cbn [bind];
      [|reflexivity].
    rewrite IH. now replace (i + 1 + Z.of_nat a) with (i + Z.of_nat (S a)) by lia.
Qed.

Lemma for_range_split {St} (lo mid hi : Z) (body : Z -> St -> result St)
    (s : St) :
  lo <= mid <= hi ->
  for_range lo hi 1 body s
  = bind (for_range lo mid 1 body s) (for_range mid hi 1 body).
Proof.
  intros H. unfold for_range. rewrite !trip_count_span.
  replace (Z.to_nat (hi - lo))
    with (Z.to_nat (mid - lo) + Z.to_nat (hi - mid))%nat by lia.
  rewrite for_loop_app. now replace (lo + Z.of_nat (Z.to_nat (mid - lo)))
    with mid by lia.
Qed.

Lemma for_range_first {St} (lo hi : Z) (body : Z -> St -> result St) (s : St) :
  lo < hi ->
  for_range lo hi 1 body s = bind (body lo s) (for_range (lo + 1) hi 1 body).
Proof.
  intros H. unfold for_range. rewrite !trip_count_span.
  replace (Z.to_nat (hi - lo)) with (S (Z.to_nat (hi - (lo + 1)))) by lia.
  reflexivity.
Qed.

Lemma for_range_last {St} (lo hi : Z) (body : Z -> St -> result St) (s : St) :
  lo <= hi ->
  for_range lo (hi + 1) 1 body s = bind (for_range lo hi 1 body s) (body hi).
Proof.
  intros H. rewrite (for_range_split lo hi (hi + 1)) by lia.
  destruct (for_range lo hi 1 body s) as [s'|e]; cbn [bind]; [|reflexivity].
  rewrite for_range_first by lia.
  destruct (body hi s') as [s2|e]; cbn [bind]; [|reflexivity].
  apply for_range_empty. lia.
Qed.

(** The loop fails at the first iteration that does. *)
Lemma for_range_fail {St} (I : Z -> St -> Prop)
    (body : Z -> St -> result St) (lo hi j : Z) (e : error) (s : St) :
  lo <= j < hi -> I lo s ->
  (forall i s, lo <= i < j -> I i s ->
     exists s', body i s = Ok s' /\ I (i + 1) s') ->
  (forall s, I j s -> body j s = Err e) ->
  for_range lo hi 1 body s = Err e.
Proof.
  intros Hj H0 Hstep Hfail.
  rewrite (for_range_split lo j hi) by lia.
  destruct (for_range_inv I body lo j s ltac:(lia) H0 Hstep) as (s' & E & HI).
  rewrite E. cbn [bind]. rewrite for_range_first by lia.
  rewrite (Hfail s' HI). reflexivity.
Qed.

(** * Gene ids the graph has no room for *)

(** [invdist_noncircular] gives the gene [x] the cells [2|x|-1] and
    [2|x|] of [perm1], which has [2n+2] cells. *)
Definition id_in_range (n x : Z) : Prop := 1 <= Z.abs x <= n.

Lemma id_in_range_dec n x : {id_in_range n x} + {~ id_in_range n x}.
Proof.
  unfold id_in_range.
  destruct (Z_le_dec 1 (Z.abs x)), (Z_le_dec (Z.abs x) n);
    [left|right|right|right]; lia.
Qed.

Lemma first_out_of_range (n : Z) (l : list Z) :
  ~ Forall (id_in_range n) l ->
  exists (j : nat) x, l !! j = Some x /\ ~ id_in_range n x
    /\ forall (i : nat) y, (i < j)%nat -> l !! i = Some y -> id_in_range n y.
Proof.
  induction l as [|a l IH]; intros Hn; [exfalso; apply Hn; constructor|].
  destruct (id_in_range_dec n a) as [Ha|Ha].
  - destruct IH as (j & x & Hj & Hx & Hbefore).
    { intros Hl. apply Hn. constructor; assumption. }
    exists (S j), x. split; [exact Hj|]. split; [exact Hx|].
    intros [|i] y Hi Hy.
    + injection Hy as <-. exact Ha.
    + apply (Hbefore i); [lia|exact Hy].
  - exists 0%nat, a. split; [reflexivity|]. split; [exact Ha|]. intros; lia.
Qed.

Lemma wr_oob a i v : ~ 0 <= i < alen a -> wr a i v = Err OutOfBounds.
Proof.
  intros H. unfold wr, alen in *.
  destruct (Z.leb_spec 0 i), (Z.ltb_spec i (Z.of_nat (length a)));
    cbn [andb]; try reflexivity. lia.
Qed.

Lemma build_perm1_out_of_range (A : Genome) (ra : list Genome) :
  len A = Z.of_nat (length (pi A)) ->
  ~ Forall (id_in_range (len A)) (pi A) ->
  for_range 0 (len A) 1 (build_perm1 (A :: ra))
    (distmem_struct (2 * len A + 2)) = Err OutOfBounds.
Proof.
  intros Hlen Hbad. set (n := len A) in *. set (s := 2 * n + 2).
  destruct (first_out_of_range n (pi A) Hbad) as (j & x & Hj & Hx & Hbefore).
  pose proof (lookup_lt_Some _ _ _ Hj) as Hjl.
  apply (for_range_fail (fun _ m => alen (perm1 m) = s) _ 0 n (Z.of_nat j)).
  - lia.
  - apply alen_new. unfold s. lia.
  - intros i m Hi Hm. unfold build_perm1.
    change (at_ (A :: ra) 0) with (Ok A). cbn [bind].
    rewrite at_gene by lia. cbn [bind].
    assert (Hy : id_in_range n (gene (pi A) i)).
    { apply (Hbefore (Z.to_nat i)); [lia|]. apply gene_lookup. lia. }
    unfold id_in_range in Hy.
    destruct (Z.gtb_spec (2 * gene (pi A) i) 0).
    + rewrite wr_inb by (unfold s in *; lia). cbn [bind].
      rewrite wr_inb by (rewrite alen_upd; unfold s in *; lia). cbn [bind].
      eexists. split; [reflexivity|]. cbn [perm1 set_perm1].
      now rewrite !alen_upd.
    + rewrite wr_inb by (unfold s in *; lia). cbn [bind].
      rewrite wr_inb by (rewrite alen_upd; unfold s in *; lia). cbn [bind].
      eexists. split; [reflexivity|]. cbn [perm1 set_perm1].
      now rewrite !alen_upd.
  - intros m Hm. unfold build_perm1.
    change (at_ (A :: ra) 0) with (Ok A). cbn [bind].
    rewrite (at_ok (pi A) (Z.of_nat j) x) by (try lia; now rewrite Nat2Z.id).
    cbn [bind]. unfold id_in_range in Hx.
    destruct (Z.gtb_spec (2 * x) 0).
    + destruct (Z_lt_dec (2 * x - 1) s) as [Hin|Hout].
      * rewrite wr_inb by lia. cbn [bind].
        rewrite wr_oob by (rewrite alen_upd; unfold s in *; lia). reflexivity.
      * rewrite wr_oob by lia. reflexivity.
    + destruct (Z.eq_dec x 0) as [->|Hx0].
      * rewrite wr_inb by (unfold s in *; lia). cbn [bind].
        rewrite wr_oob by (rewrite alen_upd; lia). reflexivity.
      * rewrite wr_oob by (unfold s in *; lia). reflexivity.
Qed.

Lemma extended_perm_out_of_range (A : Genome) (ra g2 : list Genome)
    (offset : Z) :
  len A = Z.of_nat (length (pi A)) ->
  ~ Forall (id_in_range (len A)) (pi A) ->
  extended_perm (A :: ra) g2 offset = Err OutOfBounds.
Proof.
  intros Hlen Hbad.
  unfold extended_perm. change (at_ (A :: ra) 0) with (Ok A). cbn [bind].
  rewrite build_perm1_out_of_range by assumption. reflexivity.
Qed.

(** A failure while [perm] is built is the failure of the whole run. *)
Lemma noncircular_fails (fuel : nat) (A : Genome) (ra g2 : list Genome)
    (offset : Z) (e : error) :
  extended_perm (A :: ra) g2 offset = Err e ->
  invdist_noncircular fuel (A :: ra) g2 offset = Err e.
Proof.
  intros E. unfold invdist_noncircular.
  change (at_ (A :: ra) 0) with (Ok A). cbn [bind]. rewrite E. reflexivity.
Qed.

(** When a gene of the first chromosome of [g1] is 0 or exceeds the
    number of genes in absolute value, the construction of [perm1] writes
    outside the array, whatever [g2] and the offset are. *)
Theorem invdist_noncircular_out_of_range (fuel : nat) (A : Genome)
    (ra g2 : list Genome) (offset : Z) :
  len A = Z.of_nat (length (pi A)) ->
  ~ Forall (id_in_range (len A)) (pi A) ->
  extended_perm (A :: ra) g2 offset = Err OutOfBounds
  /\ invdist_noncircular fuel (A :: ra) g2 offset = Err OutOfBounds.
Proof.
  intros Hlen Hbad.
  pose proof (extended_perm_out_of_range A ra g2 offset Hlen Hbad) as E.
  split; [exact E|]. apply noncircular_fails, E.
Qed.

Definition sample_gap : Genome := linear [1; 3].

Lemma invdist_noncircular_out_of_range_witness :
  len sample_gap = Z.of_nat (length (pi sample_gap))
  /\ ~ Forall (id_in_range (len sample_gap)) (pi sample_gap)
  /\ invdist_noncircular 100 [sample_gap] [sample_gap] 0 = Err OutOfBounds.
Proof.
  assert (H1 : len sample_gap = Z.of_nat (length (pi sample_gap)))
    by reflexivity.
  assert (H2 : ~ Forall (id_in_range (len sample_gap)) (pi sample_gap)).
  { intros H. apply Forall_cons in H as [_ H]. apply Forall_cons in H as [H _].
    unfold id_in_range in H. cbn in H. lia. }
  split; [exact H1|]. split; [exact H2|].
  apply (invdist_noncircular_out_of_range 100 sample_gap [] [sample_gap] 0
           H1 H2).
Defined.

(** Duplicate-free ids within 1..n are exactly 1..n. *)
Lemma in_range_signed_perm (l : list Z) :
  NoDup (Z.abs <$> l) -> Forall (id_in_range (Z.of_nat (length l))) l ->
  signed_perm l.
Proof.
  intros Hnd Hall. unfold signed_perm.
  apply submseteq_length_Permutation.
  - apply NoDup_submseteq; [assumption|].
    intros x Hx. apply list_elem_of_fmap in Hx as (y & -> & Hy).
    rewrite Forall_forall in Hall. specialize (Hall y Hy).
    unfold id_in_range in Hall. apply elem_of_seqZ. lia.
  - rewrite length_seqZ, length_fmap. lia.
Qed.

Lemma signed_perm_in_range (l : list Z) :
  signed_perm l -> Forall (id_in_range (Z.of_nat (length l))) l.
Proof.
  intros Hp. apply Forall_forall. intros x Hx.
  assert (Hin : Z.abs x ∈ seqZ 1 (Z.of_nat (length l))).
  { unfold signed_perm in Hp. rewrite <- Hp. apply list_elem_of_fmap.
    exists x. tauto. }
  apply elem_of_seqZ in Hin. unfold id_in_range. lia.
Qed.

(** The domain of [_inversions]: on two non-empty chromosomes that pass
    both checks, a distance is returned when the absolute gene ids are
    exactly 1..n, and otherwise the graph construction writes outside
    [perm1]. *)
Theorem inversions_domain (fuel : nat) (A B : Genome) :
  wf_genome A -> wf_genome B -> 0 < len A ->
  NoDup (Z.abs <$> pi A) -> NoDup (Z.abs <$> pi B) ->
  (Z.abs <$> pi A) ≡ₚ (Z.abs <$> pi B) ->
  (Z.to_nat (2 * len A + 2) < fuel)%nat ->
  (signed_perm (pi A) ->
   exists d, _inversions fuel [A] [B] = Ok d /\ 0 <= d)
  /\ (~ signed_perm (pi A) -> _inversions fuel [A] [B] = Err OutOfBounds).
Proof.
  intros HwA HwB HpA HnA HnB Hperm Hfuel.
  pose proof HwA as (HlA & _). pose proof HwB as (HlB & _).
  assert (Hlen : len A = len B).
  { apply Permutation_length in Hperm. rewrite !length_fmap in Hperm. lia. }
  split.
  - intros HsA.
    assert (HsB : signed_perm (pi B)).
    { unfold signed_perm in *. rewrite <- Hperm, HsA.
      replace (length (pi B)) with (length (pi A)) by lia. reflexivity. }
    assert (HA : valid_chromosome A) by (split; [|split]; assumption).
    assert (HB : valid_chromosome B) by (split; [|split]; [..|assumption]; [assumption|lia]).
    rewrite inversions_dispatch
      by (try apply valid_duplicates; try apply valid_unequal_content;
          trivial).
    destruct (circular A) eqn:EcA; [|destruct (circular B) eqn:EcB].
    + destruct (circular_run fuel B A [] [] HB HA ltac:(lia) ltac:(lia))
        as (off & b & c & h & f & _ & _ & Hrun & E).
      rewrite E. cbn [bind]. eexists. split; [reflexivity|].
      pose proof (run_cycles _ _ _ _ _ _ _ _ _ Hrun).
      pose proof (run_hurdles _ _ _ _ _ _ _ _ _ Hrun).
      pose proof (run_fortress _ _ _ _ _ _ _ _ _ Hrun).
      destruct (circular B); cbn; lia.
    + destruct (circular_run fuel A B [] [] HA HB Hlen Hfuel)
        as (off & b & c & h & f & _ & _ & Hrun & E).
      rewrite E. cbn [bind]. eexists. split; [reflexivity|].
      pose proof (run_cycles _ _ _ _ _ _ _ _ _ Hrun).
      pose proof (run_hurdles _ _ _ _ _ _ _ _ _ Hrun).
      pose proof (run_fortress _ _ _ _ _ _ _ _ _ Hrun). lia.
    + destruct (valid_run fuel A B [] [] 0 HA HB Hlen ltac:(lia) Hfuel)
        as (b & c & h & f & Hrun & E).
      rewrite E. eexists. split; [reflexivity|].
      pose proof (run_cycles _ _ _ _ _ _ _ _ _ Hrun).
      pose proof (run_hurdles _ _ _ _ _ _ _ _ _ Hrun).
      pose proof (run_fortress _ _ _ _ _ _ _ _ _ Hrun). lia.
  - intros Hbad.
    assert (HbadA : ~ Forall (id_in_range (len A)) (pi A)).
    { intros H. apply Hbad, in_range_signed_perm; [assumption|].
      now rewrite <- HlA. }
    assert (HbadB : ~ Forall (id_in_range (len B)) (pi B)).
    { intros H. apply HbadA. rewrite Hlen. apply Forall_forall.
      intros x Hx.
      assert (Hin : Z.abs x ∈ Z.abs <$> pi B).
      { rewrite <- Hperm. apply list_elem_of_fmap. exists x. tauto. }
      apply list_elem_of_fmap in Hin as (y & Hxy & Hy).
      rewrite Forall_forall in H. specialize (H y Hy).
      unfold id_in_range in *. lia. }
    rewrite inversions_dispatch;
      [|apply duplicates_none; assumption
       |apply duplicates_none; [assumption|lia|assumption]
       |destruct (unequal_content_first A B [] [] HwA HwB) as (u & Eu & Hu);
        apply Hu in Hperm; now subst u].
    destruct (circular A) eqn:EcA; [|destruct (circular B) eqn:EcB].
    + unfold invdist_circular.
      destruct (offset_found B A [] [] HwB HwA ltac:(lia)
                  ltac:(symmetry; exact Hperm)) as (off & Eo & _).
      rewrite Eo. cbn [bind].
      rewrite (noncircular_fails fuel B [] [A] off OutOfBounds)
        by (apply extended_perm_out_of_range; assumption).
      reflexivity.
    + unfold invdist_circular.
      destruct (offset_found A B [] [] HwA HwB HpA Hperm) as (off & Eo & _).
      rewrite Eo. cbn [bind].
      rewrite (noncircular_fails fuel A [] [B] off OutOfBounds)
        by (apply extended_perm_out_of_range; assumption).
      reflexivity.
    + rewrite (noncircular_fails fuel A [] [B] 0 OutOfBounds)
        by (apply extended_perm_out_of_range; assumption).
      reflexivity.
Qed.

Lemma sample_gap_wf : wf_genome sample_gap.
Proof.
  split; [reflexivity|]. split; [cbn; lia|].
  repeat constructor; unfold is_short; lia.
Qed.

Lemma sample_gap_NoDup : NoDup (Z.abs <$> pi sample_gap).
Proof.
  cbn. apply NoDup_cons. split; [|apply NoDup_singleton].
  intros H. apply list_elem_of_singleton in H. discriminate.
Qed.

Lemma inversions_domain_witness :
  wf_genome sample_gap /\ NoDup (Z.abs <$> pi sample_gap)
  /\ ~ signed_perm (pi sample_gap)
  /\ _inversions 100 [sample_gap] [sample_gap] = Err OutOfBounds.
Proof.
  assert (Hbad : ~ signed_perm (pi sample_gap)).
  { intros H. apply signed_perm_in_range in H.
    apply Forall_cons in H as [_ H]. apply Forall_cons in H as [H _].
    unfold id_in_range in H. cbn in H. lia. }
  split; [exact sample_gap_wf|]. split; [exact sample_gap_NoDup|].
  split; [exact Hbad|].
  apply (inversions_domain 100 sample_gap sample_gap sample_gap_wf
           sample_gap_wf);
    [cbn; lia|exact sample_gap_NoDup|exact sample_gap_NoDup|reflexivity
    |vm_compute; lia|exact Hbad].
Defined.

(** * What the extended permutation holds *)

(** The cells of [perm] for the gene aligned at position [k]. *)
Lemma perm_cells (A B : Genome) (ra rb : list Genome) (offset : Z) :
  valid_chromosome A -> valid_chromosome B -> len A = len B ->
  0 <= offset < 2 * len A ->
  exists m, extended_perm (A :: ra) (B :: rb) offset = Ok m
    /\ ext_perm_ok (len A) (perm m)
    /\ enumerates (gene (pi A)) (len A)
    /\ enumerates (aligned (pi B) offset (len A)) (len A)
    /\ forall k ja, 0 <= k < len A -> 0 <= ja < len A ->
         Z.abs (gene (pi A) ja) = Z.abs (aligned (pi B) offset (len A) k) ->
         cell (perm m) (2 * k + 1)
         = Some (if gene (pi A) ja =? aligned (pi B) offset (len A) k
                 then 2 * ja + 1 else 2 * ja + 2)
         /\ cell (perm m) (2 * k + 2)
            = Some (if gene (pi A) ja =? aligned (pi B) offset (len A) k
                    then 2 * ja + 2 else 2 * ja + 1).
Proof.
  intros ((HlA & _) & HpA & HsA) ((HlB & _) & _ & HsB) Hlen Hoff.
  assert (HA : enumerates (gene (pi A)) (len A)).
  { rewrite HlA. apply signed_perm_enumerates. assumption. }
  assert (HB : enumerates (aligned (pi B) offset (len A)) (len A)).
  { replace (len A) with (Z.of_nat (length (pi B))) in * by lia.
    apply aligned_enumerates; [|assumption].
    apply signed_perm_enumerates. assumption. }
  destruct (extended_perm_ok A B ra rb offset HlA ltac:(lia) HA HB Hoff)
    as (p1 & p2 & p & Ep & Hok & H1 & H2 & Hc).
  eexists. split; [exact Ep|]. cbn [perm set_perm].
  split; [exact Hok|]. split; [exact HA|]. split; [exact HB|].
  intros k ja Hk Hja Habs.
  destruct (H1 ja Hja) as (H1a & H1b). destruct (H2 k Hk) as (H2a & H2b).
  cbv zeta in H1a, H1b, H2a, H2b.
  set (x := gene (pi A) ja) in *.
  set (y := aligned (pi B) offset (len A) k) in *.
  destruct HA as (HrA & _). pose proof (HrA ja Hja) as Hx. fold x in Hx.
  destruct (Hc (2 * k + 1) ltac:(lia)) as (u1 & v1 & Hu1 & Hv1 & ->).
  destruct (Hc (2 * k + 2) ltac:(lia)) as (u2 & v2 & Hu2 & Hv2 & ->).
  rewrite H2a in Hu1. rewrite H2b in Hu2.
  injection Hu1 as <-. injection Hu2 as <-.
  rewrite <- Habs in Hv1, Hv2.
  destruct (Z.gtb_spec y 0), (Z.gtb_spec x 0), (Z.eqb_spec x y);
    try lia; split; congruence.
Qed.

(** For chromosomes over the ids 1..n and an offset in [0, 2n), [perm] is
    a permutation of 0..2n+1 with fixed caps, and the two cells of
    position [k] hold the two ends [2ja+1], [2ja+2] of the place [ja]
    that the gene aligned at [k] has in the first chromosome: in this
    order when the gene has the same sign there, swapped when it is
    reversed. *)
Theorem extended_perm_positions (A B : Genome) (offset : Z) :
  valid_chromosome A -> valid_chromosome B -> len A = len B ->
  0 <= offset < 2 * len A ->
  exists m, extended_perm [A] [B] offset = Ok m
    /\ (forall i, 0 <= i < 2 * len A + 2 ->
          exists v, cell (perm m) i = Some v /\ 0 <= v < 2 * len A + 2)
    /\ (forall i j v, cell (perm m) i = Some v -> cell (perm m) j = Some v ->
          i = j)
    /\ cell (perm m) 0 = Some 0
    /\ cell (perm m) (2 * len A + 1) = Some (2 * len A + 1)
    /\ forall k ja, 0 <= k < len A -> 0 <= ja < len A ->
         Z.abs (gene (pi A) ja) = Z.abs (aligned (pi B) offset (len A) k) ->
         cell (perm m) (2 * k + 1)
         = Some (if gene (pi A) ja =? aligned (pi B) offset (len A) k
                 then 2 * ja + 1 else 2 * ja + 2)
         /\ cell (perm m) (2 * k + 2)
            = Some (if gene (pi A) ja =? aligned (pi B) offset (len A) k
                    then 2 * ja + 2 else 2 * ja + 1).
Proof.
  intros HA HB Hlen Hoff.
  destruct (perm_cells A B [] [] offset HA HB Hlen Hoff)
    as (m & Em & Hok & _ & _ & Hpos).
  exists m. split; [exact Em|].
  split; [apply (ep_total _ _ Hok)|]. split; [apply (ep_inj _ _ Hok)|].
  split; [apply (ep_cap0 _ _ Hok)|]. split; [apply (ep_capn _ _ Hok)|].
  exact Hpos.
Qed.

Lemma extended_perm_positions_witness :
  valid_chromosome sample_identity /\ valid_chromosome sample_inverted
  /\ exists m, extended_perm [sample_identity] [sample_inverted] 0 = Ok m
       /\ cell (perm m) 3 = Some 8 /\ cell (perm m) 4 = Some 7.
Proof.
  assert (HA : valid_chromosome sample_identity)
    by (apply valid_chromosomeb_true; vm_compute; reflexivity).
  assert (HB : valid_chromosome sample_inverted)
    by (apply valid_chromosomeb_true; vm_compute; reflexivity).
  split; [exact HA|]. split; [exact HB|].
  destruct (extended_perm_positions sample_identity sample_inverted 0 HA HB
              eq_refl ltac:(cbn; lia))
    as (m & Em & _ & _ & _ & _ & Hpos).
  exists m. split; [exact Em|].
  apply (Hpos 1 3); [cbn; lia|cbn; lia|reflexivity].
Defined.

(** * Every cycle has two black edges *)

Lemma count_upto_mono (P Q : Z -> bool) (k : nat) :
  (forall x, 0 <= x < Z.of_nat k -> P x = true -> Q x = true) ->
  count_upto P k <= count_upto Q k.
Proof.
  induction k as [|k IH]; intros H; cbn [count_upto]; [lia|].
  specialize (IH ltac:(intros x Hx; apply H; lia)).
  specialize (H (Z.of_nat k) ltac:(lia)).
  destruct (P (Z.of_nat k)), (Q (Z.of_nat k)); try lia;
    specialize (H eq_refl); discriminate.
Qed.

Lemma count_upto_more (P Q : Z -> bool) (k : nat) (a : Z) :
  (forall x, 0 <= x < Z.of_nat k -> P x = true -> Q x = true) ->
  0 <= a < Z.of_nat k -> P a = false -> Q a = true ->
  count_upto P k + 1 <= count_upto Q k.
Proof.
  induction k as [|k IH]; intros H Ha HP HQ; cbn [count_upto]; [lia|].
  destruct (Z.eq_dec a (Z.of_nat k)) as [->|Hne].
  - rewrite HP, HQ.
    pose proof (count_upto_mono P Q k ltac:(intros x Hx; apply H; lia)). lia.
  - specialize (IH ltac:(intros x Hx; apply H; lia) ltac:(lia) HP HQ).
    specialize (H (Z.of_nat k) ltac:(lia)).
    destruct (P (Z.of_nat k)), (Q (Z.of_nat k)); try lia;
      specialize (H eq_refl); discriminate.
Qed.

Lemma count_upto_more2 (P Q : Z -> bool) (k : nat) (a b : Z) :
  (forall x, 0 <= x < Z.of_nat k -> P x = true -> Q x = true) ->
  0 <= a < Z.of_nat k -> 0 <= b < Z.of_nat k -> a <> b ->
  P a = false -> Q a = true -> P b = false -> Q b = true ->
  count_upto P k + 2 <= count_upto Q k.
Proof.
  intros H Ha Hb Hab HPa HQa HPb HQb.
  pose proof (count_upto_more P (fun x => P x || (x =? a)) k a) as H1.
  pose proof (count_upto_more (fun x => P x || (x =? a)) Q k b) as H2.
  cbv beta in H1, H2.
  rewrite Z.eqb_refl, orb_true_r in H1.
  rewrite HPb in H2. rewrite (proj2 (Z.eqb_neq b a)) in H2 by lia.
  specialize (H1 ltac:(intros x _ Hx; rewrite Hx; reflexivity) Ha HPa eq_refl).
  assert (Hle : forall x, 0 <= x < Z.of_nat k ->
            P x || (x =? a) = true -> Q x = true).
  { intros x Hx Hor. apply orb_prop in Hor as [Hp|Hxa]; [now apply H|].
    apply Z.eqb_eq in Hxa. now subst x. }
  specialize (H2 Hle Hb eq_refl HQb). lia.
Qed.

Lemma ecount_count_upto (g : arr) (k : nat) :
  ecount g k = count_upto (fun x => negb (Z.odd x) && has_edge g x) k.
Proof.
  induction k as [|k IH]; cbn [ecount count_upto]; [reflexivity|].
  now rewrite IH.
Qed.

Lemma count_upto_even (P : Z -> bool) (j : nat) :
  count_upto (fun x => negb (Z.odd x) && P x) (2 * j) <= Z.of_nat j.
Proof.
  induction j as [|j IH]; [cbn; lia|].
  replace (2 * S j)%nat with (S (S (2 * j))) by lia. cbn [count_upto].
  replace (Z.of_nat (S (2 * j))) with (1 + 2 * Z.of_nat j) by lia.
  replace (Z.of_nat (2 * j)) with (2 * Z.of_nat j) by lia.
  rewrite Z.odd_add_mul_2. change (Z.odd 1) with true. cbn [negb andb].
  destruct (negb (Z.odd (2 * Z.of_nat j)) && P (2 * Z.of_nat j)); lia.
Qed.

(** At most [n + 1] black edges are breakpoints. *)
Lemma ecount_bound (g : arr) (n : Z) :
  0 <= n -> ecount g (Z.to_nat (2 * n + 2)) <= n + 1.
Proof.
  intros Hn. rewrite ecount_count_upto.
  replace (Z.to_nat (2 * n + 2)) with (2 * Z.to_nat (n + 1))%nat by lia.
  pose proof (count_upto_even (has_edge g) (Z.to_nat (n + 1))). lia.
Qed.

Definition is_done (m : distmem_t) (x : Z) : bool :=
  match cell (done m) x with
  | Some d => d =? 1
  | None => false
  end.

(** The marked vertices at even positions. *)
Definition even_done (m : distmem_t) (x : Z) : bool :=
  negb (Z.odd x) && is_done m x.

Lemma is_done_true m x : is_done m x = true <-> cell (done m) x = Some 1.
Proof.
  unfold is_done. destruct (cell (done m) x) as [d|]; [|split; discriminate].
  destruct (Z.eqb_spec d 1) as [->|]; split; try reflexivity; try discriminate.
  intros H. congruence.
Qed.

Section Pairs.

Variables (n : Z) (p g : arr) (fuel : nat).
Let s := 2 * n + 2.
Hypothesis Hn : 0 <= n.
Hypothesis Hp : ext_perm_ok n p.
Hypothesis Hg : grey_ok s p g.
Hypothesis Hfuel : (Z.to_nat s <= fuel)%nat.

Let Hnsl_black := nsl_black n p Hp g Hg.
Let Hnsl_range := nsl_range n p g Hg.
Let Hnsl_grey := nsl_grey n p Hp g Hg.
Let Hgrey_cases := grey_cases n p Hp g Hg.

(** The traversal of a cycle marks two even positions that were not
    marked: the one it starts from, and one at the far end of the first
    grey edge. *)
Lemma count_step_pairs i c m :
  0 <= i < s -> count_inv n g i c m ->
  2 * c <= count_upto (even_done m) (Z.to_nat s) ->
  exists c' m',
    num_cycles_count fuel i (c, m) = Ok (c', m')
    /\ count_inv n g (i + 1) c' m'
    /\ 2 * c' <= count_upto (even_done m') (Z.to_nat s).
Proof.
  intros Hi CI HJ.
  destruct (count_step n p g fuel Hn Hp Hg Hfuel i c m Hi CI)
    as (c' & m' & E & CI').
  exists c', m'. split; [exact E|]. split; [exact CI'|].
  pose proof CI as [Hsz Hgr Hbool Hcl Hseen Hroot Hcnt].
  unfold num_cycles_count in E.
  destruct (Hbool i Hi) as [Hd|Hd]; rewrite (rd_cell _ _ _ Hd) in E;
    cbn [bind] in E.
  2:{ change (1 =? 0) with false in E. injection E as <- <-. exact HJ. }
  change (0 =? 0) with true in E. cbv iota in E.
  destruct (Hgrey_cases i Hi) as (j & Hj & Hjc).
  rewrite Hgr, (rd_cell _ _ _ Hj) in E. cbn [bind] in E.
  destruct (Z.eqb_spec j (-1)) as [Ej|Hne]; cbn [negb] in E.
  { injection E as <- <-. exact HJ. }
  destruct Hjc as [?|(Hjr & Hji & Hjb & Hgj)]; [contradiction|].
  assert (Hni : nsl g i) by (exists j; tauto).
  assert (Hev : Z.odd i = false).
  { destruct (Z.odd i) eqn:Ho; [exfalso|reflexivity].
    assert (Hb : black i = i - 1) by (apply black_odd; [lia|assumption]).
    assert (i <> 0) by (intros ->; discriminate).
    assert (H1 : cell (done m) (i - 1) = Some 1).
    { apply Hseen; [lia|]. rewrite <- Hb. now apply Hnsl_black. }
    apply Hcl in H1 as (_ & H1 & _).
    rewrite <- Hb, black_invol in H1 by lia. congruence. }
  assert (Hld : alen (done m) = s) by (unfold mem_sized in Hsz; tauto).
  assert (Hll : alen (labeled m) = s) by (unfold mem_sized in Hsz; tauto).
  rewrite wr_inb in E by lia. cbn [bind] in E.
  rewrite wr_inb in E by lia. cbn [bind] in E.
  set (mi := set_done _ _) in E.
  assert (Hold : forall x, old m x ->
            nsl g x /\ old m (black x)
            /\ forall y, cell g x = Some y -> old m y).
  { intros x Hx. apply (Hcl x Hx). }
  assert (Hinew : ~ old m i) by (unfold old; congruence).
  assert (Hdi : forall x, cell (done mi) x
                 = if x =? i then Some 1 else cell (done m) x).
  { intros x. unfold mi. cbn [done set_done set_labeled].
    destruct (Z.eqb_spec x i); now cell_simp. }
  assert (Hli : forall x, cell (labeled mi) x
                 = if x =? i then Some i else cell (labeled m) x).
  { intros x. unfold mi. cbn [labeled set_done set_labeled].
    destruct (Z.eqb_spec x i); now cell_simp. }
  assert (Hfi : fresh g i m mi i).
  { unfold fresh. rewrite Hdi, Hli, Z.eqb_refl. tauto. }
  assert (Hfx : forall x, fresh g i m mi x -> x = i).
  { intros x (H1 & _ & H3 & _). rewrite Hdi in H1.
    destruct (Z.eqb_spec x i); [assumption|]. contradiction. }
  assert (W0 : walk_inv n g i m i mi).
  { constructor.
    - unfold mi. mem_sized_tac.
    - exact Hgr.
    - intros x Hx. rewrite Hdi. destruct (x =? i); auto.
    - intros x Hx. rewrite Hdi, Hli.
      destruct (Z.eqb_spec x i) as [Hxi|Hxi]; [subst x; contradiction|]. tauto.
    - intros x Hx. rewrite Hdi in Hx.
      destruct (Z.eqb_spec x i) as [Hxi|Hxi]; [subst x; tauto|]. now left.
    - intros x Hx Hne'. now apply Hfx in Hx.
    - intros x y Hx Hne'. now apply Hfx in Hx.
    - exact Hfi.
    - exact Hfi.
    - now left. }
  destruct (cycle_returns n p g Hn Hp Hg i Hni) as (k & Hk & Hit).
  destruct (walk_loop n p g Hp Hg i m Hold k fuel i mi) as
    (m2 & Hw & W & Hfb & y & Hy & Hfy); [fold s in Hk; lia|assumption|assumption|].
  rewrite Hw in E. cbn [bind snd] in E. injection E as <- <-.
  assert (y = j) by congruence. subst y.
  (* the even position at the far end of the grey edge *)
  assert (Hfbj : fresh g i m m2 (black j)).
  { apply (wi_black _ _ _ _ _ _ W); [assumption|lia]. }
  set (e := if Z.odd j then black j else j).
  assert (He : fresh g i m m2 e /\ Z.odd e = false /\ e <> i).
  { unfold e. destruct (Z.odd j) eqn:Ho.
    - split; [assumption|]. rewrite black_odd by (assumption || lia).
      split.
      + replace (j - 1) with (Z.pred j) by lia. rewrite Z.odd_pred.
        rewrite <- Z.negb_odd, Ho. reflexivity.
      + intros Heq. apply Hjb.
        rewrite <- Heq, black_even; [lia|lia|].
        replace (j - 1) with (Z.pred j) by lia. rewrite Z.odd_pred.
        rewrite <- Z.negb_odd, Ho. reflexivity.
    - split; [assumption|]. split; [assumption|lia]. }
  destruct He as ((Hde & _ & Hne_old & Hnse) & Hoe & Hei).
  destruct (wi_start _ _ _ _ _ _ W) as (Hdi2 & _).
  pose proof (Hnsl_range e Hnse) as Her. fold s in Her.
  pose proof (count_upto_more2 (even_done m) (even_done m2) (Z.to_nat s) i e)
    as Hcount.
  assert (Hmono : forall x, 0 <= x < Z.of_nat (Z.to_nat s) ->
            even_done m x = true -> even_done m2 x = true).
  { intros x _. unfold even_done. rewrite !andb_true_iff, !is_done_true.
    intros (Hox & Hdx). split; [assumption|].
    apply (wi_old _ _ _ _ _ _ W x). exact Hdx. }
  specialize (Hcount Hmono ltac:(lia) ltac:(lia) ltac:(lia)).
  assert (Hfalse : forall x, ~ old m x -> even_done m x = false).
  { intros x Hx. unfold even_done.
    destruct (is_done m x) eqn:Ed; [|apply andb_false_r].
    apply is_done_true in Ed. contradiction. }
  assert (Htrue : forall x, Z.odd x = false -> cell (done m2) x = Some 1 ->
            even_done m2 x = true).
  { intros x Hox Hdx. unfold even_done. rewrite Hox.
    apply is_done_true in Hdx. rewrite Hdx. reflexivity. }
  specialize (Hcount (Hfalse i Hinew) (Htrue i Hev Hdi2)
                (Hfalse e Hne_old) (Htrue e Hoe Hde)).
  lia.
Qed.

Lemma count_loop_pairs m :
  mem_sized s m -> greyEdges m = g ->
  (forall x, 0 <= x < s -> cell (done m) x = Some 0) ->
  exists c m',
    for_range 0 s 1 (num_cycles_count fuel) (0, m) = Ok (c, m')
    /\ count_inv n g s c m'
    /\ 2 * c <= ecount g (Z.to_nat s).
Proof.
  intros Hsz Hgr Hzero.
  destruct (for_range_inv
    (fun i (st : Z * distmem_t) =>
       count_inv n g i (fst st) (snd st)
       /\ 2 * fst st <= count_upto (even_done (snd st)) (Z.to_nat s))
    (num_cycles_count fuel) 0 s (0, m)) as ([c m'] & E & CI & HJ).
  - unfold s. lia.
  - cbn [fst snd]. split.
    + constructor; try assumption.
      * intros x Hx. left. now apply Hzero.
      * intros x Hx.
        assert (0 <= x < s).
        { pose proof (cell_inb _ _ _ Hx). unfold mem_sized in Hsz. lia. }
        rewrite Hzero in Hx by assumption. discriminate.
      * intros; lia.
      * intros x Hx.
        assert (0 <= x < s).
        { pose proof (cell_inb _ _ _ Hx). unfold mem_sized in Hsz. lia. }
        rewrite Hzero in Hx by assumption. discriminate.
      * pose proof (ecount_nonneg g (Z.to_nat 0)). lia.
    + pose proof (count_upto_bounds (even_done m) (Z.to_nat s)). lia.
  - intros i [c m1] Hi (CI & HJ). cbn [fst snd] in CI, HJ.
    destruct (count_step_pairs i c m1 Hi CI HJ) as (c' & m' & E & CI' & HJ').
    exists (c', m'). split; [assumption|]. split; assumption.
  - cbn [fst snd] in CI, HJ. exists c, m'. split; [assumption|].
    split; [assumption|]. rewrite ecount_count_upto.
    pose proof (count_upto_mono (even_done m')
                  (fun x => negb (Z.odd x) && has_edge g x) (Z.to_nat s)) as H.
    cbv beta in H. specialize (H ltac:(
      intros x _; unfold even_done; rewrite !andb_true_iff, is_done_true;
      intros (Hox & Hdx); split; [assumption|];
      apply has_edge_nsl; apply (ci_closed _ _ _ _ _ CI x Hdx))).
    lia.
Qed.

End Pairs.

(** [num_cycles] finds at most half as many cycles as there are
    breakpoints. *)
Lemma num_cycles_pairs (n : Z) (p : arr) (fuel : nat) (m0 : distmem_t) :
  0 <= n -> ext_perm_ok n p -> mem_sized (2 * n + 2) m0 ->
  (Z.to_nat (2 * n + 2) <= fuel)%nat ->
  exists c m,
    num_cycles p (2 * n + 2) fuel m0 = Ok (c, m)
    /\ 2 * c <= ecount (greyEdges m) (Z.to_nat (2 * n + 2)).
Proof.
  intros Hn Hp Hs0 Hfuel.
  destruct (grey_edges_ok n p Hn Hp m0 Hs0) as (m1 & (Hs1 & Hg1 & _ & Hz) & E).
  destruct (count_loop_pairs n p (greyEdges m1) fuel Hn Hp Hg1 Hfuel m1)
    as (c & m & Ec & CI & HJ); [assumption|reflexivity|assumption|].
  exists c, m. split.
  - unfold num_cycles. rewrite E. exact Ec.
  - rewrite (ci_grey _ _ _ _ _ CI). exact HJ.
Qed.

(** * The graph of two valid chromosomes *)

(** Everything [invdist_noncircular] computes on the way. *)
Record graph (fuel : nat) (A B : Genome) (offset : Z)
    (m : distmem_t) (b c : Z) (m1 : distmem_t) (h f : Z) : Prop := {
  gr_perm : extended_perm [A] [B] offset = Ok m;
  gr_ok : ext_perm_ok (len A) (perm m);
  gr_breakpoints : num_breakpoints (perm m) (2 * len A + 2) = Ok b;
  gr_cycles : num_cycles (perm m) (2 * len A + 2) fuel m = Ok (c, m1);
  gr_grey : grey_ok (2 * len A + 2) (perm m) (greyEdges m1);
  gr_sized : mem_sized (2 * len A + 2) m1;
  gr_labeled : cycles_ok (greyEdges m1) (labeled m1);
  gr_count : b = ecount (greyEdges m1) (Z.to_nat (2 * len A + 2));
  gr_pairs : 0 <= 2 * c <= b;
  gr_hurdles : exists m2,
    num_hurdles_and_fortress (perm m1) (2 * len A + 2) fuel m1
    = Ok (h, f, m2);
  gr_bounds : 0 <= h /\ 0 <= f <= 1;
  gr_dist : invdist_noncircular fuel [A] [B] offset = Ok (b - c + h + f);
  gr_plain : (forall j, 0 <= j < 2 * len A + 2 -> cell (perm m) j = Some j) ->
             b = 0 /\ c = 0 /\ h = 0 /\ f = 0;
}.

Lemma valid_graph (fuel : nat) (A B : Genome) (offset : Z) :
  valid_chromosome A -> valid_chromosome B -> len A = len B ->
  0 <= offset < 2 * len A ->
  (Z.to_nat (2 * len A + 2) < fuel)%nat ->
  exists m b c m1 h f, graph fuel A B offset m b c m1 h f.
Proof.
  intros HA HB Hlen Hoff Hfuel.
  destruct (valid_run fuel A B [] [] offset HA HB Hlen Hoff Hfuel)
    as (b & c & h & f & Hrun & E).
  destruct (run_perm _ _ _ _ _ _ _ _ _ Hrun)
    as (m & m1 & m2 & Em & Hp & Eb & Ec & Eh & Hg & Hb).
  assert (Hn : 0 <= len A) by (destruct HA as (_ & ? & _); lia).
  assert (Hsz : mem_sized (2 * len A + 2) m).
  { pose proof HA as ((HlA & _) & _ & HsA).
    pose proof HB as ((HlB & _) & _ & HsB).
    assert (HeA : enumerates (gene (pi A)) (len A)).
    { rewrite HlA. apply signed_perm_enumerates. assumption. }
    assert (HeB : enumerates (aligned (pi B) offset (len A)) (len A)).
    { replace (len A) with (Z.of_nat (length (pi B))) in * by lia.
      apply aligned_enumerates; [|assumption].
      apply signed_perm_enumerates. assumption. }
    destruct (extended_perm_ok A B [] [] offset HlA ltac:(lia) HeA HeB Hoff)
      as (p1 & p2 & p & Ep & _).
    rewrite Ep in Em. injection Em as <-.
    pose proof (mem_sized_struct (2 * len A + 2) ltac:(lia)) as H.
    unfold mem_sized in *. cbn in *. exact H. }
  destruct (num_cycles_pairs (len A) (perm m) fuel m Hn Hp Hsz ltac:(lia))
    as (c' & m1' & Ec' & Hpairs).
  rewrite Ec in Ec'. injection Ec' as <- <-.
  destruct (num_cycles_ok (len A) (perm m) fuel m Hn Hp Hsz ltac:(lia))
    as (c' & m1' & Ec' & Hsz1 & _ & Hcy1 & _).
  rewrite Ec in Ec'. injection Ec' as <- <-.
  exists m, b, c, m1, h, f. constructor; try assumption.
  - pose proof (run_cycles _ _ _ _ _ _ _ _ _ Hrun). subst b. lia.
  - exists m2. exact Eh.
  - split; [apply (run_hurdles _ _ _ _ _ _ _ _ _ Hrun)
           |apply (run_fortress _ _ _ _ _ _ _ _ _ Hrun)].
  - intros Hid. apply (run_plain _ _ _ _ _ _ _ _ _ Hrun).
    intros j Hj. exists m. split; [exact Em|]. apply Hid. exact Hj.
Qed.

(** The grey edges [num_cycles] leaves in [greyEdges]: the edge of
    position [i], holding the value [v], goes to the position [j] that
    holds the value next to [v] across a gene boundary -- [2k+1] for
    [2k] and back -- and it is recorded as [-1] when [j] is the position
    next to [i] already; a recorded edge is recorded at both ends. *)
Theorem grey_edges_matching (fuel : nat) (A B : Genome) (offset : Z) :
  valid_chromosome A -> valid_chromosome B -> len A = len B ->
  0 <= offset < 2 * len A ->
  (Z.to_nat (2 * len A + 2) < fuel)%nat ->
  exists m c m1,
    extended_perm [A] [B] offset = Ok m
    /\ num_cycles (perm m) (2 * len A + 2) fuel m = Ok (c, m1)
    /\ (forall i v, 0 <= i < 2 * len A + 2 -> cell (perm m) i = Some v ->
          exists j, cell (perm m) j = Some (black v)
            /\ cell (greyEdges m1) i = Some (if j =? black i then -1 else j))
    /\ (forall i j, cell (greyEdges m1) i = Some j -> j <> -1 ->
          0 <= j < 2 * len A + 2 /\ j <> i /\ j <> black i
          /\ cell (greyEdges m1) j = Some i).
Proof.
  intros HA HB Hlen Hoff Hfuel.
  destruct (valid_graph fuel A B offset HA HB Hlen Hoff Hfuel)
    as (m & b & c & m1 & h & f & G).
  exists m, c, m1. split; [apply (gr_perm _ _ _ _ _ _ _ _ _ _ G)|].
  split; [apply (gr_cycles _ _ _ _ _ _ _ _ _ _ G)|].
  pose proof (gr_grey _ _ _ _ _ _ _ _ _ _ G) as Hg.
  pose proof (gr_ok _ _ _ _ _ _ _ _ _ _ G) as Hp.
  split.
  - intros i v Hi Hv. destruct Hg as (_ & Hat). apply (Hat i Hi v Hv).
  - intros i j Hj Hne.
    assert (Hi : 0 <= i < 2 * len A + 2).
    { apply (nsl_range _ _ _ Hg). exists j. tauto. }
    destruct (grey_cases _ _ Hp _ Hg i Hi) as (j' & Hj' & [->|H]);
      [congruence|].
    assert (j' = j) by congruence. subst j'. exact H.
Qed.

Lemma grey_edges_matching_witness :
  valid_chromosome sample_identity /\ valid_chromosome sample_inverted
  /\ exists m c m1,
       extended_perm [sample_identity] [sample_inverted] 0 = Ok m
       /\ num_cycles (perm m) 12 100 m = Ok (c, m1)
       /\ (forall i v, 0 <= i < 12 -> cell (perm m) i = Some v ->
             exists j, cell (perm m) j = Some (black v)
               /\ cell (greyEdges m1) i
                  = Some (if j =? black i then -1 else j))
       /\ (forall i j, cell (greyEdges m1) i = Some j -> j <> -1 ->
             0 <= j < 12 /\ j <> i /\ j <> black i
             /\ cell (greyEdges m1) j = Some i).
Proof.
  assert (HA : valid_chromosome sample_identity)
    by (apply valid_chromosomeb_true; vm_compute; reflexivity).
  assert (HB : valid_chromosome sample_inverted)
    by (apply valid_chromosomeb_true; vm_compute; reflexivity).
  split; [exact HA|]. split; [exact HB|].
  apply (grey_edges_matching 100 sample_identity sample_inverted 0 HA HB);
    [reflexivity|cbn; lia|vm_compute; lia].
Defined.

(** [num_breakpoints] and [num_cycles] on the graph of two valid
    chromosomes: at most [n + 1] breakpoints, and at most half as many
    cycles as breakpoints, since [num_cycles] leaves out the cycles of
    one black edge. *)
Theorem cycles_half_breakpoints (fuel : nat) (A B : Genome) (offset : Z) :
  valid_chromosome A -> valid_chromosome B -> len A = len B ->
  0 <= offset < 2 * len A ->
  (Z.to_nat (2 * len A + 2) < fuel)%nat ->
  exists m b c m1,
    extended_perm [A] [B] offset = Ok m
    /\ num_breakpoints (perm m) (2 * len A + 2) = Ok b
    /\ num_cycles (perm m) (2 * len A + 2) fuel m = Ok (c, m1)
    /\ 0 <= 2 * c <= b /\ b <= len A + 1.
Proof.
  intros HA HB Hlen Hoff Hfuel.
  destruct (valid_graph fuel A B offset HA HB Hlen Hoff Hfuel)
    as (m & b & c & m1 & h & f & G).
  exists m, b, c, m1. split; [apply (gr_perm _ _ _ _ _ _ _ _ _ _ G)|].
  split; [apply (gr_breakpoints _ _ _ _ _ _ _ _ _ _ G)|].
  split; [apply (gr_cycles _ _ _ _ _ _ _ _ _ _ G)|].
  split; [apply (gr_pairs _ _ _ _ _ _ _ _ _ _ G)|].
  rewrite (gr_count _ _ _ _ _ _ _ _ _ _ G). apply ecount_bound.
  destruct HA as (_ & ? & _). lia.
Qed.

Lemma cycles_half_breakpoints_witness :
  valid_chromosome sample_identity /\ valid_chromosome sample_inverted
  /\ exists m b c m1,
       extended_perm [sample_identity] [sample_inverted] 0 = Ok m
       /\ num_breakpoints (perm m) 12 = Ok b
       /\ num_cycles (perm m) 12 100 m = Ok (c, m1)
       /\ 0 <= 2 * c <= b /\ b <= 6.
Proof.
  assert (HA : valid_chromosome sample_identity)
    by (apply valid_chromosomeb_true; vm_compute; reflexivity).
  assert (HB : valid_chromosome sample_inverted)
    by (apply valid_chromosomeb_true; vm_compute; reflexivity).
  split; [exact HA|]. split; [exact HB|].
  apply (cycles_half_breakpoints 100 sample_identity sample_inverted 0 HA HB);
    [reflexivity|cbn; lia|vm_compute; lia].
Defined.

(** * Distance zero *)

Lemma ecount_zero (g : arr) (k : nat) :
  ecount g k = 0 ->
  forall i, 0 <= i < Z.of_nat k -> Z.odd i = false -> has_edge g i = false.
Proof.
  induction k as [|k IH]; intros E i Hi Ho; [lia|].
  cbn [ecount] in E. pose proof (ecount_nonneg g k) as Hk.
  destruct (Z.eq_dec i (Z.of_nat k)) as [->|Hne].
  - rewrite Ho in E. cbn [negb andb] in E.
    destruct (has_edge g (Z.of_nat k)); [lia|reflexivity].
  - apply IH; [|lia|assumption].
    destruct (negb (Z.odd (Z.of_nat k)) && has_edge g (Z.of_nat k)); lia.
Qed.

(** Without breakpoints the extended permutation is the identity. *)
Lemma no_edge_plain (n : Z) (p g : arr) :
  0 <= n -> ext_perm_ok n p -> grey_ok (2 * n + 2) p g ->
  ecount g (Z.to_nat (2 * n + 2)) = 0 ->
  forall j, 0 <= j < 2 * n + 2 -> cell p j = Some j.
Proof.
  intros Hn Hp Hg E.
  pose proof (ecount_zero g _ E) as He.
  assert (Hstep : forall i, 0 <= i < 2 * n + 2 -> Z.odd i = false ->
            cell p i = Some i -> cell p (i + 1) = Some (i + 1)).
  { intros i Hi Ho Hc.
    destruct (ep_total _ _ Hp (i + 1)) as (w & Hw & _).
    { assert (i <> 2 * n + 1); [|lia].
      intros ->. rewrite Z.add_comm, Z.odd_add_mul_2 in Ho. discriminate. }
    pose proof (has_edge_spec n p g Hp Hg i i w Hi Hc) as Hs.
    rewrite (black_even i) in Hs by (lia || assumption).
    rewrite (He i ltac:(lia) Ho) in Hs. specialize (Hs Hw).
    destruct (Z.eqb_spec w (i + 1)); [congruence|discriminate]. }
  assert (Hk : forall k : nat, Z.of_nat k <= n ->
            cell p (2 * Z.of_nat k) = Some (2 * Z.of_nat k)).
  { induction k as [|k IH]; intros Hkn.
    - apply (ep_cap0 _ _ Hp).
    - specialize (IH ltac:(lia)).
      apply Hstep in IH; [|lia|rewrite Z.odd_mul; reflexivity].
      destruct (ep_pair _ _ Hp (Z.of_nat k) ltac:(lia))
        as (v & _ & Hv & Hm).
      rewrite IH in Hv. injection Hv as <-.
      unfold gene_mate in Hm.
      replace (Z.odd (2 * Z.of_nat k + 1)) with true in Hm
        by (rewrite Z.add_comm, Z.odd_add_mul_2; reflexivity).
      replace (2 * Z.of_nat (S k)) with (2 * Z.of_nat k + 2) by lia.
      rewrite Hm. f_equal. lia. }
  intros j Hj.
  pose proof (Z.div_mod j 2 ltac:(lia)) as Hd. rewrite Zmod_odd in Hd.
  assert (Hq : 0 <= j / 2) by (apply Z.div_pos; lia).
  specialize (Hk (Z.to_nat (j / 2))). rewrite Z2Nat.id in Hk by assumption.
  destruct (Z.odd j) eqn:Ho.
  - rewrite Hd. apply Hstep; [lia|rewrite Z.odd_mul; reflexivity|].
    apply Hk. lia.
  - rewrite Hd, Z.add_0_r. apply Hk. lia.
Qed.

(** The chain from the distance to the two gene orders. *)
Lemma graph_zero (fuel : nat) (A B : Genome) (offset : Z) :
  valid_chromosome A -> valid_chromosome B -> len A = len B ->
  0 <= offset < 2 * len A ->
  (Z.to_nat (2 * len A + 2) < fuel)%nat ->
  exists m b d,
    extended_perm [A] [B] offset = Ok m
    /\ num_breakpoints (perm m) (2 * len A + 2) = Ok b
    /\ invdist_noncircular fuel [A] [B] offset = Ok d
    /\ 0 <= b <= 2 * d
    /\ (d = 0 <-> b = 0)
    /\ (b = 0 <->
        forall j, 0 <= j < 2 * len A + 2 -> cell (perm m) j = Some j)
    /\ (b = 0 <->
        forall k, 0 <= k < len A ->
          aligned (pi B) offset (len A) k = gene (pi A) k).
Proof.
  intros HA HB Hlen Hoff Hfuel.
  destruct (valid_graph fuel A B offset HA HB Hlen Hoff Hfuel)
    as (m & b & c & m1 & h & f & G).
  pose proof (gr_pairs _ _ _ _ _ _ _ _ _ _ G) as Hpairs.
  pose proof (gr_bounds _ _ _ _ _ _ _ _ _ _ G) as Hb.
  pose proof (gr_plain _ _ _ _ _ _ _ _ _ _ G) as Hplain.
  assert (Hn : 0 <= len A) by (destruct HA as (_ & ? & _); lia).
  assert (Hid : b = 0 ->
            forall j, 0 <= j < 2 * len A + 2 -> cell (perm m) j = Some j).
  { intros E0. apply (no_edge_plain (len A) (perm m) (greyEdges m1) Hn).
    - apply (gr_ok _ _ _ _ _ _ _ _ _ _ G).
    - apply (gr_grey _ _ _ _ _ _ _ _ _ _ G).
    - rewrite <- (gr_count _ _ _ _ _ _ _ _ _ _ G). exact E0. }
  exists m, b, (b - c + h + f).
  split; [apply (gr_perm _ _ _ _ _ _ _ _ _ _ G)|].
  split; [apply (gr_breakpoints _ _ _ _ _ _ _ _ _ _ G)|].
  split; [apply (gr_dist _ _ _ _ _ _ _ _ _ _ G)|].
  split; [lia|]. split; [|split].
  - split; [lia|]. intros E0. destruct (Hplain (Hid E0)) as (? & ? & ? & ?).
    lia.
  - split; [exact Hid|]. intros H. apply Hplain, H.
  - destruct (perm_cells A B [] [] offset HA HB Hlen Hoff)
      as (m' & Em' & Hok & (HrA & HiA & HsA) & (HrB & HiB & HsB) & Hpos).
    rewrite (gr_perm _ _ _ _ _ _ _ _ _ _ G) in Em'. injection Em' as <-.
    split.
    + intros E0 k Hk. specialize (Hid E0).
      destruct (HsA (Z.abs (aligned (pi B) offset (len A) k)))
        as (ja & Hja & Habs); [apply HrB; assumption|].
      destruct (Hpos k ja Hk Hja Habs) as (H1 & _).
      rewrite Hid in H1 by lia.
      destruct (Z.eqb_spec (gene (pi A) ja) (aligned (pi B) offset (len A) k))
        as [Heq|_].
      * assert (ja = k) by (injection H1; lia). subst ja. congruence.
      * injection H1. lia.
    + intros Hal. apply Hplain. intros j Hj.
      destruct (Z.eq_dec j 0) as [->|Hj0]; [apply (ep_cap0 _ _ Hok)|].
      destruct (Z.eq_dec j (2 * len A + 1)) as [->|Hjn];
        [apply (ep_capn _ _ Hok)|].
      destruct (pair_index j (len A) ltac:(lia)) as (k & Hk & Hjk).
      destruct (Hpos k k Hk Hk) as (H1 & H2);
        [rewrite Hal by assumption; reflexivity|].
      rewrite Hal, Z.eqb_refl in H1, H2 by assumption.
      destruct Hjk as [-> | ->]; assumption.
Qed.

(** [num_breakpoints] against the distance: the distance is at least half
    the number of breakpoints, the two vanish together, and they vanish
    exactly when the extended permutation is the identity. *)
Theorem distance_breakpoints (fuel : nat) (A B : Genome) (offset : Z) :
  valid_chromosome A -> valid_chromosome B -> len A = len B ->
  0 <= offset < 2 * len A ->
  (Z.to_nat (2 * len A + 2) < fuel)%nat ->
  exists m b d,
    extended_perm [A] [B] offset = Ok m
    /\ num_breakpoints (perm m) (2 * len A + 2) = Ok b
    /\ invdist_noncircular fuel [A] [B] offset = Ok d
    /\ 0 <= b <= 2 * d
    /\ (d = 0 <-> b = 0)
    /\ (b = 0 <->
        forall j, 0 <= j < 2 * len A + 2 -> cell (perm m) j = Some j).
Proof.
  intros HA HB Hlen Hoff Hfuel.
  destruct (graph_zero fuel A B offset HA HB Hlen Hoff Hfuel)
    as (m & b & d & Em & Eb & Ed & Hb & Hd & Hid & _).
  exists m, b, d. tauto.
Qed.

Lemma distance_breakpoints_witness :
  valid_chromosome sample_identity /\ valid_chromosome sample_inverted
  /\ exists m b d,
       extended_perm [sample_identity] [sample_inverted] 0 = Ok m
       /\ num_breakpoints (perm m) 12 = Ok b
       /\ invdist_noncircular 100 [sample_identity] [sample_inverted] 0 = Ok d
       /\ 0 <= b <= 2 * d
       /\ (d = 0 <-> b = 0)
       /\ (b = 0 <-> forall j, 0 <= j < 12 -> cell (perm m) j = Some j).
Proof.
  assert (HA : valid_chromosome sample_identity)
    by (apply valid_chromosomeb_true; vm_compute; reflexivity).
  assert (HB : valid_chromosome sample_inverted)
    by (apply valid_chromosomeb_true; vm_compute; reflexivity).
  split; [exact HA|]. split; [exact HB|].
  apply (distance_breakpoints 100 sample_identity sample_inverted 0 HA HB);
    [reflexivity|cbn; lia|vm_compute; lia].
Defined.

(** * Gene orders at distance zero *)

(** The gene order [build_perm2] reads from [offset]: the chromosome
    rotated, or rotated, reversed and with every sign changed. *)
Definition realign (l : list Z) (r : Z) : list Z :=
  if r <? Z.of_nat (length l) then rotate (Z.to_nat r) l
  else Z.opp <$> reverse (rotate (Z.to_nat (r - Z.of_nat (length l) + 1)) l).

Lemma length_realign l r : length (realign l r) = length l.
Proof.
  unfold realign. destruct (_ <? _).
  - apply length_rotate.
  - rewrite length_fmap, length_reverse. apply length_rotate.
Qed.

Lemma aligned_realign (l : list Z) (r k : Z) :
  let n := Z.of_nat (length l) in
  0 <= r < 2 * n -> 0 <= k < n ->
  realign l r !! Z.to_nat k = Some (aligned l r n k).
Proof.
  intros n Hr Hk. unfold realign, aligned. fold n.
  destruct (Z.ltb_spec r n) as [Hlt|Hge].
  - rewrite lookup_rotate_r by lia. unfold rotate_nat_add.
    rewrite !Z2Nat.id by lia. fold n.
    rewrite Z.rem_mod_nonneg by lia. apply gene_lookup.
    apply Z.mod_pos_bound. lia.
  - rewrite list_lookup_fmap, reverse_lookup
      by (rewrite length_rotate; lia).
    rewrite length_rotate, lookup_rotate_r by lia. unfold rotate_nat_add.
    rewrite Z.rem_mod_nonneg by lia.
    replace (Z.of_nat (Z.to_nat (r - n + 1))
             + Z.of_nat (length l - S (Z.to_nat k)))
      with (r - k) by (unfold n in *; lia).
    fold n.
    rewrite (gene_lookup l ((r - k) mod n))
      by (apply Z.mod_pos_bound; lia).
    reflexivity.
Qed.

Lemma realign_spec (l l' : list Z) (r : Z) :
  let n := Z.of_nat (length l) in
  length l' = length l -> 0 <= r < 2 * n ->
  (forall k, 0 <= k < n -> aligned l r n k = gene l' k) <-> l' = realign l r.
Proof.
  intros n Hlen Hr. split.
  - intros H. apply list_eq. intros i.
    destruct (Nat.lt_ge_cases i (length l)) as [Hi|Hi].
    + replace i with (Z.to_nat (Z.of_nat i)) by lia.
      rewrite aligned_realign by (fold n; lia). fold n.
      rewrite H by (unfold n; lia). apply gene_lookup. lia.
    + rewrite !(proj2 (lookup_ge_None _ _));
        [reflexivity|rewrite length_realign; lia|lia].
  - intros -> k Hk.
    pose proof (aligned_realign l r k Hr Hk) as E. fold n in E.
    unfold gene. symmetry. apply list_lookup_total_correct. exact E.
Qed.

Lemma rotate_same_mod {X} (s t : nat) (l : list X) :
  (s mod length l = t mod length l)%nat -> rotate s l = rotate t l.
Proof. intros E. unfold rotate. rewrite E. reflexivity. Qed.

(** Every rotation and every reversed rotation is read from some offset. *)
Lemma realign_rotation (l l' : list Z) :
  l <> [] ->
  (exists s : nat, l' = rotate s l \/ l' = Z.opp <$> reverse (rotate s l))
  <-> exists r, 0 <= r < 2 * Z.of_nat (length l) /\ l' = realign l r.
Proof.
  intros Hne.
  assert (Hn : (0 < length l)%nat) by (destruct l; [congruence|cbn; lia]).
  split.
  - intros (s & [-> | ->]).
    + exists (Z.of_nat (s mod length l)).
      pose proof (Nat.mod_upper_bound s (length l) ltac:(lia)).
      split; [lia|]. unfold realign.
      destruct (Z.ltb_spec (Z.of_nat (s mod length l)) (Z.of_nat (length l)));
        [|lia].
      apply rotate_same_mod. rewrite Nat2Z.id, Nat.Div0.mod_mod. reflexivity.
    + exists (Z.of_nat (length l + (s + length l - 1) mod length l)).
      pose proof (Nat.mod_upper_bound (s + length l - 1) (length l)
                    ltac:(lia)).
      split; [lia|]. unfold realign.
      destruct (Z.ltb_spec
                  (Z.of_nat (length l + (s + length l - 1) mod length l))
                  (Z.of_nat (length l))); [lia|].
      do 2 f_equal. apply rotate_same_mod.
      replace (Z.to_nat
                 (Z.of_nat (length l + (s + length l - 1) mod length l)
                  - Z.of_nat (length l) + 1))
        with ((s + length l - 1) mod length l + 1)%nat by lia.
      rewrite Nat.Div0.add_mod_idemp_l.
      replace (s + length l - 1 + 1)%nat with (s + 1 * length l)%nat by lia.
      rewrite Nat.Div0.mod_add. reflexivity.
  - intros (r & Hr & ->). unfold realign.
    destruct (_ <? _); eexists; [left|right]; reflexivity.
Qed.

(** The offset [calculate_offset] finds is the only one that puts the
    first gene in place. *)
Lemma offset_unique (X Y : Genome) (r : Z) :
  valid_chromosome X -> valid_chromosome Y -> len X = len Y ->
  0 <= r < 2 * len X ->
  aligned (pi Y) r (len X) 0 = gene (pi X) 0 ->
  calculate_offset [X] [Y] = Ok r.
Proof.
  intros HX HY Hlen Hr Hal.
  pose proof (valid_NoDup Y HY) as Hnd.
  pose proof (valid_same_content X Y HX HY Hlen) as Hperm.
  destruct HX as (HwX & HposX & HpX). destruct HY as (HwY & HposY & HpY).
  destruct (offset_found X Y [] [] HwX HwY HposX Hperm)
    as (off & E & Hoff & Hlo & Hhi).
  rewrite E. f_equal.
  destruct HwY as (HlY & _).
  pose proof (signed_perm_enumerates _ HpY) as (HrY & _).
  rewrite <- HlY in HrY.
  unfold aligned in Hal. rewrite Z.add_0_r, Z.sub_0_r in Hal.
  assert (Hsame : forall i j x y,
            pi Y !! Z.to_nat i = Some x -> pi Y !! Z.to_nat j = Some y ->
            0 <= i -> 0 <= j -> Z.abs x = Z.abs y -> i = j).
  { intros i j x y Hi Hj Hi0 Hj0 Hxy.
    assert (Z.to_nat i = Z.to_nat j); [|lia].
    eapply NoDup_lookup; [exact Hnd| |].
    - rewrite list_lookup_fmap, Hi. reflexivity.
    - rewrite list_lookup_fmap, Hj. cbn. rewrite Hxy. reflexivity. }
  destruct (Z.ltb_spec r (len X)) as [Hrl|Hrg].
  - rewrite Z.rem_small in Hal by lia.
    pose proof (gene_lookup (pi Y) r ltac:(lia)) as Hg. rewrite Hal in Hg.
    destruct (Z.lt_ge_cases off (len Y)) as [Hlt|Hge].
    + apply (Hsame off r _ _ (Hlo Hlt) Hg); [lia|lia|reflexivity].
    + exfalso. pose proof (Hhi Hge) as Hh.
      assert (off - len Y = r)
        by (apply (Hsame _ _ _ _ Hh Hg); [lia|lia|apply Z.abs_opp]).
      subst r. rewrite Hh in Hg. injection Hg as Hg.
      specialize (HrY (off - len Y) ltac:(lia)).
      rewrite <- Hal in Hg.
      pose proof (gene_lookup (pi Y) (off - len Y) ltac:(lia)) as Hg'.
      rewrite Hh in Hg'. injection Hg' as Hg'. lia.
  - assert (Hrem : Z.rem r (len X) = r - len X).
    { rewrite Z.rem_mod_nonneg by lia.
      symmetry. apply (Z.mod_unique_pos _ _ 1); lia. }
    rewrite Hrem in Hal.
    pose proof (gene_lookup (pi Y) (r - len X) ltac:(lia)) as Hg.
    assert (Hgv : gene (pi Y) (r - len X) = - gene (pi X) 0) by lia.
    rewrite Hgv in Hg.
    destruct (Z.lt_ge_cases off (len Y)) as [Hlt|Hge].
    + exfalso. pose proof (Hlo Hlt) as Hl.
      assert (off = r - len X)
        by (apply (Hsame _ _ _ _ Hl Hg); [lia|lia|symmetry; apply Z.abs_opp]).
      subst off. rewrite Hl in Hg. injection Hg as Hg.
      specialize (HrY (r - len X) ltac:(lia)). lia.
    + pose proof (Hhi Hge) as Hh.
      assert (off - len Y = r - len X)
        by (apply (Hsame _ _ _ _ Hh Hg); [lia|lia|reflexivity]).
      lia.
Qed.

Lemma realign_zero (l : list Z) : l <> [] -> realign l 0 = l.
Proof.
  intros Hne. unfold realign.
  destruct (Z.ltb_spec 0 (Z.of_nat (length l))) as [_|H].
  - unfold rotate. cbn. rewrite Nat.Div0.mod_0_l. cbn. apply app_nil_r.
  - destruct l; [congruence|cbn in H; lia].
Qed.

Lemma valid_nonempty G : valid_chromosome G -> pi G <> [].
Proof.
  intros ((Hl & _) & Hpos & _) E. rewrite E in Hl. cbn in Hl. lia.
Qed.

(** Two linear chromosomes over the ids 1..n are at inversion distance 0
    exactly when they hold the same signed gene order. *)
Theorem inversions_linear_zero (fuel : nat) (A B : Genome) :
  valid_chromosome A -> valid_chromosome B -> len A = len B ->
  circular A = false -> circular B = false ->
  (Z.to_nat (2 * len A + 2) < fuel)%nat ->
  _inversions fuel [A] [B] = Ok 0 <-> pi A = pi B.
Proof.
  intros HA HB Hlen HcA HcB Hfuel.
  rewrite inversions_dispatch
    by (try apply valid_duplicates; try apply valid_unequal_content;
        trivial).
  rewrite HcA, HcB.
  assert (Hoff : 0 <= 0 < 2 * len A) by (destruct HA as (_ & ? & _); lia).
  destruct (graph_zero fuel A B 0 HA HB Hlen Hoff Hfuel)
    as (m & b & d & _ & _ & Ed & _ & Hd & _ & Hal).
  rewrite Ed.
  assert (HlA : len A = Z.of_nat (length (pi B)))
    by (destruct HB as ((? & _) & _); lia).
  assert (HlAB : length (pi A) = length (pi B))
    by (destruct HA as ((? & _) & _); lia).
  rewrite HlA in Hal.
  rewrite (realign_spec (pi B) (pi A) 0 HlAB ltac:(lia)) in Hal.
  rewrite realign_zero in Hal by (apply valid_nonempty; assumption).
  split.
  - intros E. injection E as ->. apply Hal. tauto.
  - intros E. f_equal. apply Hd, Hal, E.
Qed.

Lemma inversions_linear_zero_witness :
  valid_chromosome sample_identity /\ valid_chromosome sample_inverted
  /\ (_inversions 100 [sample_identity] [sample_inverted] = Ok 0
      <-> pi sample_identity = pi sample_inverted).
Proof.
  assert (HA : valid_chromosome sample_identity)
    by (apply valid_chromosomeb_true; vm_compute; reflexivity).
  assert (HB : valid_chromosome sample_inverted)
    by (apply valid_chromosomeb_true; vm_compute; reflexivity).
  split; [exact HA|]. split; [exact HB|].
  apply (inversions_linear_zero 100 sample_identity sample_inverted HA HB);
    [reflexivity|reflexivity|reflexivity|vm_compute; lia].
Defined.

(** When a chromosome is circular, the inversion distance is 0 exactly
    when both are circular and the second is a rotation of the first, or
    a rotation of it read backwards with every sign changed; with one
    linear and one circular chromosome the distance is at least 1. *)
Theorem inversions_circular_zero (fuel : nat) (A B : Genome) :
  valid_chromosome A -> valid_chromosome B -> len A = len B ->
  circular A || circular B = true ->
  (Z.to_nat (2 * len A + 2) < fuel)%nat ->
  exists d, _inversions fuel [A] [B] = Ok d
    /\ (if circular A && circular B then 0 <= d else 1 <= d)
    /\ (d = 0 <->
        circular A = true /\ circular B = true
        /\ exists s : nat,
             pi B = rotate s (pi A)
             \/ pi B = Z.opp <$> reverse (rotate s (pi A))).
Proof.
  intros HA HB Hlen Hc Hfuel.
  rewrite inversions_dispatch
    by (try apply valid_duplicates; try apply valid_unequal_content;
        trivial).
  assert (HlA : len A = Z.of_nat (length (pi A)))
    by (destruct HA as ((? & _) & _); lia).
  assert (HlB : len B = Z.of_nat (length (pi B)))
    by (destruct HB as ((? & _) & _); lia).
  assert (Hpos : 0 < len A) by (destruct HA as (_ & ? & _); lia).
  destruct (circular A) eqn:EcA.
  - (* [invdist_circular(id, pi)] *)
    destruct (offset_found B A [] []) as (off & Eo & Hoff & _).
    { apply HB. } { apply HA. } { lia. }
    { symmetry. apply valid_same_content; assumption. }
    destruct (graph_zero fuel B A off HB HA ltac:(lia) ltac:(lia)
                ltac:(rewrite <- Hlen; exact Hfuel))
      as (m & b & d & _ & _ & Ed & Hb & Hd & _ & Hal).
    unfold invdist_circular. rewrite Eo. cbn [bind]. rewrite Ed. cbn [bind].
    exists (d + 1 - Z.b2z (circular B)). split; [reflexivity|].
    destruct (circular B) eqn:EcB; cbn [Z.b2z andb].
    + split; [lia|].
      rewrite (realign_rotation (pi A) (pi B))
        by (apply valid_nonempty; assumption).
      split.
      * intros E0. split; [reflexivity|]. split; [reflexivity|].
        exists off. split; [lia|].
        rewrite <- Hlen, HlA in Hal.
        apply (realign_spec (pi A) (pi B) off); [lia|lia|].
        apply Hal, Hd. lia.
      * intros (_ & _ & r & Hr & Er).
        assert (Hr' : forall k, 0 <= k < len B ->
                  aligned (pi A) r (len B) k = gene (pi B) k).
        { rewrite <- Hlen, HlA.
          apply (realign_spec (pi A) (pi B) r); [lia|lia|exact Er]. }
        assert (Eoff : calculate_offset [B] [A] = Ok r).
        { apply offset_unique; try assumption; [lia|lia|].
          apply Hr'. lia. }
        rewrite Eo in Eoff. injection Eoff as ->.
        assert (d = 0) by (apply Hd, Hal, Hr'). lia.
    + split; [lia|]. split; [lia|]. intros (_ & ? & _). discriminate.
  - cbn [orb] in Hc. rewrite Hc.
    destruct (circular_run fuel A B [] [] HA HB Hlen Hfuel)
      as (off & b & c & h & f & _ & _ & Hrun & Ed).
    rewrite Ed. cbn [bind]. eexists. split; [reflexivity|].
    pose proof (run_cycles _ _ _ _ _ _ _ _ _ Hrun).
    pose proof (run_hurdles _ _ _ _ _ _ _ _ _ Hrun).
    pose proof (run_fortress _ _ _ _ _ _ _ _ _ Hrun).
    cbn [andb]. split; [lia|]. split; [lia|].
    intros (? & _). discriminate.
Qed.

Lemma inversions_circular_zero_witness :
  valid_chromosome sample_cyclic /\ valid_chromosome (cyclic [-3; -2; 1])
  /\ exists d, _inversions 100 [sample_cyclic] [cyclic [-3; -2; 1]] = Ok d
       /\ 0 <= d
       /\ (d = 0 <->
           true = true /\ true = true
           /\ exists s : nat,
                [-3; -2; 1] = rotate s [3; -1; 2]
                \/ [-3; -2; 1] = Z.opp <$> reverse (rotate s [3; -1; 2])).
Proof.
  assert (HA : valid_chromosome sample_cyclic)
    by (apply valid_chromosomeb_true; vm_compute; reflexivity).
  assert (HB : valid_chromosome (cyclic [-3; -2; 1]))
    by (apply valid_chromosomeb_true; vm_compute; reflexivity).
  split; [exact HA|]. split; [exact HB|].
  apply (inversions_circular_zero 100 sample_cyclic (cyclic [-3; -2; 1])
           HA HB); [reflexivity|reflexivity|vm_compute; lia].
Defined.

(** * Components, hurdles and the fortress flag *)

Lemma count_upto_miss (P : Z -> bool) (k : nat) (k0 : Z) :
  0 <= k0 < Z.of_nat k -> P k0 = false ->
  count_upto P k <= Z.of_nat k - 1.
Proof.
  induction k as [|k IH]; intros Hk HP; [lia|]. cbn [count_upto].
  destruct (Z.eq_dec k0 (Z.of_nat k)) as [->|Hne].
  - rewrite HP. pose proof (count_upto_bounds P k). lia.
  - specialize (IH ltac:(lia) HP). destruct (P (Z.of_nat k)); lia.
Qed.

(** The flag is raised only for an odd number of hurdles, at least 3. *)
Lemma nhf_fortress_flag (nc nh : Z) (m : distmem_t) h f m' :
  nhf_fortress nc nh m = Ok (h, f, m') ->
  h = nh /\ (f = 0 \/ (f = 1 /\ 3 <= nh /\ Z.odd nh = true)).
Proof.
  unfold nhf_fortress. destruct (Z.ltb_spec nh 3) as [Hlt|Hge].
  - intros [= <- <- <-]. split; [reflexivity|left; reflexivity].
  - destruct (for_ret _ _ _ _ _) as [[[ns m1]|m1]|e]; cbn [bind];
      [|intros [= <- <- <-]; split; [reflexivity|left; reflexivity]
       |discriminate].
    destruct (Z.eqb_spec nh ns) as [->|_]; cbn [andb];
      [|intros [= <- <- <-]; split; [reflexivity|left; reflexivity]].
    destruct (Z.eqb_spec (Z.rem ns 2) 1) as [Hr|_];
      intros [= <- <- <-]; (split; [reflexivity|]); [right|left; reflexivity].
    split; [reflexivity|]. split; [assumption|].
    rewrite Z.rem_mod_nonneg, Zmod_odd in Hr by lia.
    destruct (Z.odd ns); [reflexivity|discriminate].
Qed.

Section Bound.

Variables (n : Z) (p : arr).
Let s := 2 * n + 2.
Hypothesis Hn : 0 <= n.
Hypothesis Hp : ext_perm_ok n p.

Lemma nhf_hurdles_bound (g c0 : arr) (nc : Z) (m : distmem_t) :
  grey_ok s p g -> 0 <= nc <= s -> cc_ok g s nc c0 ->
  mem_sized s m -> greyEdges m = g -> cc m = c0 ->
  comps_ok nc (components m) ->
  (exists k, 0 <= k < nc /\ ccell (components m) k F_oriented = Some 0) ->
  exists h f m', nhf_hurdles s nc m = Ok (h, f, m')
    /\ 0 <= h <= nc /\ (f = 0 \/ (f = 1 /\ 3 <= h /\ Z.odd h = true)).
Proof.
  intros Hg Hnc Hcc Hsz Hgr Hcm Hco (k & Hk & Hko).
  destruct (scan_loop n p g Hn Hp Hg nc Hnc c0 Hcc m Hsz Hgr Hcm Hco)
    as (fc & lc & nb & m1 & E1 & H1).
  fold s in E1, H1.
  assert (Hfc : 0 <= fc < nc).
  { destruct Hcc as (_ & _ & Hrep). destruct (Hrep k Hk) as (z & Hz & Hzk).
    pose proof (nsl_range n p g Hg z Hz) as Hzr. fold s in Hzr.
    pose proof (sc_seen _ _ _ _ _ _ _ _ _ H1 z k Hzr Hzk ltac:(lia) Hko) as Hl.
    pose proof (sc_both _ _ _ _ _ _ _ _ _ H1 Hl) as Hf.
    destruct (sc_first _ _ _ _ _ _ _ _ _ H1); [contradiction|assumption]. }
  pose proof (sc_comps _ _ _ _ _ _ _ _ _ H1) as Hco1.
  destruct (hurdle_loop nc ltac:(lia) m1 Hco1) as (C2 & E2 & Hco2 & HC2).
  destruct (greathurdle_ok nc fc lc
              (count_upto (single_block (components m1)) (Z.to_nat nc))
              (set_components C2 m1) Hco2 ltac:(intros _; exact Hfc))
    as (C3 & E3 & Hco3 & _).
  cbn [components set_components] in E3.
  match type of E3 with _ = Ok (?h, ?m3) =>
    destruct (fortress_total nc ltac:(lia) h m3 Hco3) as (f & m4 & E4 & Hf);
    pose proof (nhf_fortress_flag _ _ _ _ _ _ E4) as (_ & Hflag);
    exists h, f, m4
  end.
  split.
  - unfold nhf_hurdles. rewrite E1. cbn [bind]. rewrite E2. cbn [bind].
    rewrite E3. cbn [bind]. exact E4.
  - split; [|exact Hflag].
    pose proof (count_upto_bounds (single_block (components m1)) (Z.to_nat nc))
      as Hb.
    destruct (wraps_around C2 fc lc) eqn:Ew; [|lia].
    split; [lia|].
    assert (Hs : single_block (components m1) fc = false).
    { unfold wraps_around in Ew. apply andb_prop in Ew as (_ & Ew).
      rewrite HC2 in Ew.
      destruct (decide _) as [(Hbad & _)|_]; [discriminate|].
      unfold single_block.
      destruct (ccell (components m1) fc F_oriented) as [o|]; [|reflexivity].
      destruct (ccell (components m1) fc F_blocks) as [b|]; [|reflexivity].
      apply Z.eqb_eq in Ew. subst b. apply andb_false_r. }
    pose proof (count_upto_miss _ (Z.to_nat nc) fc ltac:(lia) Hs). lia.
Qed.

Lemma hurdles_bound (fuel : nat) (m0 : distmem_t) :
  mem_sized s m0 -> grey_ok s p (greyEdges m0) ->
  cycles_ok (greyEdges m0) (labeled m0) -> (Z.to_nat s < fuel)%nat ->
  exists nc mA h f m,
    connected_component s fuel m0 = Ok (nc, mA)
    /\ greyEdges mA = greyEdges m0 /\ 0 <= nc <= s
    /\ cc_ok (greyEdges m0) s nc (cc mA)
    /\ num_hurdles_and_fortress p s fuel m0 = Ok (h, f, m)
    /\ 0 <= h <= nc /\ (f = 0 \/ (f = 1 /\ 3 <= h /\ Z.odd h = true)).
Proof.
  intros Hsz Hg HL Hfuel. set (g := greyEdges m0) in *.
  destruct (connected_component_ok n p Hn Hp fuel m0 Hsz Hg HL Hfuel)
    as (nc & mA & EA & HszA & HgA & Hnc & Hcc & Hnone).
  fold s in EA, HszA, Hnc, Hcc, Hnone. fold g in HgA, Hcc, Hnone.
  exists nc, mA.
  assert (Hdone : forall h f m,
            num_hurdles_and_fortress p s fuel m0 = Ok (h, f, m) ->
            0 <= h <= nc /\ (f = 0 \/ (f = 1 /\ 3 <= h /\ Z.odd h = true)) ->
            exists h f m,
              connected_component s fuel m0 = Ok (nc, mA)
              /\ greyEdges mA = g /\ 0 <= nc <= s
              /\ cc_ok g s nc (cc mA)
              /\ num_hurdles_and_fortress p s fuel m0 = Ok (h, f, m)
              /\ 0 <= h <= nc
              /\ (f = 0 \/ (f = 1 /\ 3 <= h /\ Z.odd h = true))).
  { intros h f m E H. exists h, f, m. tauto. }
  unfold num_hurdles_and_fortress in *. rewrite EA in *. cbn [bind] in *.
  destruct (Z.eqb_spec nc 0) as [Enc|Nnc].
  { apply (Hdone 0 0 mA); [reflexivity|]. split; [lia|left; reflexivity]. }
  destruct (edge_loop n p g Hn Hp Hg mA HszA HgA)
    as (mB & EB & HszB & HgB & HcB & _ & HorB).
  fold s in EB, HszB, HorB. rewrite EB in *. cbn [bind] in *.
  destruct (clear_loop n nc Hnc mB HszB)
    as (mC & EC & HszC & HgC & HcC & HoC & HclrC).
  fold s in HszC. rewrite EC in *. cbn [bind] in *.
  destruct (set_loop n p g Hn Hp Hg nc Hnc (cc mA) Hcc mC HszC)
    as (mD & ED & HszD & HgD & HcD & HinD).
  { congruence. }
  { rewrite HoC. exact HorB. }
  { intros k Hk. exists 0. apply HclrC. assumption. }
  fold s in ED, HszD. rewrite ED in *. cbn [bind] in *.
  destruct (count_loop_unoriented n nc Hnc mD HinD) as (c & Ec & Hc & Hex).
  rewrite Ec in *. cbn [bind] in *.
  destruct (Z.eqb_spec c 0) as [E0|N0].
  { apply (Hdone 0 0 mD); [reflexivity|]. split; [lia|left; reflexivity]. }
  destruct (init_loop n nc Hnc mD HszD HinD)
    as (mE & EE & HszE & HgE & HcE & HoE & HcoE & _).
  fold s in HszE. rewrite EE in *. cbn [bind] in *.
  destruct (nhf_hurdles_bound g (cc mA) nc mE Hg Hnc Hcc HszE)
    as (h & f & m' & E & Hh & Hf).
  { congruence. }
  { congruence. }
  { assumption. }
  { destruct (Hex N0) as (k & Hk & Hko). exists k. split; [assumption|].
    rewrite HoE. assumption. }
  apply (Hdone h f m'); [exact E|]. split; assumption.
Qed.

End Bound.

(** [connected_component], run on what [num_cycles] left: a vertex whose
    grey edge is recorded as [-1] gets the label [-1], every other vertex
    the number of one of the [nc] components, every component has a
    vertex, [greyEdges] is unchanged, and there is no component exactly
    when there is no breakpoint. *)
Theorem component_labels (fuel : nat) (A B : Genome) (offset : Z) :
  valid_chromosome A -> valid_chromosome B -> len A = len B ->
  0 <= offset < 2 * len A ->
  (Z.to_nat (2 * len A + 2) < fuel)%nat ->
  exists m c m1 nc m2,
    extended_perm [A] [B] offset = Ok m
    /\ num_cycles (perm m) (2 * len A + 2) fuel m = Ok (c, m1)
    /\ connected_component (2 * len A + 2) fuel m1 = Ok (nc, m2)
    /\ 0 <= nc <= 2 * len A + 2
    /\ greyEdges m2 = greyEdges m1
    /\ (forall z, 0 <= z < 2 * len A + 2 ->
          exists e k, cell (greyEdges m1) z = Some e
                      /\ cell (cc m2) z = Some k
                      /\ if e =? -1 then k = -1 else 0 <= k < nc)
    /\ (forall k, 0 <= k < nc ->
          exists z e, 0 <= z < 2 * len A + 2
                      /\ cell (greyEdges m1) z = Some e /\ e <> -1
                      /\ cell (cc m2) z = Some k)
    /\ (nc = 0 <-> num_breakpoints (perm m) (2 * len A + 2) = Ok 0).
Proof.
  intros HA HB Hlen Hoff Hfuel.
  destruct (valid_graph fuel A B offset HA HB Hlen Hoff Hfuel)
    as (m & b & c & m1 & h & f & G).
  assert (Hn : 0 <= len A) by (destruct HA as (_ & ? & _); lia).
  pose proof (gr_ok _ _ _ _ _ _ _ _ _ _ G) as Hp.
  pose proof (gr_grey _ _ _ _ _ _ _ _ _ _ G) as Hg.
  destruct (connected_component_ok (len A) (perm m) Hn Hp fuel m1
              (gr_sized _ _ _ _ _ _ _ _ _ _ G) Hg
              (gr_labeled _ _ _ _ _ _ _ _ _ _ G) Hfuel)
    as (nc & m2 & E & _ & Hgr & Hnc & (Hin & Hout & Hrep) & Hnone).
  exists m, c, m1, nc, m2.
  split; [apply (gr_perm _ _ _ _ _ _ _ _ _ _ G)|].
  split; [apply (gr_cycles _ _ _ _ _ _ _ _ _ _ G)|].
  split; [exact E|]. split; [exact Hnc|]. split; [exact Hgr|].
  split; [|split].
  - intros z Hz. destruct (ep_total _ _ Hp z Hz) as (v & Hv & _).
    destruct Hg as (_ & Hat). destruct (Hat z Hz v Hv) as (j & Hj & He).
    pose proof (cell_inb _ _ _ Hj) as Hjr.
    destruct (j =? black z) eqn:Ejb.
    + exists (-1), (-1). split; [exact He|]. split; [|reflexivity].
      apply Hout; [assumption|]. intros (j' & Hj' & Hne'). congruence.
    + assert (Hnsl : nsl (greyEdges m1) z).
      { exists j. split; [assumption|lia]. }
      destruct (Hin z Hnsl) as (k & Hk & Hkr). exists j, k.
      split; [exact He|]. split; [exact Hk|].
      destruct (Z.eqb_spec j (-1)); [lia|assumption].
  - intros k Hk. destruct (Hrep k Hk) as (z & Hz & Hzk).
    pose proof (nsl_range _ _ _ Hg z Hz).
    destruct Hz as (e & He & Hne). exists z, e. tauto.
  - rewrite (gr_breakpoints _ _ _ _ _ _ _ _ _ _ G).
    pose proof (gr_count _ _ _ _ _ _ _ _ _ _ G) as Hb.
    split.
    + intros ->. f_equal. rewrite Hb. apply (ecount_no_edge A B fuel Hfuel).
      intros j Hj Hnsl. destruct (Hin j Hnsl) as (k & _ & Hk). lia.
    + intros [= E0]. apply Hnone.
      apply (plain_no_edge A (perm m) (greyEdges m1) Hp Hg).
      apply (no_edge_plain (len A) (perm m) (greyEdges m1) Hn Hp Hg).
      rewrite <- Hb. exact E0.
Qed.

Lemma component_labels_witness :
  valid_chromosome sample_identity /\ valid_chromosome sample_inverted
  /\ exists m c m1 nc m2,
       extended_perm [sample_identity] [sample_inverted] 0 = Ok m
       /\ num_cycles (perm m) 12 100 m = Ok (c, m1)
       /\ connected_component 12 100 m1 = Ok (nc, m2)
       /\ 0 <= nc <= 12
       /\ greyEdges m2 = greyEdges m1
       /\ (forall z, 0 <= z < 12 ->
             exists e k, cell (greyEdges m1) z = Some e
                         /\ cell (cc m2) z = Some k
                         /\ if e =? -1 then k = -1 else 0 <= k < nc)
       /\ (forall k, 0 <= k < nc ->
             exists z e, 0 <= z < 12
                         /\ cell (greyEdges m1) z = Some e /\ e <> -1
                         /\ cell (cc m2) z = Some k)
       /\ (nc = 0 <-> num_breakpoints (perm m) 12 = Ok 0).
Proof.
  assert (HA : valid_chromosome sample_identity)
    by (apply valid_chromosomeb_true; vm_compute; reflexivity).
  assert (HB : valid_chromosome sample_inverted)
    by (apply valid_chromosomeb_true; vm_compute; reflexivity).
  split; [exact HA|]. split; [exact HB|].
  apply (component_labels 100 sample_identity sample_inverted 0 HA HB);
    [reflexivity|cbn; lia|vm_compute; lia].
Defined.

(** [num_hurdles_and_fortress] on the graph of two chromosomes over the
    ids 1..n: the hurdles are at most as many as the components that
    [connected_component] found, and the fortress flag is 0 or 1, raised
    only for an odd number of hurdles that is at least 3. *)
Theorem hurdles_and_fortress_bounds (fuel : nat) (A B : Genome)
    (offset : Z) :
  valid_chromosome A -> valid_chromosome B -> len A = len B ->
  0 <= offset < 2 * len A ->
  (Z.to_nat (2 * len A + 2) < fuel)%nat ->
  exists m c m1 nc mc h f m2,
    extended_perm [A] [B] offset = Ok m
    /\ num_cycles (perm m) (2 * len A + 2) fuel m = Ok (c, m1)
    /\ connected_component (2 * len A + 2) fuel m1 = Ok (nc, mc)
    /\ num_hurdles_and_fortress (perm m1) (2 * len A + 2) fuel m1
       = Ok (h, f, m2)
    /\ 0 <= h <= nc
    /\ (f = 0 \/ (f = 1 /\ 3 <= h /\ Z.odd h = true)).
Proof.
  intros HA HB Hlen Hoff Hfuel.
  destruct (valid_graph fuel A B offset HA HB Hlen Hoff Hfuel)
    as (m & b & c & m1 & h & f & G).
  assert (Hn : 0 <= len A) by (destruct HA as (_ & ? & _); lia).
  destruct (hurdles_bound (len A) (perm m) Hn
              (gr_ok _ _ _ _ _ _ _ _ _ _ G) fuel m1
              (gr_sized _ _ _ _ _ _ _ _ _ _ G)
              (gr_grey _ _ _ _ _ _ _ _ _ _ G)
              (gr_labeled _ _ _ _ _ _ _ _ _ _ G) Hfuel)
    as (nc & mc & h' & f' & m2 & Ec & _ & _ & _ & Eh & Hh & Hf).
  exists m, c, m1, nc, mc, h', f', m2.
  split; [apply (gr_perm _ _ _ _ _ _ _ _ _ _ G)|].
  split; [apply (gr_cycles _ _ _ _ _ _ _ _ _ _ G)|].
  split; [exact Ec|]. split; [exact Eh|]. split; assumption.
Qed.

Lemma hurdles_and_fortress_bounds_witness :
  valid_chromosome sample_identity /\ valid_chromosome sample_inverted
  /\ exists m c m1 nc mc h f m2,
       extended_perm [sample_identity] [sample_inverted] 0 = Ok m
       /\ num_cycles (perm m) 12 100 m = Ok (c, m1)
       /\ connected_component 12 100 m1 = Ok (nc, mc)
       /\ num_hurdles_and_fortress (perm m1) 12 100 m1 = Ok (h, f, m2)
       /\ 0 <= h <= nc
       /\ (f = 0 \/ (f = 1 /\ 3 <= h /\ Z.odd h = true)).
Proof.
  assert (HA : valid_chromosome sample_identity)
    by (apply valid_chromosomeb_true; vm_compute; reflexivity).
  assert (HB : valid_chromosome sample_inverted)
    by (apply valid_chromosomeb_true; vm_compute; reflexivity).
  split; [exact HA|]. split; [exact HB|].
  apply (hurdles_and_fortress_bounds 100 sample_identity sample_inverted 0
           HA HB); [reflexivity|cbn; lia|vm_compute; lia].
Defined.

(** * Hurdles and fortress in [num_hurdles_and_fortress] *)

(** The function is its entry part followed by the code from the block
    scan on. *)
Lemma num_hurdles_and_fortress_enter (p : arr) (size : Z) (fuel : nat)
    (m : distmem_t) :
  num_hurdles_and_fortress p size fuel m
  = (r <- nhf_enter size fuel m ;;
     match r with
     | inl m' => Ok (0, 0, m')
     | inr (nc, mI) => nhf_hurdles size nc mI
     end).
Proof.
  unfold num_hurdles_and_fortress, nhf_enter.
  destruct (connected_component size fuel m) as [[nc mA]|e]; cbn [bind];
    [|reflexivity].
  destruct (nc =? 0); [reflexivity|].
  destruct (for_range 0 size 1 nhf_edge mA) as [mB|e]; cbn [bind];
    [|reflexivity].
  destruct (for_range 0 nc 1 nhf_clear_oriented mB) as [mC|e]; cbn [bind];
    [|reflexivity].
  destruct (for_range 0 size 1 nhf_set_oriented mC) as [mD|e]; cbn [bind];
    [|reflexivity].
  destruct (for_range 0 nc 1 (nhf_count_unoriented mD) 0) as [u|e];
    cbn [bind]; [|reflexivity].
  destruct (u =? 0); [reflexivity|].
  destruct (for_range 0 nc 1 nhf_init mD) as [mE|e]; reflexivity.
Qed.

(** The table from the block scan to the wrap-around test. *)
Record marked (size nc : Z) (mI : distmem_t) (fc lc : Z)
    (mS : distmem_t) (nh1 h : Z) (mH : distmem_t) : Prop := {
  mk_scan : exists nb,
    for_range 0 size 1 nhf_scan (-1, -1, -1, mI) = Ok (fc, lc, nb, mS);
  mk_loop : exists mL,
    for_range 0 nc 1 nhf_hurdle (0, mS) = Ok (nh1, mL)
    /\ nhf_greathurdle fc lc (nh1, mL) = Ok (h, mH);
  mk_rest : nhf_hurdles size nc mI = nhf_fortress nc h mH;
  mk_comps : comps_ok nc (components mH);
  mk_marks : forall k, 0 <= k < nc ->
    ccell (components mH) k F_hurdle
    = Some (hurdle_mark (components mS) fc lc k);
  mk_single : forall k, 0 <= k < nc ->
    ccell (components mS) k F_oriented = Some 0 ->
    (ccell (components mH) k F_hurdle = Some HURDLE
     <-> ccell (components mS) k F_blocks = Some 1);
  mk_count : nh1 = count_upto (single_block (components mS)) (Z.to_nat nc);
  mk_wrap : h = nh1 + (if wraps_around (components mS) fc lc then 1 else 0);
}.

Section Enter.

Variables (n : Z) (p : arr).
Let s := 2 * n + 2.
Hypothesis Hn : 0 <= n.
Hypothesis Hp : ext_perm_ok n p.

Lemma nhf_enter_ok (fuel : nat) (m0 : distmem_t) :
  mem_sized s m0 -> grey_ok s p (greyEdges m0) ->
  cycles_ok (greyEdges m0) (labeled m0) -> (Z.to_nat s < fuel)%nat ->
  (exists m', nhf_enter s fuel m0 = Ok (inl m'))
  \/ (exists nc mI fc lc mS nh1 h mH,
        nhf_enter s fuel m0 = Ok (inr (nc, mI))
        /\ 0 <= nc /\ marked s nc mI fc lc mS nh1 h mH).
Proof.
  intros Hsz Hg HL Hfuel. set (g := greyEdges m0) in *.
  destruct (connected_component_ok n p Hn Hp fuel m0 Hsz Hg HL Hfuel)
    as (nc & mA & EA & HszA & HgA & Hnc & Hcc & Hnone).
  fold s in EA, HszA, Hnc, Hcc, Hnone. fold g in HgA, Hcc, Hnone.
  unfold nhf_enter. rewrite EA. cbn [bind].
  destruct (Z.eqb_spec nc 0) as [Enc|Nnc]; [left; eauto|].
  destruct (edge_loop n p g Hn Hp Hg mA HszA HgA)
    as (mB & EB & HszB & HgB & HcB & _ & HorB).
  fold s in EB, HszB, HorB. rewrite EB. cbn [bind].
  destruct (clear_loop n nc Hnc mB HszB)
    as (mC & EC & HszC & HgC & HcC & HoC & HclrC).
  fold s in HszC. rewrite EC. cbn [bind].
  destruct (set_loop n p g Hn Hp Hg nc Hnc (cc mA) Hcc mC HszC)
    as (mD & ED & HszD & HgD & HcD & HinD).
  { congruence. }
  { rewrite HoC. exact HorB. }
  { intros k Hk. exists 0. apply HclrC. assumption. }
  fold s in ED, HszD. rewrite ED. cbn [bind].
  destruct (count_loop_unoriented n nc Hnc mD HinD) as (c & Ec & Hc & Hex).
  rewrite Ec. cbn [bind].
  destruct (Z.eqb_spec c 0) as [E0|N0]; [left; eauto|].
  destruct (init_loop n nc Hnc mD HszD HinD)
    as (mE & EE & HszE & HgE & HcE & HoE & HcoE & Hinit).
  fold s in HszE. rewrite EE. cbn [bind]. right.
  destruct (Hex N0) as (k & Hk & Hko). rewrite <- HoE in Hko.
  (* the block scan *)
  destruct (scan_loop n p g Hn Hp Hg nc Hnc (cc mA) Hcc mE HszE)
    as (fc & lc & nb & mS & E1 & H1); [congruence|congruence|assumption|].
  fold s in E1, H1.
  assert (Hfc : 0 <= fc < nc).
  { destruct Hcc as (_ & _ & Hrep). destruct (Hrep k Hk) as (z & Hz & Hzk).
    pose proof (nsl_range n p g Hg z Hz) as Hzr. fold s in Hzr.
    pose proof (sc_seen _ _ _ _ _ _ _ _ _ H1 z k Hzr Hzk ltac:(lia) Hko) as Hl.
    pose proof (sc_both _ _ _ _ _ _ _ _ _ H1 Hl) as Hf.
    destruct (sc_first _ _ _ _ _ _ _ _ _ H1); [contradiction|assumption]. }
  pose proof (sc_comps _ _ _ _ _ _ _ _ _ H1) as HcoS.
  assert (Hzero : forall k, 0 <= k < nc ->
            ccell (components mS) k F_hurdle = Some 0).
  { intros k' Hk'. rewrite (sc_hurdle _ _ _ _ _ _ _ _ _ H1).
    apply Hinit. assumption. }
  (* the hurdle loop and the wrap-around test *)
  destruct (hurdle_marks_ok nc fc lc mS ltac:(lia) HcoS Hzero
              ltac:(intros _; exact Hfc))
    as (nh1 & mL & h & mH & E2 & E3 & Hmark & Hsingle & Hn1 & Hh & _).
  assert (HcoH : comps_ok nc (components mH)).
  { destruct (hurdle_loop nc ltac:(lia) mS HcoS) as (C2 & E2' & Hco2 & _).
    rewrite E2 in E2'. injection E2' as -> ->.
    destruct (greathurdle_ok nc fc lc
                (count_upto (single_block (components mS)) (Z.to_nat nc))
                (set_components C2 mS) Hco2 ltac:(intros _; exact Hfc))
      as (C3 & E3' & Hco3 & _).
    rewrite E3 in E3'. injection E3' as _ ->. exact Hco3. }
  exists nc, mE, fc, lc, mS, nh1, h, mH.
  split; [reflexivity|]. split; [lia|]. constructor; try assumption.
  - exists nb. exact E1.
  - exists mL. split; assumption.
  - unfold nhf_hurdles. rewrite E1. cbn [bind]. rewrite E2. cbn [bind].
    rewrite E3. reflexivity.
Qed.

End Enter.

(** The graph of two chromosomes over the ids 1..n, up to the wrap-around
    test of [num_hurdles_and_fortress]. *)
Lemma valid_marked (fuel : nat) (A B : Genome) (offset : Z) :
  valid_chromosome A -> valid_chromosome B -> len A = len B ->
  0 <= offset < 2 * len A ->
  (Z.to_nat (2 * len A + 2) < fuel)%nat ->
  exists m c m1,
    extended_perm [A] [B] offset = Ok m
    /\ num_cycles (perm m) (2 * len A + 2) fuel m = Ok (c, m1)
    /\ ((exists m', nhf_enter (2 * len A + 2) fuel m1 = Ok (inl m'))
        \/ (exists nc mI fc lc mS nh1 h mH,
              nhf_enter (2 * len A + 2) fuel m1 = Ok (inr (nc, mI))
              /\ 0 <= nc
              /\ marked (2 * len A + 2) nc mI fc lc mS nh1 h mH)).
Proof.
  intros HA HB Hlen Hoff Hfuel.
  destruct (valid_graph fuel A B offset HA HB Hlen Hoff Hfuel)
    as (m & b & c & m1 & h & f & G).
  assert (Hn : 0 <= len A) by (destruct HA as (_ & ? & _); lia).
  exists m, c, m1.
  split; [apply (gr_perm _ _ _ _ _ _ _ _ _ _ G)|].
  split; [apply (gr_cycles _ _ _ _ _ _ _ _ _ _ G)|].
  apply (nhf_enter_ok (len A) (perm m) Hn (gr_ok _ _ _ _ _ _ _ _ _ _ G)
           fuel m1 (gr_sized _ _ _ _ _ _ _ _ _ _ G)
           (gr_grey _ _ _ _ _ _ _ _ _ _ G)
           (gr_labeled _ _ _ _ _ _ _ _ _ _ G) Hfuel).
Qed.

(** C3: in [num_hurdles_and_fortress], run on the graph of two
    chromosomes over the ids 1..n, either the function returns (0, 0)
    before the block scan, or, on the table the block scan leaves, an
    unoriented component is marked [HURDLE] iff its block count is 1; the
    component in which the scan began and ended, when it is the same and
    its block count is 2, is marked [HURDLE|GREATHURDLE] and counted; the
    function returns this number of hurdles; and when it is below 3 the
    function returns it with fortress 0 and the table as the wrap-around
    test left it, no superhurdle mark set. *)
Theorem hurdle_marking (fuel : nat) (A B : Genome) (offset : Z) :
  valid_chromosome A -> valid_chromosome B -> len A = len B ->
  0 <= offset < 2 * len A ->
  (Z.to_nat (2 * len A + 2) < fuel)%nat ->
  exists m c m1,
    extended_perm [A] [B] offset = Ok m
    /\ num_cycles (perm m) (2 * len A + 2) fuel m = Ok (c, m1)
    /\ ((exists m',
           nhf_enter (2 * len A + 2) fuel m1 = Ok (inl m')
           /\ num_hurdles_and_fortress (perm m1) (2 * len A + 2) fuel m1
              = Ok (0, 0, m'))
        \/ (exists nc mI fc lc nb mS nh1 mL h mH,
              nhf_enter (2 * len A + 2) fuel m1 = Ok (inr (nc, mI))
              /\ for_range 0 (2 * len A + 2) 1 nhf_scan (-1, -1, -1, mI)
                 = Ok (fc, lc, nb, mS)
              /\ for_range 0 nc 1 nhf_hurdle (0, mS) = Ok (nh1, mL)
              /\ nhf_greathurdle fc lc (nh1, mL) = Ok (h, mH)
              /\ (forall k, 0 <= k < nc ->
                    ccell (components mH) k F_hurdle
                    = Some (hurdle_mark (components mS) fc lc k))
              /\ (forall k, 0 <= k < nc ->
                    ccell (components mS) k F_oriented = Some 0 ->
                    (ccell (components mH) k F_hurdle = Some HURDLE
                     <-> ccell (components mS) k F_blocks = Some 1))
              /\ nh1 = count_upto (single_block (components mS))
                                  (Z.to_nat nc)
              /\ h = nh1 + (if wraps_around (components mS) fc lc
                            then 1 else 0)
              /\ (exists f m2,
                    num_hurdles_and_fortress (perm m1) (2 * len A + 2)
                      fuel m1 = Ok (h, f, m2))
              /\ (h < 3 ->
                  num_hurdles_and_fortress (perm m1) (2 * len A + 2)
                    fuel m1 = Ok (h, 0, mH)))).
Proof.
  intros HA HB Hlen Hoff Hfuel.
  destruct (valid_marked fuel A B offset HA HB Hlen Hoff Hfuel)
    as (m & c & m1 & Em & Ec & H).
  exists m, c, m1. split; [exact Em|]. split; [exact Ec|].
  rewrite num_hurdles_and_fortress_enter.
  destruct H as [(m' & E)|(nc & mI & fc & lc & mS & nh1 & h & mH & E & Hnc & M)].
  - left. exists m'. split; [exact E|]. rewrite E. reflexivity.
  - right. destruct (mk_scan _ _ _ _ _ _ _ _ _ M) as (nb & E1).
    destruct (mk_loop _ _ _ _ _ _ _ _ _ M) as (mL & E2 & E3).
    exists nc, mI, fc, lc, nb, mS, nh1, mL, h, mH.
    split; [exact E|]. split; [exact E1|]. split; [exact E2|].
    split; [exact E3|].
    split; [apply (mk_marks _ _ _ _ _ _ _ _ _ M)|].
    split; [apply (mk_single _ _ _ _ _ _ _ _ _ M)|].
    split; [apply (mk_count _ _ _ _ _ _ _ _ _ M)|].
    split; [apply (mk_wrap _ _ _ _ _ _ _ _ _ M)|].
    rewrite E. cbn [bind]. rewrite (mk_rest _ _ _ _ _ _ _ _ _ M).
    split.
    + destruct (fortress_total nc Hnc h mH (mk_comps _ _ _ _ _ _ _ _ _ M))
        as (f & m2 & Ef & _).
      exists f, m2. exact Ef.
    + intros Hlt. unfold nhf_fortress.
      destruct (Z.ltb_spec h 3); [reflexivity|lia].
Qed.

(** (1 3 5 4 6 2 7): a component met in one block, inside a component
    met in two blocks in which the scan begins and ends. *)
Definition sample_seven : Genome := linear [1; 2; 3; 4; 5; 6; 7].
Definition sample_wrapped : Genome := linear [1; 3; 5; 4; 6; 2; 7].

Lemma hurdle_marking_witness :
  valid_chromosome sample_seven /\ valid_chromosome sample_wrapped
  /\ exists m c m1 mH,
       extended_perm [sample_seven] [sample_wrapped] 0 = Ok m
       /\ num_cycles (perm m) 16 100 m = Ok (c, m1)
       /\ num_hurdles_and_fortress (perm m1) 16 100 m1 = Ok (2, 0, mH)
       /\ ccell (components mH) 0 F_hurdle = Some HURDLE
       /\ ccell (components mH) 1 F_hurdle = Some (Z.lor HURDLE GREATHURDLE).
Proof.
  assert (HA : valid_chromosome sample_seven)
    by (apply valid_chromosomeb_true; vm_compute; reflexivity).
  assert (HB : valid_chromosome sample_wrapped)
    by (apply valid_chromosomeb_true; vm_compute; reflexivity).
  split; [exact HA|]. split; [exact HB|].
  destruct (hurdle_marking 100 sample_seven sample_wrapped 0 HA HB eq_refl
              ltac:(cbn; lia) ltac:(vm_compute; lia))
    as (m & c & m1 & Em & Ec & H).
  change (2 * len sample_seven + 2) with 16 in *.
  pose proof Em as Em'. pose proof Ec as Ec'.
  vm_compute in Em. injection Em as <-.
  vm_compute in Ec. injection Ec as <- <-.
  destruct H as [(m' & E & _)
                |(nc & mI & fc & lc & nb & mS & nh1 & mL & h & mH
                  & E & E1 & E2 & E3 & Hmark & _ & Hn1 & Hh & _ & Hret)].
  { vm_compute in E. discriminate E. }
  vm_compute in E. injection E as <- <-.
  vm_compute in E1. injection E1 as <- <- <- <-.
  vm_compute in Hn1. subst nh1. vm_compute in Hh. subst h.
  eexists _, _, _, mH. split; [exact Em'|]. split; [exact Ec'|].
  split; [apply Hret; lia|].
  split; [exact (Hmark 0 ltac:(lia))|exact (Hmark 1 ltac:(lia))].
Defined.

(** C2: in [num_hurdles_and_fortress], run on the graph of two
    chromosomes over the ids 1..n, when the hurdle count [h] after the
    wrap-around test is at least 3: the hurdles are tested in order for
    the shape of a superhurdle (left neighbour = right neighbour, not -1,
    met in two blocks, not the wrap-around hurdle) and marked
    [SUPERHURDLE] when they have it; at the first hurdle [k0] without the
    shape the function returns [(h, 0)], only the hurdles below [k0]
    marked; when every hurdle has the shape the function returns [h] and
    the fortress flag, which is 1 iff [h] equals the number of
    superhurdles and that number is odd.  One of the two cases applies. *)
Theorem fortress_classification (fuel : nat) (A B : Genome) (offset : Z) :
  valid_chromosome A -> valid_chromosome B -> len A = len B ->
  0 <= offset < 2 * len A ->
  (Z.to_nat (2 * len A + 2) < fuel)%nat ->
  exists m c m1,
    extended_perm [A] [B] offset = Ok m
    /\ num_cycles (perm m) (2 * len A + 2) fuel m = Ok (c, m1)
    /\ ((exists m',
           nhf_enter (2 * len A + 2) fuel m1 = Ok (inl m')
           /\ num_hurdles_and_fortress (perm m1) (2 * len A + 2) fuel m1
              = Ok (0, 0, m'))
        \/ (exists nc mI fc lc nb mS nh1 mL h mH,
              nhf_enter (2 * len A + 2) fuel m1 = Ok (inr (nc, mI))
              /\ for_range 0 (2 * len A + 2) 1 nhf_scan (-1, -1, -1, mI)
                 = Ok (fc, lc, nb, mS)
              /\ for_range 0 nc 1 nhf_hurdle (0, mS) = Ok (nh1, mL)
              /\ nhf_greathurdle fc lc (nh1, mL) = Ok (h, mH)
              /\ (3 <= h ->
                  (forall k0, 0 <= k0 < nc ->
                     is_hurdle (components mH) k0 = true ->
                     superhurdle_shape (components mH) k0 = false ->
                     all_super (components mH) k0 ->
                     exists m2,
                       num_hurdles_and_fortress (perm m1) (2 * len A + 2)
                         fuel m1 = Ok (h, 0, m2)
                       /\ forall k, 0 <= k < nc ->
                            ccell (components m2) k F_hurdle
                            = Some (super_mark (components mH) k0 k))
                  /\ (all_super (components mH) nc ->
                      exists m2,
                        num_hurdles_and_fortress (perm m1) (2 * len A + 2)
                          fuel m1
                        = Ok (h,
                              (if (h =? count_upto
                                          (is_hurdle (components mH))
                                          (Z.to_nat nc))
                                  && (Z.rem (count_upto
                                               (is_hurdle (components mH))
                                               (Z.to_nat nc)) 2 =? 1)
                               then 1 else 0),
                              m2)
                        /\ forall k, 0 <= k < nc ->
                             ccell (components m2) k F_hurdle
                             = Some (super_mark (components mH) nc k))
                  /\ ((exists k0, 0 <= k0 < nc
                         /\ is_hurdle (components mH) k0 = true
                         /\ superhurdle_shape (components mH) k0 = false
                         /\ all_super (components mH) k0)
                      \/ all_super (components mH) nc)))).
Proof.
  intros HA HB Hlen Hoff Hfuel.
  destruct (valid_marked fuel A B offset HA HB Hlen Hoff Hfuel)
    as (m & c & m1 & Em & Ec & H).
  exists m, c, m1. split; [exact Em|]. split; [exact Ec|].
  rewrite num_hurdles_and_fortress_enter.
  destruct H as [(m' & E)|(nc & mI & fc & lc & mS & nh1 & h & mH & E & Hnc & M)].
  - left. exists m'. split; [exact E|]. rewrite E. reflexivity.
  - right. destruct (mk_scan _ _ _ _ _ _ _ _ _ M) as (nb & E1).
    destruct (mk_loop _ _ _ _ _ _ _ _ _ M) as (mL & E2 & E3).
    pose proof (mk_comps _ _ _ _ _ _ _ _ _ M) as Hco.
    exists nc, mI, fc, lc, nb, mS, nh1, mL, h, mH.
    split; [exact E|]. split; [exact E1|]. split; [exact E2|].
    split; [exact E3|].
    rewrite E. cbn [bind]. rewrite (mk_rest _ _ _ _ _ _ _ _ _ M).
    intros Hh.
    destruct (fortress_test_ok nc h mH Hnc Hco Hh) as (Hstop & Hall).
    split; [exact Hstop|]. split; [exact Hall|].
    destruct (super_loop nc Hnc mH Hco)
      as [(C' & _ & _ & Hs)|(C' & k1 & _ & Hk1 & Hh1 & Hs1 & _ & Hs)].
    + right. exact Hs.
    + left. exists k1. split; [exact Hk1|]. split; [exact Hh1|].
      split; [exact Hs1|]. exact Hs.
Qed.

(** Three hurdles, each of them nested in a component of its own: a
    fortress. *)
Definition sample_sorted : Genome :=
  linear [1; 2; 3; 4; 5; 6; 7; 8; 9; 10; 11; 12; 13; 14; 15; 16; 17; 18; 19].
Definition sample_nested : Genome :=
  linear [1; 3; 5; 4; 6; 2; 7; 9; 11; 10; 12; 8; 13; 15; 17; 16; 18; 14; 19].

Lemma fortress_classification_witness :
  valid_chromosome sample_sorted /\ valid_chromosome sample_nested
  /\ exists m c m1 m2,
       extended_perm [sample_sorted] [sample_nested] 0 = Ok m
       /\ num_cycles (perm m) 40 100 m = Ok (c, m1)
       /\ num_hurdles_and_fortress (perm m1) 40 100 m1 = Ok (3, 1, m2)
       /\ ccell (components m2) 0 F_hurdle = Some (Z.lor HURDLE SUPERHURDLE)
       /\ ccell (components m2) 1 F_hurdle = Some 0.
Proof.
  assert (HA : valid_chromosome sample_sorted)
    by (apply valid_chromosomeb_true; vm_compute; reflexivity).
  assert (HB : valid_chromosome sample_nested)
    by (apply valid_chromosomeb_true; vm_compute; reflexivity).
  split; [exact HA|]. split; [exact HB|].
  destruct (fortress_classification 100 sample_sorted sample_nested 0 HA HB
              eq_refl ltac:(cbn; lia) ltac:(vm_compute; lia))
    as (m & c & m1 & Em & Ec & H).
  change (2 * len sample_sorted + 2) with 40 in *.
  pose proof Em as Em'. pose proof Ec as Ec'.
  vm_compute in Em. injection Em as <-.
  vm_compute in Ec. injection Ec as <- <-.
  destruct H as [(m' & E & _)
                |(nc & mI & fc & lc & nb & mS & nh1 & mL & h & mH
                  & E & E1 & E2 & E3 & Hcase)].
  { vm_compute in E. discriminate E. }
  vm_compute in E. injection E as <- <-.
  vm_compute in E1. injection E1 as <- <- <- <-.
  vm_compute in E2. injection E2 as <- <-.
  vm_compute in E3. injection E3 as <- <-.
  destruct (Hcase ltac:(lia)) as (_ & Hall & _).
  destruct Hall as (m2 & E & Hmark).
  { intros k Hk Hh.
    assert (Hc : k = 0 \/ k = 1 \/ k = 2 \/ k = 3 \/ k = 4 \/ k = 5) by lia.
    destruct Hc as [->|[->|[->|[->|[->| ->]]]]];
      first [reflexivity|discriminate Hh]. }
  eexists _, _, _, m2. split; [exact Em'|]. split; [exact Ec'|].
  split; [exact E|].
  split; [exact (Hmark 0 ltac:(lia))|exact (Hmark 1 ltac:(lia))].
Defined.

(** * Shared boundaries: [_adjacencies] and [_breakpoints] *)

(** The boundary [(pi1, pi2)] is one of the inner boundaries of [ID]. *)
Definition shared_inner (ID : Genome) (pi1 pi2 : Z) : bool :=
  existsb (fun l => same_boundary pi1 pi2 (gene (pi ID) l)
                                  (gene (pi ID) (l + 1)))
          (seqZ 0 (len ID - 1)).

(** What the wrap boundary of the first chromosome is compared with: the
    inner boundaries of [ID], and its wrap boundary when it is circular. *)
Definition shared_wrap (ID : Genome) (pi1 pi2 : Z) : bool :=
  shared_inner ID pi1 pi2
  || (circular ID
      && same_boundary pi1 pi2 (gene (pi ID) (len ID - 1)) (gene (pi ID) 0)).

Definition inner_boundaries (PI : Genome) : list (Z * Z) :=
  (fun k => (gene (pi PI) k, gene (pi PI) (k + 1))) <$> seqZ 0 (len PI - 1).

Definition wrap_boundary (PI : Genome) : Z * Z :=
  (gene (pi PI) (len PI - 1), gene (pi PI) 0).

(** The boundaries of [PI] that the two functions find in [ID]. *)
Definition shared_boundaries (PI ID : Genome) : list (Z * Z) :=
  filter (fun xy => shared_inner ID xy.1 xy.2 = true) (inner_boundaries PI)
  ++ (if circular PI
         && shared_wrap ID (wrap_boundary PI).1 (wrap_boundary PI).2
      then [wrap_boundary PI] else []).

Definition flatten (l : list (Z * Z)) : list Z :=
  l ≫= (fun xy => [xy.1; xy.2]).

Lemma to_short_id x : is_short x -> to_short x = x.
Proof.
  unfold is_short, to_short. intros H.
  rewrite Z.mod_small by lia. lia.
Qed.

Lemma seqZ_snoc (k : Z) : 0 <= k -> seqZ 0 (k + 1) = seqZ 0 k ++ [k].
Proof. intros Hk. rewrite seqZ_app by lia. reflexivity. Qed.

Lemma gene_short (G : Genome) (k : Z) :
  wf_genome G -> 0 <= k < len G -> is_short (gene (pi G) k).
Proof.
  intros (Hl & _ & Hs) Hk. rewrite Forall_lookup in Hs.
  apply (Hs (Z.to_nat k)). apply gene_lookup. lia.
Qed.

Section Scan.

Variables (ID : Genome) (pi1 pi2 : Z).
Hypothesis Hlen : len ID = Z.of_nat (length (pi ID)).

Let P := fun l => same_boundary pi1 pi2 (gene (pi ID) l) (gene (pi ID) (l + 1)).

Lemma adj_scan_loop :
  exists find,
    for_range 0 (len ID - 1) 1 (adj_scan ID pi1 pi2) 0 = Ok find
    /\ 0 <= find /\ negb (find =? 0) = shared_inner ID pi1 pi2.
Proof.
  destruct (Z.le_gt_cases (len ID - 1) 0) as [Hle|Hgt].
  { exists 0. split; [apply for_range_empty; assumption|].
    split; [lia|]. unfold shared_inner, seqZ.
    replace (Z.to_nat (len ID - 1)) with 0%nat by lia. reflexivity. }
  destruct (for_range_inv
              (fun l find => 0 <= find
                 /\ negb (find =? 0) = existsb P (seqZ 0 l))
              (adj_scan ID pi1 pi2) 0 (len ID - 1) 0)
    as (find & E & Hf & H); [lia|split; [lia|reflexivity]| |].
  - intros l find Hl (Hf & HI). unfold adj_scan.
    rewrite !at_gene by lia. cbn [bind]. eexists. split; [reflexivity|].
    rewrite seqZ_snoc, existsb_app by lia. cbn [existsb].
    rewrite orb_false_r, <- HI. fold (P l).
    destruct (P l); [|split; [lia|now rewrite orb_false_r]].
    split; [lia|]. rewrite orb_true_r.
    destruct (Z.eqb_spec (find + 1) 0); [lia|reflexivity].
  - exists find. split; [assumption|]. split; assumption.
Qed.

Lemma bp_scan_loop :
  exists find,
    for_range 0 (len ID - 1) 1 (bp_scan ID pi1 pi2) (0, 0)
    = Ok (Z.max 0 (len ID - 1), find)
    /\ 0 <= find /\ negb (find =? 0) = shared_inner ID pi1 pi2.
Proof.
  destruct (Z.le_gt_cases (len ID - 1) 0) as [Hle|Hgt].
  { exists 0. split.
    - rewrite for_range_empty by assumption. do 2 f_equal. lia.
    - split; [lia|]. unfold shared_inner, seqZ.
      replace (Z.to_nat (len ID - 1)) with 0%nat by lia. reflexivity. }
  destruct (for_range_inv
              (fun l (st : Z * Z) => st.1 = l /\ 0 <= st.2
                 /\ negb (st.2 =? 0) = existsb P (seqZ 0 l))
              (bp_scan ID pi1 pi2) 0 (len ID - 1) (0, 0))
    as ([bB find] & E & HbB & Hf & H);
    [lia|split; [reflexivity|split; [cbn; lia|reflexivity]]| |].
  - intros l [bB find] Hl (HbB & Hf & HI). cbn [fst snd] in *.
    unfold bp_scan. rewrite !at_gene by lia. cbn [bind].
    eexists. split; [reflexivity|]. cbn [fst snd].
    split; [lia|].
    rewrite seqZ_snoc, existsb_app by lia. cbn [existsb].
    rewrite orb_false_r, <- HI. fold (P l).
    destruct (P l); [|split; [lia|now rewrite orb_false_r]].
    split; [lia|]. rewrite orb_true_r.
    destruct (Z.eqb_spec (find + 1) 0); [lia|reflexivity].
  - cbn [fst snd] in *. exists find. split; [|split; assumption].
    rewrite E. do 2 f_equal. lia.
Qed.

End Scan.

Lemma length_flatten l : Z.of_nat (length (flatten l)) = 2 * Z.of_nat (length l).
Proof.
  unfold flatten. induction l as [|xy l IH]; [reflexivity|].
  cbn [mbind list_bind app length] in *. lia.
Qed.

Lemma flatten_app l1 l2 : flatten (l1 ++ l2) = flatten l1 ++ flatten l2.
Proof. apply bind_app. Qed.

Lemma inner_boundaries_snoc (G : Genome) (k : Z) :
  0 <= k ->
  (fun k => (gene (pi G) k, gene (pi G) (k + 1))) <$> seqZ 0 (k + 1)
  = ((fun k => (gene (pi G) k, gene (pi G) (k + 1))) <$> seqZ 0 k)
    ++ [(gene (pi G) k, gene (pi G) (k + 1))].
Proof. intros Hk. rewrite seqZ_snoc, fmap_app by lia. reflexivity. Qed.

Ltac triple_eq :=
  repeat match goal with
         | |- Ok _ = Ok _ => apply f_equal
         | |- (_, _) = (_, _) => apply pair_equal_spec; split
         end.

Section Pair.

Variables (A B : Genome) (rb : list Genome).
Hypothesis HwA : wf_genome A.
Hypothesis HwB : wf_genome B.

Let Sh := fun xy : Z * Z => shared_inner B xy.1 xy.2 = true.
Let mk := fun k => (gene (pi A) k, gene (pi A) (k + 1)).

Lemma filter_snoc (l : list (Z * Z)) (xy : Z * Z) :
  filter Sh (l ++ [xy])
  = filter Sh l ++ (if shared_inner B xy.1 xy.2 then [xy] else []).
Proof.
  rewrite filter_app. f_equal. unfold Sh.
  destruct (shared_inner B xy.1 xy.2) eqn:E.
  - rewrite filter_cons_True by (cbn; exact E). reflexivity.
  - rewrite filter_cons_False by (cbn; congruence). reflexivity.
Qed.

Lemma adj_boundary_loop (sb : list Z) :
  for_range 0 (len A - 1) 1 (adj_boundary (B :: rb) 0 A) sb
  = Ok (sb ++ flatten (filter Sh (inner_boundaries A))).
Proof.
  pose proof HwA as (HlA & _). pose proof HwB as (HlB & _).
  unfold inner_boundaries.
  destruct (Z.le_gt_cases (len A - 1) 0) as [Hle|Hgt].
  { rewrite for_range_empty by assumption. unfold seqZ.
    replace (Z.to_nat (len A - 1)) with 0%nat by lia.
    cbn. now rewrite app_nil_r. }
  destruct (for_range_inv
              (fun k st => st = sb ++ flatten (filter Sh (mk <$> seqZ 0 k)))
              (adj_boundary (B :: rb) 0 A) 0 (len A - 1) sb)
    as (st & E & ->); [lia|cbn; now rewrite app_nil_r| |exact E].
  intros k st Hk ->. unfold adj_boundary.
  rewrite !at_gene by lia. cbn [bind].
  change (at_ (B :: rb) 0) with (Ok B). cbn [bind].
  destruct (adj_scan_loop B (gene (pi A) k) (gene (pi A) (k + 1)) HlB)
    as (find & Ef & _ & Hf).
  rewrite Ef. cbn [bind]. rewrite Hf. eexists. split; [reflexivity|].
  unfold mk. rewrite inner_boundaries_snoc by lia. fold mk.
  rewrite filter_snoc, flatten_app. cbn [fst snd].
  rewrite !to_short_id by (apply gene_short; [assumption|lia]).
  destruct (shared_inner B _ _); [|cbn; now rewrite !app_nil_r].
  rewrite <- app_assoc. reflexivity.
Qed.

Lemma bp_boundary_loop (bA bB b : Z) :
  for_range 0 (len A - 1) 1 (bp_boundary (B :: rb) 0 A) (bA, bB, b)
  = Ok (bA + Z.max 0 (len A - 1),
        (if 1 <? len A then Z.max 0 (len B - 1) else bB),
        b + Z.of_nat (length (filter Sh (inner_boundaries A)))).
Proof.
  pose proof HwA as (HlA & _). pose proof HwB as (HlB & _).
  unfold inner_boundaries.
  destruct (Z.le_gt_cases (len A - 1) 0) as [Hle|Hgt].
  { rewrite for_range_empty by assumption. unfold seqZ.
    replace (Z.to_nat (len A - 1)) with 0%nat by lia.
    destruct (Z.ltb_spec 1 (len A)); [lia|]. cbn. triple_eq; lia. }
  destruct (for_range_inv
              (fun k (st : Z * Z * Z) =>
                 st = (bA + k,
                       (if 0 <? k then Z.max 0 (len B - 1) else bB),
                       b + Z.of_nat (length (filter Sh (mk <$> seqZ 0 k)))))
              (bp_boundary (B :: rb) 0 A) 0 (len A - 1) (bA, bB, b))
    as (st & E & ->); [lia| | |].
  - change (seqZ 0 0) with (@nil Z). rewrite fmap_nil, filter_nil.
    change (0 <? 0) with false. cbn [length]. triple_eq; lia.
  - intros k st Hk ->. unfold bp_boundary.
    rewrite !at_gene by lia. cbn [bind].
    change (at_ (B :: rb) 0) with (Ok B). cbn [bind].
    destruct (bp_scan_loop B (gene (pi A) k) (gene (pi A) (k + 1)) HlB)
      as (find & Ef & _ & Hf).
    rewrite Ef. cbn [bind]. rewrite Hf. eexists. split; [reflexivity|].
    unfold mk. rewrite inner_boundaries_snoc by lia. fold mk.
    rewrite filter_snoc, length_app. cbn [fst snd].
    destruct (Z.ltb_spec 0 (k + 1)); [|lia].
    destruct (shared_inner B _ _); cbn [length negb]; triple_eq; lia.
  - rewrite E. destruct (Z.ltb_spec 0 (len A - 1)); [|lia].
    destruct (Z.ltb_spec 1 (len A)); [|lia].
    triple_eq; [lia|lia|reflexivity].
Qed.

Hypothesis HposA : 0 < len A.
Hypothesis HposB : circular B = true -> 0 < len B.

Lemma wrap_find (find : Z) :
  0 <= find ->
  negb (find =? 0)
  = shared_inner B (wrap_boundary A).1 (wrap_boundary A).2 ->
  exists find',
    (if circular B then
       id1 <- at_ (pi B) (len B - 1) ;;
       id2 <- at_ (pi B) 0 ;;
       Ok (if same_boundary (wrap_boundary A).1 (wrap_boundary A).2 id1 id2
           then find + 1 else find)
     else Ok find) = Ok find'
    /\ negb (find' =? 0)
       = shared_wrap B (wrap_boundary A).1 (wrap_boundary A).2.
Proof.
  intros Hf H. pose proof HwB as (HlB & _). unfold shared_wrap.
  rewrite <- H. destruct (circular B) eqn:Ec.
  - specialize (HposB eq_refl). rewrite !at_gene by lia. cbn [bind andb].
    eexists. split; [reflexivity|].
    destruct (same_boundary _ _ _ _).
    + rewrite orb_true_r. destruct (Z.eqb_spec (find + 1) 0); [lia|reflexivity].
    + now rewrite orb_false_r.
  - exists find. split; [reflexivity|]. cbn [andb]. now rewrite orb_false_r.
Qed.

Lemma adj_wrap_ok (sb : list Z) :
  adj_wrap (B :: rb) 0 A sb
  = Ok (sb ++ flatten
               (if shared_wrap B (wrap_boundary A).1 (wrap_boundary A).2
                then [wrap_boundary A] else [])).
Proof.
  pose proof HwA as (HlA & _). pose proof HwB as (HlB & _).
  unfold adj_wrap. rewrite !at_gene by lia. cbn [bind].
  change (at_ (B :: rb) 0) with (Ok B). cbn [bind].
  destruct (adj_scan_loop B (gene (pi A) (len A - 1)) (gene (pi A) 0) HlB)
    as (find & Ef & Hf0 & Hf).
  rewrite Ef. cbn [bind].
  destruct (wrap_find find Hf0 Hf) as (find' & E' & Hf').
  cbn [wrap_boundary fst snd] in E', Hf'. rewrite E'. cbn [bind].
  rewrite Hf'. cbn [wrap_boundary fst snd].
  rewrite !to_short_id by (apply gene_short; [assumption|lia]).
  destruct (shared_wrap B _ _); [reflexivity|cbn; now rewrite app_nil_r].
Qed.

Lemma bp_wrap_ok (bA bB b : Z) :
  bp_wrap (B :: rb) 0 A (bA, bB, b)
  = Ok (bA + 1, bB + 1,
        b + (if shared_wrap B (wrap_boundary A).1 (wrap_boundary A).2
             then 1 else 0)).
Proof.
  pose proof HwA as (HlA & _). pose proof HwB as (HlB & _).
  unfold bp_wrap. rewrite !at_gene by lia. cbn [bind].
  change (at_ (B :: rb) 0) with (Ok B). cbn [bind].
  destruct (bp_scan_loop B (gene (pi A) (len A - 1)) (gene (pi A) 0) HlB)
    as (find & Ef & Hf0 & Hf).
  rewrite Ef. cbn [bind snd].
  destruct (wrap_find find Hf0 Hf) as (find' & E' & Hf').
  cbn [wrap_boundary fst snd] in E', Hf'. rewrite E'. cbn [bind].
  rewrite Hf'. cbn [wrap_boundary fst snd].
  destruct (shared_wrap B _ _); cbn [negb]; triple_eq; lia.
Qed.

End Pair.

(** The two boundary counts as [_breakpoints] leaves them: [bA] counts the
    boundaries of the first chromosome; [bB] is reset for every inner
    boundary of the first chromosome, counts the inner boundaries of the
    second one, and is incremented once more when the first chromosome is
    circular. *)
Definition count_bA (PI : Genome) : Z :=
  Z.max 0 (len PI - 1) + Z.b2z (circular PI).

Definition count_bB (PI ID : Genome) : Z :=
  (if 1 <? len PI then Z.max 0 (len ID - 1) else 0) + Z.b2z (circular PI).

(** A circular chromosome without genes is indexed at [len - 1]. *)
Definition wrap_out_of_bounds (PI ID : Genome) : bool :=
  circular PI && ((len PI =? 0) || circular ID && (len ID =? 0)).

Lemma wf_len G : wf_genome G -> 0 <= len G.
Proof. intros (H & _). lia. Qed.

Lemma adjacencies_value (A B : Genome) (ra rb : list Genome) :
  wf_genome A -> wf_genome B ->
  _adjacencies (A :: ra) (B :: rb)
  = if wrap_out_of_bounds A B then Err OutOfBounds
    else Ok (flatten (shared_boundaries A B)).
Proof.
  intros HwA HwB. pose proof (wf_len A HwA). pose proof (wf_len B HwB).
  unfold _adjacencies.
  change (num_chromosomes (A :: ra)) with 1.
  change (num_chromosomes (B :: rb)) with 1.
  rewrite !for_range_once, !bind_ret.
  change (at_ (A :: ra) 0) with (Ok A). cbn [bind].
  rewrite (adj_boundary_loop A B rb HwA HwB). cbn [bind app].
  unfold shared_boundaries, wrap_out_of_bounds.
  destruct (circular A) eqn:EcA; cbn [andb];
    [|now rewrite app_nil_r].
  destruct (Z.eqb_spec (len A) 0) as [E0|N0]; cbn [orb].
  { unfold adj_wrap. rewrite E0. reflexivity. }
  destruct (circular B) eqn:EcB; cbn [andb].
  - destruct (Z.eqb_spec (len B) 0) as [E0|NB].
    + unfold adj_wrap. rewrite !at_gene by (destruct HwA; lia).
      cbn [bind]. change (at_ (B :: rb) 0) with (Ok B). cbn [bind].
      rewrite for_range_empty by lia. cbn [bind]. rewrite EcB, E0.
      reflexivity.
    + rewrite (adj_wrap_ok A B rb HwA HwB) by (intros; lia).
      rewrite flatten_app. reflexivity.
  - rewrite (adj_wrap_ok A B rb HwA HwB) by (lia || congruence).
    rewrite flatten_app. reflexivity.
Qed.

Lemma breakpoints_value (A B : Genome) (ra rb : list Genome) :
  wf_genome A -> wf_genome B ->
  _breakpoints (A :: ra) (B :: rb)
  = if wrap_out_of_bounds A B then Err OutOfBounds
    else Ok (Z.max (count_bA A) (count_bB A B)
             - Z.of_nat (length (shared_boundaries A B))).
Proof.
  intros HwA HwB. pose proof (wf_len A HwA). pose proof (wf_len B HwB).
  unfold _breakpoints.
  change (num_chromosomes (A :: ra)) with 1.
  change (num_chromosomes (B :: rb)) with 1.
  rewrite !for_range_once. cbn [bind].
  change (at_ (A :: ra) 0) with (Ok A). cbn [bind].
  rewrite (bp_boundary_loop A B rb HwA HwB). cbn [bind].
  unfold shared_boundaries, wrap_out_of_bounds, count_bA, count_bB.
  rewrite length_app, !Z.add_0_l.
  destruct (circular A) eqn:EcA; cbn [andb Z.b2z bind length].
  2:{ f_equal. destruct (Z.gtb_spec (Z.max 0 (len A - 1) + 0)
                           ((if 1 <? len A then Z.max 0 (len B - 1) else 0)
                            + 0));
        destruct (Z.gtb_spec (Z.max 0 (len A - 1))
                    (if 1 <? len A then Z.max 0 (len B - 1) else 0)); lia. }
  destruct (Z.eqb_spec (len A) 0) as [E0|N0]; cbn [orb].
  { unfold bp_wrap. rewrite E0. reflexivity. }
  destruct (circular B) eqn:EcB; cbn [andb].
  - destruct (Z.eqb_spec (len B) 0) as [E0|NB].
    + unfold bp_wrap. rewrite !at_gene by (destruct HwA; lia).
      cbn [bind]. change (at_ (B :: rb) 0) with (Ok B). cbn [bind].
      rewrite for_range_empty by lia. cbn [bind snd]. rewrite EcB, E0.
      reflexivity.
    + rewrite (bp_wrap_ok A B rb HwA HwB) by (intros; lia).
      cbn [bind]. f_equal.
      destruct (shared_wrap B _ _); cbn [length];
        destruct (Z.gtb_spec (Z.max 0 (len A - 1) + 1)
                    ((if 1 <? len A then Z.max 0 (len B - 1) else 0) + 1));
        lia.
  - rewrite (bp_wrap_ok A B rb HwA HwB) by (lia || congruence).
    cbn [bind]. f_equal.
    destruct (shared_wrap B _ _); cbn [length];
      destruct (Z.gtb_spec (Z.max 0 (len A - 1) + 1)
                  ((if 1 <? len A then Z.max 0 (len B - 1) else 0) + 1));
      lia.
Qed.

Lemma length_inner_boundaries G :
  Z.of_nat (length (inner_boundaries G)) = Z.max 0 (len G - 1).
Proof.
  unfold inner_boundaries. rewrite length_fmap, length_seqZ. lia.
Qed.

Lemma length_shared_boundaries A B :
  0 <= Z.of_nat (length (shared_boundaries A B)) <= count_bA A.
Proof.
  unfold shared_boundaries, count_bA. rewrite length_app.
  pose proof (length_filter
                (fun xy : Z * Z => shared_inner B xy.1 xy.2 = true)
                (inner_boundaries A)) as Hf.
  pose proof (length_inner_boundaries A).
  destruct (circular A); cbn [andb Z.b2z];
    [destruct (shared_wrap B _ _)|]; cbn [length]; lia.
Qed.

(** [(x, y)] is a boundary of the chromosome: two neighbouring genes, or
    the last and the first gene of a circular one. *)
Definition is_boundary (G : Genome) (x y : Z) : Prop :=
  (exists k, 0 <= k < len G - 1
             /\ x = gene (pi G) k /\ y = gene (pi G) (k + 1))
  \/ (circular G = true
      /\ x = gene (pi G) (len G - 1) /\ y = gene (pi G) 0).

Lemma same_boundary_cases x y u v :
  same_boundary x y u v = true ->
  (x = u /\ y = v) \/ (u = - y /\ v = - x).
Proof.
  unfold same_boundary. intros H. apply orb_prop in H as [H|H];
    apply andb_prop in H as (H1 & H2);
    apply Z.eqb_eq in H1; apply Z.eqb_eq in H2; [left|right]; lia.
Qed.

Lemma shared_inner_boundary (ID : Genome) (x y : Z) :
  shared_inner ID x y = true ->
  is_boundary ID x y \/ is_boundary ID (- y) (- x).
Proof.
  unfold shared_inner. intros H.
  apply existsb_exists in H as (l & Hl & H).
  apply list_elem_of_In, elem_of_seqZ in Hl.
  apply same_boundary_cases in H as [(-> & ->)|(Hu & Hv)].
  - left. left. exists l. split; [lia|]. split; reflexivity.
  - right. left. exists l. split; [lia|]. split; congruence.
Qed.

Lemma shared_wrap_boundary (ID : Genome) (x y : Z) :
  shared_wrap ID x y = true ->
  is_boundary ID x y \/ is_boundary ID (- y) (- x).
Proof.
  unfold shared_wrap. intros H. apply orb_prop in H as [H|H];
    [now apply shared_inner_boundary|].
  apply andb_prop in H as (Hc & H).
  apply same_boundary_cases in H as [(-> & ->)|(Hu & Hv)].
  - left. right. split; [assumption|]. split; reflexivity.
  - right. right. split; [assumption|]. split; congruence.
Qed.

(** [_adjacencies] on the first chromosome of each set: it returns, two
    cells per boundary and in the order of the first chromosome, the inner
    boundaries of the first chromosome found among the inner boundaries
    of the second, and then the closing boundary of a circular first
    chromosome when it is found among the inner boundaries of the second
    or is its closing boundary.  Every boundary returned is a boundary of
    both chromosomes, read in the second one in either direction.  A
    circular chromosome without a gene is read out of bounds. *)
Theorem adjacencies_shared (A B : Genome) (ra rb : list Genome) :
  wf_genome A -> wf_genome B ->
  _adjacencies (A :: ra) (B :: rb)
  = (if wrap_out_of_bounds A B then Err OutOfBounds
     else Ok (flatten (shared_boundaries A B)))
  /\ forall x y, (x, y) ∈ shared_boundaries A B ->
       is_boundary A x y
       /\ (is_boundary B x y \/ is_boundary B (- y) (- x)).
Proof.
  intros HwA HwB. split; [now apply adjacencies_value|].
  intros x y Hin. unfold shared_boundaries in Hin.
  apply elem_of_app in Hin as [Hin|Hin].
  - apply list_elem_of_filter in Hin as (Hs & Hin). cbn [fst snd] in Hs.
    split; [|now apply shared_inner_boundary].
    unfold inner_boundaries in Hin.
    apply list_elem_of_fmap in Hin as (k & [= -> ->] & Hk).
    apply elem_of_seqZ in Hk. left. exists k.
    split; [lia|]. split; reflexivity.
  - destruct (circular A) eqn:Ec; cbn [andb] in Hin;
      [|now apply elem_of_nil in Hin].
    destruct (shared_wrap B _ _) eqn:Es; [|now apply elem_of_nil in Hin].
    apply list_elem_of_singleton in Hin. unfold wrap_boundary in Hin.
    injection Hin as -> ->. cbn [wrap_boundary fst snd] in Es.
    split; [|now apply shared_wrap_boundary].
    right. split; [assumption|]. split; reflexivity.
Qed.

Lemma adjacencies_shared_witness :
  wf_genome sample_cyclic /\ wf_genome sample_rotated
  /\ _adjacencies [sample_cyclic] [sample_rotated]
     = (if wrap_out_of_bounds sample_cyclic sample_rotated
        then Err OutOfBounds
        else Ok (flatten (shared_boundaries sample_cyclic sample_rotated)))
  /\ forall x y, (x, y) ∈ shared_boundaries sample_cyclic sample_rotated ->
       is_boundary sample_cyclic x y
       /\ (is_boundary sample_rotated x y
           \/ is_boundary sample_rotated (- y) (- x)).
Proof.
  assert (HA : wf_genome sample_cyclic)
    by (apply sample_wf, valid_chromosomeb_true; vm_compute; reflexivity).
  assert (HB : wf_genome sample_rotated)
    by (apply sample_wf, valid_chromosomeb_true; vm_compute; reflexivity).
  split; [exact HA|]. split; [exact HB|].
  exact (adjacencies_shared sample_cyclic sample_rotated [] [] HA HB).
Defined.

(** [_breakpoints] against [_adjacencies]: it fails where [_adjacencies]
    fails, and otherwise returns the larger of its two boundary counts
    minus the number of boundaries that [_adjacencies] returns, which is
    at most the first count: the result is never negative. *)
Theorem breakpoints_counts_adjacencies (A B : Genome)
    (ra rb : list Genome) :
  wf_genome A -> wf_genome B ->
  match _adjacencies (A :: ra) (B :: rb) with
  | Ok adj =>
      exists s, Z.of_nat (length adj) = 2 * s /\ 0 <= s <= count_bA A
        /\ _breakpoints (A :: ra) (B :: rb)
           = Ok (Z.max (count_bA A) (count_bB A B) - s)
  | Err e => _breakpoints (A :: ra) (B :: rb) = Err e
  end.
Proof.
  intros HwA HwB.
  rewrite (adjacencies_value A B ra rb HwA HwB),
          (breakpoints_value A B ra rb HwA HwB).
  destruct (wrap_out_of_bounds A B); [reflexivity|].
  exists (Z.of_nat (length (shared_boundaries A B))).
  split; [apply length_flatten|].
  split; [apply length_shared_boundaries|reflexivity].
Qed.

Lemma breakpoints_counts_adjacencies_witness :
  wf_genome sample_cyclic /\ wf_genome sample_rotated
  /\ match _adjacencies [sample_cyclic] [sample_rotated] with
     | Ok adj =>
         exists s, Z.of_nat (length adj) = 2 * s
           /\ 0 <= s <= count_bA sample_cyclic
           /\ _breakpoints [sample_cyclic] [sample_rotated]
              = Ok (Z.max (count_bA sample_cyclic)
                          (count_bB sample_cyclic sample_rotated) - s)
     | Err e => _breakpoints [sample_cyclic] [sample_rotated] = Err e
     end.
Proof.
  assert (HA : wf_genome sample_cyclic)
    by (apply sample_wf, valid_chromosomeb_true; vm_compute; reflexivity).
  assert (HB : wf_genome sample_rotated)
    by (apply sample_wf, valid_chromosomeb_true; vm_compute; reflexivity).
  split; [exact HA|]. split; [exact HB|].
  exact (breakpoints_counts_adjacencies sample_cyclic sample_rotated [] []
           HA HB).
Defined.

Lemma same_boundary_refl x y : same_boundary x y x y = true.
Proof. unfold same_boundary. now rewrite !Z.eqb_refl. Qed.

Lemma filter_all {X} (P : X -> Prop) `{forall x, Decision (P x)}
    (l : list X) :
  Forall P l -> filter P l = l.
Proof.
  induction 1 as [|x l Hx _ IH]; [reflexivity|].
  rewrite filter_cons_True by assumption. now rewrite IH.
Qed.

Lemma self_shared (G : Genome) :
  wf_genome G ->
  shared_boundaries G G
  = inner_boundaries G ++ (if circular G then [wrap_boundary G] else []).
Proof.
  intros HwG. unfold shared_boundaries. f_equal.
  - apply filter_all. unfold inner_boundaries.
    apply Forall_fmap, Forall_forall. intros k Hk. cbn [fst snd].
    unfold shared_inner. apply existsb_exists. exists k.
    split; [now apply list_elem_of_In|apply same_boundary_refl].
  - destruct (circular G) eqn:Ec; [|reflexivity].
    unfold shared_wrap, wrap_boundary. cbn [fst snd andb].
    rewrite Ec, same_boundary_refl. cbn [andb]. now rewrite orb_true_r.
Qed.

(** A chromosome against itself: [_adjacencies] returns every boundary
    and [_breakpoints] returns 0, whatever the gene ids are. *)
Theorem breakpoints_self_zero (G : Genome) (ra rb : list Genome) :
  wf_genome G -> (circular G = true -> 0 < len G) ->
  _adjacencies (G :: ra) (G :: rb)
  = Ok (flatten (inner_boundaries G
                 ++ (if circular G then [wrap_boundary G] else [])))
  /\ _breakpoints (G :: ra) (G :: rb) = Ok 0.
Proof.
  intros HwG Hpos.
  rewrite (adjacencies_value G G ra rb HwG HwG),
          (breakpoints_value G G ra rb HwG HwG).
  assert (Hw : wrap_out_of_bounds G G = false).
  { unfold wrap_out_of_bounds. destruct (circular G); [|reflexivity].
    specialize (Hpos eq_refl). cbn [andb].
    destruct (Z.eqb_spec (len G) 0); [lia|reflexivity]. }
  rewrite Hw, (self_shared G HwG). split; [reflexivity|]. f_equal.
  rewrite length_app, Nat2Z.inj_add, length_inner_boundaries.
  unfold count_bA, count_bB. pose proof (wf_len G HwG).
  destruct (circular G); cbn [Z.b2z length];
    destruct (Z.ltb_spec 1 (len G)); lia.
Qed.

Lemma breakpoints_self_zero_witness :
  wf_genome sample_repeated
  /\ _adjacencies [sample_repeated] [sample_repeated]
     = Ok (flatten (inner_boundaries sample_repeated
                    ++ (if circular sample_repeated
                        then [wrap_boundary sample_repeated] else [])))
  /\ _breakpoints [sample_repeated] [sample_repeated] = Ok 0.
Proof.
  split; [exact sample_repeated_wf|].
  apply (breakpoints_self_zero sample_repeated [] [] sample_repeated_wf).
  discriminate.
Defined.
